(** * The federated coordinator: collective operations over one shared buffer

    A verification development for [plugin/federated/federated_server.cc]:
    the three operation functors ([AllgatherFunctor], [AllreduceFunctor],
    [BroadcastFunctor]), the typed reduction behind [Accumulate], and the
    two-phase barrier of [FederatedService::Handle]; and for the columns
    of [src/common/column_matrix.h]: the search of a sparse column
    ([SparseColumn::GetBinIdx], [SparseColumn::GetInitialState]), the
    choice of the width of a bin index ([ColumnMatrix::SetTypeSize]), and
    the construction of the columns from a quantised matrix
    ([ColumnMatrix::Init] with [SetIndex], [SetIndexSparse] and
    [SetIndexAllDense]) together with what [ColumnMatrix::GetColumn] and
    [GetBinIdx] then give back.

    Conventions of the embedding.
    - A [std::string] is a [list byte]; its [size()] is [length].
    - [std::size_t] is 64 bits wide; arithmetic in it is written with its
      wrap-around ([size_t_wrap]).
    - The element types are those of an LP64 little-endian target
      (x86-64 Linux): [char] is signed and one byte wide, [int] and
      [float] four bytes, [long], [long long] and [double] eight.
      Signed overflowing sums wrap (two's complement).  [float] and
      [double] are the binary32 and binary64 formats of IEEE 754, compared
      and added as the processor does it.
    - A functor mutates the shared buffer in place and may throw; its
      embedding returns an [outcome] that carries the buffer as the call
      leaves it.  The characters of a string are followed by one null
      character, which may be read; reading past it is [Undefined].
    - [Handle] runs under one mutex; between two waits on the condition
      variable nothing else touches the service.  Each such stretch is one
      atomic step of a call, and a wait guarded by a predicate is a step
      that is enabled when the predicate holds. *)

From Stdlib Require Import ZArith Lia.
From Stdlib Require Import Strings.Byte.
From Stdlib Require Import Floats.SpecFloat.
From stdpp Require Import base list.

Local Open Scope Z_scope.

(** * Part I: the embedding *)

(** ** Bytes and strings *)

Abbreviation bytes := (list byte).

Definition byte_val (b : byte) : Z := Z.of_N (Byte.to_N b).

Definition byte_of (z : Z) : byte :=
  match Byte.of_N (Z.to_N (z mod 256)) with
  | Some b => b
  | None => x00
  end.

(** Little-endian reading and writing of an object of [w] bytes. *)
Fixpoint load (bs : bytes) : Z :=
  match bs with
  | [] => 0
  | b :: rest => byte_val b + 256 * load rest
  end.

Fixpoint store (w : nat) (v : Z) : bytes :=
  match w with
  | O => []
  | S w' => byte_of v :: store w' (v / 256)
  end.

(** [std::size_t] arithmetic. *)
Definition size_t_wrap (z : Z) : Z := z mod 2 ^ 64.

Definition size (s : bytes) : Z := Z.of_nat (length s).

(** ** Element types of the typed reduction

    [Accumulate] reinterprets the two strings as arrays of a C++ arithmetic
    type [T].  An object of type [T] is given by the [sizeof T] bytes that
    hold it, read as one little-endian number (its bits). *)

Inductive ctype :=
| T_char | T_unsigned_char
| T_int | T_unsigned_int
| T_long | T_unsigned_long
| T_float | T_double
| T_long_long | T_unsigned_long_long.

Definition sizeof (T : ctype) : nat :=
  match T with
  | T_char | T_unsigned_char => 1
  | T_int | T_unsigned_int | T_float => 4
  | T_long | T_unsigned_long | T_double | T_long_long | T_unsigned_long_long => 8
  end%nat.

Definition is_signed (T : ctype) : bool :=
  match T with
  | T_char | T_int | T_long | T_long_long => true
  | _ => false
  end.

Definition is_integer (T : ctype) : bool :=
  match T with
  | T_float | T_double => false
  | _ => true
  end.

(** Number of distinct bit patterns of a [T]. *)
Definition modulus (T : ctype) : Z := 256 ^ Z.of_nat (sizeof T).

(** The integer an integer object denotes (two's complement when signed). *)
Definition value (T : ctype) (bits : Z) : Z :=
  if is_signed T && (modulus T / 2 <=? bits) then bits - modulus T else bits.

(** IEEE 754 binary formats with [prec] bits of precision and exponents
    below [emax]: [float] is (24, 128), [double] is (53, 1024). *)
Definition bits_to_float (prec emax : Z) (bits : Z) : spec_float :=
  let mw := prec - 1 in
  let m := bits mod 2 ^ mw in
  let e := (bits / 2 ^ mw) mod (2 * emax) in
  let s := Z.odd (bits / 2 ^ mw / (2 * emax)) in
  if e =? 0 then
    match m with
    | Zpos p => S754_finite s p (emin prec emax)
    | _ => S754_zero s
    end
  else if e =? 2 * emax - 1 then
    if m =? 0 then S754_infinity s else S754_nan
  else
    match m + 2 ^ mw with
    | Zpos p => S754_finite s p (e + emin prec emax - 1)
    | _ => S754_nan
    end.

(** The bits of a number of the format.  Those of [S754_nan] are the NaN
    that the processor gives when no operand is one: the sign set, the
    first bit of the fraction set, the others clear. *)
Definition float_to_bits (prec emax : Z) (x : spec_float) : Z :=
  let mw := prec - 1 in
  let sign (s : bool) := if s then 2 ^ mw * (2 * emax) else 0 in
  match x with
  | S754_zero s => sign s
  | S754_infinity s => sign s + (2 * emax - 1) * 2 ^ mw
  | S754_nan => sign true + (2 * emax - 1) * 2 ^ mw + 2 ^ (mw - 1)
  | S754_finite s m e =>
      if Zpos m <? 2 ^ mw then sign s + Zpos m
      else sign s + (e - emin prec emax + 1) * 2 ^ mw + (Zpos m - 2 ^ mw)
  end.

(** A NaN made quiet: the first bit of its fraction set, its sign and the
    rest of its fraction kept. *)
Definition quieted (prec : Z) (bits : Z) : Z := Z.lor bits (2 ^ (prec - 2)).

(** [a + b] on the bits of two numbers of a format, as the addition of
    the processor ([addss], [addsd] and their packed forms on x86-64)
    gives it: the sum rounded to nearest, ties to even; an operand that
    is a NaN comes back quiet; the sum of two opposite infinities is the
    NaN of [float_to_bits].  When both operands are NaNs the processor
    returns the one in its first operand, and which of [a] and [b] that
    is, is the compiler's choice, made for every addition it emits: [a]
    is taken here. *)
Definition float_plus (prec emax : Z) (a b : Z) : Z :=
  match bits_to_float prec emax a, bits_to_float prec emax b with
  | S754_nan, _ => quieted prec a
  | _, S754_nan => quieted prec b
  | x, y => float_to_bits prec emax (SFadd prec emax x y)
  end.

(** [a < b] on two objects of type [T]. *)
Definition less (T : ctype) (a b : Z) : bool :=
  match T with
  | T_float => SFltb (bits_to_float 24 128 a) (bits_to_float 24 128 b)
  | T_double => SFltb (bits_to_float 53 1024 a) (bits_to_float 53 1024 b)
  | _ => value T a <? value T b
  end.

(** [std::max(a, b)] is [(a < b) ? b : a]; [std::min(a, b)] is
    [(b < a) ? b : a]. *)
Definition std_max (T : ctype) (a b : Z) : Z := if less T a b then b else a.
Definition std_min (T : ctype) (a b : Z) : Z := if less T b a then b else a.

(** [std::plus<T>()(a, b)]: for an integer type the sum narrowed to [T]. *)
Definition std_plus (T : ctype) (a b : Z) : Z :=
  match T with
  | T_float => float_plus 24 128 a b
  | T_double => float_plus 53 1024 a b
  | _ => (value T a + value T b) mod modulus T
  end.

(** ** Enumerations of the protocol *)

(** Modelled from the spec: the enumeration [DataType] is declared in the
    protocol description, which is not among the sources.  Its constants
    are the labels of the [switch] in [Accumulate]; a field of an open
    enumeration may also carry a number that names no constant. *)
Inductive DataType :=
| CHAR | UCHAR | INT | UINT | LONG | ULONG | FLOAT | DOUBLE | LONGLONG | ULONGLONG
| DataType_unrecognized (number : Z).

(** Modelled from the spec: the enumeration [ReduceOperation], declared in
    the protocol description as well; same conventions. *)
Inductive ReduceOperation :=
| MAX | MIN | SUM
| ReduceOperation_unrecognized (number : Z).

(** ** Outcomes of a functor call *)

Inductive exception :=
| invalid_argument   (* std::invalid_argument *)
| out_of_range.      (* std::out_of_range *)

Inductive outcome :=
| Normal (buffer : bytes)                  (* returned; the buffer is now [buffer] *)
| Throws (e : exception) (buffer : bytes)  (* threw [e], leaving the buffer as [buffer] *)
| Undefined.                               (* read past the end of an array *)

(** ** The typed reduction *)

(** The array that [s.data()] points to: the characters of the string and
    the null character that ends it, [s.data()[s.size()]]. *)
Definition data (s : bytes) : bytes := s ++ [x00].

(** [std::transform(buffer, buffer + n, input, buffer, f)] on arrays of
    [T], given by the bytes that may be read through [input] and that may
    be assigned through [buffer]: element [i] of [buffer] becomes
    [f buffer(i) input(i)] for [i < n]; what follows the [n] elements is
    untouched.  [None] when an element lies beyond the end of either
    array. *)
Fixpoint transform (T : ctype) (f : Z -> Z -> Z) (n : nat) (buffer input : bytes)
  : option bytes :=
  match n with
  | O => Some buffer
  | S n' =>
      let w := sizeof T in
      if ((length buffer <? w) || (length input <? w))%nat then None
      else
        match transform T f n' (drop w buffer) (drop w input) with
        | None => None
        | Some rest =>
            Some (store w (f (load (take w buffer)) (load (take w input))) ++ rest)
        end
  end.

Definition transformed (buffer : bytes) (r : option bytes) : outcome :=
  match r with
  | Some b => Normal b
  | None => Undefined
  end.

(** [Accumulate<T>(T* buffer, T const* input, n, reduce_operation)], the
    two arrays given as for [transform]. *)
Definition Accumulate_T (T : ctype) (buffer input : bytes) (n : nat)
    (reduce_operation : ReduceOperation) : outcome :=
  match reduce_operation with
  | MAX => transformed buffer (transform T (std_max T) n buffer input)
  | MIN => transformed buffer (transform T (std_min T) n buffer input)
  | SUM => transformed buffer (transform T (std_plus T) n buffer input)
  | ReduceOperation_unrecognized _ => Throws invalid_argument buffer
  end.

(** [Accumulate(std::string& buffer, std::string const& input, data_type,
    reduce_operation)]: the element count comes from [buffer.size()], so
    that the elements lie within the characters of [buffer]; [input] is
    read through [input.data()]. *)
Definition Accumulate (buffer input : bytes) (data_type : DataType)
    (reduce_operation : ReduceOperation) : outcome :=
  let n T := (length buffer / sizeof T)%nat in
  match data_type with
  | CHAR => Accumulate_T T_char buffer (data input) (length buffer) reduce_operation
  | UCHAR =>
      Accumulate_T T_unsigned_char buffer (data input) (length buffer) reduce_operation
  | INT => Accumulate_T T_int buffer (data input) (n T_int) reduce_operation
  | UINT => Accumulate_T T_unsigned_int buffer (data input) (n T_unsigned_int) reduce_operation
  | LONG => Accumulate_T T_long buffer (data input) (n T_long) reduce_operation
  | ULONG =>
      Accumulate_T T_unsigned_long buffer (data input) (n T_unsigned_long) reduce_operation
  | FLOAT => Accumulate_T T_float buffer (data input) (n T_float) reduce_operation
  | DOUBLE => Accumulate_T T_double buffer (data input) (n T_double) reduce_operation
  | LONGLONG =>
      Accumulate_T T_long_long buffer (data input) (n T_long_long) reduce_operation
  | ULONGLONG =>
      Accumulate_T T_unsigned_long_long buffer (data input) (n T_unsigned_long_long)
                   reduce_operation
  | DataType_unrecognized _ => Throws invalid_argument buffer
  end.

(** ** Request messages

    The three request messages are declared in the protocol description,
    which is not among the sources; each is modelled with the fields the
    code reads through its accessors. *)

(** Modelled from the spec: the message [AllgatherRequest], with the
    fields read by [sequence_number()], [rank()] and [send_buffer()]. *)
Module AllgatherRequest.
Record t := mk { sequence_number : Z; rank : Z; send_buffer : bytes }.
End AllgatherRequest.

(** Modelled from the spec: the message [AllreduceRequest], which has
    [data_type()] and [reduce_operation()] as well. *)
Module AllreduceRequest.
Record t := mk {
  sequence_number : Z;
  rank : Z;
  send_buffer : bytes;
  data_type : DataType;
  reduce_operation : ReduceOperation
}.
End AllreduceRequest.

(** Modelled from the spec: the message [BroadcastRequest], which has
    [root()] as well. *)
Module BroadcastRequest.
Record t := mk { sequence_number : Z; rank : Z; send_buffer : bytes; root : Z }.
End BroadcastRequest.

(** What the template [Handle] asks of its [Request] parameter. *)
Class Request (R : Type) := {
  sequence_number : R -> Z;
  rank : R -> Z;
  send_buffer : R -> bytes
}.

#[export] Instance AllgatherRequest_Request : Request AllgatherRequest.t := {|
  sequence_number := AllgatherRequest.sequence_number;
  rank := AllgatherRequest.rank;
  send_buffer := AllgatherRequest.send_buffer
|}.

#[export] Instance AllreduceRequest_Request : Request AllreduceRequest.t := {|
  sequence_number := AllreduceRequest.sequence_number;
  rank := AllreduceRequest.rank;
  send_buffer := AllreduceRequest.send_buffer
|}.

#[export] Instance BroadcastRequest_Request : Request BroadcastRequest.t := {|
  sequence_number := BroadcastRequest.sequence_number;
  rank := BroadcastRequest.rank;
  send_buffer := BroadcastRequest.send_buffer
|}.

(** ** The operation functors *)

(** [std::string::resize(n)]: cut to [n] characters, or pad with ['\0'].
    (A size beyond [max_size()], for which the library throws
    [std::length_error], is not told apart.) *)
Definition resize (s : bytes) (n : Z) : bytes :=
  take (Z.to_nat n) s ++ replicate (Z.to_nat n - length s) x00.

(** [std::string::replace(pos, len, str)]: [None] stands for
    [std::out_of_range], thrown when [pos > size()]; otherwise the
    characters [pos .. pos + min(len, size() - pos)) give way to [str]. *)
Definition replace (s : bytes) (pos len : Z) (str : bytes) : option bytes :=
  if size s <? pos then None
  else
    let rlen := Z.min len (size s - pos) in
    Some (take (Z.to_nat pos) s ++ str ++ drop (Z.to_nat (pos + rlen)) s).

(** [AllgatherFunctor{world_size}(request, buffer)]. *)
Definition AllgatherFunctor (world_size_ : Z) (request : AllgatherRequest.t)
    (buffer : bytes) : outcome :=
  let rank := AllgatherRequest.rank request in
  let send_buffer := AllgatherRequest.send_buffer request in
  let send_size := size send_buffer in
  let buffer :=
    if negb (size buffer =? size_t_wrap (send_size * world_size_))
    then resize buffer (size_t_wrap (send_size * world_size_))
    else buffer in
  match replace buffer (size_t_wrap (rank * send_size)) send_size send_buffer with
  | Some spliced => Normal spliced
  | None => Throws out_of_range buffer
  end.

(** [AllreduceFunctor{}(request, buffer)]. *)
Definition AllreduceFunctor (request : AllreduceRequest.t) (buffer : bytes) : outcome :=
  match buffer with
  | [] => Normal (AllreduceRequest.send_buffer request)
  | _ :: _ =>
      Accumulate buffer (AllreduceRequest.send_buffer request)
        (AllreduceRequest.data_type request) (AllreduceRequest.reduce_operation request)
  end.

(** [BroadcastFunctor{}(request, buffer)]. *)
Definition BroadcastFunctor (request : BroadcastRequest.t) (buffer : bytes) : outcome :=
  if BroadcastRequest.rank request =? BroadcastRequest.root request
  then Normal (BroadcastRequest.send_buffer request)
  else Normal buffer.

(** ** The service *)

(** Modelled from the spec: the class [FederatedService] is declared in
    [federated_server.h], which is not among the sources.  Its members are
    those [Handle] uses; the counters are the non-negative numbers of the
    spec's session, the world size is fixed at construction.  The mutex and
    the condition variable are what makes the steps below atomic. *)
Record FederatedService := {
  world_size_ : Z;
  sequence_number_ : Z;
  received_ : Z;
  sent_ : Z;
  buffer_ : bytes
}.

(** A service as its constructor leaves it, at a given sequence number. *)
Definition fresh (world_size sequence_number : Z) : FederatedService := {|
  world_size_ := world_size;
  sequence_number_ := sequence_number;
  received_ := 0;
  sent_ := 0;
  buffer_ := []
|}.

(** Where a call of [Handle] stands. *)
Inductive position :=
| Entered                          (* called, nothing executed yet *)
| WaitSequence                     (* in the first [cv_.wait] *)
| WaitAll                          (* in the second [cv_.wait] *)
| Replied (receive_buffer : bytes) (* returned [grpc::Status::OK] *)
| Thrown (e : exception).          (* left by an exception of the functor *)

Section Handle.
Context {R : Type} `{Request R}.
Variable functor : R -> bytes -> outcome.

(** From the first wait's predicate holding to the return of the last
    arrival, or to the second wait: the functor, [received_++] and the
    test [received_ == world_size_].  [None] when the functor's
    behaviour is undefined. *)
Definition contribute (request : R) (s : FederatedService)
  : option (FederatedService * position) :=
  match functor request (buffer_ s) with
  | Undefined => None
  | Throws e buffer =>
      Some ({| world_size_ := world_size_ s;
               sequence_number_ := sequence_number_ s;
               received_ := received_ s;
               sent_ := sent_ s;
               buffer_ := buffer |}, Thrown e)
  | Normal buffer =>
      let received := received_ s + 1 in
      if received =? world_size_ s then
        Some ({| world_size_ := world_size_ s;
                 sequence_number_ := sequence_number_ s;
                 received_ := received;
                 sent_ := sent_ s + 1;
                 buffer_ := buffer |}, Replied buffer)
      else
        Some ({| world_size_ := world_size_ s;
                 sequence_number_ := sequence_number_ s;
                 received_ := received;
                 sent_ := sent_ s;
                 buffer_ := buffer |}, WaitAll)
  end.

(** From the second wait's predicate holding to the return: the reply,
    [sent_++] and, when [sent_ == world_size_], the reset. *)
Definition released (s : FederatedService) : FederatedService * position :=
  let sent := sent_ s + 1 in
  if sent =? world_size_ s then
    ({| world_size_ := world_size_ s;
        sequence_number_ := sequence_number_ s + 1;
        received_ := 0;
        sent_ := 0;
        buffer_ := [] |}, Replied (buffer_ s))
  else
    ({| world_size_ := world_size_ s;
        sequence_number_ := sequence_number_ s;
        received_ := received_ s;
        sent_ := sent;
        buffer_ := buffer_ s |}, Replied (buffer_ s)).

(** One atomic step of a call of [Handle(request, reply, functor)] that
    stands at [at_]: the service and the position after it.  A call
    whose wait predicate does not hold stays where it is. *)
Definition Handle (request : R) (s : FederatedService) (at_ : position)
  : option (FederatedService * position) :=
  match at_ with
  | Entered =>
      if world_size_ s =? 1 then Some (s, Replied (send_buffer request))
      else if sequence_number_ s =? sequence_number request then contribute request s
      else Some (s, WaitSequence)
  | WaitSequence =>
      if sequence_number_ s =? sequence_number request then contribute request s
      else Some (s, WaitSequence)
  | WaitAll =>
      if received_ s =? world_size_ s then Some (released s)
      else Some (s, WaitAll)
  | Replied _ | Thrown _ => Some (s, at_)
  end.
End Handle.

(** The three calls of the service. *)
Inductive rpc :=
| Allgather (request : AllgatherRequest.t)
| Allreduce (request : AllreduceRequest.t)
| Broadcast (request : BroadcastRequest.t).

Definition serve (call : rpc) (s : FederatedService) (at_ : position)
  : option (FederatedService * position) :=
  match call with
  | Allgather request => Handle (AllgatherFunctor (world_size_ s)) request s at_
  | Allreduce request => Handle AllreduceFunctor request s at_
  | Broadcast request => Handle BroadcastFunctor request s at_
  end.

Definition rpc_sequence_number (call : rpc) : Z :=
  match call with
  | Allgather request => sequence_number request
  | Allreduce request => sequence_number request
  | Broadcast request => sequence_number request
  end.

Definition rpc_send_buffer (call : rpc) : bytes :=
  match call with
  | Allgather request => send_buffer request
  | Allreduce request => send_buffer request
  | Broadcast request => send_buffer request
  end.

(** ** The server with its calls in flight *)

Record server := {
  service : FederatedService;
  calls : list (rpc * position)
}.

(** The call at index [i] takes its next step. *)
Definition step (i : nat) (srv : server) : option server :=
  match calls srv !! i with
  | None => Some srv
  | Some (call, at_) =>
      match serve call (service srv) at_ with
      | None => None
      | Some (s, at') =>
          Some {| service := s; calls := <[i := (call, at')]> (calls srv) |}
      end
  end.

(** A schedule names the call that moves at each step. *)
Fixpoint run (schedule : list nat) (srv : server) : option server :=
  match schedule with
  | [] => Some srv
  | i :: rest =>
      match step i srv with
      | None => None
      | Some srv' => run rest srv'
      end
  end.

(** A service that has just been constructed, and calls that have just
    come in. *)
Definition start (world_size sequence_number : Z) (requests : list rpc) : server := {|
  service := fresh world_size sequence_number;
  calls := map (fun call => (call, Entered)) requests
|}.

(** ** Columns of the quantised matrix ([src/common/column_matrix.h])

    A [common::Span<const T>] is the list of its elements; an index into
    it is a natural number, and reading beyond its end is undefined
    ([None]).  A [size_t] or [uint32_t] value is the integer it holds. *)

Inductive ColumnType := kDenseColumn | kSparseColumn.

(** [Column<BinIdxType>]: the bin indices of one feature, each stored as
    its distance from [index_base_]. *)
Module Column.
Record t := mk {
  type_ : ColumnType;
  index_ : list Z;
  index_base_ : Z
}.
End Column.

(** [Column::kMissingId]. *)
Definition kMissingId : Z := -1.

Definition uint32_t_wrap (z : Z) : Z := z mod 2 ^ 32.

(** A [uint32_t] converted to [bst_bin_t], the signed 32-bit integer
    type of the result of [GetBinIdx] ([kMissingId] is an [int32_t]). *)
Definition bst_bin_t_of (z : Z) : Z := if z <? 2 ^ 31 then z else z - 2 ^ 32.

(** [Column::Size()]. *)
Definition Size (column : Column.t) : nat := length (Column.index_ column).

(** [Column::GetGlobalBinIdx(idx)]: the sum is made in [uint32_t]. *)
Definition GetGlobalBinIdx (column : Column.t) (idx : nat) : option Z :=
  match Column.index_ column !! idx with
  | Some bin => Some (uint32_t_wrap (Column.index_base_ column + bin))
  | None => None
  end.

(** [std::lower_bound(a + first, a + first + len, val)] on an array of
    [size_t], by halving as the standard libraries do it: [len] is the
    length of the range still to search, and shrinks in every round. *)
Fixpoint lower_bound (fuel : nat) (a : list Z) (first len : nat) (val : Z) : option nat :=
  match fuel with
  | O => Some first
  | S fuel' =>
      if (len =? 0)%nat then Some first
      else
        let half := (len / 2)%nat in
        let middle := (first + half)%nat in
        match a !! middle with
        | None => None
        | Some x =>
            if x <? val then lower_bound fuel' a (middle + 1) (len - half - 1) val
            else lower_bound fuel' a first half val
        end
  end.

(** [SparseColumn<BinIdxType>]: a column with the rows of its entries. *)
Module SparseColumn.
Record t := mk {
  column : Column.t;
  row_ind_ : list Z
}.

(** [GetRowIdx(idx)]. *)
Definition GetRowIdx (c : t) (idx : nat) : option Z := row_ind_ c !! idx.

(** The loop of [GetBinIdx]: while the state is below [column_size] and
    the row at the state is below [rid], the state is incremented.  It
    runs at most [column_size - state] times. *)
Fixpoint advance (fuel : nat) (c : t) (rid : Z) (state : nat) : option nat :=
  match fuel with
  | O => Some state
  | S fuel' =>
      if (state <? Size (column c))%nat then
        match GetRowIdx c state with
        | None => None
        | Some row => if row <? rid then advance fuel' c rid (S state) else Some state
        end
      else Some state
  end.

(** [GetBinIdx(rid, state)]: the bin index and the state it leaves. *)
Definition GetBinIdx (c : t) (rid : Z) (state : nat) : option (Z * nat) :=
  let column_size := Size (column c) in
  if negb (state <? column_size)%nat then Some (kMissingId, state)
  else
    match advance (column_size - state) c rid state with
    | None => None
    | Some state' =>
        if (state' <? column_size)%nat then
          match GetRowIdx c state' with
          | None => None
          | Some row =>
              if row =? rid then
                match GetGlobalBinIdx (column c) state' with
                | None => None
                | Some bin => Some (bst_bin_t_of bin, state')
                end
              else Some (kMissingId, state')
          end
        else Some (kMissingId, state')
    end.

(** [GetInitialState(first_row_id)]. *)
Definition GetInitialState (c : t) (first_row_id : Z) : option nat :=
  let column_size := Size (column c) in
  lower_bound column_size (row_ind_ c) 0 column_size first_row_id.
End SparseColumn.

(** [ColumnMatrix::SetTypeSize(max_num_bins)]: the value it gives
    [bins_type_size_].  The comparisons are made in [size_t]. *)
Inductive BinTypeSize := kUint8BinsTypeSize | kUint16BinsTypeSize | kUint32BinsTypeSize.

Definition SetTypeSize (max_num_bins : Z) : BinTypeSize :=
  if size_t_wrap (max_num_bins - 1) <=? 255 then kUint8BinsTypeSize
  else if size_t_wrap (max_num_bins - 1) <=? 65535 then kUint16BinsTypeSize
  else kUint32BinsTypeSize.

(** The number of bytes a [BinTypeSize] stands for: [Init] fills the index
    as an array of [uint8_t], [uint16_t] or [uint32_t] for the three
    constants, and [GetColumn] checks [sizeof(BinIdxType)] against it. *)
Definition width (bins_type_size_ : BinTypeSize) : Z :=
  match bins_type_size_ with
  | kUint8BinsTypeSize => 1
  | kUint16BinsTypeSize => 2
  | kUint32BinsTypeSize => 4
  end.

(** The [column_size] of [ColumnMatrix::GetColumn(fid)]; [fid] is an
    [unsigned], and [fid + 1] is made in that type. *)
Definition column_size (feature_offsets_ : list Z) (fid : nat) : option Z :=
  match feature_offsets_ !! fid,
        feature_offsets_ !! Z.to_nat (uint32_t_wrap (Z.of_nat fid + 1)) with
  | Some feature_offset, Some next => Some (size_t_wrap (next - feature_offset))
  | _, _ => None
  end.

(** ** Building the columns ([ColumnMatrix::Init])

    A member function of [ColumnMatrix] returns, or fails a [CHECK] (a
    fatal error), or reaches outside an array, which is undefined. *)

Inductive result (A : Type) :=
| Ok (a : A)
| CheckFailed
| OutOfBounds.

Arguments Ok {A} a.
Arguments CheckFailed {A}.
Arguments OutOfBounds {A}.

Definition result_bind {A B : Type} (r : result A) (k : A -> result B) : result B :=
  match r with
  | Ok a => k a
  | CheckFailed => CheckFailed
  | OutOfBounds => OutOfBounds
  end.

Notation "'let*' x ':=' r 'in' k" := (result_bind r (fun x => k))
  (at level 10, x name, r at level 200, k at level 200).

Definition of_option {A : Type} (o : option A) : result A :=
  match o with
  | Some a => Ok a
  | None => OutOfBounds
  end.

(** [a[i]], read and assigned, for an index [i] of type [size_t]. *)
Definition at_index {A : Type} (a : list A) (i : Z) : result A :=
  if 0 <=? i then of_option (a !! Z.to_nat i) else OutOfBounds.

Definition assign {A : Type} (a : list A) (i : Z) (x : A) : result (list A) :=
  if (0 <=? i) && (i <? Z.of_nat (length a)) then Ok (<[Z.to_nat i := x]> a)
  else OutOfBounds.

(** [std::vector::resize(n, x)]. *)
Definition vector_resize {A : Type} (v : list A) (n : Z) (x : A) : list A :=
  take (Z.to_nat n) v ++ replicate (Z.to_nat n - length v) x.

(** The bytes of [index_] seen as an array of integers of [w] bytes each
    ([reinterpret_cast<T*>(&index_[0])]): element [k], read and assigned.
    The assignment converts to [T], which keeps the low [w] bytes. *)
Definition read_cell (w : nat) (index_ : bytes) (k : Z) : result Z :=
  if (0 <=? k) && (k * Z.of_nat w + Z.of_nat w <=? size index_) then
    Ok (load (take w (drop (Z.to_nat k * w) index_)))
  else OutOfBounds.

Definition write_cell (w : nat) (index_ : bytes) (k : Z) (v : Z) : result bytes :=
  if (0 <=? k) && (k * Z.of_nat w + Z.of_nat w <=? size index_) then
    Ok (take (Z.to_nat k * w) index_ ++ store w v ++ drop (Z.to_nat k * w + w) index_)
  else OutOfBounds.

(** [for (i = first; i < first + n; ++i) body(i)], the state threaded
    through the rounds. *)
Fixpoint for_loop {St : Type} (n : nat) (first : Z) (body : Z -> St -> result St) (s : St)
  : result St :=
  match n with
  | O => Ok s
  | S n' => let* s' := body first s in for_loop n' (first + 1) body s'
  end.

(** The elements of a [Span] of [count] elements from element [first] of
    a vector.  A span that leaves the vector is not told apart from the
    accesses that leave it. *)
Definition span {A : Type} (a : list A) (first count : Z) : result (list A) :=
  if first + count <=? Z.of_nat (length a) then
    Ok (take (Z.to_nat count) (drop (Z.to_nat first) a))
  else OutOfBounds.

(** The [n] integers of [w] bytes each that a string of bytes starts with. *)
Fixpoint cells (w n : nat) (bs : bytes) : list Z :=
  match n with
  | O => []
  | S n' => load (take w bs) :: cells w n' (drop w bs)
  end.

(** [DenseColumn<BinIdxType, any_missing>]: a column with one bin for every
    row, and the flags of the whole matrix. *)
Module DenseColumn.
Record t := mk {
  column : Column.t;
  missing_flags_ : list bool;
  feature_offset_ : Z
}.

(** [IsMissing(idx)]. *)
Definition IsMissing (c : t) (idx : nat) : option bool :=
  missing_flags_ c !! Z.to_nat (size_t_wrap (feature_offset_ c + Z.of_nat idx)).

(** [GetBinIdx(idx, state)]: the bin index and the state, which it leaves
    as it is. *)
Definition GetBinIdx (any_missing : bool) (c : t) (idx : nat) (state : nat)
  : option (Z * nat) :=
  if any_missing then
    match IsMissing c idx with
    | None => None
    | Some true => Some (kMissingId, state)
    | Some false =>
        match GetGlobalBinIdx (column c) idx with
        | None => None
        | Some bin => Some (bst_bin_t_of bin, state)
        end
    end
  else
    match GetGlobalBinIdx (column c) idx with
    | None => None
    | Some bin => Some (bst_bin_t_of bin, state)
    end.

(** [GetInitialState(first_row_id)]. *)
Definition GetInitialState (c : t) (first_row_id : Z) : nat := 0.
End DenseColumn.

(** What [GetColumn] points to. *)
Inductive AnyColumn :=
| Dense (c : DenseColumn.t)
| Sparse (c : SparseColumn.t).

(** What the code reads of a [GHistIndexMatrix] and of a [SparsePage]
    (classes of other files): one field for each member it uses.
    [index_data] is the bytes behind [index.data<T>()];
    [GetFeatureCounts counts] is the array that the call
    [GetFeatureCounts(counts)] leaves; [data] holds the [index] (the
    feature) of each [Entry] of [data.HostVector()]. *)
Module GHistIndexMatrix.
Record t := mk {
  cut_Ptrs : list Z;
  row_ptr : list Z;
  index_data : bytes;
  index_GetBinTypeSize : BinTypeSize;
  max_num_bins : Z;
  IsDense : bool;
  GetFeatureCounts : list Z -> list Z;
  Size : Z
}.
End GHistIndexMatrix.

Module SparsePage.
Record t := mk {
  data : list Z;
  offset : list Z
}.
End SparsePage.

(** The members of [ColumnMatrix].  [index_base_] points to the array of
    [gmat.cut.Ptrs()], and is that array here. *)
Module ColumnMatrix.
Record t := mk {
  index_ : bytes;
  feature_counts_ : list Z;
  type_ : list ColumnType;
  row_ind_ : list Z;
  feature_offsets_ : list Z;
  index_base_ : list Z;
  missing_flags_ : list bool;
  bins_type_size_ : BinTypeSize;
  any_missing_ : bool
}.

Definition with_index_ (m : t) (index_' : bytes) : t :=
  mk index_' (feature_counts_ m) (type_ m) (row_ind_ m) (feature_offsets_ m)
     (index_base_ m) (missing_flags_ m) (bins_type_size_ m) (any_missing_ m).

Definition with_row_ind_ (m : t) (row_ind_' : list Z) : t :=
  mk (index_ m) (feature_counts_ m) (type_ m) row_ind_' (feature_offsets_ m)
     (index_base_ m) (missing_flags_ m) (bins_type_size_ m) (any_missing_ m).

Definition with_missing_flags_ (m : t) (missing_flags_' : list bool) : t :=
  mk (index_ m) (feature_counts_ m) (type_ m) (row_ind_ m) (feature_offsets_ m)
     (index_base_ m) missing_flags_' (bins_type_size_ m) (any_missing_ m).
End ColumnMatrix.

(** [ColumnMatrix::GetColumn<BinIdxType, any_missing>(fid)], with [w] for
    [sizeof(BinIdxType)]. *)
Definition GetColumn (w : nat) (any_missing : bool) (m : ColumnMatrix.t) (fid : nat)
  : result AnyColumn :=
  if negb (Z.of_nat w =? width (ColumnMatrix.bins_type_size_ m)) then CheckFailed
  else
    let* feature_offset := at_index (ColumnMatrix.feature_offsets_ m) (Z.of_nat fid) in
    let* column_size := of_option (column_size (ColumnMatrix.feature_offsets_ m) fid) in
    let* index_bytes :=
      span (ColumnMatrix.index_ m)
           (size_t_wrap (feature_offset * width (ColumnMatrix.bins_type_size_ m)))
           (column_size * Z.of_nat w) in
    let bin_index := cells w (Z.to_nat column_size) index_bytes in
    let* type := at_index (ColumnMatrix.type_ m) (Z.of_nat fid) in
    match type with
    | kDenseColumn =>
        if negb (Bool.eqb any_missing (ColumnMatrix.any_missing_ m)) then CheckFailed
        else
          let* index_base := at_index (ColumnMatrix.index_base_ m) (Z.of_nat fid) in
          Ok (Dense (DenseColumn.mk (Column.mk type bin_index (bst_bin_t_of index_base))
                                    (ColumnMatrix.missing_flags_ m) feature_offset))
    | kSparseColumn =>
        let* index_base := at_index (ColumnMatrix.index_base_ m) (Z.of_nat fid) in
        let* row_ind := span (ColumnMatrix.row_ind_ m) feature_offset column_size in
        Ok (Sparse (SparseColumn.mk (Column.mk type bin_index (bst_bin_t_of index_base))
                                    row_ind))
    end.

(** [ColumnMatrix::NoMissingValues]: the product is made in [size_t]. *)
Definition NoMissingValues (n_elements n_row n_features : Z) : bool :=
  n_elements =? size_t_wrap (n_features * n_row).

(** [ColumnMatrix::SetIndexSparse<T, BinFn>]: [assign_bin(bin_id, rid, fid)]
    for every entry of every row of the batch, in the order of the rows.
    [wi] is [sizeof(T)] of the [index] it reads, [St] is what [assign_bin]
    has captured by reference.  The [CHECK_EQ] keeps [j] within [inst]. *)
Definition SetIndexSparse {St : Type} (batch : SparsePage.t) (wi : nat) (index : bytes)
    (gmat : GHistIndexMatrix.t) (nfeature : Z)
    (assign_bin : Z -> Z -> Z -> St -> result St) (s : St) : result St :=
  let offset_vec := SparsePage.offset batch in
  let batch_size := GHistIndexMatrix.Size gmat in
  if negb (batch_size <? Z.of_nat (length offset_vec)) then CheckFailed
  else
    for_loop (Z.to_nat batch_size) 0
      (fun rid s =>
         let* ibegin := at_index (GHistIndexMatrix.row_ptr gmat) rid in
         let* iend := at_index (GHistIndexMatrix.row_ptr gmat) (size_t_wrap (rid + 1)) in
         let* next := at_index offset_vec (size_t_wrap (rid + 1)) in
         let* first := at_index offset_vec rid in
         let size := size_t_wrap (next - first) in
         if negb (size_t_wrap (ibegin + size) =? iend) then CheckFailed
         else
           for_loop (Z.to_nat (iend - ibegin)) 0
             (fun j s =>
                let* bin_id := read_cell wi index (ibegin + j) in
                let* fid := at_index (SparsePage.data batch) (first + j) in
                assign_bin bin_id rid fid s)
             s)
      s.

(** The [get_bin_idx] of [SetIndexAllDense<T>]. *)
Definition SetIndexAllDense_get_bin_idx (w : nat) (bin_id rid fid : Z) (m : ColumnMatrix.t)
  : result ColumnMatrix.t :=
  let* idx := at_index (ColumnMatrix.feature_offsets_ m) fid in
  let* index_ := write_cell w (ColumnMatrix.index_ m) (size_t_wrap (idx + rid)) bin_id in
  let* missing_flags_ :=
    assign (ColumnMatrix.missing_flags_ m) (size_t_wrap (idx + rid)) false in
  Ok (ColumnMatrix.with_missing_flags_ (ColumnMatrix.with_index_ m index_) missing_flags_).

(** [ColumnMatrix::SetIndexAllDense<T>], with [w] for [sizeof(T)].  The
    rounds of [ParallelFor] assign to elements of their own row; they are
    run one after the other. *)
Definition SetIndexAllDense (w : nat) (page : SparsePage.t) (index : bytes)
    (gmat : GHistIndexMatrix.t) (nrow nfeature : Z) (noMissingValues : bool)
    (m : ColumnMatrix.t) : result ColumnMatrix.t :=
  if noMissingValues then
    for_loop (Z.to_nat nrow) 0
      (fun rid m =>
         let ibegin := size_t_wrap (rid * nfeature) in
         let iend := size_t_wrap ((rid + 1) * nfeature) in
         for_loop (Z.to_nat (iend - ibegin)) 0
           (fun j m =>
              let* idx := at_index (ColumnMatrix.feature_offsets_ m) j in
              let* bin := read_cell w index (ibegin + j) in
              let* index_ :=
                write_cell w (ColumnMatrix.index_ m) (size_t_wrap (idx + rid)) bin in
              Ok (ColumnMatrix.with_index_ m index_))
           m)
      m
  else SetIndexSparse page w index gmat nfeature (SetIndexAllDense_get_bin_idx w) m.

(** The [get_bin_idx] of [SetIndex<T>]; the state is the matrix and
    [num_nonzeros]. *)
Definition SetIndex_get_bin_idx (w : nat) (bin_id rid fid : Z)
    (s : ColumnMatrix.t * list Z) : result (ColumnMatrix.t * list Z) :=
  let m := s.1 in
  let num_nonzeros := s.2 in
  let* type := at_index (ColumnMatrix.type_ m) fid in
  let* feature_offset := at_index (ColumnMatrix.feature_offsets_ m) fid in
  match type with
  | kDenseColumn =>
      let* index_base := at_index (ColumnMatrix.index_base_ m) fid in
      let* index_ :=
        write_cell w (ColumnMatrix.index_ m) (feature_offset + rid)
                   (uint32_t_wrap (bin_id - index_base)) in
      let* missing_flags_ :=
        assign (ColumnMatrix.missing_flags_ m) (size_t_wrap (feature_offset + rid)) false in
      Ok (ColumnMatrix.with_missing_flags_ (ColumnMatrix.with_index_ m index_) missing_flags_,
          num_nonzeros)
  | kSparseColumn =>
      let* count := at_index num_nonzeros fid in
      let* index_base := at_index (ColumnMatrix.index_base_ m) fid in
      let* index_ :=
        write_cell w (ColumnMatrix.index_ m) (feature_offset + count)
                   (uint32_t_wrap (bin_id - index_base)) in
      let* row_ind_ :=
        assign (ColumnMatrix.row_ind_ m) (size_t_wrap (feature_offset + count)) rid in
      let* num_nonzeros := assign num_nonzeros fid (size_t_wrap (count + 1)) in
      Ok (ColumnMatrix.with_row_ind_ (ColumnMatrix.with_index_ m index_) row_ind_,
          num_nonzeros)
  end.

(** [ColumnMatrix::SetIndex<T>], with [w] for [sizeof(T)]; its [index] is
    an array of [uint32_t]. *)
Definition SetIndex (w : nat) (page : SparsePage.t) (index : bytes)
    (gmat : GHistIndexMatrix.t) (nfeature : Z) (m : ColumnMatrix.t)
  : result ColumnMatrix.t :=
  let num_nonzeros := replicate (Z.to_nat nfeature) 0 in
  let* s := SetIndexSparse page 4 index gmat nfeature (SetIndex_get_bin_idx w)
                           (m, num_nonzeros) in
  Ok s.1.

(** The storage boundary of each feature (lines 164 to 176 of
    [ColumnMatrix::Init]): the vector [feature_offsets_] resized to
    [nfeature + 1], its first element, and the prefix sums that the loop
    over [fid] assigns.  [nfeature] and [fid] are of type [bst_feature_t],
    32 bits wide without a sign: [nfeature + 1] and [fid - 1] are made in
    that type, [accum_index_] in [size_t]. *)
Definition feature_offsets (nfeature nrow : Z) (type_ : list ColumnType)
    (feature_counts_ : list Z) (feature_offsets_ : list Z) : result (list Z) :=
  let feature_offsets_ := vector_resize feature_offsets_ (uint32_t_wrap (nfeature + 1)) 0 in
  let* feature_offsets_ := assign feature_offsets_ 0 0 in
  let* s :=
    for_loop (Z.to_nat (uint32_t_wrap (nfeature + 1) - 1)) 1
      (fun fid s =>
         let* type := at_index type_ (uint32_t_wrap (fid - 1)) in
         let* accum_index_ :=
           match type with
           | kDenseColumn => Ok (size_t_wrap (s.1 + nrow))
           | kSparseColumn =>
               let* count := at_index feature_counts_ (uint32_t_wrap (fid - 1)) in
               Ok (size_t_wrap (s.1 + count))
           end in
         let* feature_offsets_ := assign s.2 fid accum_index_ in
         Ok (accum_index_, feature_offsets_))
      (0, feature_offsets_) in
  Ok s.2.

(** A [size_t] converted to [double]. *)
Definition to_double (n : Z) : spec_float := binary_normalize 53 1024 n 0 false.

(** [ColumnMatrix::Init(page, gmat, sparse_threshold, n_threads)] on the
    matrix [m]. *)
Definition Init (page : SparsePage.t) (gmat : GHistIndexMatrix.t)
    (sparse_threshold : spec_float) (m : ColumnMatrix.t) : result ColumnMatrix.t :=
  let Ptrs := GHistIndexMatrix.cut_Ptrs gmat in
  let row_ptr := GHistIndexMatrix.row_ptr gmat in
  let nfeature := uint32_t_wrap (size_t_wrap (Z.of_nat (length Ptrs) - 1)) in
  let nrow := size_t_wrap (Z.of_nat (length row_ptr) - 1) in
  let feature_counts_ := replicate (Z.to_nat nfeature) 0 in
  let type_ := vector_resize (ColumnMatrix.type_ m) nfeature kDenseColumn in
  let* _ :=
    for_loop (Z.to_nat nfeature) 0
      (fun fid _ =>
         let* next := at_index Ptrs (uint32_t_wrap (fid + 1)) in
         let* this := at_index Ptrs fid in
         if uint32_t_wrap (next - this) <=? 2 ^ 32 - 1 then Ok tt else CheckFailed)
      tt in
  let feature_counts_ := GHistIndexMatrix.GetFeatureCounts gmat feature_counts_ in
  let* classified :=
    for_loop (Z.to_nat nfeature) 0
      (fun fid s =>
         let* count := at_index feature_counts_ fid in
         if SFltb (to_double count) (SFmul 53 1024 sparse_threshold (to_double nrow)) then
           let* type_ := assign s.1 fid kSparseColumn in Ok (type_, false)
         else
           let* type_ := assign s.1 fid kDenseColumn in Ok (type_, s.2))
      (type_, GHistIndexMatrix.IsDense gmat) in
  let type_ := classified.1 in
  let all_dense := classified.2 in
  let* feature_offsets_ :=
    feature_offsets nfeature nrow type_ feature_counts_ (ColumnMatrix.feature_offsets_ m) in
  let bins_type_size_ := SetTypeSize (GHistIndexMatrix.max_num_bins gmat) in
  let* total := at_index feature_offsets_ nfeature in
  let index_ := resize (ColumnMatrix.index_ m) (size_t_wrap (total * width bins_type_size_)) in
  let row_ind_ :=
    if all_dense then ColumnMatrix.row_ind_ m
    else vector_resize (ColumnMatrix.row_ind_ m) total 0 in
  let* n_elements := at_index row_ptr nrow in
  let noMissingValues := NoMissingValues n_elements nrow nfeature in
  let missing_flags_ := replicate (Z.to_nat total) (negb noMissingValues) in
  let m :=
    ColumnMatrix.mk index_ feature_counts_ type_ row_ind_ feature_offsets_ Ptrs
                    missing_flags_ bins_type_size_ (negb noMissingValues) in
  if all_dense then
    SetIndexAllDense (Z.to_nat (width (GHistIndexMatrix.index_GetBinTypeSize gmat))) page
                     (GHistIndexMatrix.index_data gmat) gmat nrow nfeature noMissingValues m
  else
    SetIndex (Z.to_nat (width bins_type_size_)) page (GHistIndexMatrix.index_data gmat) gmat
             nfeature m.

(** * Part II: notions the properties are stated with *)

(** ** The arrivals of a round

    The buffer as the functor calls of the arrivals leave it, one after the
    other as [Handle] makes them under the mutex, with the exceptions
    thrown on the way; [None] when a call is undefined.  ([run_arrivals]
    below: this is what the server computes.) *)
Fixpoint arrivals {R : Type} (functor : R -> bytes -> outcome) (requests : list R)
    (buffer : bytes) : option (list exception * bytes) :=
  match requests with
  | [] => Some ([], buffer)
  | request :: rest =>
      match functor request buffer with
      | Undefined => None
      | Normal buffer' => arrivals functor rest buffer'
      | Throws e buffer' =>
          match arrivals functor rest buffer' with
          | None => None
          | Some (thrown, final) => Some (e :: thrown, final)
          end
      end
  end.

(** ** Reading the model of the typed reduction *)

(** Element [i] of a string seen as an array of [T]. *)
Definition element (T : ctype) (s : bytes) (i : nat) : Z :=
  load (take (sizeof T) (drop (i * sizeof T) s)).

(** The element type a recognized tag selects. *)
Definition element_type (data_type : DataType) : option ctype :=
  match data_type with
  | CHAR => Some T_char
  | UCHAR => Some T_unsigned_char
  | INT => Some T_int
  | UINT => Some T_unsigned_int
  | LONG => Some T_long
  | ULONG => Some T_unsigned_long
  | FLOAT => Some T_float
  | DOUBLE => Some T_double
  | LONGLONG => Some T_long_long
  | ULONGLONG => Some T_unsigned_long_long
  | DataType_unrecognized _ => None
  end.

(** The binary operation a recognized tag selects. *)
Definition operation (T : ctype) (reduce_operation : ReduceOperation)
  : option (Z -> Z -> Z) :=
  match reduce_operation with
  | MAX => Some (std_max T)
  | MIN => Some (std_min T)
  | SUM => Some (std_plus T)
  | ReduceOperation_unrecognized _ => None
  end.

(** The integer [v] as an integer type [T] holds it. *)
Definition wrap (T : ctype) (v : Z) : Z := value T (v mod modulus T).

(** Maximum, minimum and sum of two integers of type [T]. *)
Definition combine (T : ctype) (reduce_operation : ReduceOperation) (x y : Z) : Z :=
  match reduce_operation with
  | MAX => Z.max x y
  | MIN => Z.min x y
  | _ => wrap T (x + y)
  end.

(** The mantissa and the exponent after the first shift of
    [binary_round_aux]: a normal mantissa, or a smaller one at the least
    exponent. *)
Definition rounded (prec emax : Z) (m e : Z) : Prop :=
  (2 ^ (prec - 1) <= m <= 2 ^ prec /\ emin prec emax <= e) \/
  (0 <= m <= 2 ^ (prec - 1) /\ e = emin prec emax).

(** The number that the bits of an object of a floating-point type [T]
    stand for. *)
Definition number (T : ctype) (bits : Z) : spec_float :=
  match T with
  | T_double => bits_to_float 53 1024 bits
  | _ => bits_to_float 24 128 bits
  end.

(** The sum of two numbers of a floating-point type [T]: the sum of
    IEEE 754, rounded to nearest with ties to even. *)
Definition rounded_sum (T : ctype) (x y : spec_float) : spec_float :=
  match T with
  | T_double => SFadd 53 1024 x y
  | _ => SFadd 24 128 x y
  end.

(** [r] is the maximum, the minimum or the sum of [a] and [b], three
    objects of type [T] given by their bits.  For an integer type: of the
    integers they denote, the sum in the fixed width of [T].  For a
    floating-point type the sum is that of IEEE 754, a NaN when an operand
    is one or when the operands are opposite infinities; the maximum is
    [b] when the number of [a] is below that of [b] and else [a] (so for
    equal numbers, for zeros of either sign and when one of the two is a
    NaN), which is at least both numbers when neither is a NaN; the
    minimum likewise. *)
Definition reduced (T : ctype) (reduce_operation : ReduceOperation) (a b r : Z) : Prop :=
  if is_integer T then
    value T r = combine T reduce_operation (value T a) (value T b)
  else
    match reduce_operation with
    | MAX =>
        r = (if SFltb (number T a) (number T b) then b else a) /\
        (number T a <> S754_nan -> number T b <> S754_nan ->
         SFleb (number T a) (number T r) = true /\ SFleb (number T b) (number T r) = true)
    | MIN =>
        r = (if SFltb (number T b) (number T a) then b else a) /\
        (number T a <> S754_nan -> number T b <> S754_nan ->
         SFleb (number T r) (number T a) = true /\ SFleb (number T r) (number T b) = true)
    | SUM => number T r = rounded_sum T (number T a) (number T b)
    | ReduceOperation_unrecognized _ => False
    end.

(** ** Rounds of Reduce requests *)

(** The sum over the requests of the integers their elements [i] denote. *)
Definition total (T : ctype) (requests : list AllreduceRequest.t) (i : nat) : Z :=
  foldr (fun r acc => value T (element T (AllreduceRequest.send_buffer r) i) + acc) 0 requests.

(** The same sum over the elements' bits. *)
Definition total_bits (T : ctype) (requests : list AllreduceRequest.t) (i : nat) : Z :=
  foldr (fun r acc => element T (AllreduceRequest.send_buffer r) i + acc) 0 requests.

(** A request of a SUM round over [n] elements of the type of [data_type]. *)
Definition sum_request (data_type : DataType) (T : ctype) (n : nat)
    (r : AllreduceRequest.t) : Prop :=
  AllreduceRequest.data_type r = data_type /\
  AllreduceRequest.reduce_operation r = SUM /\
  length (AllreduceRequest.send_buffer r) = (n * sizeof T)%nat.

(** ** Rounds of Gather requests *)

(** A string with the characters from [p] on overwritten by [payload]. *)
Definition splice (base : bytes) (p : nat) (payload : bytes) : bytes :=
  take p base ++ payload ++ drop (p + length payload) base.

(** The string the functor splices into: the buffer, resized unless it
    already has the size of all payloads. *)
Definition gather_base (W : Z) (request : AllgatherRequest.t) (buffer : bytes) : bytes :=
  if size buffer =? size (AllgatherRequest.send_buffer request) * W
  then buffer
  else resize buffer (size (AllgatherRequest.send_buffer request) * W).

(** A request of a round of [W] ranks with payloads of [s] bytes. *)
Definition gather_request (W s : nat) (r : AllgatherRequest.t) : Prop :=
  0 <= AllgatherRequest.rank r < Z.of_nat W /\
  length (AllgatherRequest.send_buffer r) = s.

(** Offset of the slot of a request. *)
Definition slot_start (s : nat) (r : AllgatherRequest.t) : nat :=
  (Z.to_nat (AllgatherRequest.rank r) * s)%nat.

(** ** Positions of calls and the effect of a step *)

Definition parked (at_ : position) : bool :=
  match at_ with
  | Entered | WaitSequence => true
  | _ => false
  end.

Definition arrived (at_ : position) : bool :=
  match at_ with
  | WaitAll | Replied _ => true
  | _ => false
  end.

Definition replied (at_ : position) : bool :=
  match at_ with
  | Replied _ => true
  | _ => false
  end.

Definition replied_at (i : nat) (srv : server) : bool :=
  match calls srv !! i with
  | Some (_, at_) => replied at_
  | None => false
  end.

Definition has_arrived (i : nat) (srv : server) : bool :=
  match calls srv !! i with
  | Some (_, at_) => arrived at_
  | None => false
  end.

(** The call at [i] returns its reply in the step from [srv] to [srv']. *)
Definition departs (i : nat) (srv srv' : server) : bool :=
  negb (replied_at i srv) && replied_at i srv'.

(** The functor of a call, as [serve] passes it to [Handle]. *)
Definition rpc_functor (world_size : Z) (call : rpc) (buffer : bytes) : outcome :=
  match call with
  | Allgather request => AllgatherFunctor world_size request buffer
  | Allreduce request => AllreduceFunctor request buffer
  | Broadcast request => BroadcastFunctor request buffer
  end.

(** What one step of a call does to the service. *)
Inductive effect (call : rpc) (s : FederatedService)
  : position -> FederatedService -> position -> Prop :=
| effect_pass_through :
    world_size_ s = 1 ->
    effect call s Entered s (Replied (rpc_send_buffer call))
| effect_park at_ :
    parked at_ = true ->
    sequence_number_ s <> rpc_sequence_number call ->
    effect call s at_ s WaitSequence
| effect_throw at_ e buffer :
    parked at_ = true ->
    sequence_number_ s = rpc_sequence_number call ->
    rpc_functor (world_size_ s) call (buffer_ s) = Throws e buffer ->
    effect call s at_
      {| world_size_ := world_size_ s; sequence_number_ := sequence_number_ s;
         received_ := received_ s; sent_ := sent_ s; buffer_ := buffer |}
      (Thrown e)
| effect_last_arrival at_ buffer :
    parked at_ = true ->
    sequence_number_ s = rpc_sequence_number call ->
    rpc_functor (world_size_ s) call (buffer_ s) = Normal buffer ->
    received_ s + 1 = world_size_ s ->
    effect call s at_
      {| world_size_ := world_size_ s; sequence_number_ := sequence_number_ s;
         received_ := received_ s + 1; sent_ := sent_ s + 1; buffer_ := buffer |}
      (Replied buffer)
| effect_arrival at_ buffer :
    parked at_ = true ->
    sequence_number_ s = rpc_sequence_number call ->
    rpc_functor (world_size_ s) call (buffer_ s) = Normal buffer ->
    received_ s + 1 <> world_size_ s ->
    effect call s at_
      {| world_size_ := world_size_ s; sequence_number_ := sequence_number_ s;
         received_ := received_ s + 1; sent_ := sent_ s; buffer_ := buffer |}
      WaitAll
| effect_reset :
    received_ s = world_size_ s -> sent_ s + 1 = world_size_ s ->
    effect call s WaitAll (fresh (world_size_ s) (sequence_number_ s + 1))
      (Replied (buffer_ s))
| effect_release :
    received_ s = world_size_ s -> sent_ s + 1 <> world_size_ s ->
    effect call s WaitAll
      {| world_size_ := world_size_ s; sequence_number_ := sequence_number_ s;
         received_ := received_ s; sent_ := sent_ s + 1; buffer_ := buffer_ s |}
      (Replied (buffer_ s))
| effect_wait :
    received_ s <> world_size_ s ->
    effect call s WaitAll s WaitAll
| effect_done at_ :
    parked at_ = false -> arrived at_ = false \/ replied at_ = true ->
    effect call s at_ s at_.

(** The call at [i] is [call], and it is ready to be let into the round. *)
Definition admissible (srv : server) (i : nat) (call : rpc) : Prop :=
  exists at_,
    calls srv !! i = Some (call, at_) /\ parked at_ = true /\
    rpc_sequence_number call = sequence_number_ (service srv).

(** ** Invariants of the barrier *)

(** What holds of the counters whenever the mutex is free. *)
Definition barrier_invariant (W : Z) (s : FederatedService) : Prop :=
  world_size_ s = W /\ 0 <= sent_ s < W /\ (received_ s < W -> sent_ s = 0).

(** What the call at [i], of the round after the one in progress at [N],
    may have done as long as the sequence number is still [N]. *)
Definition kept_out (N : Z) (i : nat) (call : rpc) (srv : server) : Prop :=
  N <= sequence_number_ (service srv) /\
  exists at_,
    calls srv !! i = Some (call, at_) /\
    (sequence_number_ (service srv) = N ->
     parked at_ = true \/
     (world_size_ (service srv) = 1 /\ at_ = Replied (rpc_send_buffer call))).

(** ** Rounds of Broadcast calls *)

(** How many elements of a list satisfy a test. *)
Fixpoint tally {A : Type} (P : A -> bool) (l : list A) : Z :=
  match l with
  | [] => 0
  | x :: rest => (if P x then 1 else 0) + tally P rest
  end.

Definition in_round (n : Z) (call : rpc) : bool := rpc_sequence_number call =? n.

Definition is_root (call : rpc) : bool :=
  match call with
  | Broadcast request => BroadcastRequest.rank request =? BroadcastRequest.root request
  | _ => false
  end.

(** The calls of a series of Broadcast rounds: no round has more than [W]
    calls, the calls of round [n] whose rank is their root carry the
    payload [P n], and a round of [W] calls has such a call. *)
Record broadcast_pool (W : Z) (P : Z -> bytes) (requests : list rpc) : Prop := {
  pool_broadcast : forall call, In call requests -> exists request, call = Broadcast request;
  pool_size : forall n, tally (in_round n) requests <= W;
  pool_payload : forall call,
    In call requests -> is_root call = true ->
    rpc_send_buffer call = P (rpc_sequence_number call);
  pool_root : forall n,
    tally (in_round n) requests = W ->
    exists call, In call requests /\ in_round n call = true /\ is_root call = true
}.

Definition member_of (n : Z) (c : rpc * position) : bool := in_round n c.1.
Definition arrived_in (n : Z) (c : rpc * position) : bool := in_round n c.1 && arrived c.2.
Definition replied_in (n : Z) (c : rpc * position) : bool := in_round n c.1 && replied c.2.

(** Where a call may stand when the service, started at [N], is at [n]:
    a call of a round before [N] or after [n] is parked, a call of a round
    from [N] to before [n] has the reply of its round, and a call of round
    [n] is parked, waits for the quorum, or has the reply. *)
Definition position_ok (P : Z -> bytes) (N n : Z) (c : rpc * position) : Prop :=
  (rpc_sequence_number c.1 < N -> parked c.2 = true) /\
  (N <= rpc_sequence_number c.1 < n -> c.2 = Replied (P (rpc_sequence_number c.1))) /\
  (n < rpc_sequence_number c.1 -> parked c.2 = true) /\
  (rpc_sequence_number c.1 = n -> parked c.2 = true \/ c.2 = WaitAll \/ c.2 = Replied (P n)).

Record round_invariant (W : Z) (P : Z -> bytes) (N : Z) (requests : list rpc)
    (srv : server) : Prop := {
  ri_world : world_size_ (service srv) = W;
  ri_start : N <= sequence_number_ (service srv);
  ri_calls : map fst (calls srv) = requests;
  ri_positions : forall c,
    In c (calls srv) -> position_ok P N (sequence_number_ (service srv)) c;
  ri_received :
    received_ (service srv) =
    tally (arrived_in (sequence_number_ (service srv))) (calls srv);
  ri_sent :
    sent_ (service srv) = tally (replied_in (sequence_number_ (service srv))) (calls srv);
  ri_quorum : sent_ (service srv) = 0 \/ received_ (service srv) = W;
  ri_sent_lt : sent_ (service srv) < W;
  ri_buffer :
    (exists c, In c (calls srv) /\
       arrived_in (sequence_number_ (service srv)) c = true /\ is_root c.1 = true) ->
    buffer_ (service srv) = P (sequence_number_ (service srv))
}.

(** ** Rounds of disciplined callers *)

(** The Broadcast calls of round [N] of a world whose rank [r] sends
    [payloads !! r], with [root] as the root. *)
Definition broadcast_round (N root : Z) (payloads : list bytes) : list rpc :=
  imap (fun r payload => Broadcast (BroadcastRequest.mk N (Z.of_nat r) payload root)) payloads.

(** ** Reduce requests with unrecognized tags *)

(** The element type or the operation of the request names no constant. *)
Definition unrecognized (request : AllreduceRequest.t) : Prop :=
  element_type (AllreduceRequest.data_type request) = None \/
  exists number, AllreduceRequest.reduce_operation request = ReduceOperation_unrecognized number.

(** ** Rounds of MAX and MIN requests *)

Definition reduce_request (data_type : DataType) (reduce_operation : ReduceOperation)
    (T : ctype) (n : nat) (r : AllreduceRequest.t) : Prop :=
  AllreduceRequest.data_type r = data_type /\
  AllreduceRequest.reduce_operation r = reduce_operation /\
  length (AllreduceRequest.send_buffer r) = (n * sizeof T)%nat.

(** The integer that element [i] of the payload of a request denotes. *)
Definition rank_value (T : ctype) (r : AllreduceRequest.t) (i : nat) : Z :=
  value T (element T (AllreduceRequest.send_buffer r) i).

(** [y] is no smaller than [x] under MAX, no larger under MIN. *)
Definition bounded_by (reduce_operation : ReduceOperation) (x y : Z) : Prop :=
  match reduce_operation with
  | MAX => x <= y
  | MIN => y <= x
  | _ => False
  end.

(** ** Not-a-number elements *)

(** The bits are those of a NaN of the floating-point type [T]. *)
Definition is_nan (T : ctype) (bits : Z) : bool :=
  match T with
  | T_float =>
      match bits_to_float 24 128 bits with S754_nan => true | _ => false end
  | T_double =>
      match bits_to_float 53 1024 bits with S754_nan => true | _ => false end
  | _ => false
  end.

(** ** The slots of a gathered buffer *)

(** The [s] bytes of slot [k] of a gathered buffer. *)
Definition slot (s k : nat) (buffer : bytes) : bytes := take s (drop (k * s) buffer).

(** The last request of a rank among the arrivals. *)
Fixpoint last_of_rank (k : Z) (l : list AllgatherRequest.t) : option AllgatherRequest.t :=
  match l with
  | [] => None
  | r :: rest =>
      match last_of_rank k rest with
      | Some r' => Some r'
      | None => if AllgatherRequest.rank r =? k then Some r else None
      end
  end.

(** ** The roots of a Broadcast round *)

(** The last of the arrivals whose rank is its root. *)
Fixpoint last_root (l : list BroadcastRequest.t) : option BroadcastRequest.t :=
  match l with
  | [] => None
  | r :: rest =>
      match last_root rest with
      | Some r' => Some r'
      | None =>
          if BroadcastRequest.rank r =? BroadcastRequest.root r then Some r else None
      end
  end.

(** ** The barrier on any pool of calls *)

Definition failed (at_ : position) : bool :=
  match at_ with
  | Thrown _ => true
  | _ => false
  end.

(** What holds of the counters and the calls of any pool whenever the
    mutex is free, for a server started at [N] in a world of [W] ranks:
    the counters count the calls of the round in progress that have
    arrived and that have their reply, only calls of that round wait for
    the quorum, and a call that has its reply belongs to a round for which
    at least [W] calls have arrived. *)
Record quorum_invariant (W N : Z) (requests : list rpc) (srv : server) : Prop := {
  qi_world : world_size_ (service srv) = W;
  qi_start : N <= sequence_number_ (service srv);
  qi_calls : map fst (calls srv) = requests;
  qi_received :
    received_ (service srv) =
    tally (arrived_in (sequence_number_ (service srv))) (calls srv);
  qi_sent :
    sent_ (service srv) = tally (replied_in (sequence_number_ (service srv))) (calls srv);
  qi_quorum : sent_ (service srv) = 0 \/ W <= received_ (service srv);
  qi_sent_lt : sent_ (service srv) < W;
  qi_arrived : forall c,
    In c (calls srv) -> arrived c.2 = true ->
    N <= rpc_sequence_number c.1 <= sequence_number_ (service srv);
  qi_waiting : forall c,
    In c (calls srv) -> c.2 = WaitAll ->
    rpc_sequence_number c.1 = sequence_number_ (service srv);
  qi_replied : forall c,
    In c (calls srv) -> replied c.2 = true ->
    W <= tally (arrived_in (rpc_sequence_number c.1)) (calls srv);
  qi_past : forall n,
    N <= n < sequence_number_ (service srv) -> W <= tally (arrived_in n) (calls srv)
}.

(** Replies agree: unless a call has been left by an exception, the
    replies given in the round in progress are the buffer as it stands
    while the quorum is exact, and two replies of one round are the same. *)
Definition agreement (srv : server) : Prop :=
  (exists c, In c (calls srv) /\ failed c.2 = true) \/
  ((forall c b,
      In c (calls srv) -> c.2 = Replied b ->
      rpc_sequence_number c.1 = sequence_number_ (service srv) ->
      received_ (service srv) = world_size_ (service srv) ->
      b = buffer_ (service srv)) /\
   (forall c1 c2 b1 b2,
      In c1 (calls srv) -> In c2 (calls srv) ->
      c1.2 = Replied b1 -> c2.2 = Replied b2 ->
      rpc_sequence_number c1.1 = rpc_sequence_number c2.1 -> b1 = b2)).

(** ** Orderly pools *)

(** The calls among [cs], in their order, that pass a test. *)
Fixpoint chosen (T : rpc * position -> bool) (cs : list (rpc * position)) : list rpc :=
  match cs with
  | [] => []
  | c :: rest => if T c then c.1 :: chosen T rest else chosen T rest
  end.

(** A pool is orderly in a world of [W] ranks when the functors of any
    calls of one round taken from it, applied one after the other from the
    empty buffer, all return normally. *)
Definition orderly (W : Z) (requests : list rpc) : Prop :=
  forall n order,
    Forall (fun call => In call requests /\ in_round n call = true) order ->
    exists final, arrivals (rpc_functor W) order [] = Some ([], final).

(** [b] is the buffer that [W] calls of round [n] of the pool leave when
    their functors are applied in some order from the empty buffer. *)
Definition folds_round (W : Z) (requests : list rpc) (n : Z) (b : bytes) : Prop :=
  exists order,
    submseteq order requests /\
    Forall (fun call => in_round n call = true) order /\
    Z.of_nat (length order) = W /\
    arrivals (rpc_functor W) order [] = Some ([], b).

Record orderly_invariant (W N : Z) (requests : list rpc) (srv : server) : Prop := {
  oi_quorum : quorum_invariant W N requests srv;
  oi_no_throw : forall c, In c (calls srv) -> failed c.2 = false;
  oi_fold : exists order,
    Permutation order (chosen (arrived_in (sequence_number_ (service srv))) (calls srv)) /\
    arrivals (rpc_functor W) order [] = Some ([], buffer_ (service srv));
  oi_replies : forall c b,
    In c (calls srv) -> c.2 = Replied b ->
    folds_round W requests (rpc_sequence_number c.1) b
}.

(** ** Sparse columns and the layout of the columns *)

Definition ascending (rows : list Z) : Prop :=
  forall i j x y, (i <= j)%nat -> rows !! i = Some x -> rows !! j = Some y -> x <= y.

Definition strictly_ascending (rows : list Z) : Prop :=
  forall i j x y, (i < j)%nat -> rows !! i = Some x -> rows !! j = Some y -> x < y.

(** [k] is where the rows stop being below [val]. *)
Definition first_not_below (rows : list Z) (val : Z) (k : nat) : Prop :=
  (k <= length rows)%nat /\
  (forall j x, (j < k)%nat -> rows !! j = Some x -> x < val) /\
  (forall j x, (k <= j)%nat -> rows !! j = Some x -> val <= x).

(** A sparse column as [GetColumn] makes it: as many rows as bins. *)
Definition well_formed (c : SparseColumn.t) : Prop :=
  length (SparseColumn.row_ind_ c) = Size (SparseColumn.column c).

(** The bin stored for a row, [kMissingId] when there is none. *)
Fixpoint lookup_row (rows bins : list Z) (rid : Z) : option Z :=
  match rows, bins with
  | row :: rows', bin :: bins' => if row =? rid then Some bin else lookup_row rows' bins' rid
  | _, _ => None
  end.

Definition bin_of_row (c : SparseColumn.t) (rid : Z) : Z :=
  match lookup_row (SparseColumn.row_ind_ c) (Column.index_ (SparseColumn.column c)) rid with
  | Some bin => bst_bin_t_of (uint32_t_wrap (Column.index_base_ (SparseColumn.column c) + bin))
  | None => kMissingId
  end.

(** [GetBinIdx] for one row after the other, with one state. *)
Fixpoint GetBinIdx_each (c : SparseColumn.t) (rids : list Z) (state : nat)
  : option (list Z * nat) :=
  match rids with
  | [] => Some ([], state)
  | rid :: rest =>
      match SparseColumn.GetBinIdx c rid state with
      | None => None
      | Some (bin, state') =>
          match GetBinIdx_each c rest state' with
          | None => None
          | Some (bins, final) => Some (bin :: bins, final)
          end
      end
  end.

(** The sizes of the columns as [Init] lays them out. *)
Definition column_sizes (nrow : Z) (type_ : list ColumnType) (feature_counts_ : list Z)
  : list Z :=
  zip_with (fun t count => match t with kDenseColumn => nrow | kSparseColumn => count end)
    type_ feature_counts_.

Definition sum_of (l : list Z) : Z := foldr Z.add 0 l.

(** Where the columns begin, and where the last one ends: 0, and for each
    column in turn the sum, in [size_t], of the sizes up to it. *)
Fixpoint offsets_from (accum_index_ nrow : Z) (type_ : list ColumnType)
    (feature_counts_ : list Z) : list Z :=
  match type_, feature_counts_ with
  | t :: types, count :: counts =>
      let accum_index_ :=
        size_t_wrap (accum_index_ +
                     match t with kDenseColumn => nrow | kSparseColumn => count end) in
      accum_index_ :: offsets_from accum_index_ nrow types counts
  | _, _ => []
  end.

Definition offsets_of (nrow : Z) (type_ : list ColumnType) (feature_counts_ : list Z)
  : list Z :=
  0 :: offsets_from 0 nrow type_ feature_counts_.

(** ** The construction of the columns *)

(** The bin of row [rid] in the column of feature [fid], read as the users
    of the columns read it: [GetColumn], then [GetBinIdx] from the state
    that [GetInitialState(rid)] gives. *)
Definition bin_at (m : ColumnMatrix.t) (fid rid : nat) : result Z :=
  let* c :=
    GetColumn (Z.to_nat (width (ColumnMatrix.bins_type_size_ m)))
              (ColumnMatrix.any_missing_ m) m fid in
  match c with
  | Dense c =>
      of_option
        (option_map fst
           (DenseColumn.GetBinIdx (ColumnMatrix.any_missing_ m) c rid
                                  (DenseColumn.GetInitialState c (Z.of_nat rid))))
  | Sparse c =>
      let* state := of_option (SparseColumn.GetInitialState c (Z.of_nat rid)) in
      of_option (option_map fst (SparseColumn.GetBinIdx c (Z.of_nat rid) state))
  end.

(** Element [k] of the bytes [index_] seen as integers of [w] bytes. *)
Definition cell (w : nat) (index_ : bytes) (k : nat) : Z :=
  load (take w (drop (k * w) index_)).

(** The bytes after the assignment of [v] to element [k]. *)
Definition written (w : nat) (index_ : bytes) (k : nat) (v : Z) : bytes :=
  take (k * w) index_ ++ store w v ++ drop (k * w + w) index_.

(** A quantised matrix given by its rows, each row the list of its
    entries, the feature and the bin of each.  [row_ptr_of] is where the
    rows begin in the array of all entries, and where the last one ends. *)
Fixpoint row_ptr_from (first : Z) (rows : list (list (Z * Z))) : list Z :=
  first ::
  match rows with
  | [] => []
  | row :: rows' => row_ptr_from (first + Z.of_nat (length row)) rows'
  end.

Definition row_ptr_of (rows : list (list (Z * Z))) : list Z := row_ptr_from 0 rows.

(** The entries in the order of the rows: the row, the feature and the bin
    of each. *)
Fixpoint entries_from (rid : Z) (rows : list (list (Z * Z))) : list (Z * Z * Z) :=
  match rows with
  | [] => []
  | row :: rows' => map (fun e => (rid, e.1, e.2)) row ++ entries_from (rid + 1) rows'
  end.

Definition entries (rows : list (list (Z * Z))) : list (Z * Z * Z) := entries_from 0 rows.

(** The bin a row has for a feature. *)
Fixpoint bin_in (row : list (Z * Z)) (fid : Z) : option Z :=
  match row with
  | [] => None
  | e :: row' => if e.1 =? fid then Some e.2 else bin_in row' fid
  end.

(** The rows, the cuts and the counts that [page] and [gmat] hold are
    those of the matrix [rows]: the features are below the number of
    cuts, a row has a feature once at most, the bin of an entry is one of
    the [max_num_bins] bins from the cut of its feature, and the counts of
    [GetFeatureCounts] are the numbers of entries of the features.  There
    are fewer than 2^32 cut pointers, one more than there are features:
    [nfeature + 1] is then a [bst_feature_t]. *)
Record quantised (rows : list (list (Z * Z))) (page : SparsePage.t)
    (gmat : GHistIndexMatrix.t) : Prop := {
  q_cuts : 1 <= Z.of_nat (length (GHistIndexMatrix.cut_Ptrs gmat)) < 2 ^ 32;
  q_cut_range : Forall (fun p => 0 <= p < 2 ^ 32) (GHistIndexMatrix.cut_Ptrs gmat);
  q_row_ptr : GHistIndexMatrix.row_ptr gmat = row_ptr_of rows;
  q_offset : SparsePage.offset page = row_ptr_of rows;
  q_data : SparsePage.data page = map fst (concat rows);
  q_index_size :
    (4 * length (concat rows) <= length (GHistIndexMatrix.index_data gmat))%nat;
  q_index :
    cells 4 (length (concat rows)) (GHistIndexMatrix.index_data gmat) =
    map snd (concat rows);
  q_Size : GHistIndexMatrix.Size gmat = Z.of_nat (length rows);
  q_counts :
    GHistIndexMatrix.GetFeatureCounts gmat
      (replicate (length (GHistIndexMatrix.cut_Ptrs gmat) - 1) 0) =
    map (fun fid => tally (fun e => e.1 =? Z.of_nat fid) (concat rows))
        (seq 0 (length (GHistIndexMatrix.cut_Ptrs gmat) - 1));
  q_max_num_bins : 1 <= GHistIndexMatrix.max_num_bins gmat <= 2 ^ 32;
  q_rows :
    Forall (fun row =>
      NoDup (map fst row) /\
      Forall (fun e =>
        exists base,
          GHistIndexMatrix.cut_Ptrs gmat !! Z.to_nat e.1 = Some base /\
          0 <= e.1 < Z.of_nat (length (GHistIndexMatrix.cut_Ptrs gmat)) - 1 /\
          base <= e.2 < base + GHistIndexMatrix.max_num_bins gmat /\
          e.2 < 2 ^ 32) row) rows;
  q_fits :
    4 * Z.of_nat (length (GHistIndexMatrix.cut_Ptrs gmat)) * (Z.of_nat (length rows) + 1)
    < 2 ^ 64
}.

(** A dense matrix that the threshold leaves dense: [gmat] says that it is
    dense, it has an entry for every feature in every row, the threshold
    makes no column sparse, and its index has the width that
    [SetTypeSize] chooses.  There are fewer than 2^32 cut pointers, one
    more than there are features. *)
Record all_dense (gmat : GHistIndexMatrix.t) (sparse_threshold : spec_float) : Prop := {
  ad_dense : GHistIndexMatrix.IsDense gmat = true;
  ad_cuts : 1 <= Z.of_nat (length (GHistIndexMatrix.cut_Ptrs gmat)) < 2 ^ 32;
  ad_rows : (1 <= length (GHistIndexMatrix.row_ptr gmat))%nat;
  ad_elements :
    GHistIndexMatrix.row_ptr gmat !! (length (GHistIndexMatrix.row_ptr gmat) - 1)%nat =
    Some (Z.of_nat ((length (GHistIndexMatrix.cut_Ptrs gmat) - 1) *
                    (length (GHistIndexMatrix.row_ptr gmat) - 1)));
  ad_counts :
    length (GHistIndexMatrix.GetFeatureCounts gmat
              (replicate (length (GHistIndexMatrix.cut_Ptrs gmat) - 1) 0)) =
    (length (GHistIndexMatrix.cut_Ptrs gmat) - 1)%nat;
  ad_classified :
    Forall (fun count =>
              0 <= count /\
              SFltb (to_double count)
                    (SFmul 53 1024 sparse_threshold
                       (to_double (Z.of_nat (length (GHistIndexMatrix.row_ptr gmat) - 1))))
              = false)
           (GHistIndexMatrix.GetFeatureCounts gmat
              (replicate (length (GHistIndexMatrix.cut_Ptrs gmat) - 1) 0));
  ad_width :
    GHistIndexMatrix.index_GetBinTypeSize gmat =
    SetTypeSize (GHistIndexMatrix.max_num_bins gmat);
  ad_index :
    ((length (GHistIndexMatrix.cut_Ptrs gmat) - 1) *
     (length (GHistIndexMatrix.row_ptr gmat) - 1) *
     Z.to_nat (width (GHistIndexMatrix.index_GetBinTypeSize gmat))
     <= length (GHistIndexMatrix.index_data gmat))%nat;
  ad_fits :
    4 * Z.of_nat (length (GHistIndexMatrix.cut_Ptrs gmat)) *
    Z.of_nat (length (GHistIndexMatrix.row_ptr gmat)) < 2 ^ 64
}.

(** [assign_bin(bin_id, rid, fid)] for each of a list of entries. *)
Fixpoint assign_each {St : Type} (assign_bin : Z -> Z -> Z -> St -> result St)
    (es : list (Z * Z * Z)) (s : St) : result St :=
  match es with
  | [] => Ok s
  | e :: es' => let* s' := assign_bin e.2 e.1.1 e.1.2 s in assign_each assign_bin es' s'
  end.

(** The rows and the bins of the entries of a feature. *)
Fixpoint entries_of (fid : Z) (es : list (Z * Z * Z)) : list (Z * Z) :=
  match es with
  | [] => []
  | e :: es' =>
      if e.1.2 =? fid then (e.1.1, e.2) :: entries_of fid es' else entries_of fid es'
  end.

(** Where the column of a feature begins: the sizes of the columns before
    it, added up. *)
Definition column_offset (nrow : Z) (m : ColumnMatrix.t) (fid : Z) : Z :=
  sum_of (take (Z.to_nat fid)
               (column_sizes nrow (ColumnMatrix.type_ m) (ColumnMatrix.feature_counts_ m))).

(** What [SetIndex<T>] stores for a bin of a feature whose bins begin at
    [base]. *)
Definition local_bin (w : nat) (base bin : Z) : Z :=
  uint32_t_wrap (bin - base) mod 256 ^ Z.of_nat w.

(** [m] is laid out as [m1]: they differ by what [index_], [row_ind_] and
    [missing_flags_] hold, at most. *)
Record same_layout (m1 m : ColumnMatrix.t) : Prop := {
  sl_type : ColumnMatrix.type_ m = ColumnMatrix.type_ m1;
  sl_offsets : ColumnMatrix.feature_offsets_ m = ColumnMatrix.feature_offsets_ m1;
  sl_base : ColumnMatrix.index_base_ m = ColumnMatrix.index_base_ m1;
  sl_size : ColumnMatrix.bins_type_size_ m = ColumnMatrix.bins_type_size_ m1;
  sl_any : ColumnMatrix.any_missing_ m = ColumnMatrix.any_missing_ m1;
  sl_counts : ColumnMatrix.feature_counts_ m = ColumnMatrix.feature_counts_ m1;
  sl_index_length : length (ColumnMatrix.index_ m) = length (ColumnMatrix.index_ m1);
  sl_row_length : length (ColumnMatrix.row_ind_ m) = length (ColumnMatrix.row_ind_ m1);
  sl_flag_length :
    length (ColumnMatrix.missing_flags_ m) = length (ColumnMatrix.missing_flags_ m1)
}.

(** The matrix [m1] has room for the entries [es] in columns of integers
    of [w] bytes: its offsets are those of [Init] for [nrow] rows, its
    vectors have the sizes that [Init] gives them, no entry comes twice,
    the count of a sparse feature covers the entries of the feature, and
    the number of the features plus one is a [bst_feature_t]. *)
Record laid_out (w : nat) (nrow : Z) (m1 : ColumnMatrix.t) (es : list (Z * Z * Z))
  : Prop := {
  lo_counts_length :
    length (ColumnMatrix.type_ m1) = length (ColumnMatrix.feature_counts_ m1);
  lo_nrow : 0 <= nrow;
  lo_counts : Forall (fun c => 0 <= c) (ColumnMatrix.feature_counts_ m1);
  lo_total :
    sum_of (column_sizes nrow (ColumnMatrix.type_ m1) (ColumnMatrix.feature_counts_ m1))
    < 2 ^ 64;
  lo_offsets :
    ColumnMatrix.feature_offsets_ m1 =
    offsets_of nrow (ColumnMatrix.type_ m1) (ColumnMatrix.feature_counts_ m1);
  lo_base : (length (ColumnMatrix.type_ m1) <= length (ColumnMatrix.index_base_ m1))%nat;
  lo_index :
    Z.of_nat (length (ColumnMatrix.index_ m1)) =
    sum_of (column_sizes nrow (ColumnMatrix.type_ m1) (ColumnMatrix.feature_counts_ m1))
    * Z.of_nat w;
  lo_bytes :
    sum_of (column_sizes nrow (ColumnMatrix.type_ m1) (ColumnMatrix.feature_counts_ m1))
    * Z.of_nat w < 2 ^ 64;
  lo_rows :
    (exists fid, ColumnMatrix.type_ m1 !! fid = Some kSparseColumn) ->
    Z.of_nat (length (ColumnMatrix.row_ind_ m1)) =
    sum_of (column_sizes nrow (ColumnMatrix.type_ m1) (ColumnMatrix.feature_counts_ m1));
  lo_flags :
    Z.of_nat (length (ColumnMatrix.missing_flags_ m1)) =
    sum_of (column_sizes nrow (ColumnMatrix.type_ m1) (ColumnMatrix.feature_counts_ m1));
  lo_keys : NoDup (map fst es);
  lo_entries :
    Forall (fun e => 0 <= e.1.1 < nrow /\
                     0 <= e.1.2 < Z.of_nat (length (ColumnMatrix.type_ m1))) es;
  lo_fit : forall fid count,
    0 <= fid ->
    ColumnMatrix.type_ m1 !! Z.to_nat fid = Some kSparseColumn ->
    ColumnMatrix.feature_counts_ m1 !! Z.to_nat fid = Some count ->
    Z.of_nat (length (entries_of fid es)) <= count;
  lo_features : Z.of_nat (length (ColumnMatrix.type_ m1)) < 2 ^ 32 - 1
}.

(** The state of [SetIndex<T>] on the matrix [m1] when the entries [done]
    have been assigned: the entries of a sparse feature stand in its
    column in the order of their assignment, with their rows; an entry of
    a dense feature stands at its row, where the flag is cleared; the
    other flags of dense columns are as they were. *)
Record filled (w : nat) (nrow : Z) (m1 : ColumnMatrix.t) (done : list (Z * Z * Z))
    (s : ColumnMatrix.t * list Z) : Prop := {
  fi_type : ColumnMatrix.type_ s.1 = ColumnMatrix.type_ m1;
  fi_offsets : ColumnMatrix.feature_offsets_ s.1 = ColumnMatrix.feature_offsets_ m1;
  fi_base : ColumnMatrix.index_base_ s.1 = ColumnMatrix.index_base_ m1;
  fi_size : ColumnMatrix.bins_type_size_ s.1 = ColumnMatrix.bins_type_size_ m1;
  fi_any : ColumnMatrix.any_missing_ s.1 = ColumnMatrix.any_missing_ m1;
  fi_counts : ColumnMatrix.feature_counts_ s.1 = ColumnMatrix.feature_counts_ m1;
  fi_index_length : length (ColumnMatrix.index_ s.1) = length (ColumnMatrix.index_ m1);
  fi_row_length : length (ColumnMatrix.row_ind_ s.1) = length (ColumnMatrix.row_ind_ m1);
  fi_flag_length :
    length (ColumnMatrix.missing_flags_ s.1) = length (ColumnMatrix.missing_flags_ m1);
  fi_nonzeros_length : length s.2 = length (ColumnMatrix.type_ m1);
  fi_nonzeros : forall fid,
    0 <= fid ->
    ColumnMatrix.type_ m1 !! Z.to_nat fid = Some kSparseColumn ->
    s.2 !! Z.to_nat fid = Some (Z.of_nat (length (entries_of fid done)));
  fi_sparse : forall fid k rid bin base,
    0 <= fid ->
    ColumnMatrix.type_ m1 !! Z.to_nat fid = Some kSparseColumn ->
    ColumnMatrix.index_base_ m1 !! Z.to_nat fid = Some base ->
    entries_of fid done !! k = Some (rid, bin) ->
    ColumnMatrix.row_ind_ s.1 !! Z.to_nat (column_offset nrow m1 fid + Z.of_nat k)
      = Some rid /\
    cell w (ColumnMatrix.index_ s.1) (Z.to_nat (column_offset nrow m1 fid + Z.of_nat k))
      = local_bin w base bin;
  fi_dense : forall fid rid bin base,
    0 <= fid ->
    ColumnMatrix.type_ m1 !! Z.to_nat fid = Some kDenseColumn ->
    ColumnMatrix.index_base_ m1 !! Z.to_nat fid = Some base ->
    elem_of (rid, fid, bin) done ->
    ColumnMatrix.missing_flags_ s.1 !! Z.to_nat (column_offset nrow m1 fid + rid)
      = Some false /\
    cell w (ColumnMatrix.index_ s.1) (Z.to_nat (column_offset nrow m1 fid + rid))
      = local_bin w base bin;
  fi_missing : forall fid rid,
    0 <= fid ->
    ColumnMatrix.type_ m1 !! Z.to_nat fid = Some kDenseColumn ->
    0 <= rid < nrow ->
    (forall bin, ~ elem_of (rid, fid, bin) done) ->
    ColumnMatrix.missing_flags_ s.1 !! Z.to_nat (column_offset nrow m1 fid + rid)
      = ColumnMatrix.missing_flags_ m1 !! Z.to_nat (column_offset nrow m1 fid + rid)
}.

(** ** Examples *)

(** Two ranks whose 32-bit sum overflows. *)
Definition sum_rank0 : AllreduceRequest.t :=
  AllreduceRequest.mk 0 0 (store 4 2147483647) INT SUM.
Definition sum_rank1 : AllreduceRequest.t :=
  AllreduceRequest.mk 0 1 (store 4 1) INT SUM.

(** Three ranks of a gather with payloads of two bytes. *)
Definition gather_rank0 : AllgatherRequest.t := AllgatherRequest.mk 0 0 [x41; x42].
Definition gather_rank1 : AllgatherRequest.t := AllgatherRequest.mk 0 1 [x61; x62].
Definition gather_rank2 : AllgatherRequest.t := AllgatherRequest.mk 0 2 [x7a; x7b].

(** Four ranks, rank 2 the root, which is the last to arrive. *)
Definition four_payloads : list bytes := [[x61]; [x62]; [x72]; [x64]].

(** Two ranks of round 0, and a call that has come in for round 1. *)
Definition pair_rank0 : rpc := Broadcast (BroadcastRequest.mk 0 0 [x70] 0).
Definition pair_rank1 : rpc := Broadcast (BroadcastRequest.mk 0 1 [x71] 0).
Definition early_rank0 : rpc := Broadcast (BroadcastRequest.mk 1 0 [x73] 0).

(** Both ranks have arrived and rank 1, the last, has its reply. *)
Definition pair_draining : server := {|
  service := {| world_size_ := 2; sequence_number_ := 0; received_ := 2; sent_ := 1;
                buffer_ := [x70] |};
  calls := [(pair_rank0, WaitAll); (pair_rank1, Replied [x70]); (early_rank0, WaitSequence)]
|}.

(** Rank 0 has its reply as well and the round is retired. *)
Definition pair_retired : server := {|
  service := fresh 2 1;
  calls := [(pair_rank0, Replied [x70]); (pair_rank1, Replied [x70]);
            (early_rank0, WaitSequence)]
|}.

(** A gather, a reduce and a broadcast call to a server of one rank. *)
Definition lone_calls : list rpc :=
  [Allgather (AllgatherRequest.mk 0 0 [x67]);
   Allreduce (AllreduceRequest.mk 0 0 [x01; x00; x00; x00] INT SUM);
   Broadcast (BroadcastRequest.mk 0 0 [x62] 0)].

(** A request whose element type names no constant, and one whose
    operation names none. *)
Definition untyped_request : AllreduceRequest.t :=
  AllreduceRequest.mk 0 0 [x01; x00; x00; x00] (DataType_unrecognized 99) SUM.
Definition unknown_operation_request : AllreduceRequest.t :=
  AllreduceRequest.mk 0 1 [x02; x00; x00; x00] INT (ReduceOperation_unrecognized 7).

Definition odd_buffer : bytes := store 4 5 ++ [x09].

Definition min_rank0 : AllreduceRequest.t :=
  AllreduceRequest.mk 0 0 (store 4 (-3) ++ store 4 8) INT MIN.
Definition min_rank1 : AllreduceRequest.t :=
  AllreduceRequest.mk 0 1 (store 4 2 ++ store 4 (-8)) INT MIN.

Definition nan_first : bytes := store 4 0x7FC00000.
Definition one_second : bytes := store 4 0x3F800000.

Definition gather_rank3 : AllgatherRequest.t := AllgatherRequest.mk 0 3 [x7a; x7b].
Definition gather_rank5 : AllgatherRequest.t := AllgatherRequest.mk 0 5 [x7a; x7b].
Definition gather_rank1_again : AllgatherRequest.t := AllgatherRequest.mk 0 1 [x63; x64].

(** Four Broadcast calls for round 0 in a world of two ranks. *)
Definition crowd : list rpc :=
  [Broadcast (BroadcastRequest.mk 0 0 [x70] 0);
   Broadcast (BroadcastRequest.mk 0 1 [x71] 0);
   Broadcast (BroadcastRequest.mk 0 1 [x72] 0);
   Broadcast (BroadcastRequest.mk 0 0 [x73] 0)].

(** The third has been let in while the first was still waiting. *)
Definition crowd_overfull : server := {|
  service := {| world_size_ := 2; sequence_number_ := 0; received_ := 3; sent_ := 1;
                buffer_ := [x70] |};
  calls := [(Broadcast (BroadcastRequest.mk 0 0 [x70] 0), WaitAll);
            (Broadcast (BroadcastRequest.mk 0 1 [x71] 0), Replied [x70]);
            (Broadcast (BroadcastRequest.mk 0 1 [x72] 0), WaitAll);
            (Broadcast (BroadcastRequest.mk 0 0 [x73] 0), Entered)]
|}.

(** The fourth has been let in as well, and the first and the third have
    been woken. *)
Definition crowd_stuck : server := {|
  service := {| world_size_ := 2; sequence_number_ := 0; received_ := 4; sent_ := 1;
                buffer_ := [x73] |};
  calls := [(Broadcast (BroadcastRequest.mk 0 0 [x70] 0), WaitAll);
            (Broadcast (BroadcastRequest.mk 0 1 [x71] 0), Replied [x70]);
            (Broadcast (BroadcastRequest.mk 0 1 [x72] 0), WaitAll);
            (Broadcast (BroadcastRequest.mk 0 0 [x73] 0), WaitAll)]
|}.

(** Two ranks of a gather, and a call of a rank beyond the world with a
    payload of another size. *)
Definition gather_trio : list rpc :=
  [Allgather (AllgatherRequest.mk 0 0 [x61]);
   Allgather (AllgatherRequest.mk 0 1 [x62]);
   Allgather (AllgatherRequest.mk 0 5 [x63; x63])].

(** Two ranks that both name rank 1 as the root, neither of them rank 1. *)
Definition rootless_rank0 : BroadcastRequest.t := BroadcastRequest.mk 0 0 [x70] 1.
Definition rootless_rank2 : BroadcastRequest.t := BroadcastRequest.mk 0 2 [x72] 1.

(** Rows 2, 5 and 9 of a feature whose bins start at 100. *)
Definition sparse_example : SparseColumn.t :=
  SparseColumn.mk (Column.mk kSparseColumn [3; 0; 7] 100) [2; 5; 9].

(** Three rows over two features whose bins begin at 0 and at 3; row 1
    has no entry for feature 0.  With the threshold 0.8 feature 0, with
    two entries in three rows, becomes a sparse column and feature 1 a
    dense one. *)
Definition three_rows : list (list (Z * Z)) :=
  [[(0, 1); (1, 5)]; [(1, 4)]; [(0, 2); (1, 3)]].

Definition three_rows_gmat : GHistIndexMatrix.t :=
  GHistIndexMatrix.mk [0; 3; 6] [0; 2; 3; 5]
    (store 4 1 ++ store 4 5 ++ store 4 4 ++ store 4 2 ++ store 4 3)
    kUint32BinsTypeSize 3 false (fun _ => [2; 3]) 3.

Definition three_rows_page : SparsePage.t := SparsePage.mk [0; 1; 1; 0; 1] [0; 2; 3; 5].

Definition threshold_four_fifths : spec_float := S754_finite false 7205759403792794 (-53).

(** Two rows over two features, every bin in one byte from the cut of its
    feature; with the threshold 0.8 both columns are dense. *)
Definition two_dense_rows_gmat : GHistIndexMatrix.t :=
  GHistIndexMatrix.mk [0; 3; 6] [0; 2; 4] [x01; x02; x00; x01]
    kUint8BinsTypeSize 3 true (fun _ => [2; 2]) 2.

Definition no_page : SparsePage.t := SparsePage.mk [] [].

Definition new_matrix : ColumnMatrix.t :=
  ColumnMatrix.mk [] [] [] [] [] [] [] kUint8BinsTypeSize false.

(** * Part III: the properties *)

(** ** The embedding on examples *)

Example float_plus_exact : std_plus T_float 0x3FC00000 0x40100000 = 0x40700000.
Proof. reflexivity. Qed.

Example float_plus_overflows : std_plus T_float 0x7F7FFFFF 0x7F7FFFFF = 0x7F800000.
Proof. reflexivity. Qed.

Example float_plus_subnormal : std_plus T_float 0x007FFFFF 0x00000001 = 0x00800000.
Proof. reflexivity. Qed.

Example double_plus :
  std_plus T_double 0x3FF0000000000000 0x4000000000000000 = 0x4008000000000000.
Proof. reflexivity. Qed.

Example float_plus_not_a_number :
  std_plus T_float 0x7F800000 0xFF800000 = 0xFFC00000 /\
  std_plus T_float 0x7F800001 0x3F800000 = 0x7FC00001 /\
  std_plus T_float 0x3F800000 0xFFC00002 = 0xFFC00002 /\
  std_plus T_double 0x7FF0000000000000 0xFFF0000000000000 = 0xFFF8000000000000.
Proof. repeat split; reflexivity. Qed.

Example float_max : std_max T_float 0xBF800000 0x3F800000 = 0x3F800000.
Proof. reflexivity. Qed.

Example float_max_keeps_first_nan :
  std_max T_float 0x7FC00000 0x3F800000 = 0x7FC00000 /\
  std_max T_float 0x3F800000 0x7FC00000 = 0x3F800000.
Proof. split; reflexivity. Qed.

Example int_max_is_signed :
  std_max T_int 0xFFFFFFFF 1 = 1 /\ std_max T_unsigned_int 0xFFFFFFFF 1 = 0xFFFFFFFF.
Proof. split; reflexivity. Qed.

Example char_plus_wraps : value T_char (std_plus T_char 0x7F 1) = -128.
Proof. reflexivity. Qed.

Example Accumulate_int_sum :
  Accumulate (store 4 5 ++ store 4 (-1)) (store 4 7 ++ store 4 3) INT SUM
  = Normal (store 4 12 ++ store 4 2).
Proof. reflexivity. Qed.

Example Accumulate_keeps_the_tail :
  Accumulate (store 4 5 ++ [x09]) (store 4 7 ++ [x03]) INT SUM = Normal (store 4 12 ++ [x09]).
Proof. reflexivity. Qed.

Example Accumulate_short_input :
  Accumulate (store 4 5 ++ store 4 1) (store 4 7) INT SUM = Undefined.
Proof. reflexivity. Qed.

Example Accumulate_reads_the_null_character :
  Accumulate [x01; x02] [x05] CHAR SUM = Normal [x06; x02] /\
  Accumulate [x01; x02; x03] [x05] CHAR SUM = Undefined.
Proof. split; reflexivity. Qed.

Example Allgather_first_of_three :
  AllgatherFunctor 3 gather_rank1 [] = Normal [x00; x00; x61; x62; x00; x00].
Proof. reflexivity. Qed.

Example Allgather_rank_beyond_world :
  AllgatherFunctor 3 (AllgatherRequest.mk 0 5 [x61; x62]) []
  = Throws out_of_range [x00; x00; x00; x00; x00; x00].
Proof. reflexivity. Qed.

Example Allgather_negative_rank :
  AllgatherFunctor 3 (AllgatherRequest.mk 0 (-1) [x61; x62]) []
  = Throws out_of_range [x00; x00; x00; x00; x00; x00].
Proof. reflexivity. Qed.

Example pair_round_drains :
  run [2; 0; 1]%nat (start 2 0 [pair_rank0; pair_rank1; early_rank0]) = Some pair_draining.
Proof. reflexivity. Qed.

Example pair_round_retires : step 0 pair_draining = Some pair_retired.
Proof. reflexivity. Qed.

Example four_ranks_root_last :
  run [0; 1; 3; 2; 2; 3; 1; 0]%nat (start 4 0 (broadcast_round 0 2 four_payloads)) =
  Some {| service := fresh 4 1;
          calls := map (fun call => (call, Replied [x72])) (broadcast_round 0 2 four_payloads) |}.
Proof. reflexivity. Qed.

Example next_round_is_let_in :
  step 2 pair_retired =
  Some {| service := {| world_size_ := 2; sequence_number_ := 1; received_ := 1;
                        sent_ := 0; buffer_ := [x73] |};
          calls := [(pair_rank0, Replied [x70]); (pair_rank1, Replied [x70]);
                    (early_rank0, WaitAll)] |}.
Proof. reflexivity. Qed.

(** ** Bytes *)

Lemma byte_val_range b : 0 <= byte_val b < 256.
Proof.
  unfold byte_val. pose proof (Byte.to_N_bounded b) as Hb. lia.
Qed.

Lemma byte_val_of z : byte_val (byte_of z) = z mod 256.
Proof.
  unfold byte_of, byte_val.
  assert (Hr : 0 <= z mod 256 < 256) by (apply Z.mod_pos_bound; lia).
  destruct (Byte.of_N (Z.to_N (z mod 256))) as [b|] eqn:E.
  - apply Byte.to_of_N in E. rewrite E. lia.
  - apply Byte.of_N_None_iff in E. lia.
Qed.

Lemma byte_of_val b : byte_of (byte_val b) = b.
Proof.
  unfold byte_of. rewrite Z.mod_small by apply byte_val_range.
  unfold byte_val. rewrite N2Z.id, Byte.of_to_N. reflexivity.
Qed.

Lemma byte_of_congr z z' : z mod 256 = z' mod 256 -> byte_of z = byte_of z'.
Proof. unfold byte_of. intros ->. reflexivity. Qed.

Lemma length_store w v : length (store w v) = w.
Proof. revert v. induction w as [|w IH]; intros v; simpl; [|rewrite IH]; reflexivity. Qed.

Lemma load_range bs : 0 <= load bs < 256 ^ size bs.
Proof.
  unfold size. induction bs as [|b bs IH]; simpl load.
  - simpl. lia.
  - rewrite length_cons, Nat2Z.inj_succ, Z.pow_succ_r by lia.
    pose proof (byte_val_range b). lia.
Qed.

Lemma load_store w v : load (store w v) = v mod 256 ^ Z.of_nat w.
Proof.
  revert v. induction w as [|w IH]; intros v.
  - simpl. rewrite Z.mod_1_r. reflexivity.
  - cbn [store load]. rewrite IH, byte_val_of, Nat2Z.inj_succ, Z.pow_succ_r by lia.
    rewrite (Z.rem_mul_r v 256 (256 ^ Z.of_nat w)) by lia. reflexivity.
Qed.

Lemma store_load bs : store (length bs) (load bs) = bs.
Proof.
  induction bs as [|b bs IH]; [reflexivity|].
  cbn [length store load]. pose proof (byte_val_range b) as Hb. f_equal.
  - rewrite <- (byte_of_val b) at 2. apply byte_of_congr.
    rewrite (Z.mul_comm 256), Z.mod_add by lia. reflexivity.
  - replace ((byte_val b + 256 * load bs) / 256) with (load bs); [exact IH|].
    rewrite (Z.mul_comm 256), Z.div_add by lia.
    rewrite Z.div_small by lia. lia.
Qed.

(** ** Numbers of the binary floating-point formats *)

(** The number of binary digits of a positive number. *)
Lemma digits2_pos_bounds p :
  2 ^ (Zpos (digits2_pos p) - 1) <= Zpos p < 2 ^ Zpos (digits2_pos p).
Proof.
  assert (Hstep : forall d, 0 < d -> 2 ^ (Z.succ d - 1) = 2 * 2 ^ (d - 1) /\
                                      2 ^ Z.succ d = 2 * (2 * 2 ^ (d - 1))).
  { intros d Hd. replace (Z.succ d - 1) with (1 + (d - 1)) by lia.
    replace (Z.succ d) with (2 + (d - 1)) by lia.
    rewrite !Z.pow_add_r by lia. change (2 ^ 1) with 2. change (2 ^ 2) with 4. lia. }
  induction p as [p IH|p IH|]; cbn [digits2_pos]; [| |cbn; lia].
  - rewrite Pos2Z.inj_succ. destruct (Hstep (Zpos (digits2_pos p)) ltac:(lia)) as [-> ->].
    replace (2 ^ Zpos (digits2_pos p)) with (2 * 2 ^ (Zpos (digits2_pos p) - 1)) in IH
      by (replace (Zpos (digits2_pos p)) with (1 + (Zpos (digits2_pos p) - 1)) at 2 by lia;
          rewrite Z.pow_add_r by lia; reflexivity).
    lia.
  - rewrite Pos2Z.inj_succ. destruct (Hstep (Zpos (digits2_pos p)) ltac:(lia)) as [-> ->].
    replace (2 ^ Zpos (digits2_pos p)) with (2 * 2 ^ (Zpos (digits2_pos p) - 1)) in IH
      by (replace (Zpos (digits2_pos p)) with (1 + (Zpos (digits2_pos p) - 1)) at 2 by lia;
          rewrite Z.pow_add_r by lia; reflexivity).
    lia.
Qed.

Lemma digits2_pos_unique p d :
  2 ^ (d - 1) <= Zpos p < 2 ^ d -> Zpos (digits2_pos p) = d.
Proof.
  intros [Hlo Hhi]. pose proof (digits2_pos_bounds p) as [Hlo' Hhi'].
  assert (0 < d).
  { destruct (Z.lt_ge_cases 0 d); [assumption|].
    destruct (Z.eq_dec d 0) as [->|]; [cbn in Hhi; lia|].
    rewrite Z.pow_neg_r in Hhi by lia. lia. }
  assert (d - 1 < Zpos (digits2_pos p)).
  { apply (Z.pow_lt_mono_r_iff 2); lia. }
  assert (Zpos (digits2_pos p) - 1 < d).
  { apply (Z.pow_lt_mono_r_iff 2); lia. }
  lia.
Qed.

(** A format with [prec] bits of precision, two at least, and exponents
    below [emax]. *)
Section Format.
Variables prec emax : Z.
Hypothesis Hprec : 2 <= prec.
Hypothesis Hemax : prec < emax.

(** The finite numbers of the format: a mantissa of [prec] digits, or a
    smaller one at the least exponent. *)
Lemma bounded_iff m e :
  bounded prec emax m e = true <->
  (emin prec emax <= e <= emax - prec /\
   ((2 ^ (prec - 1) <= Zpos m < 2 ^ prec) \/
    (Zpos m < 2 ^ (prec - 1) /\ e = emin prec emax))).
Proof using All.
  unfold bounded, canonical_mantissa, fexp, emin.
  pose proof (digits2_pos_bounds m) as [Hlo Hhi].
  set (d := Zpos (digits2_pos m)) in *.
  assert (Hd : 0 < d) by (subst d; lia).
  rewrite andb_true_iff, Z.eqb_eq, Z.leb_le. split.
  - intros [Hc He]. split; [lia|].
    destruct (Z.le_gt_cases prec d) as [Hpd|Hpd].
    + left. assert (d = prec) by lia. subst d. rewrite <- H in *. lia.
    + right. split; [|lia].
      eapply Z.lt_le_trans; [exact Hhi|]. apply Z.pow_le_mono_r; lia.
  - intros [He [[Hl Hh]|[Hs Hm]]].
    + assert (d = prec) by (apply digits2_pos_unique; lia). lia.
    + assert (d - 1 < prec - 1) by (apply (Z.pow_lt_mono_r_iff 2); lia). lia.
Qed.

(** Decoding gives a number of the format. *)
Lemma valid_bits_to_float bits :
  valid_binary prec emax (bits_to_float prec emax bits) = true.
Proof using All.
  unfold bits_to_float.
  set (mw := prec - 1).
  assert (Hpow : 0 < 2 ^ mw) by (apply Z.pow_pos_nonneg; lia).
  pose proof (Z.mod_pos_bound bits (2 ^ mw) Hpow) as Hm.
  pose proof (Z.mod_pos_bound (bits / 2 ^ mw) (2 * emax) ltac:(lia)) as He.
  set (m := bits mod 2 ^ mw) in *. set (e := (bits / 2 ^ mw) mod (2 * emax)) in *.
  assert (Hp : 2 ^ prec = 2 * 2 ^ mw).
  { unfold mw. replace prec with (prec - 1 + 1) at 1 by lia.
    rewrite Z.pow_add_r, Z.pow_1_r by lia. lia. }
  destruct (Z.eqb_spec e 0) as [E0|E0].
  - destruct m as [|p|p] eqn:Em; try reflexivity. cbn [valid_binary].
    apply bounded_iff. unfold emin. split; [lia|]. right. fold mw. lia.
  - destruct (Z.eqb_spec e (2 * emax - 1)) as [E1|E1].
    + destruct (m =? 0); reflexivity.
    + destruct (m + 2 ^ mw) as [|p|p] eqn:Em; try reflexivity. cbn [valid_binary].
      apply bounded_iff. unfold emin. split; [lia|]. left. fold mw. lia.
Qed.

(** The three fields of the bits: the fraction, the exponent, the sign. *)
Lemma fields (s : bool) (E M : Z) :
  0 <= M < 2 ^ (prec - 1) -> 0 <= E < 2 * emax ->
  let bits := (if s then 2 ^ (prec - 1) * (2 * emax) else 0) + E * 2 ^ (prec - 1) + M in
  bits mod 2 ^ (prec - 1) = M /\
  (bits / 2 ^ (prec - 1)) mod (2 * emax) = E /\
  Z.odd (bits / 2 ^ (prec - 1) / (2 * emax)) = s.
Proof using All.
  intros HM HE bits.
  set (A := 2 ^ (prec - 1)) in *. assert (HA : 0 < A) by (apply Z.pow_pos_nonneg; lia).
  set (S := if s then 1 else 0).
  assert (Hb : bits = (S * (2 * emax) + E) * A + M) by (subst bits S; destruct s; lia).
  assert (Hdiv : bits / A = S * (2 * emax) + E).
  { rewrite Hb. symmetry. apply (Z.div_unique_pos _ _ _ M); lia. }
  split; [|split].
  - rewrite Hb. symmetry. apply (Z.mod_unique_pos _ _ (S * (2 * emax) + E)); lia.
  - rewrite Hdiv. symmetry. apply (Z.mod_unique_pos _ _ S); lia.
  - rewrite Hdiv.
    replace ((S * (2 * emax) + E) / (2 * emax)) with S
      by (apply (Z.div_unique_pos _ _ _ E); lia).
    subst S. destruct s; reflexivity.
Qed.

(** What is encoded is decoded as it was, and lies within the bits of the
    format. *)
Lemma bits_to_float_to_bits x :
  valid_binary prec emax x = true ->
  bits_to_float prec emax (float_to_bits prec emax x) = x /\
  0 <= float_to_bits prec emax x < 2 * (2 ^ (prec - 1) * (2 * emax)).
Proof using All.
  intros Hv.
  set (A := 2 ^ (prec - 1)). assert (HA : 0 < A) by (apply Z.pow_pos_nonneg; lia).
  assert (Hp : 2 ^ prec = 2 * A).
  { unfold A. replace prec with (prec - 1 + 1) at 1 by lia.
    rewrite Z.pow_add_r, Z.pow_1_r by lia. lia. }
  assert (Hrange : forall (s : bool) E M, 0 <= M < A -> 0 <= E < 2 * emax ->
            0 <= (if s then A * (2 * emax) else 0) + E * A + M < 2 * (A * (2 * emax)))
    by (intros s E M HM HE; destruct s; nia).
  destruct x as [s|s| |s m e].
  3: { assert (Hq : 0 < 2 ^ (prec - 2) < A)
         by (split; [apply Z.pow_pos_nonneg; lia|apply Z.pow_lt_mono_r; lia]).
       pose proof (fields true (2 * emax - 1) (2 ^ (prec - 2)) ltac:(fold A; lia) ltac:(lia))
         as (Hm & He & Hs).
       cbn zeta in Hm, He, Hs. fold A in Hm, He, Hs.
       replace (float_to_bits prec emax S754_nan)
         with (A * (2 * emax) + (2 * emax - 1) * A + 2 ^ (prec - 2))
         by (unfold float_to_bits; fold A; replace (prec - 1 - 1) with (prec - 2) by lia;
             reflexivity).
       split; [|apply (Hrange true); lia].
       unfold bits_to_float. fold A. rewrite Hm, He.
       destruct (Z.eqb_spec (2 * emax - 1) 0); [lia|]. rewrite Z.eqb_refl.
       destruct (Z.eqb_spec (2 ^ (prec - 2)) 0); [lia|reflexivity]. }
  - pose proof (fields s 0 0 ltac:(fold A; lia) ltac:(lia)) as (Hm & He & Hs).
    cbn zeta in Hm, He, Hs. fold A in Hm, He, Hs.
    replace (float_to_bits prec emax (S754_zero s))
      with ((if s then A * (2 * emax) else 0) + 0 * A + 0)
      by (unfold float_to_bits; fold A; lia).
    split; [|apply Hrange; lia].
    unfold bits_to_float. fold A. rewrite Hm, He, Hs. reflexivity.
  - pose proof (fields s (2 * emax - 1) 0 ltac:(fold A; lia) ltac:(lia)) as (Hm & He & Hs).
    cbn zeta in Hm, He, Hs. fold A in Hm, He, Hs.
    replace (float_to_bits prec emax (S754_infinity s))
      with ((if s then A * (2 * emax) else 0) + (2 * emax - 1) * A + 0)
      by (unfold float_to_bits; fold A; lia).
    split; [|apply Hrange; lia].
    unfold bits_to_float. fold A. rewrite Hm, He, Hs.
    destruct (Z.eqb_spec (2 * emax - 1) 0); [lia|]. rewrite Z.eqb_refl. reflexivity.
  - cbn [valid_binary] in Hv. apply bounded_iff in Hv as [He Hc]. fold A in Hc.
    unfold float_to_bits. fold A.
    destruct (Z.ltb_spec (Zpos m) A) as [Hsub|Hnorm].
    + destruct Hc as [Hc|[_ Hc]]; [lia|]. subst e.
      pose proof (fields s 0 (Zpos m) ltac:(fold A; lia) ltac:(lia)) as (Hm & He' & Hs).
      cbn zeta in Hm, He', Hs. fold A in Hm, He', Hs.
      replace ((if s then A * (2 * emax) else 0) + Zpos m)
        with ((if s then A * (2 * emax) else 0) + 0 * A + Zpos m) by lia.
      split; [|apply Hrange; lia].
      unfold bits_to_float. fold A. rewrite Hm, He', Hs. reflexivity.
    + destruct Hc as [Hc|[Hc _]]; [|lia].
      pose proof (fields s (e - emin prec emax + 1) (Zpos m - A)
                    ltac:(fold A; lia) ltac:(unfold emin in *; lia)) as (Hm & He' & Hs).
      cbn zeta in Hm, He', Hs. fold A in Hm, He', Hs.
      split; [|apply Hrange; unfold emin in *; lia].
      unfold bits_to_float. fold A. rewrite Hm, He', Hs.
      destruct (Z.eqb_spec (e - emin prec emax + 1) 0); [lia|].
      destruct (Z.eqb_spec (e - emin prec emax + 1) (2 * emax - 1));
        [unfold emin in *; lia|].
      replace (Zpos m - A + A) with (Zpos m) by lia. f_equal. lia.
Qed.

(** *** Rounding gives a number of the format *)

Lemma shr_1_m mrs : 0 <= shr_m mrs -> shr_m (shr_1 mrs) = shr_m mrs / 2.
Proof using Type.
  destruct mrs as [m r s]. cbn [shr_m]. intros Hm. rewrite <- Z.div2_div.
  destruct m as [|[p|p|]|p]; try reflexivity. lia.
Qed.

Lemma iter_pos_shr_1_m n : forall mrs,
  0 <= shr_m mrs ->
  shr_m (SpecFloat.iter_pos shr_1 n mrs) = shr_m mrs / 2 ^ Zpos n.
Proof using Type.
  assert (Hnn : forall a k, 0 <= a -> 0 <= a / 2 ^ Zpos k)
    by (intros a k Ha; apply Z.div_pos; [assumption|apply Z.pow_pos_nonneg; lia]).
  induction n as [n IH|n IH|]; intros mrs Hm; cbn [SpecFloat.iter_pos].
  - rewrite IH; rewrite IH; rewrite ?shr_1_m by assumption;
      try (apply Hnn || (apply Z.div_pos; lia)); try (apply Z.div_pos; lia).
    rewrite !Z.div_div by (try apply Z.pow_pos_nonneg; lia). f_equal.
    rewrite Pos2Z.inj_xI. rewrite <- Z.pow_add_r by lia.
    replace (2 * Zpos n + 1) with (1 + (Zpos n + Zpos n)) by lia.
    rewrite (Z.pow_add_r 2 1) by lia. reflexivity.
  - rewrite IH; rewrite IH; try assumption; try (apply Hnn; assumption).
    rewrite !Z.div_div by (try apply Z.pow_pos_nonneg; lia). f_equal.
    rewrite Pos2Z.inj_xO. rewrite <- Z.pow_add_r by lia. f_equal. lia.
  - rewrite shr_1_m by assumption. reflexivity.
Qed.

Lemma shr_m_e mrs e n :
  0 <= shr_m mrs -> 0 <= n ->
  shr_m (fst (shr mrs e n)) = shr_m mrs / 2 ^ n /\ snd (shr mrs e n) = e + n.
Proof using Type.
  intros Hm Hn. destruct n as [|p|p]; cbn [shr fst snd]; [| |lia].
  - rewrite Z.div_1_r. lia.
  - split; [apply iter_pos_shr_1_m; assumption|reflexivity].
Qed.

Lemma round_nearest_even_next mx lx :
  round_nearest_even mx lx = mx \/ round_nearest_even mx lx = mx + 1.
Proof using Type.
  destruct lx as [|[]]; cbn [round_nearest_even]; auto. destruct (Z.even mx); auto.
Qed.

Lemma Zdigits2_unique m d :
  0 < m -> 2 ^ (d - 1) <= m < 2 ^ d -> Zdigits2 m = d.
Proof using Type.
  intros Hm Hb. destruct m as [|p|p]; [lia| |lia]. apply digits2_pos_unique, Hb.
Qed.

Lemma pow_split a b : 0 <= a -> 0 <= b -> 2 ^ (a + b) = 2 ^ a * 2 ^ b.
Proof using Type. intros. apply Z.pow_add_r; assumption. Qed.

Lemma shr_fexp_rounded mz ez :
  ez <= fexp prec emax (Zpos (digits2_pos mz) + ez) ->
  forall mrs' e', shr_fexp prec emax (Zpos mz) ez loc_Exact = (mrs', e') ->
  rounded prec emax (round_nearest_even (shr_m mrs') (loc_of_shr_record mrs')) e'.
Proof using All.
  intros Hal mrs' e' Hshr. unfold shr_fexp in Hshr. cbn [Zdigits2 shr_record_of_loc] in Hshr.
  pose proof (digits2_pos_bounds mz) as [Hlo Hhi].
  set (d := Zpos (digits2_pos mz)) in *. assert (Hd : 0 < d) by (subst d; lia).
  set (n := fexp prec emax (d + ez) - ez) in *.
  assert (Hn : 0 <= n) by (subst n; lia).
  destruct (shr_m_e {| shr_m := Zpos mz; shr_r := false; shr_s := false |} ez n
              ltac:(cbn; lia) Hn) as [Hm He].
  rewrite Hshr in Hm, He. cbn [fst snd shr_m] in Hm, He.
  assert (Hpn : 0 < 2 ^ n) by (apply Z.pow_pos_nonneg; lia).
  assert (Hp1 : 0 < 2 ^ (prec - 1)) by (apply Z.pow_pos_nonneg; lia).
  assert (Hp : 2 ^ prec = 2 * 2 ^ (prec - 1)).
  { replace prec with (1 + (prec - 1)) at 1 by lia. rewrite pow_split by lia. reflexivity. }
  set (m1 := shr_m mrs') in *.
  assert (Hm1 : 0 <= m1) by (rewrite Hm; apply Z.div_pos; lia).
  assert (Inv : (2 ^ (prec - 1) <= m1 < 2 ^ prec /\ emin prec emax <= e') \/
                (0 <= m1 < 2 ^ (prec - 1) /\ e' = emin prec emax)).
  { unfold fexp in n.
    destruct (Z.max_spec (d + ez - prec) (emin prec emax)) as [[Hlt Hmax]|[Hge Hmax]].
    - (* the least exponent *)
      right. split; [|subst n; lia]. split; [assumption|]. rewrite Hm.
      apply Z.div_lt_upper_bound; [assumption|].
      eapply Z.lt_le_trans; [exact Hhi|]. rewrite <- pow_split by lia.
      apply Z.pow_le_mono_r; subst n; lia.
    - (* a normal number *)
      left. assert (Hnd : n = d - prec) by (subst n; lia). split; [|subst n; lia].
      rewrite Hm. split.
      + apply Z.div_le_lower_bound; [assumption|].
        rewrite Z.mul_comm, <- pow_split by lia.
        replace (prec - 1 + n) with (d - 1) by lia. exact Hlo.
      + apply Z.div_lt_upper_bound; [assumption|].
        rewrite <- pow_split by lia. replace (n + prec) with d by lia. exact Hhi. }
  unfold rounded.
  destruct (round_nearest_even_next m1 (loc_of_shr_record mrs')) as [-> | ->]; lia.
Qed.

(** Rounding a mantissa that has digits enough gives a number of the
    format, which is no NaN. *)
Lemma binary_round_aux_valid sx mz ez :
  ez <= fexp prec emax (Zpos (digits2_pos mz) + ez) ->
  valid_binary prec emax (binary_round_aux prec emax sx (Zpos mz) ez loc_Exact) = true /\
  binary_round_aux prec emax sx (Zpos mz) ez loc_Exact <> S754_nan.
Proof using All.
  intros Hal. unfold binary_round_aux.
  destruct (shr_fexp prec emax (Zpos mz) ez loc_Exact) as [mrs' e'] eqn:Hshr.
  pose proof (shr_fexp_rounded mz ez Hal mrs' e' Hshr) as Hr.
  set (m2 := round_nearest_even (shr_m mrs') (loc_of_shr_record mrs')) in *.
  assert (Hp1 : 0 < 2 ^ (prec - 1)) by (apply Z.pow_pos_nonneg; lia).
  assert (Hp : 2 ^ prec = 2 * 2 ^ (prec - 1)).
  { replace prec with (1 + (prec - 1)) at 1 by lia. rewrite pow_split by lia. reflexivity. }
  assert (Hpp : 2 ^ (prec + 1) = 2 * 2 ^ prec).
  { replace (prec + 1) with (1 + prec) by lia. rewrite pow_split by lia. reflexivity. }
  (* the second shift: by one position when the mantissa has become 2^prec *)
  assert (Hsecond : exists mrs'' e'',
            shr_fexp prec emax m2 e' loc_Exact = (mrs'', e'') /\
            ((shr_m mrs'' = 0 /\ True) \/
             (emin prec emax <= e'' /\
              ((2 ^ (prec - 1) <= shr_m mrs'' < 2 ^ prec) \/
               (0 < shr_m mrs'' < 2 ^ (prec - 1) /\ e'' = emin prec emax))))).
  { unfold shr_fexp. cbn [shr_record_of_loc].
    destruct (Z.eq_dec m2 0) as [Hz|Hnz].
    { destruct (shr _ _ _) as [mrs'' e''] eqn:E. exists mrs'', e''. split; [reflexivity|].
      left. split; [|exact I].
      destruct Hr as [[Hr _]|[_ He]]; [lia|].
      rewrite Hz in E. cbn [Zdigits2] in E. unfold fexp in E.
      replace (Z.max (0 + e' - prec) (emin prec emax) - e') with 0 in E by lia.
      cbn [shr] in E. injection E as <- <-. reflexivity. }
    destruct (Z.eq_dec m2 (2 ^ prec)) as [Htop|Hntop].
    { assert (He : emin prec emax <= e') by (destruct Hr as [[_ H]|[H _]]; lia).
      assert (Hdig : Zdigits2 m2 = prec + 1)
        by (apply Zdigits2_unique; [lia|]; replace (prec + 1 - 1) with prec by lia; lia).
      rewrite Hdig. unfold fexp.
      replace (Z.max (prec + 1 + e' - prec) (emin prec emax) - e') with 1 by lia.
      cbn [shr SpecFloat.iter_pos]. eexists _, _. split; [reflexivity|]. right. split; [lia|]. left.
      rewrite shr_1_m by (cbn; lia). cbn [shr_m]. rewrite Htop, Hp.
      rewrite Z.mul_comm, Z.div_mul by lia. lia. }
    destruct Hr as [[Hm He]|[Hm He]].
    - assert (Hdig : Zdigits2 m2 = prec) by (apply Zdigits2_unique; lia).
      rewrite Hdig. unfold fexp.
      replace (Z.max (prec + e' - prec) (emin prec emax) - e') with 0 by lia.
      cbn [shr]. eexists _, _. split; [reflexivity|]. right. cbn [shr_m]. split; [lia|].
      left. lia.
    - destruct (Z.eq_dec m2 (2 ^ (prec - 1))) as [Hmid|Hnmid].
      + assert (Hdig : Zdigits2 m2 = prec) by (apply Zdigits2_unique; lia).
        rewrite Hdig. unfold fexp.
        replace (Z.max (prec + e' - prec) (emin prec emax) - e') with 0 by lia.
        cbn [shr]. eexists _, _. split; [reflexivity|]. right. cbn [shr_m]. split; [lia|].
        left. lia.
      + destruct m2 as [|p|p] eqn:Em2; [lia| |lia].
        pose proof (digits2_pos_bounds p) as [Hlo Hhi]. cbn [Zdigits2].
        assert (Hdig : Zpos (digits2_pos p) - 1 < prec - 1)
          by (apply (Z.pow_lt_mono_r_iff 2); lia).
        unfold fexp.
        replace (Z.max (Zpos (digits2_pos p) + e' - prec) (emin prec emax) - e') with 0
          by lia.
        cbn [shr]. eexists _, _. split; [reflexivity|]. right. cbn [shr_m]. split; [lia|].
        right. lia. }
  destruct Hsecond as (mrs'' & e'' & -> & Hcases).
  destruct Hcases as [[Hz _]|[He Hm]].
  - rewrite Hz. split; [reflexivity|discriminate].
  - destruct (shr_m mrs'') as [|p|p] eqn:Em; [lia| |lia].
    destruct (Z.leb_spec e'' (emax - prec)); [|split; [reflexivity|discriminate]].
    split; [|discriminate]. cbn [valid_binary]. apply bounded_iff; [assumption..|].
    split; [lia|]. destruct Hm as [Hm|Hm]; [left|right]; lia.
Qed.

Lemma digits2_pos_iter_xO mx d :
  Zpos (digits2_pos (Pos.iter xO mx d)) = Zpos (digits2_pos mx) + Zpos d.
Proof using Type.
  apply digits2_pos_unique.
  assert (E : Zpos (Pos.iter xO mx d) = Zpos mx * 2 ^ Zpos d).
  { pose proof (Zpower.shift_pos_correct d mx) as H. unfold Zpower.shift_pos in H.
    rewrite H, Zpower.Zpower_pos_nat, Zpower.Zpower_nat_Z, positive_nat_Z. lia. }
  pose proof (digits2_pos_bounds mx) as [Hlo Hhi].
  rewrite E. replace (Zpos (digits2_pos mx) + Zpos d - 1)
    with (Zpos (digits2_pos mx) - 1 + Zpos d) by lia.
  rewrite !pow_split by lia.
  assert (0 < 2 ^ Zpos d) by (apply Z.pow_pos_nonneg; lia). nia.
Qed.

Lemma binary_round_valid sx mx ex :
  valid_binary prec emax (binary_round prec emax sx mx ex) = true /\
  binary_round prec emax sx mx ex <> S754_nan.
Proof using All.
  unfold binary_round, shl_align.
  set (e' := fexp prec emax (Zpos (digits2_pos mx) + ex)).
  destruct (e' - ex) as [|d|d] eqn:Ed.
  - apply binary_round_aux_valid. fold e'. lia.
  - apply binary_round_aux_valid. fold e'. lia.
  - apply binary_round_aux_valid. rewrite digits2_pos_iter_xO.
    replace (Zpos (digits2_pos mx) + Zpos d + e') with (Zpos (digits2_pos mx) + ex) by lia.
    fold e'. lia.
Qed.

Lemma binary_normalize_valid m e szero :
  valid_binary prec emax (binary_normalize prec emax m e szero) = true /\
  binary_normalize prec emax m e szero <> S754_nan.
Proof using All.
  destruct m; cbn [binary_normalize]; [split; [reflexivity|discriminate]|..];
    apply binary_round_valid.
Qed.

(** The sum of two numbers of the format is a number of the format. *)
Lemma SFadd_valid x y :
  valid_binary prec emax x = true -> valid_binary prec emax y = true ->
  valid_binary prec emax (SFadd prec emax x y) = true.
Proof using All.
  intros Hx Hy.
  destruct x as [sx|sx| |sx mx ex], y as [sy|sy| |sy my ey]; cbn [SFadd];
    try assumption; try reflexivity;
    try (destruct sx, sy; assumption || reflexivity).
  apply binary_normalize_valid.
Qed.

(** *** The bits of the sum *)

Lemma bits_to_float_nan bits :
  bits_to_float prec emax bits = S754_nan <->
  (bits / 2 ^ (prec - 1)) mod (2 * emax) = 2 * emax - 1 /\ bits mod 2 ^ (prec - 1) <> 0.
Proof using All.
  unfold bits_to_float.
  assert (Hpow : 0 < 2 ^ (prec - 1)) by (apply Z.pow_pos_nonneg; lia).
  pose proof (Z.mod_pos_bound bits (2 ^ (prec - 1)) Hpow) as Hm.
  set (m := bits mod 2 ^ (prec - 1)) in *.
  set (e := (bits / 2 ^ (prec - 1)) mod (2 * emax)).
  destruct (Z.eqb_spec e 0) as [E0|E0].
  - split; [destruct m; discriminate|lia].
  - destruct (Z.eqb_spec e (2 * emax - 1)) as [E1|E1].
    + destruct (Z.eqb_spec m 0) as [Hz|Hz];
        (split; [try discriminate; intros _; split; assumption|]);
        [intros [_ H]; contradiction|reflexivity].
    + split; [|tauto]. destruct (m + 2 ^ (prec - 1)) eqn:E; try discriminate; lia.
Qed.

(** A NaN made quiet is a NaN still, with the sign and the exponent it
    had. *)
Lemma quieted_nan bits :
  0 <= bits ->
  bits_to_float prec emax bits = S754_nan ->
  bits_to_float prec emax (quieted prec bits) = S754_nan /\
  quieted prec bits / 2 ^ (prec - 1) = bits / 2 ^ (prec - 1) /\
  0 <= quieted prec bits mod 2 ^ (prec - 1) < 2 ^ (prec - 1).
Proof using All.
  intros Hb Hnan. apply bits_to_float_nan in Hnan as [He Hm].
  assert (Hpow : 0 < 2 ^ (prec - 1)) by (apply Z.pow_pos_nonneg; lia).
  assert (Hq : 0 < 2 ^ (prec - 2) < 2 ^ (prec - 1)).
  { split; [apply Z.pow_pos_nonneg; lia|]. apply Z.pow_lt_mono_r; lia. }
  unfold quieted.
  assert (Hdiv : Z.lor bits (2 ^ (prec - 2)) / 2 ^ (prec - 1) = bits / 2 ^ (prec - 1)).
  { rewrite <- !Z.shiftr_div_pow2 by lia. rewrite Z.shiftr_lor.
    rewrite (Z.shiftr_div_pow2 (2 ^ (prec - 2))) by lia.
    rewrite (Z.div_small (2 ^ (prec - 2))) by lia. apply Z.lor_0_r. }
  assert (Hmod : Z.lor bits (2 ^ (prec - 2)) mod 2 ^ (prec - 1) =
                 Z.lor (bits mod 2 ^ (prec - 1)) (2 ^ (prec - 2))).
  { rewrite <- !Z.land_ones by lia. rewrite Z.land_lor_distr_l.
    rewrite (Z.land_ones (2 ^ (prec - 2))) by lia.
    rewrite (Z.mod_small (2 ^ (prec - 2))) by lia. reflexivity. }
  split; [|split].
  - apply bits_to_float_nan. rewrite Hdiv, Hmod. split; [assumption|].
    intros H. apply Z.lor_eq_0_iff in H. lia.
  - exact Hdiv.
  - apply Z.mod_pos_bound. exact Hpow.
Qed.

Lemma quieted_range bits :
  0 <= bits < 2 * (2 ^ (prec - 1) * (2 * emax)) ->
  bits_to_float prec emax bits = S754_nan ->
  0 <= quieted prec bits < 2 * (2 ^ (prec - 1) * (2 * emax)).
Proof using All.
  intros Hb Hnan. destruct (quieted_nan bits ltac:(lia) Hnan) as (_ & Hdiv & Hmod).
  assert (Hpow : 0 < 2 ^ (prec - 1)) by (apply Z.pow_pos_nonneg; lia).
  pose proof (Z.div_mod (quieted prec bits) (2 ^ (prec - 1)) ltac:(lia)) as Hq.
  rewrite Hdiv in Hq.
  assert (0 <= bits / 2 ^ (prec - 1)) by (apply Z.div_pos; lia).
  assert (bits / 2 ^ (prec - 1) < 2 * (2 * emax))
    by (apply Z.div_lt_upper_bound; lia).
  nia.
Qed.

(** The bits of the sum of two numbers stand for the sum of the numbers,
    rounded to the format, and lie within the bits of the format. *)
Lemma float_plus_sum a b :
  0 <= a < 2 * (2 ^ (prec - 1) * (2 * emax)) ->
  0 <= b < 2 * (2 ^ (prec - 1) * (2 * emax)) ->
  bits_to_float prec emax (float_plus prec emax a b) =
  SFadd prec emax (bits_to_float prec emax a) (bits_to_float prec emax b) /\
  0 <= float_plus prec emax a b < 2 * (2 ^ (prec - 1) * (2 * emax)).
Proof using All.
  intros Ha Hb. unfold float_plus.
  pose proof (valid_bits_to_float a) as Va. pose proof (valid_bits_to_float b) as Vb.
  pose proof (SFadd_valid _ _ Va Vb) as Vsum.
  pose proof (quieted_nan a ltac:(lia)) as Qa. pose proof (quieted_range a Ha) as Ra.
  pose proof (quieted_nan b ltac:(lia)) as Qb. pose proof (quieted_range b Hb) as Rb.
  destruct (bits_to_float prec emax a) as [sa|sa| |sa ma ea];
    [| |destruct (Qa eq_refl) as (-> & _); split; [reflexivity|apply Ra; reflexivity]|];
    (destruct (bits_to_float prec emax b) as [sb|sb| |sb mb eb];
     [| |destruct (Qb eq_refl) as (-> & _); split; [reflexivity|apply Rb; reflexivity]|]);
    apply bits_to_float_to_bits; exact Vsum.
Qed.

End Format.

(** *** Comparisons *)

Lemma SFcompare_antisym x y :
  SFcompare y x = option_map CompOpp (SFcompare x y).
Proof.
  destruct x as [sx|sx| |sx mx ex], y as [sy|sy| |sy my ey]; cbn [SFcompare option_map];
    try reflexivity; try (destruct sx; reflexivity); try (destruct sy; reflexivity);
    try (destruct sx, sy; reflexivity).
  destruct sx, sy; try reflexivity; f_equal; rewrite (Z.compare_antisym ex ey);
    destruct (ex ?= ey); cbn [CompOpp]; try reflexivity.
  - change (PosDef.Pos.compare_cont Eq my mx) with (my ?= mx)%positive.
    change (PosDef.Pos.compare_cont Eq mx my) with (mx ?= my)%positive.
    rewrite (Pos.compare_antisym mx my). reflexivity.
  - change (PosDef.Pos.compare_cont Eq my mx) with (my ?= mx)%positive.
    change (PosDef.Pos.compare_cont Eq mx my) with (mx ?= my)%positive.
    apply Pos.compare_antisym.
Qed.

Lemma SFcompare_refl x : x <> S754_nan -> SFcompare x x = Some Eq.
Proof.
  intros Hx. destruct x as [s|s| |s m e]; cbn [SFcompare]; try reflexivity;
    try contradiction; try (destruct s; reflexivity).
  rewrite Z.compare_refl. change (PosDef.Pos.compare_cont Eq m m) with (m ?= m)%positive.
  rewrite Pos.compare_refl. destruct s; reflexivity.
Qed.

Lemma SFcompare_Some x y :
  x <> S754_nan -> y <> S754_nan -> exists c, SFcompare x y = Some c.
Proof.
  intros Hx Hy. destruct x, y; try contradiction; cbn [SFcompare]; eexists; reflexivity.
Qed.

(** Of two numbers, the one that is not below the other is at least the
    other and at least itself. *)
Lemma SFleb_greater x y :
  x <> S754_nan -> y <> S754_nan ->
  SFleb x (if SFltb x y then y else x) = true /\
  SFleb y (if SFltb x y then y else x) = true.
Proof.
  intros Hx Hy. destruct (SFcompare_Some x y Hx Hy) as [c Hc].
  pose proof (SFcompare_antisym x y) as Ha. rewrite Hc in Ha. cbn in Ha.
  pose proof (SFcompare_refl x Hx) as Rx. pose proof (SFcompare_refl y Hy) as Ry.
  unfold SFltb, SFleb. rewrite Hc.
  destruct c; cbn in Ha |- *; rewrite ?Hc, ?Ha, ?Rx, ?Ry; auto.
Qed.

Lemma SFleb_smaller x y :
  x <> S754_nan -> y <> S754_nan ->
  SFleb (if SFltb y x then y else x) x = true /\
  SFleb (if SFltb y x then y else x) y = true.
Proof.
  intros Hx Hy. destruct (SFcompare_Some x y Hx Hy) as [c Hc].
  pose proof (SFcompare_antisym x y) as Ha. rewrite Hc in Ha. cbn in Ha.
  pose proof (SFcompare_refl x Hx) as Rx. pose proof (SFcompare_refl y Hy) as Ry.
  unfold SFltb, SFleb. rewrite Ha.
  destruct c; cbn in Ha |- *; rewrite ?Hc, ?Ha, ?Rx, ?Ry; auto.
Qed.

(** ** The typed reduction, element by element *)

Lemma sizeof_pos T : (0 < sizeof T)%nat.
Proof. destruct T; simpl; lia. Qed.

Lemma modulus_pos T : 0 < modulus T.
Proof. unfold modulus. apply Z.pow_pos_nonneg; lia. Qed.

Lemma element_range T s i : 0 <= element T s i < modulus T.
Proof.
  unfold element, modulus.
  pose proof (load_range (take (sizeof T) (drop (i * sizeof T) s))) as Hr.
  assert (size (take (sizeof T) (drop (i * sizeof T) s)) <= Z.of_nat (sizeof T))
    by (unfold size; rewrite length_take; lia).
  split; [lia|]. eapply Z.lt_le_trans; [apply Hr|].
  apply Z.pow_le_mono_r; lia.
Qed.

Lemma value_mod T a : value T a mod modulus T = a mod modulus T.
Proof.
  unfold value. destruct (is_signed T && (modulus T / 2 <=? a)); [|reflexivity].
  rewrite <- (Z.mod_add (a - modulus T) 1 (modulus T)) by (pose proof (modulus_pos T); lia).
  f_equal. lia.
Qed.

Lemma std_plus_integer T a b :
  is_integer T = true -> std_plus T a b = (a + b) mod modulus T.
Proof.
  intros HT.
  assert (std_plus T a b = (value T a + value T b) mod modulus T) as ->
    by (destruct T; try reflexivity; discriminate).
  pose proof (modulus_pos T).
  rewrite Z.add_mod, !value_mod, <- Z.add_mod by lia. reflexivity.
Qed.

Lemma operation_range T op f a b :
  operation T op = Some f ->
  0 <= a < modulus T -> 0 <= b < modulus T -> 0 <= f a b < modulus T.
Proof.
  intros Hf Ha Hb. pose proof (modulus_pos T).
  destruct op; simplify_eq/=.
  - unfold std_max. destruct (less T a b); assumption.
  - unfold std_min. destruct (less T b a); assumption.
  - destruct T; unfold std_plus; try (apply Z.mod_pos_bound; assumption).
    + apply (float_plus_sum 24 128 ltac:(lia) ltac:(lia) a b Ha Hb).
    + apply (float_plus_sum 53 1024 ltac:(lia) ltac:(lia) a b Ha Hb).
Qed.

Lemma element_0_app T x rest :
  length x = sizeof T -> element T (x ++ rest) 0 = load x.
Proof.
  intros Hx. unfold element. change (0 * sizeof T)%nat with 0%nat.
  rewrite drop_0, take_app_length'; [reflexivity|done].
Qed.

Lemma element_S_app T x rest i :
  length x = sizeof T -> element T (x ++ rest) (S i) = element T rest i.
Proof.
  intros Hx. unfold element. f_equal. f_equal.
  replace (S i * sizeof T)%nat with (length x + i * sizeof T)%nat by lia.
  rewrite drop_app_add. reflexivity.
Qed.

Lemma element_S_drop T s i :
  element T s (S i) = element T (drop (sizeof T) s) i.
Proof.
  unfold element. rewrite drop_drop. reflexivity.
Qed.

Lemma element_0 T s : element T s 0 = load (take (sizeof T) s).
Proof. reflexivity. Qed.

(** What [std::transform] computes when both arrays hold [n] elements. *)
Lemma transform_elements T f n : forall buffer input,
  (forall a b, 0 <= a < modulus T -> 0 <= b < modulus T -> 0 <= f a b < modulus T) ->
  (n * sizeof T <= length buffer)%nat ->
  (n * sizeof T <= length input)%nat ->
  exists result,
    transform T f n buffer input = Some result /\
    length result = length buffer /\
    (forall i, (i < n)%nat ->
       element T result i = f (element T buffer i) (element T input i)) /\
    drop (n * sizeof T) result = drop (n * sizeof T) buffer.
Proof.
  induction n as [|n IH]; intros buffer input Hf Hb Hi.
  - exists buffer. split; [done|]. split; [done|]. split; [intros; lia|done].
  - pose proof (sizeof_pos T) as Hw. cbn [transform].
    destruct (_ || _)%nat eqn:E.
    { apply orb_true_iff in E as [E|E]; apply Nat.ltb_lt in E; lia. }
    destruct (IH (drop (sizeof T) buffer) (drop (sizeof T) input) Hf)
      as (rest & -> & Hlen & Hel & Htail); [rewrite length_drop; lia ..|].
    eexists. split; [reflexivity|].
    set (x := store _ _). assert (Hx : length x = sizeof T) by apply length_store.
    split; [|split].
    + rewrite length_app, Hx, Hlen, length_drop. lia.
    + intros [|i] Hlt.
      * rewrite element_0_app by done. unfold x. rewrite load_store.
        rewrite !element_0. apply Z.mod_small. apply Hf; apply (element_range T _ 0).
      * rewrite element_S_app by done. rewrite Hel by lia.
        rewrite <- !element_S_drop. reflexivity.
    + replace (S n * sizeof T)%nat with (length x + n * sizeof T)%nat by lia.
      rewrite drop_app_add, Htail, drop_drop. f_equal. lia.
Qed.

Lemma value_combine T op f a b :
  is_integer T = true ->
  operation T op = Some f ->
  value T (f a b) = combine T op (value T a) (value T b).
Proof.
  intros HT Hf. destruct op; simplify_eq/=.
  - unfold std_max.
    assert (less T a b = (value T a <? value T b)) as ->
      by (destruct T; try reflexivity; discriminate).
    destruct (Z.ltb_spec (value T a) (value T b)); lia.
  - unfold std_min.
    assert (less T b a = (value T b <? value T a)) as ->
      by (destruct T; try reflexivity; discriminate).
    destruct (Z.ltb_spec (value T b) (value T a)); lia.
  - unfold wrap. f_equal. destruct T; try reflexivity; discriminate.
Qed.

Lemma Accumulate_dispatch buffer input data_type reduce_operation T :
  element_type data_type = Some T ->
  Accumulate buffer input data_type reduce_operation =
  Accumulate_T T buffer (data input) (length buffer / sizeof T) reduce_operation.
Proof.
  destruct data_type; intros HT; inversion HT; subst; unfold Accumulate;
    try reflexivity; change (sizeof _) with 1%nat; rewrite Nat.div_1_r; reflexivity.
Qed.

Lemma Accumulate_T_transform T buffer input n reduce_operation f :
  operation T reduce_operation = Some f ->
  Accumulate_T T buffer input n reduce_operation =
  transformed buffer (transform T f n buffer input).
Proof. destruct reduce_operation; intros; simplify_eq/=; reflexivity. Qed.

Lemma length_data s : length (data s) = S (length s).
Proof. unfold data. rewrite length_app. cbn. lia. Qed.

(** An element that lies within the characters of a string, read through
    [data()]. *)
Lemma element_data T s i :
  (i * sizeof T + sizeof T <= length s)%nat -> element T (data s) i = element T s i.
Proof.
  intros H. unfold element, data. f_equal.
  rewrite drop_app_le by lia. apply take_app_le. rewrite length_drop. lia.
Qed.

(** What [Accumulate] computes when the input covers the whole elements of
    the buffer. *)
Lemma Accumulate_elements data_type reduce_operation T f (buffer input : bytes) :
  element_type data_type = Some T ->
  operation T reduce_operation = Some f ->
  (length buffer / sizeof T * sizeof T <= length input)%nat ->
  exists result,
    Accumulate buffer input data_type reduce_operation = Normal result /\
    length result = length buffer /\
    (forall i, (i < length buffer / sizeof T)%nat ->
       element T result i = f (element T buffer i) (element T input i)) /\
    drop (length buffer / sizeof T * sizeof T) result =
    drop (length buffer / sizeof T * sizeof T) buffer.
Proof.
  intros HT Hop Hlen. pose proof (sizeof_pos T) as Hw.
  rewrite (Accumulate_dispatch _ _ _ _ T HT), (Accumulate_T_transform _ _ _ _ _ f Hop).
  destruct (transform_elements T f (length buffer / sizeof T) buffer (data input))
    as (result & -> & Hl & Hel & Htail); [| |rewrite length_data; lia|].
  { intros a b. apply (operation_range T reduce_operation); assumption. }
  { rewrite Nat.mul_comm. apply Nat.Div0.mul_div_le. }
  exists result. split; [reflexivity|]. split; [assumption|]. split; [|assumption].
  intros i Hi. rewrite Hel by assumption. f_equal. apply element_data. nia.
Qed.

(** What the C++ operation gives is the maximum, the minimum or the sum. *)
Lemma operation_reduced T reduce_operation f a b :
  operation T reduce_operation = Some f ->
  0 <= a < modulus T -> 0 <= b < modulus T ->
  reduced T reduce_operation a b (f a b).
Proof.
  intros Hf Ha Hb. unfold reduced.
  destruct (is_integer T) eqn:HT; [apply value_combine; assumption|].
  assert (Hless : forall a b, less T a b = SFltb (number T a) (number T b))
    by (intros; destruct T; try discriminate; reflexivity).
  destruct reduce_operation; simplify_eq/=.
  - unfold std_max. rewrite Hless. split; [reflexivity|]. intros Hna Hnb.
    pose proof (SFleb_greater (number T a) (number T b) Hna Hnb) as H.
    destruct (SFltb (number T a) (number T b)); exact H.
  - unfold std_min. rewrite Hless. split; [reflexivity|]. intros Hna Hnb.
    pose proof (SFleb_smaller (number T a) (number T b) Hna Hnb) as H.
    destruct (SFltb (number T b) (number T a)); exact H.
  - destruct T; try discriminate.
    + apply (float_plus_sum 24 128 ltac:(lia) ltac:(lia) a b Ha Hb).
    + apply (float_plus_sum 53 1024 ltac:(lia) ltac:(lia) a b Ha Hb).
Qed.

(** C8: for a recognized element type and one of MAX, MIN, SUM, the typed
    reduction of two strings of the same length, a multiple of the element
    width, returns normally with a buffer of the same length whose element
    [i], for each of the length / width elements, is the maximum, minimum
    or sum of the two elements [i]: it is what the C++ operation gives on
    the two objects, and that is, for the integer types, the maximum,
    minimum or fixed-width sum of the integers they denote, and for
    [float] and [double] the greater or the smaller of the two numbers by
    the comparison of IEEE 754 (the buffer's element when neither is below
    the other, or when one is a NaN) and the sum of IEEE 754. *)
Theorem Accumulate_elementwise data_type reduce_operation T f (buffer input : bytes) :
  element_type data_type = Some T ->
  operation T reduce_operation = Some f ->
  length buffer = length input ->
  Nat.divide (sizeof T) (length buffer) ->
  exists result,
    Accumulate buffer input data_type reduce_operation = Normal result /\
    length result = length buffer /\
    forall i, (i < length buffer / sizeof T)%nat ->
      element T result i = f (element T buffer i) (element T input i) /\
      reduced T reduce_operation (element T buffer i) (element T input i)
              (element T result i).
Proof.
  intros HT Hop Hlen [k Hk]. pose proof (sizeof_pos T) as Hw.
  assert (Hn : (length buffer / sizeof T = k)%nat)
    by (rewrite Hk; apply Nat.div_mul; lia).
  destruct (Accumulate_elements data_type reduce_operation T f buffer input HT Hop)
    as (result & -> & Hl & Hel & _); [lia|].
  exists result. split; [reflexivity|]. split; [assumption|].
  intros i Hi. split; [apply Hel; assumption|].
  rewrite Hel by assumption. apply operation_reduced; [assumption|apply element_range..].
Qed.

Lemma Accumulate_elementwise_witness :
  exists result,
    Accumulate (store 4 0x3FC00000 ++ store 4 0x7F800000)
               (store 4 0x40100000 ++ store 4 0xFF800000) FLOAT SUM = Normal result /\
    length result = 8%nat /\
    forall i, (i < 2)%nat ->
      element T_float result i =
      std_plus T_float (element T_float (store 4 0x3FC00000 ++ store 4 0x7F800000) i)
                       (element T_float (store 4 0x40100000 ++ store 4 0xFF800000) i) /\
      reduced T_float SUM
              (element T_float (store 4 0x3FC00000 ++ store 4 0x7F800000) i)
              (element T_float (store 4 0x40100000 ++ store 4 0xFF800000) i)
              (element T_float result i).
Proof.
  apply (Accumulate_elementwise FLOAT SUM T_float (std_plus T_float)
           (store 4 0x3FC00000 ++ store 4 0x7F800000)
           (store 4 0x40100000 ++ store 4 0xFF800000)).
  - reflexivity.
  - reflexivity.
  - reflexivity.
  - exists 2%nat. reflexivity.
Defined.

(** ** Reduce: the sum of all ranks in any order of arrival *)

Lemma total_bits_mod T requests i :
  total_bits T requests i mod modulus T = total T requests i mod modulus T.
Proof.
  pose proof (modulus_pos T).
  induction requests as [|r l IH]; [reflexivity|]. cbn [total total_bits foldr].
  fold (total T l i). fold (total_bits T l i).
  rewrite Z.add_mod, IH, <- (value_mod T (element _ _ _)), <- Z.add_mod by lia.
  reflexivity.
Qed.

Lemma total_bits_perm T l l' i : Permutation l l' -> total_bits T l i = total_bits T l' i.
Proof.
  induction 1 as [|x l l' _ IH|x y l|l l' l'' _ IH1 _ IH2]; cbn [total_bits foldr] in *;
    [reflexivity| |lia|congruence].
  fold (total_bits T l i). fold (total_bits T l' i). fold (total_bits T l i) in IH.
  fold (total_bits T l' i) in IH. lia.
Qed.

(** Strings of [n] elements with the same elements are the same string. *)
Lemma elements_ext T n : forall a b : bytes,
  length a = (n * sizeof T)%nat -> length b = (n * sizeof T)%nat ->
  (forall i, (i < n)%nat -> element T a i = element T b i) -> a = b.
Proof.
  pose proof (sizeof_pos T) as Hw.
  induction n as [|n IH]; intros a b Ha Hb Hel.
  - destruct a, b; simplify_eq/=; reflexivity.
  - rewrite <- (take_drop (sizeof T) a), <- (take_drop (sizeof T) b). f_equal.
    + assert (Hta : length (take (sizeof T) a) = sizeof T) by (rewrite length_take; lia).
      assert (Htb : length (take (sizeof T) b) = sizeof T) by (rewrite length_take; lia).
      rewrite <- (store_load (take (sizeof T) a)), <- (store_load (take (sizeof T) b)).
      rewrite Hta, Htb. f_equal. apply (Hel 0%nat). lia.
    + apply IH; [rewrite length_drop; lia ..|].
      intros i Hi. rewrite <- !element_S_drop. apply Hel. lia.
Qed.

(** Folding further SUM requests into a buffer that is not empty. *)
Lemma Allreduce_sum_more data_type T n :
  element_type data_type = Some T -> is_integer T = true ->
  forall (l : list AllreduceRequest.t) (buffer : bytes),
    Forall (sum_request data_type T n) l ->
    buffer <> [] -> length buffer = (n * sizeof T)%nat ->
    exists final,
      arrivals AllreduceFunctor l buffer = Some ([], final) /\
      length final = (n * sizeof T)%nat /\
      forall i, (i < n)%nat ->
        element T final i = (element T buffer i + total_bits T l i) mod modulus T.
Proof.
  intros HT Hint. pose proof (modulus_pos T) as HM.
  induction l as [|r l IH]; intros buffer Hall Hne Hlen.
  - exists buffer. split; [reflexivity|]. split; [assumption|].
    intros i _. cbn. rewrite Z.add_0_r, Z.mod_small; [reflexivity|apply element_range].
  - apply Forall_cons in Hall as [(Hd & Hop & Hsz) Hall].
    assert (Hdiv : (length buffer / sizeof T = n)%nat)
      by (rewrite Hlen; apply Nat.div_mul; pose proof (sizeof_pos T); lia).
    destruct (Accumulate_elements data_type SUM T (std_plus T) buffer
                (AllreduceRequest.send_buffer r) HT eq_refl)
      as (result & Hacc & Hl & Hel & _); [lia|].
    destruct (IH result Hall) as (final & Hfin & Hfl & Hfel).
    { intros ->. destruct buffer; simplify_eq/=. }
    { lia. }
    exists final. split; [|split; [assumption|]].
    + cbn [arrivals]. unfold AllreduceFunctor. destruct buffer as [|b0 buffer]; [done|].
      rewrite Hd, Hop, Hacc. exact Hfin.
    + intros i Hi. rewrite Hfel by assumption.
      rewrite (Hel i) by lia.
      rewrite std_plus_integer by assumption. cbn [total_bits foldr].
      fold (total_bits T l i). rewrite Z.add_mod_idemp_l by lia. f_equal. lia.
Qed.

(** Requests with empty payloads leave the buffer empty. *)
Lemma Allreduce_empty (l : list AllreduceRequest.t) :
  Forall (fun r => AllreduceRequest.send_buffer r = []) l ->
  arrivals AllreduceFunctor l [] = Some ([], []).
Proof.
  induction 1 as [|r l Hr _ IH]; [reflexivity|].
  cbn [arrivals AllreduceFunctor]. rewrite Hr. exact IH.
Qed.

Lemma Allreduce_sum_from_empty data_type T n (l : list AllreduceRequest.t) :
  element_type data_type = Some T -> is_integer T = true ->
  l <> [] ->
  Forall (sum_request data_type T n) l ->
  exists final,
    arrivals AllreduceFunctor l [] = Some ([], final) /\
    length final = (n * sizeof T)%nat /\
    forall i, (i < n)%nat -> element T final i = total_bits T l i mod modulus T.
Proof.
  intros HT Hint Hne Hall. pose proof (sizeof_pos T) as Hw.
  destruct n as [|n].
  - exists []. split; [|split; [reflexivity|intros; lia]].
    apply Allreduce_empty. eapply Forall_impl; [exact Hall|].
    intros r (_ & _ & Hr). destruct (AllreduceRequest.send_buffer r); simplify_eq/=; done.
  - destruct l as [|r l]; [done|].
    apply Forall_cons in Hall as [(Hd & Hop & Hsz) Hall].
    destruct (Allreduce_sum_more data_type T (S n) HT Hint l
                (AllreduceRequest.send_buffer r) Hall)
      as (final & Hfin & Hl & Hel); [|assumption|].
    { intros E. rewrite E in Hsz. simpl in Hsz. lia. }
    exists final. split; [exact Hfin|]. split; [assumption|]. exact Hel.
Qed.

(** C3: for every non-empty list of Allreduce requests with operation SUM
    over one integer element type whose payloads all hold [n] elements,
    and every order of arrival (a permutation of the list), the calls of
    the functor, starting from the empty buffer, all return normally and
    leave a buffer of [n] elements whose element [i] denotes the sum, in
    the fixed-width arithmetic of the type, of the elements [i] of all
    payloads; the buffer is the same for every order. *)
Theorem Allreduce_sum_any_order data_type T n (requests arrival : list AllreduceRequest.t) :
  element_type data_type = Some T -> is_integer T = true ->
  requests <> [] ->
  Forall (sum_request data_type T n) requests ->
  Permutation arrival requests ->
  exists final,
    arrivals AllreduceFunctor arrival [] = Some ([], final) /\
    length final = (n * sizeof T)%nat /\
    (forall i, (i < n)%nat -> value T (element T final i) = wrap T (total T requests i)) /\
    arrivals AllreduceFunctor requests [] = Some ([], final).
Proof.
  intros HT Hint Hne Hall Hperm.
  assert (Hne' : arrival <> []).
  { intros ->. apply Permutation_nil_l in Hperm. congruence. }
  assert (Hall' : Forall (sum_request data_type T n) arrival) by (rewrite Hperm; exact Hall).
  destruct (Allreduce_sum_from_empty data_type T n arrival HT Hint Hne' Hall')
    as (final & Hfin & Hl & Hel).
  destruct (Allreduce_sum_from_empty data_type T n requests HT Hint Hne Hall)
    as (final' & Hfin' & Hl' & Hel').
  assert (final' = final) as ->.
  { apply (elements_ext T n); [assumption..|].
    intros i Hi. rewrite Hel, Hel' by assumption.
    rewrite (total_bits_perm T arrival requests i Hperm). reflexivity. }
  exists final. split; [assumption|]. split; [assumption|]. split; [|assumption].
  intros i Hi. rewrite Hel' by assumption. unfold wrap.
  rewrite total_bits_mod. reflexivity.
Qed.

Lemma Allreduce_sum_any_order_witness :
  exists final,
    arrivals AllreduceFunctor [sum_rank1; sum_rank0] [] = Some ([], final) /\
    length final = 4%nat /\
    (forall i, (i < 1)%nat ->
       value T_int (element T_int final i) =
       wrap T_int (total T_int [sum_rank0; sum_rank1] i)) /\
    arrivals AllreduceFunctor [sum_rank0; sum_rank1] [] = Some ([], final).
Proof.
  apply (Allreduce_sum_any_order INT T_int 1 [sum_rank0; sum_rank1] [sum_rank1; sum_rank0]).
  - reflexivity.
  - reflexivity.
  - discriminate.
  - repeat constructor.
  - apply perm_swap.
Defined.

(** ** Reduce: the element count and the bounds of the input *)

Lemma transform_length T f n : forall buffer input result,
  transform T f n buffer input = Some result -> length result = length buffer.
Proof.
  induction n as [|n IH]; intros buffer input result; cbn [transform].
  - intros [= <-]. reflexivity.
  - destruct (_ || _)%nat eqn:E; [discriminate|].
    apply orb_false_iff in E as [E _]. apply Nat.ltb_ge in E.
    destruct (transform T f n _ _) as [rest|] eqn:Hrest; [|discriminate].
    intros [= <-]. apply IH in Hrest.
    rewrite length_app, length_store, Hrest, length_drop. lia.
Qed.

Lemma transform_in_bounds T f n : forall buffer input,
  (n * sizeof T <= length buffer)%nat ->
  (n * sizeof T <= length input)%nat ->
  is_Some (transform T f n buffer input).
Proof.
  induction n as [|n IH]; intros buffer input Hb Hi; cbn [transform]; [by eexists|].
  destruct (_ || _)%nat eqn:E.
  { apply orb_true_iff in E as [E|E]; apply Nat.ltb_lt in E; lia. }
  destruct (IH (drop (sizeof T) buffer) (drop (sizeof T) input)) as [rest ->];
    [rewrite length_drop; lia ..|]. by eexists.
Qed.

Lemma transform_past_the_end T f n : forall buffer input,
  (length input < n * sizeof T)%nat ->
  transform T f n buffer input = None.
Proof.
  induction n as [|n IH]; intros buffer input Hi; cbn [transform]; [lia|].
  destruct (_ || _)%nat eqn:E; [reflexivity|].
  apply orb_false_iff in E as [_ E]. apply Nat.ltb_ge in E.
  rewrite IH; [reflexivity|]. rewrite length_drop. lia.
Qed.

Lemma transform_take T f n m : forall buffer input,
  (n * sizeof T <= m)%nat -> (m <= length input)%nat ->
  transform T f n buffer (take m input) = transform T f n buffer input.
Proof.
  revert m. induction n as [|n IH]; intros m buffer input Hm Hi; cbn [transform]; [reflexivity|].
  pose proof (sizeof_pos T) as Hw.
  assert ((length (take m input) <? sizeof T)%nat = (length input <? sizeof T)%nat) as ->.
  { rewrite length_take. destruct (Nat.ltb_spec (length input) (sizeof T));
      [apply Nat.ltb_lt|apply Nat.ltb_ge]; lia. }
  destruct (_ || _)%nat; [reflexivity|].
  rewrite take_take, Nat.min_l by lia.
  rewrite <- (IH (m - sizeof T)%nat (drop (sizeof T) buffer) (drop (sizeof T) input));
    [|lia|rewrite length_drop; lia].
  rewrite take_drop_commute. replace (sizeof T + (m - sizeof T))%nat with m by lia.
  reflexivity.
Qed.

(** The whole elements of a buffer end within the buffer. *)
Lemma whole_elements_le (buffer : bytes) T :
  (length buffer / sizeof T * sizeof T <= length buffer)%nat.
Proof. rewrite Nat.mul_comm. apply Nat.Div0.mul_div_le. Qed.

(** [std::transform] looks at no more of its input than the [n] elements. *)
Lemma transform_input T f n buffer input input' :
  (n * sizeof T <= length input)%nat ->
  (n * sizeof T <= length input')%nat ->
  take (n * sizeof T) input = take (n * sizeof T) input' ->
  transform T f n buffer input = transform T f n buffer input'.
Proof.
  intros Hi Hi' Heq.
  rewrite <- (transform_take T f n (n * sizeof T) buffer input) by lia.
  rewrite <- (transform_take T f n (n * sizeof T) buffer input') by lia.
  rewrite Heq. reflexivity.
Qed.

(** With an input at least as long as the buffer, [Accumulate] reads
    within bounds and keeps the buffer's length. *)
Lemma Accumulate_in_bounds buffer input data_type reduce_operation :
  (length buffer <= length input)%nat ->
  (exists result,
     Accumulate buffer input data_type reduce_operation = Normal result /\
     length result = length buffer) \/
  Accumulate buffer input data_type reduce_operation = Throws invalid_argument buffer.
Proof.
  intros Hlen.
  destruct (element_type data_type) as [T|] eqn:HT;
    [|destruct data_type; simplify_eq/=; right; reflexivity].
  rewrite (Accumulate_dispatch _ _ _ _ T HT).
  destruct (operation T reduce_operation) as [f|] eqn:Hop;
    [|destruct reduce_operation; simplify_eq/=; right; reflexivity].
  rewrite (Accumulate_T_transform _ _ _ _ _ f Hop). left.
  pose proof (whole_elements_le buffer T) as Hn.
  destruct (transform_in_bounds T f (length buffer / sizeof T) buffer (data input))
    as [result Hr]; [lia|rewrite length_data; lia|].
  rewrite Hr. exists result. split; [reflexivity|]. eapply transform_length, Hr.
Qed.

(** What [Accumulate] reads of its input is settled by the buffer: two
    inputs that agree on the bytes of the buffer's whole elements give the
    same outcome. *)
Lemma Accumulate_input buffer input input' data_type reduce_operation :
  (forall T, element_type data_type = Some T ->
     (length buffer / sizeof T * sizeof T <= length (data input))%nat /\
     (length buffer / sizeof T * sizeof T <= length (data input'))%nat /\
     take (length buffer / sizeof T * sizeof T) (data input) =
     take (length buffer / sizeof T * sizeof T) (data input')) ->
  Accumulate buffer input data_type reduce_operation =
  Accumulate buffer input' data_type reduce_operation.
Proof.
  intros H.
  destruct (element_type data_type) as [T|] eqn:HT;
    [|destruct data_type; simplify_eq/=; reflexivity].
  destruct (H T eq_refl) as (Hi & Hi' & Heq).
  rewrite !(Accumulate_dispatch _ _ _ _ T HT).
  destruct (operation T reduce_operation) as [f|] eqn:Hop;
    [|destruct reduce_operation; simplify_eq/=; reflexivity].
  rewrite !(Accumulate_T_transform _ _ _ _ _ f Hop). f_equal.
  apply transform_input; assumption.
Qed.

Lemma AllreduceFunctor_nonempty request buffer :
  buffer <> [] ->
  AllreduceFunctor request buffer =
  Accumulate buffer (AllreduceRequest.send_buffer request)
    (AllreduceRequest.data_type request) (AllreduceRequest.reduce_operation request).
Proof. destruct buffer; [done|reflexivity]. Qed.

Lemma Allreduce_length_kept L : forall (l : list AllreduceRequest.t) (buffer : bytes),
  Forall (fun r => length (AllreduceRequest.send_buffer r) = L) l ->
  length buffer = L ->
  exists thrown final,
    arrivals AllreduceFunctor l buffer = Some (thrown, final) /\ length final = L.
Proof.
  induction l as [|r l IH]; intros buffer Hall Hlen.
  - exists [], buffer. split; [reflexivity|assumption].
  - apply Forall_cons in Hall as [Hr Hall]. cbn [arrivals].
    destruct (decide (buffer = [])) as [->|Hne].
    + destruct (IH (AllreduceRequest.send_buffer r) Hall Hr) as (thrown & final & Hrun & Hf).
      exists thrown, final. split; [exact Hrun|assumption].
    + rewrite AllreduceFunctor_nonempty by assumption.
      destruct (Accumulate_in_bounds buffer (AllreduceRequest.send_buffer r)
                  (AllreduceRequest.data_type r) (AllreduceRequest.reduce_operation r))
        as [(result & -> & Hres)| ->]; [lia| |].
      * destruct (IH result Hall) as (thrown & final & Hrun & Hf); [lia|].
        exists thrown, final. split; [exact Hrun|assumption].
      * destruct (IH buffer Hall Hlen) as (thrown & final & Hrun & Hf).
        exists (invalid_argument :: thrown), final. rewrite Hrun.
        split; [reflexivity|assumption].
Qed.

(** C9: in a round of Allreduce requests whose payloads all have the
    length of the first to arrive, no call of the functor reads outside
    an array, and the buffer that results has the length of the first
    payload.  The element count of [Accumulate] comes from the buffer
    alone: what an input holds beyond the buffer's length is ignored; the
    call is undefined exactly when the whole elements of the buffer reach
    beyond the input and the null character that ends it; and an input
    that is one byte short of them is read with that null character for
    its last byte. *)
Theorem Allreduce_count_from_buffer (first : AllreduceRequest.t)
    (rest : list AllreduceRequest.t) :
  Forall (fun r => length (AllreduceRequest.send_buffer r) =
                   length (AllreduceRequest.send_buffer first)) rest ->
  (exists thrown final,
     arrivals AllreduceFunctor (first :: rest) [] = Some (thrown, final) /\
     length final = length (AllreduceRequest.send_buffer first)) /\
  (forall buffer input data_type reduce_operation,
     (length buffer <= length input)%nat ->
     Accumulate buffer (take (length buffer) input) data_type reduce_operation =
     Accumulate buffer input data_type reduce_operation) /\
  (forall buffer input data_type reduce_operation T f,
     element_type data_type = Some T ->
     operation T reduce_operation = Some f ->
     (Accumulate buffer input data_type reduce_operation = Undefined <->
      (length input + 1 < length buffer / sizeof T * sizeof T)%nat)) /\
  (forall buffer input data_type reduce_operation T,
     element_type data_type = Some T ->
     (length input + 1 = length buffer / sizeof T * sizeof T)%nat ->
     Accumulate buffer input data_type reduce_operation =
     Accumulate buffer (input ++ [x00]) data_type reduce_operation).
Proof.
  intros Hall. split; [|split; [|split]].
  - cbn [arrivals AllreduceFunctor].
    apply (Allreduce_length_kept _ rest _ Hall eq_refl).
  - intros buffer input data_type reduce_operation Hlen.
    apply Accumulate_input. intros T _.
    pose proof (whole_elements_le buffer T) as Hn.
    rewrite !length_data, length_take. split; [lia|]. split; [lia|].
    unfold data. rewrite !take_app_le by (rewrite ?length_take; lia).
    rewrite take_take. f_equal. lia.
  - intros buffer input data_type reduce_operation T f HT Hop.
    rewrite (Accumulate_dispatch _ _ _ _ T HT), (Accumulate_T_transform _ _ _ _ _ f Hop).
    split.
    + intros Hu.
      destruct (Nat.lt_ge_cases (length input + 1) (length buffer / sizeof T * sizeof T))
        as [|Hle]; [assumption|exfalso].
      destruct (transform_in_bounds T f (length buffer / sizeof T) buffer (data input))
        as [result Hr]; [apply whole_elements_le|rewrite length_data; lia|].
      rewrite Hr in Hu. discriminate.
    + intros Hshort. rewrite transform_past_the_end by (rewrite length_data; lia).
      reflexivity.
  - intros buffer input data_type reduce_operation T HT Hone.
    apply Accumulate_input. intros T' HT'. rewrite HT in HT'. injection HT' as <-.
    rewrite !length_data, length_app. cbn [length]. split; [lia|]. split; [lia|].
    rewrite <- Hone. unfold data.
    rewrite (take_app_le (input ++ [x00])) by (rewrite length_app; cbn [length]; lia).
    rewrite !take_ge by (rewrite length_app; cbn [length]; lia). reflexivity.
Qed.

Lemma Allreduce_count_from_buffer_witness :
  exists thrown final,
    arrivals AllreduceFunctor [sum_rank0; sum_rank1] [] = Some (thrown, final) /\
    length final = length (AllreduceRequest.send_buffer sum_rank0).
Proof.
  apply (Allreduce_count_from_buffer sum_rank0 [sum_rank1]).
  repeat constructor.
Defined.

(** ** Gather: every rank in its slot *)

Lemma length_splice base p payload :
  (p + length payload <= length base)%nat ->
  length (splice base p payload) = length base.
Proof.
  intros Hp. unfold splice. rewrite !length_app, length_take, length_drop. lia.
Qed.

Lemma splice_inside base p payload j :
  (p + length payload <= length base)%nat ->
  (j < length payload)%nat ->
  splice base p payload !! (p + j)%nat = payload !! j.
Proof.
  intros Hp Hj. unfold splice.
  rewrite lookup_app_r by (rewrite length_take; lia).
  rewrite length_take, Nat.min_l by lia.
  rewrite lookup_app_l by lia. f_equal. lia.
Qed.

Lemma splice_outside base p payload i :
  (p + length payload <= length base)%nat ->
  ~ (p <= i < p + length payload)%nat ->
  splice base p payload !! i = base !! i.
Proof.
  intros Hp Hi. unfold splice.
  destruct (Nat.lt_ge_cases i p) as [Hlt|Hge].
  - rewrite lookup_app_l by (rewrite length_take; lia). apply lookup_take_lt. lia.
  - rewrite lookup_app_r by (rewrite length_take; lia).
    rewrite length_take, Nat.min_l by lia.
    rewrite lookup_app_r by lia. rewrite lookup_drop. f_equal. lia.
Qed.

Lemma length_resize s n : 0 <= n -> length (resize s n) = Z.to_nat n.
Proof.
  intros Hn. unfold resize. rewrite length_app, length_take, length_replicate. lia.
Qed.

Lemma resize_empty_zero n i b : resize [] n !! i = Some b -> b = x00.
Proof.
  unfold resize. rewrite take_nil, app_nil_l. intros Hb.
  apply lookup_replicate in Hb as [-> _]. reflexivity.
Qed.

Lemma length_gather_base W request buffer :
  0 <= W ->
  length (gather_base W request buffer) =
  (length (AllgatherRequest.send_buffer request) * Z.to_nat W)%nat.
Proof.
  intros HW. unfold gather_base, size.
  destruct (Z.eqb_spec (Z.of_nat (length buffer))
              (Z.of_nat (length (AllgatherRequest.send_buffer request)) * W)).
  - nia.
  - rewrite length_resize by nia. nia.
Qed.

(** The functor on a request of a rank below the world size. *)
Lemma AllgatherFunctor_in_range W request buffer :
  0 <= AllgatherRequest.rank request < W ->
  size (AllgatherRequest.send_buffer request) * W < 2 ^ 64 ->
  AllgatherFunctor W request buffer =
  Normal (splice (gather_base W request buffer)
            (Z.to_nat (AllgatherRequest.rank request) *
             length (AllgatherRequest.send_buffer request))
            (AllgatherRequest.send_buffer request)).
Proof.
  intros Hrank Hfit. unfold AllgatherFunctor.
  set (payload := AllgatherRequest.send_buffer request) in *.
  set (rank := AllgatherRequest.rank request) in *.
  assert (Hs : 0 <= size payload) by (unfold size; lia).
  assert (Htot : size_t_wrap (size payload * W) = size payload * W)
    by (apply Z.mod_small; nia).
  assert (Hpos : size_t_wrap (rank * size payload) = rank * size payload)
    by (apply Z.mod_small; nia).
  rewrite Htot, Hpos.
  assert (Hbase : (if negb (size buffer =? size payload * W)
                   then resize buffer (size payload * W) else buffer)
                  = gather_base W request buffer).
  { unfold gather_base. fold payload. destruct (size buffer =? size payload * W); reflexivity. }
  rewrite Hbase.
  pose proof (length_gather_base W request buffer ltac:(lia)) as Hlen. fold payload in Hlen.
  unfold replace.
  assert (Hsz : size (gather_base W request buffer) = size payload * W)
    by (unfold size in *; rewrite Hlen; nia).
  rewrite Hsz.
  destruct (Z.ltb_spec (size payload * W) (rank * size payload)); [nia|].
  rewrite Z.min_l by nia. unfold splice.
  assert (Hp : rank * size payload = Z.of_nat (Z.to_nat rank * length payload))
    by (unfold size; rewrite Nat2Z.inj_mul, Z2Nat.id; lia).
  rewrite Hp. unfold size at 1. rewrite <- Nat2Z.inj_add, !Nat2Z.id. reflexivity.
Qed.

Lemma gather_slot W request :
  0 <= AllgatherRequest.rank request < W ->
  Z.of_nat (Z.to_nat (AllgatherRequest.rank request) *
            length (AllgatherRequest.send_buffer request)) =
  AllgatherRequest.rank request * size (AllgatherRequest.send_buffer request) /\
  (Z.to_nat (AllgatherRequest.rank request) * length (AllgatherRequest.send_buffer request)
   + length (AllgatherRequest.send_buffer request)
   <= length (AllgatherRequest.send_buffer request) * Z.to_nat W)%nat.
Proof.
  intros Hrank. unfold size. split; [rewrite Nat2Z.inj_mul, Z2Nat.id; lia|].
  assert (Z.to_nat (AllgatherRequest.rank request) + 1 <= Z.to_nat W)%nat by lia. nia.
Qed.

(** C10: a Gather functor call for a rank below the world size, on a
    buffer that already has the size of all payloads, returns normally,
    keeps the length and leaves every byte outside the caller's slot
    [rank * send_size, (rank + 1) * send_size) as it was; on the empty
    buffer every byte outside the caller's slot is zero afterwards. *)
Theorem Allgather_frame W (request : AllgatherRequest.t) (buffer : bytes) :
  0 <= AllgatherRequest.rank request < W ->
  size (AllgatherRequest.send_buffer request) * W < 2 ^ 64 ->
  (size buffer = size (AllgatherRequest.send_buffer request) * W ->
   exists result,
     AllgatherFunctor W request buffer = Normal result /\
     length result = length buffer /\
     forall i : nat,
       ~ (AllgatherRequest.rank request * size (AllgatherRequest.send_buffer request)
          <= Z.of_nat i
          < (AllgatherRequest.rank request + 1) * size (AllgatherRequest.send_buffer request)) ->
       result !! i = buffer !! i) /\
  (exists result,
     AllgatherFunctor W request [] = Normal result /\
     forall (i : nat) (b : byte),
       ~ (AllgatherRequest.rank request * size (AllgatherRequest.send_buffer request)
          <= Z.of_nat i
          < (AllgatherRequest.rank request + 1) * size (AllgatherRequest.send_buffer request)) ->
       result !! i = Some b -> b = x00).
Proof.
  intros Hrank Hfit. destruct (gather_slot W request Hrank) as [Hp Hle].
  split.
  - intros Hsize. rewrite AllgatherFunctor_in_range by assumption.
    assert (Hbase : gather_base W request buffer = buffer).
    { unfold gather_base. rewrite Hsize, Z.eqb_refl. reflexivity. }
    pose proof (length_gather_base W request buffer ltac:(lia)) as Hlen.
    rewrite Hbase in *. eexists. split; [reflexivity|].
    split; [apply length_splice; lia|].
    intros i Hi. apply splice_outside; [lia|]. unfold size in *. lia.
  - rewrite AllgatherFunctor_in_range by assumption.
    pose proof (length_gather_base W request [] ltac:(lia)) as Hlen.
    eexists. split; [reflexivity|]. intros i b Hi.
    rewrite splice_outside; [|lia|unfold size in *; lia].
    unfold gather_base. destruct (_ =? _); [done|]. apply resize_empty_zero.
Qed.

Lemma Allgather_frame_witness :
  (size [x01; x02; x03; x04; x05; x06] = size (AllgatherRequest.send_buffer gather_rank1) * 3 ->
   exists result,
     AllgatherFunctor 3 gather_rank1 [x01; x02; x03; x04; x05; x06] = Normal result /\
     length result = 6%nat /\
     forall i : nat,
       ~ (AllgatherRequest.rank gather_rank1 * size (AllgatherRequest.send_buffer gather_rank1)
          <= Z.of_nat i
          < (AllgatherRequest.rank gather_rank1 + 1) *
            size (AllgatherRequest.send_buffer gather_rank1)) ->
       result !! i = [x01; x02; x03; x04; x05; x06] !! i) /\
  (exists result,
     AllgatherFunctor 3 gather_rank1 [] = Normal result /\
     forall (i : nat) (b : byte),
       ~ (AllgatherRequest.rank gather_rank1 * size (AllgatherRequest.send_buffer gather_rank1)
          <= Z.of_nat i
          < (AllgatherRequest.rank gather_rank1 + 1) *
            size (AllgatherRequest.send_buffer gather_rank1)) ->
       result !! i = Some b -> b = x00).
Proof.
  apply (Allgather_frame 3 gather_rank1 [x01; x02; x03; x04; x05; x06]).
  - simpl. lia.
  - reflexivity.
Defined.

Lemma slots_disjoint W s r r' j :
  gather_request W s r -> gather_request W s r' ->
  AllgatherRequest.rank r <> AllgatherRequest.rank r' ->
  (j < s)%nat ->
  ~ (slot_start s r' <= slot_start s r + j < slot_start s r' + s)%nat.
Proof.
  unfold slot_start. intros [Hr _] [Hr' _] Hne Hj.
  assert (Hk : Z.to_nat (AllgatherRequest.rank r) <> Z.to_nat (AllgatherRequest.rank r')) by lia.
  apply Nat.lt_gt_cases in Hk as [Hlt|Hgt]; nia.
Qed.

Lemma Allgather_first W s r buffer :
  gather_request W s r -> Z.of_nat (W * s) < 2 ^ 64 ->
  exists result,
    AllgatherFunctor (Z.of_nat W) r buffer = Normal result /\
    length result = (W * s)%nat /\
    (forall j, (j < s)%nat ->
       result !! (slot_start s r + j)%nat = AllgatherRequest.send_buffer r !! j) /\
    (length buffer = (W * s)%nat ->
     forall i, ~ (slot_start s r <= i < slot_start s r + s)%nat -> result !! i = buffer !! i).
Proof.
  intros [Hrank Hs] Hfit.
  assert (Hfit' : size (AllgatherRequest.send_buffer r) * Z.of_nat W < 2 ^ 64)
    by (unfold size; rewrite Hs; lia).
  destruct (gather_slot (Z.of_nat W) r Hrank) as [_ Hle].
  pose proof (length_gather_base (Z.of_nat W) r buffer ltac:(lia)) as Hlen.
  rewrite Nat2Z.id, Hs in *. unfold slot_start.
  rewrite AllgatherFunctor_in_range by assumption. rewrite Hs.
  eexists. split; [reflexivity|]. split; [|split].
  - rewrite length_splice; lia.
  - intros j Hj. apply splice_inside; lia.
  - intros Hbuf i Hi.
    assert (Hbase : gather_base (Z.of_nat W) r buffer = buffer).
    { unfold gather_base, size. rewrite Hs, Hbuf.
      replace (Z.of_nat (W * s)) with (Z.of_nat s * Z.of_nat W) by lia.
      rewrite Z.eqb_refl. reflexivity. }
    rewrite Hbase in *. apply splice_outside; lia.
Qed.

Lemma Allgather_more W s :
  Z.of_nat (W * s) < 2 ^ 64 ->
  forall (l : list AllgatherRequest.t) (buffer : bytes),
    Forall (gather_request W s) l ->
    NoDup (map AllgatherRequest.rank l) ->
    length buffer = (W * s)%nat ->
    exists final,
      arrivals (AllgatherFunctor (Z.of_nat W)) l buffer = Some ([], final) /\
      length final = (W * s)%nat /\
      (forall r j, In r l -> (j < s)%nat ->
         final !! (slot_start s r + j)%nat = AllgatherRequest.send_buffer r !! j) /\
      (forall i, (forall r, In r l -> ~ (slot_start s r <= i < slot_start s r + s)%nat) ->
         final !! i = buffer !! i).
Proof.
  intros Hfit. induction l as [|r l IH]; intros buffer Hall Hnd Hlen.
  - exists buffer. split; [reflexivity|]. split; [assumption|].
    split; [intros r j []|reflexivity].
  - apply Forall_cons in Hall as [Hr Hall]. cbn [map] in Hnd.
    apply NoDup_cons in Hnd as [Hnotin Hnd].
    destruct (Allgather_first W s r buffer Hr Hfit) as (b1 & Hb1 & Hl1 & Hin1 & Hout1).
    destruct (IH b1 Hall Hnd Hl1) as (final & Hfin & Hlf & Hinf & Houtf).
    exists final. split; [cbn [arrivals]; rewrite Hb1; exact Hfin|].
    split; [assumption|]. split.
    + intros r' j [<-|Hr'] Hj; [|apply Hinf; assumption].
      rewrite Houtf; [apply Hin1; assumption|].
      intros r' Hr'. apply (slots_disjoint W s); [assumption| |  |assumption].
      * eapply Forall_forall in Hall; [exact Hall|]. apply list_elem_of_In. exact Hr'.
      * intros E. apply Hnotin. rewrite E. apply list_elem_of_In, in_map. exact Hr'.
    + intros i Hi. rewrite Houtf; [apply Hout1; [assumption|apply Hi; left; reflexivity]|].
      intros r' Hr'. apply Hi. right. exact Hr'.
Qed.

(** C4: for a world of [W] ranks whose Allgather payloads all have [s]
    bytes, and every order of arrival of the [W] requests (their ranks are
    a permutation of 0 .. W-1), the calls of the functor, starting from the
    empty buffer, all return normally and leave a buffer of [W * s] bytes
    in which the bytes [rank * s, (rank + 1) * s) are the payload of the
    request of that rank. *)
Theorem Allgather_rank_ordered (W s : nat) (arrival : list AllgatherRequest.t) :
  Permutation (map AllgatherRequest.rank arrival) (map Z.of_nat (seq 0 W)) ->
  Forall (fun r => length (AllgatherRequest.send_buffer r) = s) arrival ->
  Z.of_nat (W * s) < 2 ^ 64 ->
  exists final,
    arrivals (AllgatherFunctor (Z.of_nat W)) arrival [] = Some ([], final) /\
    length final = (W * s)%nat /\
    forall r, In r arrival ->
      take s (drop (Z.to_nat (AllgatherRequest.rank r) * s) final) =
      AllgatherRequest.send_buffer r.
Proof.
  intros Hperm Hsize Hfit.
  assert (Hnd : NoDup (map AllgatherRequest.rank arrival)).
  { rewrite Hperm. apply NoDup_fmap_2; [intros x y; lia|apply NoDup_seq]. }
  assert (Hall : Forall (gather_request W s) arrival).
  { apply Forall_forall. intros r Hr. split.
    - assert (Hin : In (AllgatherRequest.rank r) (map Z.of_nat (seq 0 W))).
      { apply list_elem_of_In. rewrite <- Hperm. apply list_elem_of_In, in_map.
        apply list_elem_of_In. exact Hr. }
      apply in_map_iff in Hin as (k & <- & Hk). apply in_seq in Hk. lia.
    - eapply Forall_forall in Hsize; [exact Hsize|exact Hr]. }
  assert (Hlen : length arrival = W).
  { rewrite <- (length_map AllgatherRequest.rank), Hperm, length_map, length_seq.
    reflexivity. }
  assert (Hslots : exists final,
    arrivals (AllgatherFunctor (Z.of_nat W)) arrival [] = Some ([], final) /\
    length final = (W * s)%nat /\
    forall r j, In r arrival -> (j < s)%nat ->
      final !! (slot_start s r + j)%nat = AllgatherRequest.send_buffer r !! j).
  { destruct arrival as [|r l].
    - exists []. simpl in Hlen. subst W. split; [reflexivity|]. split; [reflexivity|].
      intros r j [].
    - apply Forall_cons in Hall as [Hr Hall]. cbn [map] in Hnd.
      apply NoDup_cons in Hnd as [Hnotin Hnd].
      destruct (Allgather_first W s r [] Hr Hfit) as (b1 & Hb1 & Hl1 & Hin1 & _).
      destruct (Allgather_more W s Hfit l b1 Hall Hnd Hl1) as (final & Hfin & Hlf & Hinf & Houtf).
      exists final. split; [cbn [arrivals]; rewrite Hb1; exact Hfin|].
      split; [assumption|].
      intros r' j [<-|Hr'] Hj; [|apply Hinf; assumption].
      rewrite Houtf; [apply Hin1; assumption|].
      intros r' Hr'. apply (slots_disjoint W s); [assumption| | |assumption].
      * eapply Forall_forall in Hall; [exact Hall|]. apply list_elem_of_In. exact Hr'.
      * intros E. apply Hnotin. rewrite E. apply list_elem_of_In, in_map. exact Hr'. }
  destruct Hslots as (final & Hfin & Hlf & Hin).
  exists final. split; [assumption|]. split; [assumption|].
  intros r Hr.
  assert (Hreq : gather_request W s r).
  { eapply Forall_forall in Hall; [exact Hall|]. apply list_elem_of_In. exact Hr. }
  destruct Hreq as [Hrank Hs].
  assert (Hle : (Z.to_nat (AllgatherRequest.rank r) * s + s <= W * s)%nat).
  { assert (Z.to_nat (AllgatherRequest.rank r) + 1 <= W)%nat by lia. nia. }
  apply list_eq. intros j.
  destruct (Nat.lt_ge_cases j s) as [Hj|Hj].
  - rewrite lookup_take_lt, lookup_drop by assumption. apply (Hin r j Hr Hj).
  - rewrite lookup_take_ge by assumption. symmetry. apply lookup_ge_None_2. lia.
Qed.

Lemma Allgather_rank_ordered_witness :
  exists final,
    arrivals (AllgatherFunctor (Z.of_nat 3)) [gather_rank2; gather_rank0; gather_rank1] []
    = Some ([], final) /\
    length final = (3 * 2)%nat /\
    forall r, In r [gather_rank2; gather_rank0; gather_rank1] ->
      take 2 (drop (Z.to_nat (AllgatherRequest.rank r) * 2) final) =
      AllgatherRequest.send_buffer r.
Proof.
  apply (Allgather_rank_ordered 3 2 [gather_rank2; gather_rank0; gather_rank1]).
  - simpl. eapply perm_trans; [apply perm_swap|]. apply perm_skip, perm_swap.
  - repeat constructor.
  - simpl. lia.
Defined.

(** ** The barrier: steps of the server *)

(** [serve] spelled out on the call as a whole. *)
Lemma serve_unfold call s at_ :
  serve call s at_ =
  match at_ with
  | Entered =>
      if world_size_ s =? 1 then Some (s, Replied (rpc_send_buffer call))
      else if sequence_number_ s =? rpc_sequence_number call
           then contribute (fun _ : unit => rpc_functor (world_size_ s) call) tt s
           else Some (s, WaitSequence)
  | WaitSequence =>
      if sequence_number_ s =? rpc_sequence_number call
      then contribute (fun _ : unit => rpc_functor (world_size_ s) call) tt s
      else Some (s, WaitSequence)
  | WaitAll =>
      if received_ s =? world_size_ s then Some (released s) else Some (s, WaitAll)
  | Replied _ | Thrown _ => Some (s, at_)
  end.
Proof. destruct call, at_; reflexivity. Qed.

Lemma step_inv i srv srv' :
  step i srv = Some srv' ->
  (calls srv !! i = None /\ srv' = srv) \/
  exists call at_ s at',
    calls srv !! i = Some (call, at_) /\
    serve call (service srv) at_ = Some (s, at') /\
    srv' = {| service := s; calls := <[i := (call, at')]> (calls srv) |}.
Proof.
  unfold step. destruct (calls srv !! i) as [[call at_]|] eqn:Hi.
  - destruct (serve call (service srv) at_) as [[s at']|] eqn:Hs; [|discriminate].
    intros [= <-]. right. exists call, at_, s, at'. done.
  - intros [= <-]. left. done.
Qed.

(** A property that every step keeps is kept along every schedule. *)
Lemma run_invariant (I : server -> Prop) :
  (forall i srv srv', I srv -> step i srv = Some srv' -> I srv') ->
  forall schedule srv srv', I srv -> run schedule srv = Some srv' -> I srv'.
Proof.
  intros Hstep. induction schedule as [|i schedule IH]; intros srv srv' HI; cbn [run].
  - intros [= <-]. exact HI.
  - destruct (step i srv) as [srv1|] eqn:H1; [|discriminate].
    apply IH. eapply Hstep; eassumption.
Qed.

Lemma run_app schedule1 schedule2 srv :
  run (schedule1 ++ schedule2) srv =
  match run schedule1 srv with
  | Some srv1 => run schedule2 srv1
  | None => None
  end.
Proof.
  revert srv. induction schedule1 as [|i l IH]; intros srv; cbn [run app]; [reflexivity|].
  destruct (step i srv); [apply IH|reflexivity].
Qed.

Lemma serve_effect call s at_ s' at' :
  serve call s at_ = Some (s', at') -> effect call s at_ s' at'.
Proof.
  rewrite serve_unfold.
  assert (Hadm : parked at_ = true ->
    sequence_number_ s = rpc_sequence_number call ->
    contribute (fun _ : unit => rpc_functor (world_size_ s) call) tt s = Some (s', at') ->
    effect call s at_ s' at').
  { intros Hp Hseq. unfold contribute.
    destruct (rpc_functor (world_size_ s) call (buffer_ s)) as [buffer|e buffer|] eqn:Hf;
      [|intros [= <- <-]; by constructor|discriminate].
    destruct (Z.eqb_spec (received_ s + 1) (world_size_ s)); intros [= <- <-];
      by constructor. }
  destruct at_.
  - destruct (Z.eqb_spec (world_size_ s) 1).
    { intros [= <- <-]. by constructor. }
    destruct (Z.eqb_spec (sequence_number_ s) (rpc_sequence_number call)).
    + intros Ha. by apply Hadm.
    + intros [= <- <-]. by constructor.
  - destruct (Z.eqb_spec (sequence_number_ s) (rpc_sequence_number call)).
    + intros Ha. by apply Hadm.
    + intros [= <- <-]. by constructor.
  - destruct (Z.eqb_spec (received_ s) (world_size_ s)) as [Hr|Hr].
    + unfold released. destruct (Z.eqb_spec (sent_ s + 1) (world_size_ s)) as [Hs|Hs];
        intros [= <- <-]; [|by constructor].
      by apply effect_reset.
    + intros [= <- <-]. by constructor.
  - intros [= <- <-]. apply effect_done; [reflexivity|right; reflexivity].
  - intros [= <- <-]. apply effect_done; [reflexivity|left; reflexivity].
Qed.

(** ** The barrier: the arrivals of a round

    What [arrivals] folds is what the server does: calls that are let in
    one after the other apply their functors to the shared buffer in that
    order, and each that returns counts as arrived. *)

Lemma arrivals_map {R R' : Type} (g : R -> R') (functor : R' -> bytes -> outcome)
    (requests : list R) (buffer : bytes) :
  arrivals functor (map g requests) buffer =
  arrivals (fun request => functor (g request)) requests buffer.
Proof.
  revert buffer. induction requests as [|r l IH]; intros buffer; cbn [arrivals map];
    [reflexivity|].
  destruct (functor (g r) buffer) as [b|e b|]; rewrite ?IH; reflexivity.
Qed.

Lemma serve_let_in call s at_ :
  parked at_ = true -> world_size_ s <> 1 ->
  rpc_sequence_number call = sequence_number_ s ->
  serve call s at_ = contribute (fun _ : unit => rpc_functor (world_size_ s) call) tt s.
Proof.
  intros Hp HW Hseq. rewrite serve_unfold. apply Z.eqb_neq in HW.
  rewrite Hseq, Z.eqb_refl, HW. destruct at_; try discriminate; reflexivity.
Qed.

Lemma contribute_outcome {R : Type} (functor : R -> bytes -> outcome)
    (request : R) (s : FederatedService) :
  match functor request (buffer_ s) with
  | Undefined => contribute functor request s = None
  | Throws e b =>
      exists s',
        contribute functor request s = Some (s', Thrown e) /\
        world_size_ s' = world_size_ s /\ sequence_number_ s' = sequence_number_ s /\
        received_ s' = received_ s /\ buffer_ s' = b
  | Normal b =>
      exists s' at',
        contribute functor request s = Some (s', at') /\
        world_size_ s' = world_size_ s /\ sequence_number_ s' = sequence_number_ s /\
        received_ s' = received_ s + 1 /\ buffer_ s' = b /\
        (at' = WaitAll \/ at' = Replied b)
  end.
Proof.
  unfold contribute. destruct (functor request (buffer_ s)) as [b|e b|]; [| |reflexivity].
  - destruct (received_ s + 1 =? world_size_ s); eexists _, _; repeat split; auto.
  - eexists. repeat split.
Qed.

Lemma admissible_frame srv s1 i c order (requests : list rpc) :
  Forall2 (admissible srv) order requests ->
  ~ In i order ->
  sequence_number_ s1 = sequence_number_ (service srv) ->
  Forall2 (admissible {| service := s1; calls := <[i := c]> (calls srv) |}) order requests.
Proof.
  intros Hall Hnotin Hseq. induction Hall as [|j call order requests Hj _ IH]; constructor.
  - destruct Hj as (at_ & Hj & Hp & Hs). exists at_. cbn [calls service].
    rewrite list_lookup_insert_ne by (intros ->; apply Hnotin; left; reflexivity).
    rewrite Hseq. done.
  - apply IH. intros Hin. apply Hnotin. right. exact Hin.
Qed.

Lemma run_arrivals order : forall (requests : list rpc) srv,
  NoDup order ->
  Forall2 (admissible srv) order requests ->
  world_size_ (service srv) <> 1 ->
  match arrivals (rpc_functor (world_size_ (service srv))) requests (buffer_ (service srv)) with
  | None => run order srv = None
  | Some (thrown, final) =>
      exists srv',
        run order srv = Some srv' /\
        buffer_ (service srv') = final /\
        sequence_number_ (service srv') = sequence_number_ (service srv) /\
        received_ (service srv') =
        received_ (service srv) + Z.of_nat (length order) - Z.of_nat (length thrown)
  end.
Proof.
  induction order as [|i order IH]; intros requests srv Hnd Hall HW.
  - apply Forall2_nil_inv_l in Hall as ->. cbn. exists srv. repeat split; lia.
  - apply Forall2_cons_inv_l in Hall as (call & requests' & (at_ & Hi & Hp & Hseq) & Hall & ->).
    apply NoDup_cons in Hnd as [Hnotin Hnd]. rewrite list_elem_of_In in Hnotin.
    cbn [arrivals run]. unfold step. rewrite Hi, serve_let_in by assumption.
    pose proof (contribute_outcome (fun _ : unit => rpc_functor (world_size_ (service srv)) call)
                  tt (service srv)) as Hout. cbn beta in Hout.
    destruct (rpc_functor (world_size_ (service srv)) call (buffer_ (service srv)))
      as [b|e b|]; [| |rewrite Hout; reflexivity].
    + destruct Hout as (s1 & at1 & -> & Hw1 & Hs1 & Hr1 & Hb1 & _).
      specialize (IH requests' {| service := s1; calls := <[i := (call, at1)]> (calls srv) |}
                    Hnd (admissible_frame _ _ _ _ _ _ Hall Hnotin Hs1)).
      cbn [service calls] in IH. rewrite Hw1, Hb1, Hs1, Hr1 in IH. specialize (IH HW).
      destruct (arrivals _ requests' b) as [[thrown final]|]; [|exact IH].
      destruct IH as (srv' & Hrun & Hbuf & Hsq & Hrec).
      exists srv'. repeat split; try assumption. cbn [length]. lia.
    + destruct Hout as (s1 & -> & Hw1 & Hs1 & Hr1 & Hb1).
      specialize (IH requests' {| service := s1; calls := <[i := (call, Thrown e)]> (calls srv) |}
                    Hnd (admissible_frame _ _ _ _ _ _ Hall Hnotin Hs1)).
      cbn [service calls] in IH. rewrite Hw1, Hb1, Hs1, Hr1 in IH. specialize (IH HW).
      destruct (arrivals _ requests' b) as [[thrown final]|]; [|exact IH].
      destruct IH as (srv' & Hrun & Hbuf & Hsq & Hrec).
      exists srv'. repeat split; try assumption. cbn [length]. lia.
Qed.

(** ** The barrier: one reset per round *)

Lemma barrier_invariant_fresh W N : 0 < W -> barrier_invariant W (fresh W N).
Proof. intros HW. unfold barrier_invariant. simpl. lia. Qed.

Lemma barrier_invariant_effect W call s at_ s' at' :
  2 <= W -> barrier_invariant W s -> effect call s at_ s' at' -> barrier_invariant W s'.
Proof.
  intros HW (Hw & Hs & Hr) He. unfold barrier_invariant.
  destruct He; cbn [world_size_ sent_ received_ fresh]; try (split; [assumption|lia]).
  all: split; [assumption|lia].
Qed.

Lemma barrier_invariant_step W i srv srv' :
  2 <= W -> barrier_invariant W (service srv) -> step i srv = Some srv' ->
  barrier_invariant W (service srv').
Proof.
  intros HW HI Hstep.
  apply step_inv in Hstep as [[_ ->]|(call & at_ & s & at' & _ & Hs & ->)]; [assumption|].
  eapply barrier_invariant_effect; [eassumption..|]. eapply serve_effect, Hs.
Qed.

Lemma barrier_invariant_run W N requests schedule srv :
  2 <= W -> run schedule (start W N requests) = Some srv ->
  barrier_invariant W (service srv).
Proof.
  intros HW. apply (run_invariant (fun srv => barrier_invariant W (service srv))).
  - intros i srv0 srv1. apply barrier_invariant_step. assumption.
  - apply barrier_invariant_fresh. lia.
Qed.

Lemma departs_step i srv call at_ s at' :
  calls srv !! i = Some (call, at_) ->
  departs i srv {| service := s; calls := <[i := (call, at')]> (calls srv) |} =
  negb (replied at_) && replied at'.
Proof.
  intros Hi. unfold departs, replied_at. cbn [calls]. rewrite Hi.
  rewrite list_lookup_insert_eq by (eapply lookup_lt_Some, Hi). reflexivity.
Qed.

(** C1: with a world size of at least 2, in every state the server reaches
    from its start and for every step from it: the count of departed
    calls is below the world size; when the step is a call's departure that
    brings the count to the world size, the service is reset in that step,
    with both counts 0, the buffer empty and the sequence number one
    higher, which is the state a round starts from; a departure that does
    not complete the count adds one to it, and every step other than the
    reset leaves the sequence number as it is. *)
Theorem round_retires_once W N (requests : list rpc) schedule srv i srv' :
  2 <= W ->
  run schedule (start W N requests) = Some srv ->
  step i srv = Some srv' ->
  0 <= sent_ (service srv) < W /\
  (departs i srv srv' = true /\ sent_ (service srv) + 1 = W ->
   service srv' = fresh W (sequence_number_ (service srv) + 1) /\
   service srv' = service (start W (sequence_number_ (service srv) + 1) requests)) /\
  (departs i srv srv' = true /\ sent_ (service srv) + 1 <> W ->
   sequence_number_ (service srv') = sequence_number_ (service srv) /\
   sent_ (service srv') = sent_ (service srv) + 1) /\
  (departs i srv srv' = false ->
   sequence_number_ (service srv') = sequence_number_ (service srv) /\
   sent_ (service srv') = sent_ (service srv)).
Proof.
  intros HW Hrun Hstep.
  pose proof (barrier_invariant_run W N requests schedule srv HW Hrun) as (Hw & Hs & Hr).
  split; [assumption|].
  apply step_inv in Hstep as [[Hnone ->]|(call & at_ & s & at' & Hi & Hserve & ->)].
  - unfold departs, replied_at. rewrite Hnone. cbn.
    split; [intros [[=] _]|]. split; [intros [[=] _]|]. done.
  - rewrite (departs_step i srv call at_ s at' Hi). cbn [service].
    apply serve_effect in Hserve. subst W.
    destruct Hserve as [H1|at_ Hp _|at_ e buffer Hp _ _|at_ buffer Hp _ _ Hr'
                       |at_ buffer Hp _ _ Hr'|Hr' Hs'|Hr' Hs'|Hr'|at_ _ _];
      cbn [service replied sequence_number_ sent_ fresh].
    all: try (assert (replied at_ = false) as -> by (destruct at_; done)).
    all: try rewrite andb_negb_l.
    all: cbn [negb andb replied].
    all: repeat split; try lia; try (intros [? ?]); try (intros ?);
      try discriminate; try lia; try reflexivity.
Qed.

Lemma round_retires_once_witness :
  0 <= sent_ (service pair_draining) < 2 /\
  (departs 0 pair_draining pair_retired = true /\ sent_ (service pair_draining) + 1 = 2 ->
   service pair_retired = fresh 2 (sequence_number_ (service pair_draining) + 1) /\
   service pair_retired =
   service (start 2 (sequence_number_ (service pair_draining) + 1)
              [pair_rank0; pair_rank1; early_rank0])) /\
  (departs 0 pair_draining pair_retired = true /\ sent_ (service pair_draining) + 1 <> 2 ->
   sequence_number_ (service pair_retired) = sequence_number_ (service pair_draining) /\
   sent_ (service pair_retired) = sent_ (service pair_draining) + 1) /\
  (departs 0 pair_draining pair_retired = false ->
   sequence_number_ (service pair_retired) = sequence_number_ (service pair_draining) /\
   sent_ (service pair_retired) = sent_ (service pair_draining)).
Proof.
  apply (round_retires_once 2 0 [pair_rank0; pair_rank1; early_rank0] [2; 0; 1]%nat
           pair_draining 0%nat pair_retired).
  - lia.
  - reflexivity.
  - reflexivity.
Defined.

(** ** The barrier: admission in the order of the sequence numbers *)

Lemma effect_monotone call s at_ s' at' :
  effect call s at_ s' at' ->
  world_size_ s' = world_size_ s /\
  sequence_number_ s <= sequence_number_ s' <= sequence_number_ s + 1.
Proof. destruct 1; cbn; lia. Qed.

(** A call whose sequence number is not the service's stays out. *)
Lemma serve_mismatch call s at_ :
  parked at_ = true ->
  sequence_number_ s <> rpc_sequence_number call ->
  serve call s at_ =
  Some (s, match at_ with
           | Entered => if world_size_ s =? 1 then Replied (rpc_send_buffer call)
                        else WaitSequence
           | _ => WaitSequence
           end).
Proof.
  intros Hp Hne. rewrite serve_unfold.
  destruct (Z.eqb_spec (sequence_number_ s) (rpc_sequence_number call)); [done|].
  destruct at_; try discriminate; [|reflexivity].
  destruct (world_size_ s =? 1); reflexivity.
Qed.

Lemma kept_out_step N i call j srv srv' :
  rpc_sequence_number call = N + 1 ->
  kept_out N i call srv -> step j srv = Some srv' -> kept_out N i call srv'.
Proof.
  intros Hseq (HN & at_ & Hi & Hat) Hstep.
  apply step_inv in Hstep as [[_ ->]|(call' & at0 & s & at' & Hj & Hserve & ->)].
  { split; [assumption|]. exists at_. split; assumption. }
  pose proof (effect_monotone _ _ _ _ _ (serve_effect _ _ _ _ _ Hserve)) as [Hw Hmono].
  unfold kept_out. cbn [service calls]. split; [lia|].
  destruct (decide (j = i)) as [->|Hne].
  - rewrite Hi in Hj. injection Hj as <- <-.
    exists at'. split; [apply list_lookup_insert_eq; eapply lookup_lt_Some, Hi|].
    intros Hs. assert (Hs0 : sequence_number_ (service srv) = N) by lia.
    destruct (Hat Hs0) as [Hp|[HW ->]].
    + rewrite serve_mismatch in Hserve by (assumption || lia).
      injection Hserve as <- <-.
      destruct at_; try discriminate; [|left; reflexivity].
      destruct (Z.eqb_spec (world_size_ (service srv)) 1); [right|left]; done.
    + rewrite serve_unfold in Hserve. injection Hserve as <- <-. right. done.
  - exists at_. split; [rewrite list_lookup_insert_ne by assumption; exact Hi|].
    intros Hs. assert (Hs0 : sequence_number_ (service srv) = N) by lia.
    rewrite Hw. apply Hat, Hs0.
Qed.

(** C2: a call that has come in with sequence number N+1 while the
    service's is N is, in every state the server reaches while the number
    is still N, either parked before the first wait or, in a world of one,
    answered with its own payload: no functor call and no increment of the
    count of arrived calls has happened for it; the sequence number never
    goes back; a step of a parked call whose sequence number is not the
    service's leaves the service as it is, and a parked call moves past
    the first wait only in a step in which the two numbers are equal. *)
Theorem admission_in_sequence srv0 i call schedule srv :
  calls srv0 !! i = Some (call, Entered) ->
  rpc_sequence_number call = sequence_number_ (service srv0) + 1 ->
  run schedule srv0 = Some srv ->
  (sequence_number_ (service srv0) <= sequence_number_ (service srv) /\
   exists at_,
     calls srv !! i = Some (call, at_) /\
     (sequence_number_ (service srv) = sequence_number_ (service srv0) ->
      parked at_ = true \/
      (world_size_ (service srv) = 1 /\ at_ = Replied (rpc_send_buffer call)))) /\
  (forall s at_,
     parked at_ = true -> sequence_number_ s <> rpc_sequence_number call ->
     exists at', serve call s at_ = Some (s, at') /\
                 (world_size_ s <> 1 -> at' = WaitSequence)) /\
  (forall s at_ s' at',
     serve call s at_ = Some (s', at') ->
     parked at_ = true -> parked at' = false -> world_size_ s <> 1 ->
     sequence_number_ s = rpc_sequence_number call).
Proof.
  intros Hi Hseq Hrun. split; [|split].
  - apply (run_invariant (kept_out (sequence_number_ (service srv0)) i call))
      with (schedule := schedule) (srv := srv0); [| |assumption].
    + intros j srv1 srv2. apply kept_out_step. assumption.
    + split; [lia|]. exists Entered. split; [assumption|]. intros _. left. reflexivity.
  - intros s at_ Hp Hne. rewrite serve_mismatch by assumption.
    eexists. split; [reflexivity|]. intros HW.
    destruct at_; try reflexivity.
    destruct (Z.eqb_spec (world_size_ s) 1); [done|reflexivity].
  - intros s at_ s' at' Hserve Hp Hp' HW.
    destruct (decide (sequence_number_ s = rpc_sequence_number call)) as [|Hne]; [assumption|].
    rewrite serve_mismatch in Hserve by assumption. injection Hserve as <- <-.
    destruct at_; try discriminate.
    destruct (Z.eqb_spec (world_size_ s) 1); [done|discriminate].
Qed.

Lemma admission_in_sequence_witness :
  (sequence_number_ (service (start 2 0 [pair_rank0; pair_rank1; early_rank0]))
   <= sequence_number_ (service pair_draining) /\
   exists at_,
     calls pair_draining !! 2%nat = Some (early_rank0, at_) /\
     (sequence_number_ (service pair_draining) =
      sequence_number_ (service (start 2 0 [pair_rank0; pair_rank1; early_rank0])) ->
      parked at_ = true \/
      (world_size_ (service pair_draining) = 1 /\
       at_ = Replied (rpc_send_buffer early_rank0)))) /\
  (forall s at_,
     parked at_ = true -> sequence_number_ s <> rpc_sequence_number early_rank0 ->
     exists at', serve early_rank0 s at_ = Some (s, at') /\
                 (world_size_ s <> 1 -> at' = WaitSequence)) /\
  (forall s at_ s' at',
     serve early_rank0 s at_ = Some (s', at') ->
     parked at_ = true -> parked at' = false -> world_size_ s <> 1 ->
     sequence_number_ s = rpc_sequence_number early_rank0).
Proof.
  apply (admission_in_sequence (start 2 0 [pair_rank0; pair_rank1; early_rank0]) 2%nat
           early_rank0 [2; 0; 1]%nat pair_draining).
  - reflexivity.
  - reflexivity.
  - reflexivity.
Defined.

(** ** The barrier: a world of one *)

Lemma serve_single call s at_ :
  world_size_ s = 1 ->
  at_ = Entered \/ at_ = Replied (rpc_send_buffer call) ->
  serve call s at_ = Some (s, Replied (rpc_send_buffer call)).
Proof.
  intros HW [-> | ->]; rewrite serve_unfold; [|reflexivity].
  rewrite HW. reflexivity.
Qed.

Lemma run_single s (requests : list rpc) :
  world_size_ s = 1 ->
  forall schedule (cs : list (rpc * position)),
    (forall i call, requests !! i = Some call ->
       cs !! i = Some (call, Entered) \/
       cs !! i = Some (call, Replied (rpc_send_buffer call))) ->
    length cs = length requests ->
    exists cs',
      run schedule {| service := s; calls := cs |} = Some {| service := s; calls := cs' |} /\
      length cs' = length requests /\
      forall i call, requests !! i = Some call ->
        (In i schedule -> cs' !! i = Some (call, Replied (rpc_send_buffer call))) /\
        (~ In i schedule -> cs' !! i = cs !! i).
Proof.
  intros HW. induction schedule as [|j schedule IH]; intros cs Hcs Hlen.
  - exists cs. split; [reflexivity|]. split; [assumption|].
    intros i call _. split; [intros []|reflexivity].
  - cbn [run]. unfold step. cbn [calls service].
    destruct (requests !! j) as [call|] eqn:Hj.
    + assert (Hserved : exists at_, cs !! j = Some (call, at_) /\
                (at_ = Entered \/ at_ = Replied (rpc_send_buffer call))).
      { destruct (Hcs j call Hj) as [H|H]; eexists; (split; [exact H|]); auto. }
      destruct Hserved as (at_ & Hat & Hpos). rewrite Hat, serve_single by assumption.
      set (cs1 := <[j := (call, Replied (rpc_send_buffer call))]> cs).
      assert (Hj1 : cs1 !! j = Some (call, Replied (rpc_send_buffer call))).
      { apply list_lookup_insert_eq. eapply lookup_lt_Some, Hat. }
      destruct (IH cs1) as (cs' & Hrun & Hlen' & Hcs').
      { intros i call' Hi. destruct (decide (i = j)) as [->|Hne].
        - right. rewrite Hj in Hi. injection Hi as <-. exact Hj1.
        - unfold cs1. rewrite list_lookup_insert_ne by done. apply Hcs, Hi. }
      { unfold cs1. rewrite length_insert. exact Hlen. }
      exists cs'. split; [exact Hrun|]. split; [exact Hlen'|]. intros i call' Hi.
      destruct (Hcs' i call' Hi) as [Hin Hout]. split.
      * intros [<-|Hin']; [|apply Hin, Hin'].
        destruct (in_dec Nat.eq_dec j schedule) as [Hjs|Hjs]; [apply Hin, Hjs|].
        rewrite Hout by assumption. rewrite Hj in Hi. injection Hi as <-. exact Hj1.
      * intros Hnot. rewrite Hout by (intros ?; apply Hnot; right; assumption).
        unfold cs1. apply list_lookup_insert_ne. intros ->. apply Hnot. left. reflexivity.
    + assert (Hnone : cs !! j = None).
      { apply lookup_ge_None. rewrite Hlen. apply lookup_ge_None. exact Hj. }
      rewrite Hnone. destruct (IH cs Hcs Hlen) as (cs' & Hrun & Hlen' & Hcs').
      exists cs'. split; [exact Hrun|]. split; [exact Hlen'|]. intros i call Hi.
      destruct (Hcs' i call Hi) as [Hin Hout]. split.
      * intros [<-|Hin']; [congruence|apply Hin, Hin'].
      * intros Hnot. apply Hout. intros ?. apply Hnot. right. assumption.
Qed.

(** C7: with a world size of 1, a call of any of the three kinds returns
    its own payload and leaves the service as it is; along every schedule
    of any calls the service stays what it was (a new service keeps the
    sequence number 0), a call that has moved has its own payload as
    reply, and a call that has not moved is where it was. *)
Theorem single_client_pass_through s (requests : list rpc) schedule :
  world_size_ s = 1 ->
  (forall call, serve call s Entered = Some (s, Replied (rpc_send_buffer call))) /\
  exists srv,
    run schedule {| service := s; calls := map (fun call => (call, Entered)) requests |}
    = Some srv /\
    service srv = s /\
    forall i call, requests !! i = Some call ->
      (In i schedule -> calls srv !! i = Some (call, Replied (rpc_send_buffer call))) /\
      (~ In i schedule -> calls srv !! i = Some (call, Entered)).
Proof.
  intros HW. split.
  - intros call. apply serve_single; [assumption|left; reflexivity].
  - destruct (run_single s requests HW schedule (map (fun call => (call, Entered)) requests))
      as (cs' & Hrun & _ & Hcs').
    + intros i call Hi. left. rewrite list_lookup_fmap, Hi. reflexivity.
    + apply length_map.
    + eexists. split; [exact Hrun|]. split; [reflexivity|].
      intros i call Hi. destruct (Hcs' i call Hi) as [Hin Hout].
      split; [exact Hin|]. intros Hnot. cbn [calls]. rewrite Hout by assumption.
      rewrite list_lookup_fmap, Hi. reflexivity.
Qed.

Lemma single_client_pass_through_witness :
  (forall call, serve call (fresh 1 0) Entered =
                Some (fresh 1 0, Replied (rpc_send_buffer call))) /\
  exists srv,
    run [0; 1; 2; 1]%nat
      {| service := fresh 1 0; calls := map (fun call => (call, Entered)) lone_calls |}
    = Some srv /\
    service srv = fresh 1 0 /\
    forall i call, lone_calls !! i = Some call ->
      (In i [0; 1; 2; 1]%nat ->
       calls srv !! i = Some (call, Replied (rpc_send_buffer call))) /\
      (~ In i [0; 1; 2; 1]%nat -> calls srv !! i = Some (call, Entered)).
Proof.
  apply (single_client_pass_through (fresh 1 0) lone_calls [0; 1; 2; 1]%nat).
  reflexivity.
Defined.

(** ** Broadcast: every reply is the root's payload *)

Section Tally.
Context {A : Type}.
Implicit Types (P Q : A -> bool) (l : list A).

Lemma tally_nonneg P l : 0 <= tally P l.
Proof. induction l as [|x l IH]; cbn [tally]; [lia|]. destruct (P x); lia. Qed.

Lemma tally_le P Q l :
  (forall x, In x l -> P x = true -> Q x = true) -> tally P l <= tally Q l.
Proof.
  induction l as [|x l IH]; intros H; cbn [tally]; [lia|].
  assert (tally P l <= tally Q l) by (apply IH; intros; apply H; [right|]; assumption).
  destruct (P x) eqn:HP; [rewrite (H x) by (done || left; done); lia|].
  destruct (Q x); lia.
Qed.

Lemma tally_eq_all P Q l :
  (forall x, In x l -> P x = true -> Q x = true) ->
  tally P l = tally Q l ->
  forall x, In x l -> Q x = true -> P x = true.
Proof.
  induction l as [|y l IH]; intros H Heq x Hx HQ; [destruct Hx|].
  cbn [tally] in Heq.
  assert (Hle : tally P l <= tally Q l) by (apply tally_le; intros; apply H; [right|]; assumption).
  assert (HPQ : P y = true -> Q y = true) by (apply H; left; reflexivity).
  destruct Hx as [->|Hx].
  - destruct (P x); [reflexivity|]. rewrite HQ in Heq. lia.
  - apply IH; [intros; apply H; [right|]; assumption| |assumption..].
    destruct (P y); [rewrite HPQ in Heq by reflexivity; lia|]. destruct (Q y); lia.
Qed.

Lemma tally_zero P l : (forall x, In x l -> P x = false) -> tally P l = 0.
Proof.
  induction l as [|x l IH]; intros H; cbn [tally]; [reflexivity|].
  rewrite (H x) by (left; reflexivity). rewrite IH; [reflexivity|].
  intros; apply H; right; assumption.
Qed.

Lemma tally_ext P Q l : (forall x, In x l -> P x = Q x) -> tally P l = tally Q l.
Proof.
  induction l as [|x l IH]; intros H; cbn [tally]; [reflexivity|].
  rewrite (H x) by (left; reflexivity). rewrite IH; [reflexivity|].
  intros; apply H; right; assumption.
Qed.

Lemma tally_app P l1 l2 : tally P (l1 ++ l2) = tally P l1 + tally P l2.
Proof. induction l1 as [|x l IH]; cbn [tally app]; [lia|]. rewrite IH. lia. Qed.

Lemma tally_insert P l i x y :
  l !! i = Some x ->
  tally P (<[i := y]> l) =
  tally P l - (if P x then 1 else 0) + (if P y then 1 else 0).
Proof.
  intros Hi. pose proof (lookup_lt_Some _ _ _ Hi) as Hlt.
  rewrite insert_take_drop by assumption.
  rewrite <- (take_drop_middle l i x Hi) at 3.
  rewrite !tally_app. cbn [tally]. lia.
Qed.

Lemma In_insert l i (x y : A) : In x (<[i := y]> l) -> x = y \/ In x l.
Proof.
  intros Hx. apply list_elem_of_In, list_elem_of_lookup in Hx as [j Hj].
  destruct (decide (i = j)) as [->|Hne].
  - left. destruct (decide (j < length l)%nat) as [Hlt|Hge].
    + rewrite list_lookup_insert_eq in Hj by assumption. congruence.
    + rewrite list_insert_ge in Hj by lia.
      apply lookup_lt_Some in Hj. lia.
  - right. rewrite list_lookup_insert_ne in Hj by assumption.
    apply list_elem_of_In, list_elem_of_lookup. eauto.
Qed.

End Tally.

Lemma tally_fst (P : rpc -> bool) (cs : list (rpc * position)) :
  tally P (map fst cs) = tally (fun c => P c.1) cs.
Proof. induction cs as [|c cs IH]; cbn [tally map]; [reflexivity|]. rewrite IH. reflexivity. Qed.

Lemma insert_same_call (cs : list (rpc * position)) i call at_ at' :
  cs !! i = Some (call, at_) ->
  map fst (<[i := (call, at')]> cs) = map fst cs.
Proof.
  intros Hi. change (map fst) with (fmap (M := list) (@fst rpc position)).
  rewrite list_fmap_insert. apply list_insert_id.
  rewrite list_lookup_fmap, Hi. reflexivity.
Qed.

Section BroadcastRounds.
Variables (W : Z) (P : Z -> bytes) (N : Z) (requests : list rpc).
Hypothesis HW : 2 <= W.
Hypothesis Hpool : broadcast_pool W P requests.

Lemma count_in_round (cs : list (rpc * position)) n :
  map fst cs = requests -> tally (member_of n) cs <= W.
Proof.
  intros Hcs. unfold member_of. rewrite <- (tally_fst (in_round n)), Hcs.
  apply (pool_size _ _ _ Hpool).
Qed.

Lemma arrived_le_members (cs : list (rpc * position)) n :
  tally (arrived_in n) cs <= tally (member_of n) cs.
Proof.
  apply tally_le. intros c _. unfold arrived_in, member_of.
  intros H. apply andb_true_iff in H as [H _]. exact H.
Qed.

Lemma replied_le_members (cs : list (rpc * position)) n :
  tally (replied_in n) cs <= tally (member_of n) cs.
Proof.
  apply tally_le. intros c _. unfold replied_in, member_of.
  intros H. apply andb_true_iff in H as [H _]. exact H.
Qed.

(** When the quorum is there, every call of the round has arrived, the
    root among them. *)
Lemma quorum_all_arrived (cs : list (rpc * position)) n :
  map fst cs = requests ->
  tally (arrived_in n) cs = W ->
  (forall c, In c cs -> member_of n c = true -> arrived c.2 = true) /\
  exists c, In c cs /\ arrived_in n c = true /\ is_root c.1 = true.
Proof.
  intros Hcs HA.
  pose proof (count_in_round cs n Hcs) as Hcount.
  pose proof (arrived_le_members cs n) as Hle.
  assert (Hall : forall c, In c cs -> member_of n c = true -> arrived_in n c = true).
  { apply tally_eq_all; [|lia].
    intros c _ H. unfold arrived_in in H. apply andb_true_iff in H as [H _]. exact H. }
  split.
  - intros c Hc Hm. apply Hall in Hm; [|assumption].
    unfold arrived_in in Hm. apply andb_true_iff in Hm as [_ Hm]. exact Hm.
  - destruct (pool_root _ _ _ Hpool n) as (call & Hin & Hn & Hroot).
    { rewrite <- Hcs, tally_fst. fold (member_of n). lia. }
    rewrite <- Hcs in Hin. apply in_map_iff in Hin as (c & <- & Hc).
    exists c. split; [assumption|]. split; [apply Hall; assumption|assumption].
Qed.

Lemma all_replied (cs : list (rpc * position)) n :
  map fst cs = requests ->
  tally (replied_in n) cs = W ->
  forall c, In c cs -> member_of n c = true -> replied c.2 = true.
Proof.
  intros Hcs HD c Hc Hm.
  pose proof (count_in_round cs n Hcs) as Hcount.
  pose proof (replied_le_members cs n) as Hle.
  assert (Hr : replied_in n c = true).
  { revert c Hc Hm. apply tally_eq_all; [|lia].
    intros c _ H. unfold replied_in in H. apply andb_true_iff in H as [H _]. exact H. }
  unfold replied_in in Hr. apply andb_true_iff in Hr as [_ Hr]. exact Hr.
Qed.

Lemma Broadcast_functor call buffer :
  In call requests ->
  rpc_functor W call buffer =
  Normal (if is_root call then P (rpc_sequence_number call) else buffer).
Proof.
  intros Hin. destruct (pool_broadcast _ _ _ Hpool call Hin) as [r ->].
  pose proof (pool_payload _ _ _ Hpool _ Hin) as Hp.
  cbn [rpc_functor is_root] in *. unfold BroadcastFunctor.
  destruct (BroadcastRequest.rank r =? BroadcastRequest.root r); [|reflexivity].
  f_equal. apply Hp. reflexivity.
Qed.

Lemma round_invariant_effect i call at_ s cs s' at' :
  round_invariant W P N requests {| service := s; calls := cs |} ->
  cs !! i = Some (call, at_) ->
  effect call s at_ s' at' ->
  round_invariant W P N requests {| service := s'; calls := <[i := (call, at')]> cs |}.
Proof.
  intros [Hw Hstart Hcalls Hpos Hrec Hsent Hq Hlt Hbuf] Hi He. cbn [service calls] in *.
  assert (Hin : In (call, at_) cs) by (apply list_elem_of_In, list_elem_of_lookup; eauto).
  assert (Hreq : In call requests) by (rewrite <- Hcalls; apply (in_map fst _ _ Hin)).
  pose proof (Hpos _ Hin) as (Hpast & Hold & Hnext & Hnow). cbn [fst snd] in *.
  assert (Hcalls' : map fst (<[i := (call, at')]> cs) = requests)
    by (rewrite (insert_same_call _ _ _ at_); assumption).
  assert (Htally : forall T, tally T (<[i := (call, at')]> cs) =
            tally T cs - (if T (call, at_) then 1 else 0) + (if T (call, at') then 1 else 0))
    by (intros; apply tally_insert; assumption).
  assert (Hmem : forall c, In c (<[i := (call, at')]> cs) -> c = (call, at') \/ In c cs)
    by (intros c; apply In_insert).
  destruct He as [H1|at_ Hp Hne|at_ e buffer Hp Heq Hf|at_ buffer Hp Heq Hf Hr
                 |at_ buffer Hp Heq Hf Hr|Hr Hs|Hr Hs|Hr|at_ Hp Ht].
  - lia.
  - (* parked again *)
    split; cbn [service calls world_size_ sequence_number_ received_ sent_ buffer_].
    + assumption.
    + assumption.
    + assumption.
    + intros c [->|Hc]%Hmem; [|apply Hpos, Hc]. unfold position_ok. cbn [fst snd].
      split; [reflexivity|]. split; [|split; [reflexivity|intros E; lia]].
      intros Hm. rewrite (Hold Hm) in Hp. discriminate.
    + rewrite Htally, Hrec. unfold arrived_in. cbn [fst snd arrived].
      rewrite !andb_false_r. destruct at_; try discriminate; cbn; rewrite ?andb_false_r; lia.
    + rewrite Htally, Hsent. unfold replied_in. cbn [fst snd replied].
      rewrite !andb_false_r. destruct at_; try discriminate; cbn; rewrite ?andb_false_r; lia.
    + assumption.
    + assumption.
    + intros (c & [->|Hc]%Hmem & Ha & Hroot); [|apply Hbuf; eauto].
      unfold arrived_in in Ha. cbn in Ha. rewrite andb_false_r in Ha. discriminate.
  - (* the functor of a Broadcast does not throw *)
    rewrite Hw, Broadcast_functor in Hf by assumption. discriminate.
  - (* the last arrival *)
    rewrite Hw, Broadcast_functor in Hf by assumption. injection Hf as Hf.
    assert (Hround : in_round (sequence_number_ s) call = true)
      by (unfold in_round; rewrite Heq; apply Z.eqb_refl).
    assert (HA : tally (arrived_in (sequence_number_ s)) (<[i := (call, Replied buffer)]> cs)
                 = received_ s + 1).
    { rewrite Htally, Hrec. unfold arrived_in. cbn [fst snd arrived]. rewrite Hround.
      destruct at_; try discriminate; cbn; lia. }
    assert (Hbuf' : (exists c, In c (<[i := (call, Replied buffer)]> cs) /\
                       arrived_in (sequence_number_ s) c = true /\ is_root c.1 = true) ->
                    buffer = P (sequence_number_ s)).
    { intros (c & [->|Hc]%Hmem & Ha & Hroot).
      - cbn [fst] in Hroot. rewrite Hroot in Hf. rewrite <- Hf, Heq. reflexivity.
      - rewrite <- Hf. destruct (is_root call); [rewrite Heq; reflexivity|].
        apply Hbuf. eauto. }
    assert (Hb : buffer = P (sequence_number_ s)).
    { apply Hbuf'. apply quorum_all_arrived; [assumption|]. lia. }
    split; cbn [service calls world_size_ sequence_number_ received_ sent_ buffer_].
    + assumption.
    + assumption.
    + assumption.
    + intros c [->|Hc]%Hmem; [|apply Hpos, Hc]. unfold position_ok. cbn [fst snd].
      split; [lia|]. split; [lia|]. split; [lia|].
      intros _. right. right. rewrite Hb. reflexivity.
    + symmetry. exact HA.
    + rewrite Htally, Hsent. unfold replied_in. cbn [fst snd replied]. rewrite Hround.
      destruct at_; try discriminate; cbn; lia.
    + right. lia.
    + lia.
    + exact Hbuf'.
  - (* an arrival before the quorum *)
    rewrite Hw, Broadcast_functor in Hf by assumption. injection Hf as Hf.
    assert (Hround : in_round (sequence_number_ s) call = true)
      by (unfold in_round; rewrite Heq; apply Z.eqb_refl).
    assert (Hsent0 : sent_ s = 0).
    { destruct Hq as [|Hq]; [assumption|]. exfalso.
      destruct (quorum_all_arrived cs (sequence_number_ s) Hcalls) as [Hall _]; [lia|].
      specialize (Hall _ Hin Hround). cbn [snd] in Hall.
      destruct at_; discriminate. }
    split; cbn [service calls world_size_ sequence_number_ received_ sent_ buffer_].
    + assumption.
    + assumption.
    + assumption.
    + intros c [->|Hc]%Hmem; [|apply Hpos, Hc]. unfold position_ok. cbn [fst snd].
      split; [lia|]. split; [lia|]. split; [lia|]. intros _. right. left. reflexivity.
    + rewrite Htally, Hrec. unfold arrived_in. cbn [fst snd arrived]. rewrite Hround.
      destruct at_; try discriminate; cbn; lia.
    + rewrite Htally, Hsent. unfold replied_in. cbn [fst snd replied]. rewrite Hround.
      destruct at_; try discriminate; cbn; lia.
    + left. assumption.
    + assumption.
    + intros (c & [->|Hc]%Hmem & Ha & Hroot).
      * cbn [fst] in Hroot. rewrite Hroot in Hf. rewrite <- Hf, Heq. reflexivity.
      * rewrite <- Hf. destruct (is_root call); [rewrite Heq; reflexivity|].
        apply Hbuf. eauto.
  - (* the last departure: the reset *)
    assert (Heq : rpc_sequence_number call = sequence_number_ s).
    { destruct (Z.lt_trichotomy (rpc_sequence_number call) (sequence_number_ s))
        as [Hlt'|[Heq|Hgt]]; [|assumption|].
      - destruct (Z.lt_ge_cases (rpc_sequence_number call) N) as [Hm|Hm].
        + specialize (Hpast Hm). discriminate.
        + assert (Hx : WaitAll = Replied (P (rpc_sequence_number call)))
            by (apply Hold; lia). discriminate.
      - specialize (Hnext Hgt). discriminate. }
    assert (Hround : in_round (sequence_number_ s) call = true)
      by (unfold in_round; rewrite Heq; apply Z.eqb_refl).
    assert (Hb : buffer_ s = P (sequence_number_ s)).
    { apply Hbuf. apply quorum_all_arrived; [assumption|]. lia. }
    assert (Hall : forall c, In c (<[i := (call, Replied (buffer_ s))]> cs) ->
                     member_of (sequence_number_ s) c = true -> replied c.2 = true).
    { apply all_replied; [assumption|]. rewrite Htally, <- Hsent.
      unfold replied_in. cbn [fst snd replied]. rewrite Hround. cbn. lia. }
    assert (Hnone : forall c, In c (<[i := (call, Replied (buffer_ s))]> cs) ->
                      in_round (sequence_number_ s + 1) c.1 = true -> parked c.2 = true).
    { intros c [->|Hc]%Hmem Hc'; unfold in_round in Hc'; cbn [fst] in Hc';
        apply Z.eqb_eq in Hc'; [lia|].
      apply (Hpos c Hc). lia. }
    split; cbn [service calls world_size_ sequence_number_ received_ sent_ buffer_ fresh].
    + assumption.
    + lia.
    + assumption.
    + intros c Hc'. pose proof (Hall c Hc') as Hrep. pose proof (Hnone c Hc') as Hpk.
      apply Hmem in Hc' as [->|Hc].
      * unfold position_ok. cbn [fst snd].
        split; [intros; lia|]. split; [intros _; rewrite Hb, Heq; reflexivity|].
        split; intros; lia.
      * destruct (Hpos c Hc) as (o0 & o1 & o2 & o3). unfold position_ok.
        split; [exact o0|]. split; [|split].
        -- intros Hlt'.
           destruct (decide (rpc_sequence_number c.1 = sequence_number_ s)) as [E|E].
           ++ assert (Hrep' : replied c.2 = true).
              { apply Hrep. unfold member_of, in_round. rewrite E. apply Z.eqb_refl. }
              clear Hrep. rename Hrep' into Hrep.
              destruct (o3 E) as [Hx|[Hx|Hx]]; [destruct c.2; discriminate| |].
              ** rewrite Hx in Hrep. discriminate.
              ** rewrite Hx, E. reflexivity.
           ++ apply o1. lia.
        -- intros Hlt'. apply o2. lia.
        -- intros E. left. apply o2. lia.
    + symmetry. apply tally_zero. intros c Hc. unfold arrived_in.
      destruct (in_round (sequence_number_ s + 1) c.1) eqn:E; [|reflexivity].
      specialize (Hnone c Hc E). destruct c.2; try discriminate; reflexivity.
    + symmetry. apply tally_zero. intros c Hc. unfold replied_in.
      destruct (in_round (sequence_number_ s + 1) c.1) eqn:E; [|reflexivity].
      specialize (Hnone c Hc E). destruct c.2; try discriminate; reflexivity.
    + left. reflexivity.
    + lia.
    + intros (c & Hc & Ha & _). exfalso. unfold arrived_in in Ha.
      apply andb_true_iff in Ha as [E Ha]. specialize (Hnone c Hc E).
      destruct c.2; discriminate.
  - (* a departure before the last *)
    assert (Heq : rpc_sequence_number call = sequence_number_ s).
    { destruct (Z.lt_trichotomy (rpc_sequence_number call) (sequence_number_ s))
        as [Hlt'|[Heq|Hgt]]; [|assumption|].
      - destruct (Z.lt_ge_cases (rpc_sequence_number call) N) as [Hm|Hm].
        + specialize (Hpast Hm). discriminate.
        + assert (Hx : WaitAll = Replied (P (rpc_sequence_number call)))
            by (apply Hold; lia). discriminate.
      - specialize (Hnext Hgt). discriminate. }
    assert (Hround : in_round (sequence_number_ s) call = true)
      by (unfold in_round; rewrite Heq; apply Z.eqb_refl).
    assert (Hb : buffer_ s = P (sequence_number_ s)).
    { apply Hbuf. apply quorum_all_arrived; [assumption|]. lia. }
    split; cbn [service calls world_size_ sequence_number_ received_ sent_ buffer_].
    + assumption.
    + assumption.
    + assumption.
    + intros c [->|Hc]%Hmem; [|apply Hpos, Hc]. unfold position_ok. cbn [fst snd].
      split; [lia|]. split; [lia|]. split; [lia|].
      intros _. right. right. rewrite Hb. reflexivity.
    + rewrite Htally, Hrec. unfold arrived_in. cbn [fst snd arrived]. rewrite Hround.
      cbn. lia.
    + rewrite Htally, Hsent. unfold replied_in. cbn [fst snd replied]. rewrite Hround.
      cbn. lia.
    + right. lia.
    + lia.
    + intros _. exact Hb.
  - (* still waiting for the quorum *)
    rewrite list_insert_id by assumption. by split.
  - (* nothing left to do *)
    rewrite list_insert_id by assumption. by split.
Qed.

Lemma round_invariant_step i srv srv' :
  round_invariant W P N requests srv -> step i srv = Some srv' ->
  round_invariant W P N requests srv'.
Proof.
  intros HI Hstep.
  apply step_inv in Hstep as [[_ ->]|(call & at_ & s & at' & Hi & Hs & ->)]; [assumption|].
  destruct srv as [s0 cs]. cbn [service calls] in *.
  apply (round_invariant_effect i call at_ s0 cs s at'); [assumption..|].
  apply serve_effect, Hs.
Qed.

Lemma round_invariant_start :
  round_invariant W P N requests (start W N requests).
Proof.
  assert (Hall : forall c, In c (map (fun call => (call, Entered)) requests) -> c.2 = Entered).
  { intros c Hc. apply in_map_iff in Hc as (call & <- & _). reflexivity. }
  split; cbn [start service calls fresh world_size_ sequence_number_ received_ sent_ buffer_].
  - reflexivity.
  - lia.
  - rewrite map_map. apply map_id.
  - intros c Hc. apply Hall in Hc. unfold position_ok. rewrite Hc. cbn.
    repeat split; auto. intros; lia.
  - symmetry. apply tally_zero. intros c Hc. apply Hall in Hc.
    unfold arrived_in. rewrite Hc. apply andb_false_r.
  - symmetry. apply tally_zero. intros c Hc. apply Hall in Hc.
    unfold replied_in. rewrite Hc. apply andb_false_r.
  - left. reflexivity.
  - lia.
  - intros (c & Hc & Ha & _). apply Hall in Hc. unfold arrived_in in Ha.
    rewrite Hc, andb_false_r in Ha. discriminate.
Qed.

Lemma round_invariant_run schedule srv :
  run schedule (start W N requests) = Some srv -> round_invariant W P N requests srv.
Proof.
  apply (run_invariant (round_invariant W P N requests)).
  - intros i srv0 srv1. apply round_invariant_step.
  - apply round_invariant_start.
Qed.

(** Broadcast calls never throw and never leave the defined behaviour. *)
Lemma Broadcast_step_defined i srv :
  round_invariant W P N requests srv -> is_Some (step i srv).
Proof.
  intros HI. unfold step. destruct (calls srv !! i) as [[call at_]|] eqn:Hi; [|by eexists].
  assert (Hreq : In call requests).
  { rewrite <- (ri_calls _ _ _ _ _ HI). apply (in_map fst _ (call, at_)).
    apply list_elem_of_In, list_elem_of_lookup. eauto. }
  rewrite serve_unfold. unfold contribute.
  rewrite (ri_world _ _ _ _ _ HI), Broadcast_functor by assumption.
  unfold released. destruct at_; repeat (destruct (_ =? _)); by eexists.
Qed.

Lemma Broadcast_run_defined schedule : forall srv,
  round_invariant W P N requests srv -> is_Some (run schedule srv).
Proof.
  induction schedule as [|i schedule IH]; intros srv HI; cbn [run]; [by eexists|].
  destruct (Broadcast_step_defined i srv HI) as [srv1 H1]. rewrite H1.
  apply IH. eapply round_invariant_step; eassumption.
Qed.

(** A reply is the payload of the root of the call's round. *)
Lemma replies_are_root srv call b :
  round_invariant W P N requests srv ->
  In (call, Replied b) (calls srv) -> b = P (rpc_sequence_number call).
Proof.
  intros HI Hin. destruct (ri_positions _ _ _ _ _ HI _ Hin) as (o0 & o1 & o2 & o3).
  pose proof (ri_start _ _ _ _ _ HI) as Hstart. cbn [fst snd] in *.
  destruct (Z.lt_trichotomy (rpc_sequence_number call) (sequence_number_ (service srv)))
    as [Hlt|[Heq|Hgt]].
  - destruct (Z.lt_ge_cases (rpc_sequence_number call) N) as [Hm|Hm].
    + specialize (o0 Hm). discriminate.
    + assert (Hx : Replied b = Replied (P (rpc_sequence_number call))) by (apply o1; lia).
      injection Hx as ->. reflexivity.
  - destruct (o3 Heq) as [|[|[= ->]]]; [discriminate..|]. rewrite Heq. reflexivity.
  - specialize (o2 Hgt). discriminate.
Qed.

Lemma has_arrived_insert (cs : list (rpc * position)) i j call at_ at' s s' :
  cs !! i = Some (call, at_) ->
  (arrived at_ = true -> arrived at' = true) ->
  has_arrived j {| service := s; calls := cs |} = true ->
  has_arrived j {| service := s'; calls := <[i := (call, at')]> cs |} = true.
Proof.
  intros Hi Hmono. unfold has_arrived. cbn [calls].
  destruct (decide (i = j)) as [<-|Hne].
  - rewrite Hi, list_lookup_insert_eq by (eapply lookup_lt_Some, Hi). exact Hmono.
  - rewrite list_lookup_insert_ne by assumption. done.
Qed.

Lemma replied_at_insert (cs : list (rpc * position)) i j call at_ at' s s' :
  cs !! i = Some (call, at_) ->
  (replied at_ = true -> replied at' = true) ->
  replied_at j {| service := s; calls := cs |} = true ->
  replied_at j {| service := s'; calls := <[i := (call, at')]> cs |} = true.
Proof.
  intros Hi Hmono. unfold replied_at. cbn [calls].
  destruct (decide (i = j)) as [<-|Hne].
  - rewrite Hi, list_lookup_insert_eq by (eapply lookup_lt_Some, Hi). exact Hmono.
  - rewrite list_lookup_insert_ne by assumption. done.
Qed.

(** While the sequence number stays, no call goes back, the quorum stays,
    and a call of the round in progress that takes a step has arrived
    after it, and has its reply after it when the quorum was there. *)
Lemma step_progress i srv srv' :
  round_invariant W P N requests srv ->
  step i srv = Some srv' ->
  sequence_number_ (service srv') = sequence_number_ (service srv) ->
  (forall j, has_arrived j srv = true -> has_arrived j srv' = true) /\
  (forall j, replied_at j srv = true -> replied_at j srv' = true) /\
  (received_ (service srv) = W -> received_ (service srv') = W) /\
  (forall call, requests !! i = Some call ->
     in_round (sequence_number_ (service srv)) call = true ->
     has_arrived i srv' = true /\
     (received_ (service srv) = W -> replied_at i srv' = true)).
Proof.
  intros HI Hstep Hseq.
  apply step_inv in Hstep as [[Hnone ->]|(call & at_ & s' & at' & Hi & Hs & ->)].
  { split; [done|]. split; [done|]. split; [done|]. intros call Hreq. exfalso.
    rewrite <- (ri_calls _ _ _ _ _ HI) in Hreq.
    change (map fst) with (fmap (M := list) (@fst rpc position)) in Hreq.
    rewrite list_lookup_fmap, Hnone in Hreq. discriminate. }
  destruct srv as [s cs]. cbn [service calls] in *.
  assert (Hin : In (call, at_) cs) by (apply list_elem_of_In, list_elem_of_lookup; eauto).
  assert (Hreq : In call requests).
  { rewrite <- (ri_calls _ _ _ _ _ HI). apply (in_map fst _ _ Hin). }
  pose proof (ri_positions _ _ _ _ _ HI _ Hin) as (_ & _ & _ & Hnow). cbn [service fst snd] in Hnow.
  pose proof (ri_world _ _ _ _ _ HI) as Hw. cbn [service] in Hw.
  assert (Hsame : forall call', requests !! i = Some call' -> call' = call).
  { intros call' Hc. rewrite <- (ri_calls _ _ _ _ _ HI) in Hc. cbn [calls] in Hc.
    change (map fst) with (fmap (M := list) (@fst rpc position)) in Hc.
    rewrite list_lookup_fmap, Hi in Hc. injection Hc as <-. reflexivity. }
  assert (Hquorum : received_ s = W -> parked at_ = true ->
                    sequence_number_ s = rpc_sequence_number call -> False).
  { intros Hr Hp Heq.
    destruct (quorum_all_arrived cs (sequence_number_ s)) as [Hall _].
    - apply (ri_calls _ _ _ _ _ HI).
    - pose proof (ri_received _ _ _ _ _ HI) as Hrec. cbn [service calls] in Hrec. lia.
    - specialize (Hall _ Hin). unfold member_of, in_round in Hall. cbn [fst snd] in Hall.
      rewrite Heq, Z.eqb_refl in Hall. specialize (Hall eq_refl).
      destruct at_; discriminate. }
  assert (Hkey : (arrived at_ = true -> arrived at' = true) /\
                 (replied at_ = true -> replied at' = true) /\
                 (received_ s = W -> received_ s' = W) /\
                 (in_round (sequence_number_ s) call = true ->
                  arrived at' = true /\ (received_ s = W -> replied at' = true))).
  { apply serve_effect in Hs.
    destruct Hs as [H1|at_ Hp Hne|at_ e buffer Hp Heq Hf|at_ buffer Hp Heq Hf Hr
                   |at_ buffer Hp Heq Hf Hr|Hr Hs|Hr Hs|Hr|at_ Hp Ht];
      cbn [sequence_number_ received_ fresh arrived replied] in *.
    - lia.
    - split; [|split; [|split]]; try (intros; destruct at_; discriminate); try done.
      intros Hr. unfold in_round in Hr. apply Z.eqb_eq in Hr. lia.
    - rewrite Hw, Broadcast_functor in Hf by assumption. discriminate.
    - split; [|split; [|split]]; try done. lia.
    - split; [|split; [|split]]; try (intros; destruct at_; discriminate); try done.
      + intros Hr'. exfalso. eauto.
      + intros _. split; [reflexivity|]. intros Hr'. exfalso. eauto.
    - lia.
    - split; [|split; [|split]]; done.
    - split; [|split; [|split]]; try done. intros _. split; [reflexivity|]. lia.
    - split; [|split; [|split]]; try done.
      intros Hr. unfold in_round in Hr. apply Z.eqb_eq in Hr.
      destruct (Hnow Hr) as [Hx | [ -> | -> ] ]; [congruence| |done].
      destruct Ht; discriminate. }
  destruct Hkey as (Ka & Kr & Krec & Kprog).
  split; [intros j; apply (has_arrived_insert cs i j call at_ at'); assumption|].
  split; [intros j; apply (replied_at_insert cs i j call at_ at'); assumption|].
  split; [assumption|].
  intros call' Hc Hround. apply Hsame in Hc as ->.
  destruct (Kprog Hround) as [Ha Hr].
  unfold has_arrived, replied_at. cbn [calls].
  rewrite list_lookup_insert_eq by (eapply lookup_lt_Some, Hi). split; assumption.
Qed.

Lemma step_monotone i srv srv' :
  step i srv = Some srv' ->
  sequence_number_ (service srv) <= sequence_number_ (service srv').
Proof.
  intros Hstep.
  apply step_inv in Hstep as [[_ ->]|(call & at_ & s' & at' & _ & Hs & ->)]; [lia|].
  apply serve_effect, effect_monotone in Hs. cbn [service]. lia.
Qed.

Lemma run_monotone schedule : forall srv srv',
  run schedule srv = Some srv' ->
  sequence_number_ (service srv) <= sequence_number_ (service srv').
Proof.
  induction schedule as [|i schedule IH]; intros srv srv'; cbn [run].
  - intros [= <-]. lia.
  - destruct (step i srv) as [srv1|] eqn:H1; [|discriminate]. intros Hrun.
    apply step_monotone in H1. apply IH in Hrun. lia.
Qed.

Lemma run_progress schedule : forall srv srv',
  round_invariant W P N requests srv ->
  run schedule srv = Some srv' ->
  sequence_number_ (service srv') = sequence_number_ (service srv) ->
  (received_ (service srv) = W -> received_ (service srv') = W) /\
  forall i call, requests !! i = Some call ->
    in_round (sequence_number_ (service srv)) call = true ->
    (In i schedule \/ has_arrived i srv = true -> has_arrived i srv' = true) /\
    (received_ (service srv) = W ->
     In i schedule \/ replied_at i srv = true -> replied_at i srv' = true).
Proof.
  induction schedule as [|j schedule IH]; intros srv srv' HI; cbn [run].
  - intros [= <-] _. split; [done|]. intros i call _ _.
    split; [intros [[]|]; done|intros _ [[]|]; done].
  - destruct (step j srv) as [srv1|] eqn:H1; [|discriminate]. intros Hrun Hseq.
    pose proof (step_monotone _ _ _ H1) as Hm1.
    pose proof (run_monotone _ _ _ Hrun) as Hm2.
    assert (Hseq1 : sequence_number_ (service srv1) = sequence_number_ (service srv)) by lia.
    destruct (step_progress j srv srv1 HI H1 Hseq1) as (Ma & Mr & Mrec & Mprog).
    destruct (IH srv1 srv' (round_invariant_step _ _ _ HI H1) Hrun ltac:(lia))
      as (Irec & Iprog).
    rewrite Hseq1 in Iprog.
    split; [intros Hr; apply Irec, Mrec, Hr|].
    intros i call Hi Hround. destruct (Iprog i call Hi Hround) as [Ia Ir]. split.
    + intros [[<-|Hin]|Ha].
      * apply Ia. right. apply (Mprog call Hi Hround).
      * apply Ia. left. exact Hin.
      * apply Ia. right. apply Ma, Ha.
    + intros Hr [[<-|Hin]|Ha].
      * apply Ir; [apply Mrec, Hr|]. right. apply (Mprog call Hi Hround), Hr.
      * apply Ir; [apply Mrec, Hr|]. left. exact Hin.
      * apply Ir; [apply Mrec, Hr|]. right. apply Mr, Ha.
Qed.

Lemma lookup_request srv i c :
  round_invariant W P N requests srv ->
  calls srv !! i = Some c -> requests !! i = Some c.1.
Proof.
  intros HI Hc. rewrite <- (ri_calls _ _ _ _ _ HI).
  change (map fst) with (fmap (M := list) (@fst rpc position)).
  rewrite list_lookup_fmap, Hc. reflexivity.
Qed.

(** A full round whose calls each take a step, and then each another
    step, retires. *)
Lemma round_completes schedule1 schedule2 srv0 srv :
  round_invariant W P N requests srv0 ->
  tally (in_round (sequence_number_ (service srv0))) requests = W ->
  (forall i call, requests !! i = Some call ->
     in_round (sequence_number_ (service srv0)) call = true ->
     In i schedule1 /\ In i schedule2) ->
  run (schedule1 ++ schedule2) srv0 = Some srv ->
  sequence_number_ (service srv0) < sequence_number_ (service srv).
Proof.
  intros HI0 Hfull Hcover Hrun. rewrite run_app in Hrun.
  destruct (run schedule1 srv0) as [srv1|] eqn:Hrun1; [|discriminate].
  pose proof (run_monotone _ _ _ Hrun1) as Hm1.
  pose proof (run_monotone _ _ _ Hrun) as Hm2.
  destruct (Z.lt_ge_cases (sequence_number_ (service srv0)) (sequence_number_ (service srv)))
    as [|Hge]; [assumption|exfalso].
  set (n := sequence_number_ (service srv0)) in *.
  assert (Hs1 : sequence_number_ (service srv1) = n) by lia.
  assert (Hs : sequence_number_ (service srv) = n) by lia.
  pose proof (run_invariant _ (fun i a b => round_invariant_step i a b) _ _ _ HI0 Hrun1) as HI1.
  pose proof (run_invariant _ (fun i a b => round_invariant_step i a b) _ _ _ HI1 Hrun) as HI.
  destruct (run_progress schedule1 srv0 srv1 HI0 Hrun1 Hs1) as (_ & Hp1). fold n in Hp1.
  assert (Hmembers : forall cs, map fst cs = requests -> tally (member_of n) cs = W).
  { intros cs Hcs. unfold member_of. rewrite <- (tally_fst (in_round n)), Hcs. exact Hfull. }
  assert (Hr1 : received_ (service srv1) = W).
  { rewrite (ri_received _ _ _ _ _ HI1), Hs1, <- (Hmembers _ (ri_calls _ _ _ _ _ HI1)).
    apply tally_ext. intros c Hc. unfold arrived_in, member_of.
    destruct (in_round n c.1) eqn:Hround; [|reflexivity]. cbn.
    apply list_elem_of_In, list_elem_of_lookup in Hc as [i Hi].
    pose proof (lookup_request _ _ _ HI1 Hi) as Hreq.
    destruct (Hp1 i c.1 Hreq Hround) as [Ha _].
    specialize (Ha (or_introl (proj1 (Hcover i c.1 Hreq Hround)))).
    unfold has_arrived in Ha. rewrite Hi in Ha. destruct c. exact Ha. }
  destruct (run_progress schedule2 srv1 srv HI1 Hrun ltac:(lia)) as (_ & Hp2).
  rewrite Hs1 in Hp2.
  pose proof (ri_sent_lt _ _ _ _ _ HI) as Hlt.
  rewrite (ri_sent _ _ _ _ _ HI), Hs, <- (Hmembers _ (ri_calls _ _ _ _ _ HI)) in Hlt.
  assert (Heq : tally (replied_in n) (calls srv) = tally (member_of n) (calls srv)); [|lia].
  apply tally_ext. intros c Hc. unfold replied_in, member_of.
  destruct (in_round n c.1) eqn:Hround; [|reflexivity]. cbn.
  apply list_elem_of_In, list_elem_of_lookup in Hc as [i Hi].
  pose proof (lookup_request _ _ _ HI Hi) as Hreq.
  destruct (Hp2 i c.1 Hreq Hround) as [_ Hr].
  specialize (Hr Hr1 (or_introl (proj2 (Hcover i c.1 Hreq Hround)))).
  unfold replied_at in Hr. rewrite Hi in Hr. destruct c. exact Hr.
Qed.

(** With at least two ranks: along every schedule the replies are the
    roots' payloads, and a full round that is scheduled twice over gets
    all its replies. *)
Lemma Broadcast_barrier schedule :
  exists srv,
    run schedule (start W N requests) = Some srv /\
    (forall i call b,
       calls srv !! i = Some (call, Replied b) -> b = P (rpc_sequence_number call)) /\
    (forall schedule0 schedule1 schedule2 srv0,
       schedule = schedule0 ++ schedule1 ++ schedule2 ->
       run schedule0 (start W N requests) = Some srv0 ->
       tally (in_round (sequence_number_ (service srv0))) requests = W ->
       (forall i call, requests !! i = Some call ->
          in_round (sequence_number_ (service srv0)) call = true ->
          In i schedule1 /\ In i schedule2) ->
       forall i call, requests !! i = Some call ->
         in_round (sequence_number_ (service srv0)) call = true ->
         calls srv !! i = Some (call, Replied (P (sequence_number_ (service srv0))))).
Proof.
  destruct (Broadcast_run_defined schedule _ round_invariant_start) as [srv Hrun].
  pose proof (round_invariant_run _ _ Hrun) as HI.
  exists srv. split; [assumption|]. split.
  - intros i call b Hi. apply (replies_are_root srv call b HI).
    apply list_elem_of_In, list_elem_of_lookup. eauto.
  - intros schedule0 schedule1 schedule2 srv0 -> Hrun0 Hfull Hcover i call Hi Hround.
    rewrite run_app, Hrun0 in Hrun.
    pose proof (round_invariant_run _ _ Hrun0) as HI0.
    pose proof (round_completes schedule1 schedule2 srv0 srv HI0 Hfull Hcover Hrun) as Hlt.
    assert (Hc : exists at_, calls srv !! i = Some (call, at_)).
    { pose proof (ri_calls _ _ _ _ _ HI) as Hcalls. rewrite <- Hcalls in Hi.
      change (map fst) with (fmap (M := list) (@fst rpc position)) in Hi.
      rewrite list_lookup_fmap in Hi.
      destruct (calls srv !! i) as [[call' at_]|]; [|discriminate].
      injection Hi as ->. eauto. }
    destruct Hc as [at_ Hc]. rewrite Hc. do 2 f_equal.
    assert (Hin : In (call, at_) (calls srv))
      by (apply list_elem_of_In, list_elem_of_lookup; eauto).
    destruct (ri_positions _ _ _ _ _ HI _ Hin) as (_ & o1 & _). cbn [fst snd] in o1.
    unfold in_round in Hround. apply Z.eqb_eq in Hround.
    pose proof (ri_start _ _ _ _ _ HI0). rewrite <- Hround. apply o1. lia.
Qed.

End BroadcastRounds.

Lemma tally_pos {A : Type} (T : A -> bool) (l : list A) u :
  In u l -> T u = true -> 1 <= tally T l.
Proof.
  induction l as [|v l IH]; intros Hu Tu; [destruct Hu|]. cbn [tally].
  pose proof (tally_nonneg T l). destruct Hu as [->|Hu].
  - rewrite Tu. lia.
  - specialize (IH Hu Tu). destruct (T v); lia.
Qed.

Lemma tally_unique {A : Type} (T : A -> bool) (l : list A) x y :
  tally T l <= 1 -> In x l -> In y l -> T x = true -> T y = true -> x = y.
Proof.
  induction l as [|z l IH]; intros Hle Hx Hy Tx Ty; [destruct Hx|].
  cbn [tally] in Hle. pose proof (tally_nonneg T l) as H0.
  destruct Hx as [->|Hx], Hy as [->|Hy]; [reflexivity| | |].
  - rewrite Tx in Hle. pose proof (tally_pos T l y Hy Ty). lia.
  - rewrite Ty in Hle. pose proof (tally_pos T l x Hx Tx). lia.
  - apply IH; try assumption. destruct (T z); lia.
Qed.

(** With one rank every call is the root of its round. *)
Lemma single_rank_is_root P (requests : list rpc) call :
  broadcast_pool 1 P requests -> In call requests ->
  rpc_send_buffer call = P (rpc_sequence_number call).
Proof.
  intros Hpool Hin. apply (pool_payload _ _ _ Hpool _ Hin).
  assert (Hround : in_round (rpc_sequence_number call) call = true)
    by (unfold in_round; apply Z.eqb_refl).
  pose proof (pool_size _ _ _ Hpool (rpc_sequence_number call)) as Hle.
  pose proof (tally_pos _ _ _ Hin Hround) as Hge.
  destruct (pool_root _ _ _ Hpool (rpc_sequence_number call)) as (c & Hc & Hr & Hroot); [lia|].
  rewrite <- (tally_unique _ _ c call Hle Hc Hin Hr Hround). exact Hroot.
Qed.

Lemma Broadcast_pass_through P N (requests : list rpc) schedule :
  broadcast_pool 1 P requests ->
  exists srv,
    run schedule (start 1 N requests) = Some srv /\
    (forall i call b,
       calls srv !! i = Some (call, Replied b) -> b = P (rpc_sequence_number call)) /\
    (forall schedule0 schedule1 schedule2 srv0,
       schedule = schedule0 ++ schedule1 ++ schedule2 ->
       run schedule0 (start 1 N requests) = Some srv0 ->
       tally (in_round (sequence_number_ (service srv0))) requests = 1 ->
       (forall i call, requests !! i = Some call ->
          in_round (sequence_number_ (service srv0)) call = true ->
          In i schedule1 /\ In i schedule2) ->
       forall i call, requests !! i = Some call ->
         in_round (sequence_number_ (service srv0)) call = true ->
         calls srv !! i = Some (call, Replied (P (sequence_number_ (service srv0))))).
Proof.
  intros Hpool.
  assert (Hsingle : forall schedule', exists cs',
    run schedule' (start 1 N requests) = Some {| service := fresh 1 N; calls := cs' |} /\
    length cs' = length requests /\
    forall i call, requests !! i = Some call ->
      (In i schedule' -> cs' !! i = Some (call, Replied (rpc_send_buffer call))) /\
      (~ In i schedule' -> cs' !! i = Some (call, Entered))).
  { intros schedule'.
    destruct (run_single (fresh 1 N) requests eq_refl schedule'
                (map (fun call => (call, Entered)) requests))
      as (cs' & Hrun & Hlen & Hcs').
    - intros i call Hi. left. rewrite list_lookup_fmap, Hi. reflexivity.
    - apply length_map.
    - exists cs'. split; [exact Hrun|]. split; [exact Hlen|].
      intros i call Hi. destruct (Hcs' i call Hi) as [Hin Hout]. split; [exact Hin|].
      intros Hnot. rewrite Hout by assumption. rewrite list_lookup_fmap, Hi. reflexivity. }
  destruct (Hsingle schedule) as (cs' & Hrun & Hlen & Hcs').
  eexists. split; [exact Hrun|]. cbn [calls]. split.
  - intros i call b Hi.
    destruct (requests !! i) as [call0|] eqn:Hreq.
    + destruct (Hcs' i call0 Hreq) as [Hin Hout].
      destruct (in_dec Nat.eq_dec i schedule) as [Hs|Hs].
      * rewrite (Hin Hs) in Hi. injection Hi as <- <-.
        apply (single_rank_is_root P requests); [assumption|].
        apply list_elem_of_In, list_elem_of_lookup. eauto.
      * rewrite (Hout Hs) in Hi. discriminate.
    + apply lookup_lt_Some in Hi. apply lookup_ge_None in Hreq. lia.
  - intros schedule0 schedule1 schedule2 srv0 -> Hrun0 _ Hcover i call Hi Hround.
    destruct (Hsingle schedule0) as (cs0 & Hrun0' & _). rewrite Hrun0 in Hrun0'.
    injection Hrun0' as ->. cbn [service fresh sequence_number_] in *.
    destruct (Hcs' i call Hi) as [Hin _]. rewrite Hin.
    + do 3 f_equal. unfold in_round in Hround. apply Z.eqb_eq in Hround.
      rewrite <- Hround. apply (single_rank_is_root P requests); [assumption|].
      apply list_elem_of_In, list_elem_of_lookup. eauto.
    + apply in_or_app. right. apply in_or_app. left. apply (Hcover i call Hi Hround).
Qed.

(** The barrier on calls of Broadcast rounds in a world of [W] ranks (no
    round has more than [W] calls, a round of [W] calls has a call of the
    root, and [P n] is the payload of the root of round [n]): along every
    schedule every reply the server has given is the payload of the root
    of the call's round, and once every call of a full round has been
    scheduled and then scheduled again, every call of that round has that
    reply. *)
Lemma Broadcast_rounds W P N (requests : list rpc) schedule :
  1 <= W ->
  broadcast_pool W P requests ->
  exists srv,
    run schedule (start W N requests) = Some srv /\
    (forall i call b,
       calls srv !! i = Some (call, Replied b) -> b = P (rpc_sequence_number call)) /\
    (forall schedule0 schedule1 schedule2 srv0,
       schedule = schedule0 ++ schedule1 ++ schedule2 ->
       run schedule0 (start W N requests) = Some srv0 ->
       tally (in_round (sequence_number_ (service srv0))) requests = W ->
       (forall i call, requests !! i = Some call ->
          in_round (sequence_number_ (service srv0)) call = true ->
          In i schedule1 /\ In i schedule2) ->
       forall i call, requests !! i = Some call ->
         in_round (sequence_number_ (service srv0)) call = true ->
         calls srv !! i = Some (call, Replied (P (sequence_number_ (service srv0))))).
Proof.
  intros HW Hpool. destruct (decide (W = 1)) as [->|Hne].
  - apply Broadcast_pass_through. assumption.
  - apply Broadcast_barrier; [lia|assumption].
Qed.

(** ** Rounds of disciplined callers *)

Lemma tally_le_length {A : Type} (T : A -> bool) (l : list A) :
  tally T l <= Z.of_nat (length l).
Proof. induction l as [|x l IH]; cbn [tally length]; [lia|]. destruct (T x); lia. Qed.

Lemma In_broadcast_round N root payloads call :
  In call (broadcast_round N root payloads) <->
  exists r payload,
    payloads !! r = Some payload /\
    call = Broadcast (BroadcastRequest.mk N (Z.of_nat r) payload root).
Proof.
  unfold broadcast_round. rewrite <- list_elem_of_In, elem_of_lookup_imap.
  split; intros (r & payload & H1 & H2); exists r, payload; done.
Qed.

Lemma broadcast_round_pool N root payloads p :
  0 <= root -> payloads !! Z.to_nat root = Some p ->
  broadcast_pool (Z.of_nat (length payloads)) (fun _ => p) (broadcast_round N root payloads).
Proof.
  intros Hroot Hp. split.
  - intros call (r & payload & _ & ->)%In_broadcast_round. eauto.
  - intros n. etransitivity; [apply tally_le_length|].
    unfold broadcast_round. rewrite length_imap. lia.
  - intros call (r & payload & Hr & ->)%In_broadcast_round Hroot'.
    cbn in Hroot'. apply Z.eqb_eq in Hroot'. cbn.
    assert (r = Z.to_nat root) as -> by lia. congruence.
  - intros n Hfull. destruct (decide (n = N)) as [->|Hne].
    + exists (Broadcast (BroadcastRequest.mk N (Z.of_nat (Z.to_nat root)) p root)).
      split; [apply In_broadcast_round; eauto|]. split.
      * unfold in_round. cbn. apply Z.eqb_refl.
      * cbn. apply Z.eqb_eq. lia.
    + exfalso. rewrite tally_zero in Hfull.
      * apply lookup_lt_Some in Hp. lia.
      * intros call (r & payload & _ & ->)%In_broadcast_round.
        unfold in_round. cbn. apply Z.eqb_neq. congruence.
Qed.

Lemma tally_all {A : Type} (T : A -> bool) (l : list A) :
  (forall x, In x l -> T x = true) -> tally T l = Z.of_nat (length l).
Proof.
  induction l as [|x l IH]; intros H; cbn [tally length]; [reflexivity|].
  rewrite (H x) by (left; reflexivity). rewrite IH by (intros; apply H; right; assumption).
  lia.
Qed.

(** C6: the Broadcast functor writes the payload into the buffer exactly
    when the request's rank is its root and otherwise leaves the buffer as
    it is, and a call that is let in counts as arrived either way.  For the
    round of a world of W ranks 0 .. W-1 with a root among them, along
    every schedule, whatever the order of arrival: every reply the server
    has given is the root's payload, and once every call has been
    scheduled and then scheduled again, every rank has that reply. *)
Theorem Broadcast_replies_root N root (payloads : list bytes) p schedule :
  0 <= root ->
  payloads !! Z.to_nat root = Some p ->
  (forall request buffer,
     BroadcastFunctor request buffer =
     Normal (if BroadcastRequest.rank request =? BroadcastRequest.root request
             then BroadcastRequest.send_buffer request else buffer)) /\
  (forall request s at_,
     parked at_ = true -> world_size_ s <> 1 ->
     sequence_number_ s = BroadcastRequest.sequence_number request ->
     exists s' at',
       serve (Broadcast request) s at_ = Some (s', at') /\
       received_ s' = received_ s + 1 /\
       buffer_ s' =
       (if BroadcastRequest.rank request =? BroadcastRequest.root request
        then BroadcastRequest.send_buffer request else buffer_ s)) /\
  exists srv,
    run schedule
      (start (Z.of_nat (length payloads)) N (broadcast_round N root payloads)) = Some srv /\
    (forall i call b, calls srv !! i = Some (call, Replied b) -> b = p) /\
    (forall arrival departure,
       schedule = arrival ++ departure ->
       (forall i, (i < length payloads)%nat -> In i arrival /\ In i departure) ->
       forall i call, broadcast_round N root payloads !! i = Some call ->
         calls srv !! i = Some (call, Replied p)).
Proof.
  intros Hroot Hp. split; [|split].
  - intros request buffer. unfold BroadcastFunctor.
    destruct (_ =? _); reflexivity.
  - intros request s at_ Hpk HW1 Hseq. rewrite serve_unfold.
    apply Z.eqb_neq in HW1. apply Z.eqb_eq in Hseq.
    cbn [rpc_sequence_number sequence_number BroadcastRequest_Request].
    unfold contribute. cbn [rpc_functor]. unfold BroadcastFunctor.
    destruct at_; try discriminate; rewrite ?HW1, Hseq;
      destruct (BroadcastRequest.rank request =? BroadcastRequest.root request);
      destruct (received_ s + 1 =? world_size_ s); eexists _, _; done.
  - assert (HW : 1 <= Z.of_nat (length payloads)) by (apply lookup_lt_Some in Hp; lia).
    assert (Hround : forall call, In call (broadcast_round N root payloads) ->
                       in_round N call = true).
    { intros call (r & payload & _ & ->)%In_broadcast_round.
      unfold in_round. cbn. apply Z.eqb_refl. }
    destruct (Broadcast_rounds (Z.of_nat (length payloads)) (fun _ => p) N
                (broadcast_round N root payloads) schedule HW
                (broadcast_round_pool N root payloads p Hroot Hp))
      as (srv & Hrun & Hsafe & Hlive).
    exists srv. split; [exact Hrun|]. split; [exact Hsafe|].
    intros arrival departure Hsched Hcover i call Hi.
    assert (Hin : In call (broadcast_round N root payloads))
      by (apply list_elem_of_In, list_elem_of_lookup; eauto).
    apply (Hlive [] arrival departure (start (Z.of_nat (length payloads)) N
                                         (broadcast_round N root payloads)));
      cbn [service start fresh sequence_number_].
    + exact Hsched.
    + reflexivity.
    + rewrite tally_all by exact Hround. unfold broadcast_round. rewrite length_imap.
      reflexivity.
    + intros j call' Hj _. apply Hcover. apply lookup_lt_Some in Hj.
      unfold broadcast_round in Hj. rewrite length_imap in Hj. exact Hj.
    + exact Hi.
    + apply Hround, Hin.
Qed.

Lemma Broadcast_replies_root_witness :
  (forall request buffer,
     BroadcastFunctor request buffer =
     Normal (if BroadcastRequest.rank request =? BroadcastRequest.root request
             then BroadcastRequest.send_buffer request else buffer)) /\
  (forall request s at_,
     parked at_ = true -> world_size_ s <> 1 ->
     sequence_number_ s = BroadcastRequest.sequence_number request ->
     exists s' at',
       serve (Broadcast request) s at_ = Some (s', at') /\
       received_ s' = received_ s + 1 /\
       buffer_ s' =
       (if BroadcastRequest.rank request =? BroadcastRequest.root request
        then BroadcastRequest.send_buffer request else buffer_ s)) /\
  exists srv,
    run [0; 1; 3; 2; 2; 3; 1; 0]%nat
      (start (Z.of_nat (length four_payloads)) 0 (broadcast_round 0 2 four_payloads))
    = Some srv /\
    (forall i call b, calls srv !! i = Some (call, Replied b) -> b = [x72]) /\
    (forall arrival departure,
       [0; 1; 3; 2; 2; 3; 1; 0]%nat = arrival ++ departure ->
       (forall i, (i < length four_payloads)%nat -> In i arrival /\ In i departure) ->
       forall i call, broadcast_round 0 2 four_payloads !! i = Some call ->
         calls srv !! i = Some (call, Replied [x72])).
Proof.
  apply (Broadcast_replies_root 0 2 four_payloads [x72] [0; 1; 3; 2; 2; 3; 1; 0]%nat).
  - lia.
  - reflexivity.
Defined.

(** ** Reduce: requests with unrecognized tags *)

(** On a buffer that is not empty such a request is rejected before
    anything is written: the functor throws with the buffer as it was, and
    the call leaves [Handle] with the service as it was. *)
Lemma Allreduce_unrecognized_rejected request s at_ :
  unrecognized request ->
  buffer_ s <> [] ->
  AllreduceFunctor request (buffer_ s) = Throws invalid_argument (buffer_ s) /\
  (parked at_ = true -> world_size_ s <> 1 ->
   sequence_number_ s = AllreduceRequest.sequence_number request ->
   serve (Allreduce request) s at_ = Some (s, Thrown invalid_argument)).
Proof.
  intros Hbad Hne.
  assert (Hf : AllreduceFunctor request (buffer_ s) = Throws invalid_argument (buffer_ s)).
  { rewrite AllreduceFunctor_nonempty by assumption.
    destruct Hbad as [Hd|[number Ho]].
    - destruct (AllreduceRequest.data_type request); simplify_eq/=. reflexivity.
    - rewrite Ho. destruct (AllreduceRequest.data_type request); reflexivity. }
  split; [exact Hf|]. intros Hp HW Hseq. rewrite serve_unfold.
  apply Z.eqb_neq in HW. apply Z.eqb_eq in Hseq.
  cbn [rpc_sequence_number sequence_number AllreduceRequest_Request].
  unfold contribute. cbn [rpc_functor]. rewrite Hf.
  destruct s. destruct at_; try discriminate; cbn in *; rewrite ?HW, Hseq; reflexivity.
Qed.

(** C5: a request with an unrecognized element type or operation that is
    the first of its round to arrive is not rejected: the functor copies
    its payload into the empty buffer and returns, and [Handle] counts the
    call as arrived; the same request arriving second is rejected with the
    service unchanged. *)
Theorem Allreduce_first_arrival_unchecked :
  AllreduceFunctor untyped_request [] = Normal [x01; x00; x00; x00] /\
  AllreduceFunctor unknown_operation_request [] = Normal [x02; x00; x00; x00] /\
  serve (Allreduce untyped_request) (fresh 2 0) Entered =
    Some ({| world_size_ := 2; sequence_number_ := 0; received_ := 1; sent_ := 0;
             buffer_ := [x01; x00; x00; x00] |}, WaitAll) /\
  serve (Allreduce unknown_operation_request) (fresh 2 0) Entered =
    Some ({| world_size_ := 2; sequence_number_ := 0; received_ := 1; sent_ := 0;
             buffer_ := [x02; x00; x00; x00] |}, WaitAll) /\
  serve (Allreduce untyped_request)
    {| world_size_ := 2; sequence_number_ := 0; received_ := 1; sent_ := 0;
       buffer_ := [x02; x00; x00; x00] |} Entered =
    Some ({| world_size_ := 2; sequence_number_ := 0; received_ := 1; sent_ := 0;
             buffer_ := [x02; x00; x00; x00] |}, Thrown invalid_argument).
Proof. repeat split; reflexivity. Qed.

(** ** Reduce: what lies beyond the last whole element *)

(** X1: for a recognized element type and one of MAX, MIN, SUM, and an
    input that covers the whole elements of the buffer, the typed
    reduction returns normally with a buffer of the same length, combines
    the length / width whole elements, and leaves the bytes after the last
    whole element (there are some when the length is not a multiple of the
    width) as they were. *)
Theorem Accumulate_trailing_bytes data_type reduce_operation T f (buffer input : bytes) :
  element_type data_type = Some T ->
  operation T reduce_operation = Some f ->
  (length buffer / sizeof T * sizeof T <= length input)%nat ->
  exists result,
    Accumulate buffer input data_type reduce_operation = Normal result /\
    length result = length buffer /\
    (forall i, (i < length buffer / sizeof T)%nat ->
       element T result i = f (element T buffer i) (element T input i)) /\
    (forall j, (length buffer / sizeof T * sizeof T <= j)%nat -> result !! j = buffer !! j).
Proof.
  intros HT Hop Hlen.
  destruct (Accumulate_elements _ _ _ _ _ _ HT Hop Hlen) as (result & Hacc & Hl & Hel & Htail).
  exists result. split; [assumption|]. split; [assumption|]. split; [assumption|].
  intros j Hj.
  replace j with (length buffer / sizeof T * sizeof T + (j - length buffer / sizeof T * sizeof T))%nat
    by lia.
  rewrite <- !lookup_drop, Htail. reflexivity.
Qed.

Lemma Accumulate_trailing_bytes_witness :
  exists result,
    Accumulate odd_buffer (store 4 7) INT SUM = Normal result /\
    length result = length odd_buffer /\
    (forall i, (i < length odd_buffer / sizeof T_int)%nat ->
       element T_int result i =
       std_plus T_int (element T_int odd_buffer i) (element T_int (store 4 7) i)) /\
    (forall j, (length odd_buffer / sizeof T_int * sizeof T_int <= j)%nat ->
       result !! j = odd_buffer !! j).
Proof.
  apply (Accumulate_trailing_bytes INT SUM T_int (std_plus T_int) odd_buffer (store 4 7)).
  - reflexivity.
  - reflexivity.
  - simpl. lia.
Defined.

(** ** Reduce: the maximum and the minimum of all ranks in any order *)

Lemma value_inj T a b :
  0 <= a < modulus T -> 0 <= b < modulus T -> value T a = value T b -> a = b.
Proof.
  intros Ha Hb Hv. rewrite <- (Z.mod_small a (modulus T)), <- (Z.mod_small b (modulus T)) by lia.
  rewrite <- (value_mod T a), <- (value_mod T b), Hv. reflexivity.
Qed.

Lemma bounded_by_refl op x : op = MAX \/ op = MIN -> bounded_by op x x.
Proof. intros [-> | ->]; cbn; lia. Qed.

Lemma bounded_by_combine T op x y :
  op = MAX \/ op = MIN ->
  bounded_by op x (combine T op x y) /\ bounded_by op y (combine T op x y) /\
  (combine T op x y = x \/ combine T op x y = y).
Proof. intros [-> | ->]; cbn; lia. Qed.

Lemma bounded_by_trans op x y z :
  bounded_by op x y -> bounded_by op y z -> bounded_by op x z.
Proof. destruct op; cbn; lia. Qed.

Lemma bounded_by_antisym op x y : bounded_by op x y -> bounded_by op y x -> x = y.
Proof. destruct op; cbn; lia. Qed.

Lemma operation_extreme T op :
  op = MAX \/ op = MIN -> exists f, operation T op = Some f.
Proof. intros [-> | ->]; eexists; reflexivity. Qed.

(** Folding further MAX or MIN requests into a buffer that is not empty. *)
Lemma Allreduce_extreme_more data_type op T n :
  element_type data_type = Some T -> is_integer T = true ->
  op = MAX \/ op = MIN ->
  forall (l : list AllreduceRequest.t) (buffer : bytes),
    Forall (reduce_request data_type op T n) l ->
    buffer <> [] -> length buffer = (n * sizeof T)%nat ->
    exists final,
      arrivals AllreduceFunctor l buffer = Some ([], final) /\
      length final = (n * sizeof T)%nat /\
      forall i, (i < n)%nat ->
        bounded_by op (value T (element T buffer i)) (value T (element T final i)) /\
        (forall r, In r l -> bounded_by op (rank_value T r i) (value T (element T final i))) /\
        (value T (element T final i) = value T (element T buffer i) \/
         exists r, In r l /\ value T (element T final i) = rank_value T r i).
Proof.
  intros HT Hint Hop. pose proof (sizeof_pos T) as Hw.
  destruct (operation_extreme T op Hop) as [f Hf].
  induction l as [|r l IH]; intros buffer Hall Hne Hlen.
  - exists buffer. split; [reflexivity|]. split; [assumption|].
    intros i _. split; [apply bounded_by_refl; assumption|]. split; [intros r []|].
    left. reflexivity.
  - apply Forall_cons in Hall as [(Hd & Ho & Hsz) Hall].
    assert (Hdiv : (length buffer / sizeof T = n)%nat)
      by (rewrite Hlen; apply Nat.div_mul; lia).
    destruct (Accumulate_elements data_type op T f buffer (AllreduceRequest.send_buffer r)
                HT Hf) as (result & Hacc & Hl & Hel & _); [lia|].
    destruct (IH result Hall) as (final & Hfin & Hfl & Hfel).
    { intros ->. destruct buffer; simplify_eq/=. }
    { lia. }
    exists final. split; [|split; [assumption|]].
    + cbn [arrivals]. rewrite AllreduceFunctor_nonempty by assumption.
      rewrite Hd, Ho, Hacc. exact Hfin.
    + intros i Hi. destruct (Hfel i Hi) as (Hb & Hrs & Hatt).
      assert (Hv : value T (element T result i) =
                   combine T op (value T (element T buffer i)) (rank_value T r i)).
      { rewrite Hel by lia. apply value_combine; assumption. }
      destruct (bounded_by_combine T op (value T (element T buffer i)) (rank_value T r i) Hop)
        as (B1 & B2 & B3).
      rewrite <- Hv in B1, B2, B3.
      split; [eapply bounded_by_trans; eassumption|]. split.
      * intros r' [<-|Hr']; [eapply bounded_by_trans; eassumption|apply Hrs, Hr'].
      * destruct Hatt as [Hatt|(r' & Hr' & Hatt)].
        -- rewrite Hatt. destruct B3 as [B3|B3]; [left; assumption|].
           right. exists r. split; [left; reflexivity|assumption].
        -- right. exists r'. split; [right; assumption|assumption].
Qed.

Lemma Allreduce_extreme_from_empty data_type op T n (l : list AllreduceRequest.t) :
  element_type data_type = Some T -> is_integer T = true ->
  op = MAX \/ op = MIN ->
  l <> [] ->
  Forall (reduce_request data_type op T n) l ->
  exists final,
    arrivals AllreduceFunctor l [] = Some ([], final) /\
    length final = (n * sizeof T)%nat /\
    forall i, (i < n)%nat ->
      (forall r, In r l -> bounded_by op (rank_value T r i) (value T (element T final i))) /\
      (exists r, In r l /\ value T (element T final i) = rank_value T r i).
Proof.
  intros HT Hint Hop Hne Hall. pose proof (sizeof_pos T) as Hw.
  destruct n as [|n].
  - exists []. split; [|split; [reflexivity|intros; lia]].
    apply Allreduce_empty. eapply Forall_impl; [exact Hall|].
    intros r (_ & _ & Hr). destruct (AllreduceRequest.send_buffer r); simplify_eq/=; done.
  - destruct l as [|r l]; [done|].
    apply Forall_cons in Hall as [(Hd & Ho & Hsz) Hall].
    destruct (Allreduce_extreme_more data_type op T (S n) HT Hint Hop l
                (AllreduceRequest.send_buffer r) Hall)
      as (final & Hfin & Hl & Hel); [|assumption|].
    { intros E. rewrite E in Hsz. simpl in Hsz. lia. }
    exists final. split; [exact Hfin|]. split; [assumption|].
    intros i Hi. destruct (Hel i Hi) as (Hb & Hrs & Hatt). split.
    + intros r' [<-|Hr']; [exact Hb|apply Hrs, Hr'].
    + destruct Hatt as [Hatt|(r' & Hr' & Hatt)].
      * exists r. split; [left; reflexivity|exact Hatt].
      * exists r'. split; [right; assumption|assumption].
Qed.

(** X2: for every non-empty list of Allreduce requests with operation MAX
    (or all with MIN) over one integer element type whose payloads all
    hold [n] elements, and every order of arrival, the calls of the
    functor, starting from the empty buffer, all return normally and leave
    a buffer of [n] elements whose element [i] denotes the largest
    (smallest) of the integers the elements [i] of the payloads denote: no
    payload has one beyond it, and one payload has it; the buffer is the
    same for every order. *)
Theorem Allreduce_extreme_any_order data_type reduce_operation T n
    (requests arrival : list AllreduceRequest.t) :
  element_type data_type = Some T -> is_integer T = true ->
  reduce_operation = MAX \/ reduce_operation = MIN ->
  requests <> [] ->
  Forall (reduce_request data_type reduce_operation T n) requests ->
  Permutation arrival requests ->
  exists final,
    arrivals AllreduceFunctor arrival [] = Some ([], final) /\
    length final = (n * sizeof T)%nat /\
    (forall i, (i < n)%nat ->
       (forall r, In r requests ->
          bounded_by reduce_operation (rank_value T r i) (value T (element T final i))) /\
       (exists r, In r requests /\ value T (element T final i) = rank_value T r i)) /\
    arrivals AllreduceFunctor requests [] = Some ([], final).
Proof.
  intros HT Hint Hop Hne Hall Hperm.
  assert (Hne' : arrival <> []).
  { intros ->. apply Permutation_nil_l in Hperm. congruence. }
  assert (Hall' : Forall (reduce_request data_type reduce_operation T n) arrival)
    by (rewrite Hperm; exact Hall).
  destruct (Allreduce_extreme_from_empty data_type reduce_operation T n arrival HT Hint Hop
              Hne' Hall') as (final & Hfin & Hl & Hel).
  destruct (Allreduce_extreme_from_empty data_type reduce_operation T n requests HT Hint Hop
              Hne Hall) as (final' & Hfin' & Hl' & Hel').
  assert (final' = final) as ->.
  { apply (elements_ext T n); [assumption..|].
    intros i Hi. destruct (Hel i Hi) as (Hb & r & Hr & Hv).
    destruct (Hel' i Hi) as (Hb' & r' & Hr' & Hv').
    apply (value_inj T); [apply element_range..|].
    apply (bounded_by_antisym reduce_operation).
    - rewrite Hv'. apply Hb. apply list_elem_of_In. rewrite Hperm. apply list_elem_of_In, Hr'.
    - rewrite Hv. apply Hb'. apply list_elem_of_In. rewrite <- Hperm. apply list_elem_of_In, Hr. }
  exists final. split; [assumption|]. split; [assumption|]. split; [|assumption].
  exact Hel'.
Qed.

Lemma Allreduce_extreme_any_order_witness :
  exists final,
    arrivals AllreduceFunctor [min_rank1; min_rank0] [] = Some ([], final) /\
    length final = (2 * sizeof T_int)%nat /\
    (forall i, (i < 2)%nat ->
       (forall r, In r [min_rank0; min_rank1] ->
          bounded_by MIN (rank_value T_int r i) (value T_int (element T_int final i))) /\
       (exists r, In r [min_rank0; min_rank1] /\
                  value T_int (element T_int final i) = rank_value T_int r i)) /\
    arrivals AllreduceFunctor [min_rank0; min_rank1] [] = Some ([], final).
Proof.
  apply (Allreduce_extreme_any_order INT MIN T_int 2 [min_rank0; min_rank1]
           [min_rank1; min_rank0]).
  - reflexivity.
  - reflexivity.
  - right. reflexivity.
  - discriminate.
  - repeat constructor.
  - apply perm_swap.
Defined.

(** ** Reduce: a NaN is kept only from the buffer *)

Lemma SFltb_nan_l x y :
  match x with S754_nan => true | _ => false end = true -> SFltb x y = false.
Proof. destruct x; try discriminate. reflexivity. Qed.

Lemma SFltb_nan_r x y :
  match y with S754_nan => true | _ => false end = true -> SFltb x y = false.
Proof. destruct y; try discriminate. destruct x; reflexivity. Qed.

(** Every comparison with a NaN is false. *)
Lemma less_nan T a b :
  is_nan T a = true \/ is_nan T b = true -> less T a b = false /\ less T b a = false.
Proof.
  destruct T; cbn [is_nan less]; try (intros [|]; discriminate).
  - intros [H|H]; split;
      (apply SFltb_nan_l; exact H) || (apply SFltb_nan_r; exact H).
  - intros [H|H]; split;
      (apply SFltb_nan_l; exact H) || (apply SFltb_nan_r; exact H).
Qed.

(** X3: under MAX and MIN, an element of the result is the element of the
    buffer whenever that element or the one of the input is a NaN (every
    comparison with a NaN is false, and [std::max] and [std::min] then
    return their first argument).  So with the two strings exchanged the
    result has the other element: when one of two arrivals sends a NaN,
    the reduction depends on which of them came first. *)
Theorem Accumulate_nan_keeps_buffer data_type reduce_operation T (buffer input : bytes) :
  element_type data_type = Some T ->
  reduce_operation = MAX \/ reduce_operation = MIN ->
  length buffer = length input ->
  exists result swapped,
    Accumulate buffer input data_type reduce_operation = Normal result /\
    Accumulate input buffer data_type reduce_operation = Normal swapped /\
    forall i, (i < length buffer / sizeof T)%nat ->
      is_nan T (element T buffer i) = true \/ is_nan T (element T input i) = true ->
      element T result i = element T buffer i /\
      element T swapped i = element T input i.
Proof.
  intros HT Hop Hlen.
  assert (Hf : exists f, operation T reduce_operation = Some f /\
                 forall a b, is_nan T a = true \/ is_nan T b = true -> f a b = a).
  { destruct Hop as [-> | ->]; eexists; (split; [reflexivity|]); intros a b Hn.
    - unfold std_max. destruct (less_nan T a b Hn) as [-> _]. reflexivity.
    - unfold std_min. destruct (less_nan T a b Hn) as [_ ->]. reflexivity. }
  destruct Hf as (f & Hf & Hnan).
  pose proof (Nat.Div0.mul_div_le (length buffer) (sizeof T)) as Hle.
  destruct (Accumulate_elements data_type reduce_operation T f buffer input HT Hf)
    as (result & Hacc & _ & Hel & _); [lia|].
  destruct (Accumulate_elements data_type reduce_operation T f input buffer HT Hf)
    as (swapped & Hacc' & _ & Hel' & _); [rewrite <- Hlen; lia|].
  exists result, swapped. split; [assumption|]. split; [assumption|].
  intros i Hi Hn. rewrite Hel by assumption. rewrite Hel' by (rewrite <- Hlen; assumption).
  split; apply Hnan; tauto.
Qed.

Lemma Accumulate_nan_keeps_buffer_witness :
  exists result swapped,
    Accumulate nan_first one_second FLOAT MAX = Normal result /\
    Accumulate one_second nan_first FLOAT MAX = Normal swapped /\
    forall i, (i < length nan_first / sizeof T_float)%nat ->
      is_nan T_float (element T_float nan_first i) = true \/
      is_nan T_float (element T_float one_second i) = true ->
      element T_float result i = element T_float nan_first i /\
      element T_float swapped i = element T_float one_second i.
Proof.
  apply (Accumulate_nan_keeps_buffer FLOAT MAX T_float nan_first one_second).
  - reflexivity.
  - left. reflexivity.
  - reflexivity.
Defined.

(** ** Gather: ranks beyond the world *)

Lemma size_gather_base W request buffer :
  0 <= W ->
  size (gather_base W request buffer) = size (AllgatherRequest.send_buffer request) * W.
Proof.
  intros HW. pose proof (length_gather_base W request buffer HW) as Hlen.
  unfold size. rewrite Hlen. nia.
Qed.

Lemma AllgatherFunctor_base W request buffer :
  0 <= W ->
  size (AllgatherRequest.send_buffer request) * W < 2 ^ 64 ->
  AllgatherFunctor W request buffer =
  match replace (gather_base W request buffer)
          (size_t_wrap (AllgatherRequest.rank request *
                        size (AllgatherRequest.send_buffer request)))
          (size (AllgatherRequest.send_buffer request))
          (AllgatherRequest.send_buffer request) with
  | Some spliced => Normal spliced
  | None => Throws out_of_range (gather_base W request buffer)
  end.
Proof.
  intros HW Hfit. unfold AllgatherFunctor, gather_base.
  assert (Hs : 0 <= size (AllgatherRequest.send_buffer request)) by (unfold size; lia).
  assert (Htot : size_t_wrap (size (AllgatherRequest.send_buffer request) * W) =
                 size (AllgatherRequest.send_buffer request) * W)
    by (apply Z.mod_small; nia).
  rewrite Htot.
  destruct (size buffer =? size (AllgatherRequest.send_buffer request) * W); reflexivity.
Qed.

(** X4: a Gather request whose rank is the world size is not rejected:
    [replace] at the very end of the buffer is an insertion, so the functor
    returns normally with the payload appended to the (resized) buffer,
    which then has one slot more than the world has ranks; [Handle] counts
    the call as arrived. *)
Theorem Allgather_rank_world_size_appends W (request : AllgatherRequest.t) (buffer : bytes) :
  0 <= W ->
  AllgatherRequest.rank request = W ->
  size (AllgatherRequest.send_buffer request) * W < 2 ^ 64 ->
  AllgatherFunctor W request buffer =
    Normal (gather_base W request buffer ++ AllgatherRequest.send_buffer request) /\
  size (gather_base W request buffer ++ AllgatherRequest.send_buffer request) =
    size (AllgatherRequest.send_buffer request) * (W + 1) /\
  forall s at_,
    world_size_ s = W -> buffer_ s = buffer ->
    parked at_ = true -> W <> 1 ->
    sequence_number_ s = AllgatherRequest.sequence_number request ->
    exists s' at',
      serve (Allgather request) s at_ = Some (s', at') /\
      received_ s' = received_ s + 1 /\
      buffer_ s' = gather_base W request buffer ++ AllgatherRequest.send_buffer request.
Proof.
  intros HW Hrank Hfit.
  set (payload := AllgatherRequest.send_buffer request) in *.
  assert (Hs : 0 <= size payload) by (unfold size; lia).
  pose proof (size_gather_base W request buffer HW) as Hsz. fold payload in Hsz.
  assert (Hf : AllgatherFunctor W request buffer =
               Normal (gather_base W request buffer ++ payload)).
  { rewrite AllgatherFunctor_base by assumption. fold payload. rewrite Hrank.
    assert (Hpos : size_t_wrap (W * size payload) = size payload * W)
      by (unfold size_t_wrap; rewrite Z.mod_small; nia).
    rewrite Hpos. unfold replace. rewrite Hsz, Z.ltb_irrefl, Z.sub_diag.
    rewrite Z.min_r by lia. rewrite Z.add_0_r, <- Hsz. unfold size.
    rewrite Nat2Z.id, firstn_all, skipn_all, app_nil_r. reflexivity. }
  split; [exact Hf|]. split.
  - unfold size in *. rewrite length_app. lia.
  - intros s at_ Hw Hb Hp HW1 Hseq. rewrite serve_let_in by (rewrite ?Hw; done).
    unfold contribute. cbn [rpc_functor]. rewrite Hw, Hb, Hf.
    destruct (received_ s + 1 =? W); eexists _, _; done.
Qed.

Lemma Allgather_rank_world_size_appends_witness :
  AllgatherFunctor 3 gather_rank3 [] = Normal (gather_base 3 gather_rank3 [] ++ [x7a; x7b]) /\
  size (gather_base 3 gather_rank3 [] ++ [x7a; x7b]) = 2 * (3 + 1) /\
  forall s at_,
    world_size_ s = 3 -> buffer_ s = [] ->
    parked at_ = true -> 3 <> 1 ->
    sequence_number_ s = AllgatherRequest.sequence_number gather_rank3 ->
    exists s' at',
      serve (Allgather gather_rank3) s at_ = Some (s', at') /\
      received_ s' = received_ s + 1 /\
      buffer_ s' = gather_base 3 gather_rank3 [] ++ [x7a; x7b].
Proof.
  apply (Allgather_rank_world_size_appends 3 gather_rank3 []).
  - lia.
  - reflexivity.
  - reflexivity.
Defined.

(** X5: a Gather request with a payload that is not empty whose rank is
    above the world size, or negative, throws [std::out_of_range], and it
    does so after the resize: the buffer is left with the size of all
    payloads of the request's size (all zero if it was empty), the call
    leaves [Handle] by the exception, and the counts are as they were. *)
Theorem Allgather_rank_out_of_range W (request : AllgatherRequest.t) (buffer : bytes) :
  0 <= W ->
  size (AllgatherRequest.send_buffer request) * W < 2 ^ 64 ->
  (W < AllgatherRequest.rank request /\
   AllgatherRequest.rank request * size (AllgatherRequest.send_buffer request) < 2 ^ 64) \/
  (AllgatherRequest.rank request < 0 /\
   size (AllgatherRequest.send_buffer request) * (W - AllgatherRequest.rank request) < 2 ^ 64) ->
  AllgatherRequest.send_buffer request <> [] ->
  AllgatherFunctor W request buffer = Throws out_of_range (gather_base W request buffer) /\
  size (gather_base W request buffer) = size (AllgatherRequest.send_buffer request) * W /\
  (forall (i : nat) (b : byte), gather_base W request [] !! i = Some b -> b = x00) /\
  forall s at_,
    world_size_ s = W -> buffer_ s = buffer ->
    parked at_ = true -> W <> 1 ->
    sequence_number_ s = AllgatherRequest.sequence_number request ->
    serve (Allgather request) s at_ =
    Some ({| world_size_ := W; sequence_number_ := sequence_number_ s;
             received_ := received_ s; sent_ := sent_ s;
             buffer_ := gather_base W request buffer |}, Thrown out_of_range).
Proof.
  intros HW Hfit Hrank Hne.
  set (payload := AllgatherRequest.send_buffer request) in *.
  set (rank := AllgatherRequest.rank request) in *.
  assert (Hs : 0 < size payload).
  { unfold size. destruct payload; [done|]. cbn [length]. lia. }
  pose proof (size_gather_base W request buffer HW) as Hsz. fold payload in Hsz.
  assert (Hf : AllgatherFunctor W request buffer =
               Throws out_of_range (gather_base W request buffer)).
  { rewrite AllgatherFunctor_base by assumption. fold payload rank.
    unfold replace. rewrite Hsz.
    assert (Hpos : size payload * W < size_t_wrap (rank * size payload)).
    { unfold size_t_wrap. destruct Hrank as [[Hr Hlt]|[Hr Hlt]].
      - rewrite Z.mod_small by nia. nia.
      - replace (rank * size payload) with (rank * size payload + 2 ^ 64 + (-1) * 2 ^ 64) by lia.
        rewrite Z.mod_add by lia. rewrite Z.mod_small by nia. nia. }
    apply Z.ltb_lt in Hpos. rewrite Hpos. reflexivity. }
  split; [exact Hf|]. split; [exact Hsz|]. split.
  - intros i b. unfold gather_base. destruct (_ =? _); [done|]. apply resize_empty_zero.
  - intros s at_ Hw Hb Hp HW1 Hseq. rewrite serve_let_in by (rewrite ?Hw; done).
    unfold contribute. cbn [rpc_functor]. rewrite Hw, Hb, Hf. reflexivity.
Qed.

Lemma Allgather_rank_out_of_range_witness :
  AllgatherFunctor 3 gather_rank5 [x01] = Throws out_of_range (gather_base 3 gather_rank5 [x01]) /\
  size (gather_base 3 gather_rank5 [x01]) = size (AllgatherRequest.send_buffer gather_rank5) * 3 /\
  (forall (i : nat) (b : byte), gather_base 3 gather_rank5 [] !! i = Some b -> b = x00) /\
  forall s at_,
    world_size_ s = 3 -> buffer_ s = [x01] ->
    parked at_ = true -> 3 <> 1 ->
    sequence_number_ s = AllgatherRequest.sequence_number gather_rank5 ->
    serve (Allgather gather_rank5) s at_ =
    Some ({| world_size_ := 3; sequence_number_ := sequence_number_ s;
             received_ := received_ s; sent_ := sent_ s;
             buffer_ := gather_base 3 gather_rank5 [x01] |}, Thrown out_of_range).
Proof.
  apply (Allgather_rank_out_of_range 3 gather_rank5 [x01]).
  - lia.
  - reflexivity.
  - left. split; [simpl; lia|reflexivity].
  - discriminate.
Defined.

(** ** Gather: the last arrival of a rank has the slot *)

Lemma lookup_slot s k (buffer : bytes) j :
  (j < s)%nat -> slot s k buffer !! j = buffer !! (k * s + j)%nat.
Proof. intros Hj. unfold slot. rewrite lookup_take_lt, lookup_drop by assumption. reflexivity. Qed.

Lemma slot_ext s k (a b : bytes) :
  (forall j, (j < s)%nat -> a !! (k * s + j)%nat = b !! (k * s + j)%nat) ->
  slot s k a = slot s k b.
Proof.
  intros H. apply list_eq. intros j. destruct (Nat.lt_ge_cases j s) as [Hj|Hj].
  - rewrite !lookup_slot by assumption. apply H, Hj.
  - unfold slot. rewrite !lookup_take_ge by assumption. reflexivity.
Qed.

(** What one more request of the round does to the slots. *)
Lemma Allgather_slot_update W s r (buffer : bytes) :
  gather_request W s r -> Z.of_nat (W * s) < 2 ^ 64 ->
  length buffer = (W * s)%nat ->
  exists result,
    AllgatherFunctor (Z.of_nat W) r buffer = Normal result /\
    length result = (W * s)%nat /\
    forall k, (k < W)%nat ->
      slot s k result =
      if AllgatherRequest.rank r =? Z.of_nat k then AllgatherRequest.send_buffer r
      else slot s k buffer.
Proof.
  intros Hr Hfit Hlen.
  destruct (Allgather_first W s r buffer Hr Hfit) as (result & Hres & Hl & Hin & Hout).
  destruct Hr as [Hrank Hs].
  exists result. split; [assumption|]. split; [assumption|].
  intros k Hk. destruct (Z.eqb_spec (AllgatherRequest.rank r) (Z.of_nat k)) as [E|E].
  - apply list_eq. intros j. destruct (Nat.lt_ge_cases j s) as [Hj|Hj].
    + rewrite lookup_slot by assumption. rewrite <- (Hin j Hj). f_equal.
      unfold slot_start. rewrite E, Nat2Z.id. reflexivity.
    + unfold slot. rewrite lookup_take_ge by assumption. symmetry.
      apply lookup_ge_None_2. lia.
  - apply slot_ext. intros j Hj. apply (Hout Hlen). unfold slot_start.
    assert (Hne : Z.to_nat (AllgatherRequest.rank r) <> k) by lia.
    apply Nat.lt_gt_cases in Hne as [|]; nia.
Qed.

(** The first request of a round, on the empty buffer. *)
Lemma Allgather_slot_first W s r :
  gather_request W s r -> Z.of_nat (W * s) < 2 ^ 64 ->
  exists result,
    AllgatherFunctor (Z.of_nat W) r [] = Normal result /\
    length result = (W * s)%nat /\
    forall k, (k < W)%nat ->
      slot s k result =
      if AllgatherRequest.rank r =? Z.of_nat k then AllgatherRequest.send_buffer r
      else replicate s x00.
Proof.
  intros Hr Hfit.
  destruct (Allgather_first W s r [] Hr Hfit) as (result & Hres & Hl & Hin & _).
  pose proof Hr as [Hrank Hs].
  assert (Hfit' : size (AllgatherRequest.send_buffer r) * Z.of_nat W < 2 ^ 64)
    by (unfold size; rewrite Hs; lia).
  destruct (gather_slot (Z.of_nat W) r Hrank) as [_ Hle].
  pose proof (length_gather_base (Z.of_nat W) r [] ltac:(lia)) as Hlen.
  rewrite Nat2Z.id, Hs in *.
  exists result. split; [assumption|]. split; [assumption|].
  intros k Hk. destruct (Z.eqb_spec (AllgatherRequest.rank r) (Z.of_nat k)) as [E|E].
  - apply list_eq. intros j. destruct (Nat.lt_ge_cases j s) as [Hj|Hj].
    + rewrite lookup_slot by assumption. rewrite <- (Hin j Hj). f_equal.
      unfold slot_start. rewrite E, Nat2Z.id. reflexivity.
    + unfold slot. rewrite lookup_take_ge by assumption. symmetry.
      apply lookup_ge_None_2. lia.
  - apply list_eq. intros j. destruct (Nat.lt_ge_cases j s) as [Hj|Hj].
    + rewrite lookup_slot by assumption.
      rewrite (lookup_replicate_2 _ _ _ Hj).
      assert (Hlt : (k * s + j < length result)%nat) by (rewrite Hl; nia).
      apply lookup_lt_is_Some_2 in Hlt as [b Hb]. rewrite Hb. f_equal.
      rewrite AllgatherFunctor_in_range in Hres by assumption. injection Hres as <-.
      rewrite Hs in Hb. rewrite splice_outside in Hb.
      * unfold gather_base in Hb. destruct (_ =? _); [done|].
        apply resize_empty_zero in Hb. exact Hb.
      * lia.
      * assert (Hne : Z.to_nat (AllgatherRequest.rank r) <> k) by lia.
        apply Nat.lt_gt_cases in Hne as [|]; nia.
    + unfold slot. rewrite lookup_take_ge by assumption. symmetry.
      apply lookup_ge_None_2. rewrite length_replicate. lia.
Qed.

Lemma Allgather_slots_more W s :
  Z.of_nat (W * s) < 2 ^ 64 ->
  forall (l : list AllgatherRequest.t) (buffer : bytes),
    Forall (gather_request W s) l ->
    length buffer = (W * s)%nat ->
    exists final,
      arrivals (AllgatherFunctor (Z.of_nat W)) l buffer = Some ([], final) /\
      length final = (W * s)%nat /\
      forall k, (k < W)%nat ->
        slot s k final =
        match last_of_rank (Z.of_nat k) l with
        | Some r => AllgatherRequest.send_buffer r
        | None => slot s k buffer
        end.
Proof.
  intros Hfit. induction l as [|r l IH]; intros buffer Hall Hlen.
  - exists buffer. split; [reflexivity|]. split; [assumption|]. reflexivity.
  - apply Forall_cons in Hall as [Hr Hall].
    destruct (Allgather_slot_update W s r buffer Hr Hfit Hlen) as (b1 & Hb1 & Hl1 & Hs1).
    destruct (IH b1 Hall Hl1) as (final & Hfin & Hlf & Hsf).
    exists final. split; [cbn [arrivals]; rewrite Hb1; exact Hfin|].
    split; [assumption|].
    intros k Hk. rewrite (Hsf k Hk). cbn [last_of_rank].
    destruct (last_of_rank (Z.of_nat k) l); [reflexivity|].
    rewrite (Hs1 k Hk). destruct (_ =? _); reflexivity.
Qed.

Lemma Allgather_slots_from_empty (W s : nat) (arrival : list AllgatherRequest.t) :
  arrival <> [] ->
  Forall (gather_request W s) arrival ->
  Z.of_nat (W * s) < 2 ^ 64 ->
  exists final,
    arrivals (AllgatherFunctor (Z.of_nat W)) arrival [] = Some ([], final) /\
    length final = (W * s)%nat /\
    forall k, (k < W)%nat ->
      slot s k final =
      match last_of_rank (Z.of_nat k) arrival with
      | Some r => AllgatherRequest.send_buffer r
      | None => replicate s x00
      end.
Proof.
  intros Hne Hall Hfit. destruct arrival as [|r l]; [done|].
  apply Forall_cons in Hall as [Hr Hall].
  destruct (Allgather_slot_first W s r Hr Hfit) as (b1 & Hb1 & Hl1 & Hs1).
  destruct (Allgather_slots_more W s Hfit l b1 Hall Hl1) as (final & Hfin & Hlf & Hsf).
  exists final. split; [cbn [arrivals]; rewrite Hb1; exact Hfin|].
  split; [assumption|].
  intros k Hk. rewrite (Hsf k Hk). cbn [last_of_rank].
  destruct (last_of_rank (Z.of_nat k) l); [reflexivity|].
  rewrite (Hs1 k Hk). destruct (_ =? _); reflexivity.
Qed.

(** X6: for any arrivals of Gather requests with ranks below the world
    size and payloads of [s] bytes (a rank may arrive twice, or not at
    all), the calls of the functor, starting from the empty buffer, all
    return normally and leave a buffer of [W * s] bytes in which the slot
    of a rank holds the payload of the last arrival of that rank, and
    zeros when the rank has not arrived. *)
Theorem Allgather_last_arrival_of_rank (W s : nat) (arrival : list AllgatherRequest.t) :
  arrival <> [] ->
  Forall (gather_request W s) arrival ->
  Z.of_nat (W * s) < 2 ^ 64 ->
  exists final,
    arrivals (AllgatherFunctor (Z.of_nat W)) arrival [] = Some ([], final) /\
    length final = (W * s)%nat /\
    forall k, (k < W)%nat ->
      slot s k final =
      match last_of_rank (Z.of_nat k) arrival with
      | Some r => AllgatherRequest.send_buffer r
      | None => replicate s x00
      end.
Proof. apply Allgather_slots_from_empty. Qed.

Lemma Allgather_last_arrival_of_rank_witness :
  exists final,
    arrivals (AllgatherFunctor (Z.of_nat 3)) [gather_rank1; gather_rank0; gather_rank1_again] []
    = Some ([], final) /\
    length final = (3 * 2)%nat /\
    forall k, (k < 3)%nat ->
      slot 2 k final =
      match last_of_rank (Z.of_nat k) [gather_rank1; gather_rank0; gather_rank1_again] with
      | Some r => AllgatherRequest.send_buffer r
      | None => replicate 2 x00
      end.
Proof.
  apply (Allgather_last_arrival_of_rank 3 2 [gather_rank1; gather_rank0; gather_rank1_again]).
  - discriminate.
  - repeat (constructor; [split; [simpl; lia|reflexivity]|]). constructor.
  - simpl. lia.
Defined.

(** ** The barrier on any pool of calls *)

Lemma replied_arrived at_ : replied at_ = true -> arrived at_ = true.
Proof. destruct at_; done. Qed.

Lemma parked_not_arrived at_ : parked at_ = true -> arrived at_ = false.
Proof. destruct at_; done. Qed.

Lemma tally_arrived_insert (cs : list (rpc * position)) i call at_ at' n :
  cs !! i = Some (call, at_) ->
  (arrived at_ = true -> arrived at' = true) ->
  tally (arrived_in n) cs <= tally (arrived_in n) (<[i := (call, at')]> cs).
Proof.
  intros Hi Hmono. rewrite (tally_insert _ _ _ _ _ Hi). unfold arrived_in. cbn [fst snd].
  destruct (in_round n call); cbn [andb]; [|lia].
  destruct (arrived at_); [rewrite Hmono by reflexivity|destruct (arrived at')]; lia.
Qed.

Lemma effect_arrived_monotone call s at_ s' at' :
  effect call s at_ s' at' -> arrived at_ = true -> arrived at' = true.
Proof. destruct 1; try done; destruct at_; done. Qed.

Section Rounds.
Variables (W N : Z) (requests : list rpc).
Hypothesis HW : 2 <= W.

Lemma quorum_invariant_effect i call at_ s cs s' at' :
  quorum_invariant W N requests {| service := s; calls := cs |} ->
  cs !! i = Some (call, at_) ->
  effect call s at_ s' at' ->
  quorum_invariant W N requests {| service := s'; calls := <[i := (call, at')]> cs |}.
Proof.
  intros [Hw Hstart Hcalls Hrec Hsent Hq Hlt Harr Hwait Hrep Hpast] Hi He.
  cbn [service calls] in *.
  assert (Hin : In (call, at_) cs) by (apply list_elem_of_In, list_elem_of_lookup; eauto).
  assert (Hcalls' : map fst (<[i := (call, at')]> cs) = requests)
    by (rewrite (insert_same_call _ _ _ at_); assumption).
  assert (Htally : forall T, tally T (<[i := (call, at')]> cs) =
            tally T cs - (if T (call, at_) then 1 else 0) + (if T (call, at') then 1 else 0))
    by (intros; apply tally_insert; assumption).
  assert (Hmem : forall c, In c (<[i := (call, at')]> cs) -> c = (call, at') \/ In c cs)
    by (intros c; apply In_insert).
  assert (Hmono : forall n, tally (arrived_in n) cs <=
                            tally (arrived_in n) (<[i := (call, at')]> cs)).
  { intros n. apply (tally_arrived_insert cs i call at_ at' n Hi).
    apply (effect_arrived_monotone _ _ _ _ _ He). }
  assert (Hrep' : forall c, In c cs -> replied c.2 = true ->
                    W <= tally (arrived_in (rpc_sequence_number c.1)) (<[i := (call, at')]> cs)).
  { intros c Hc Hr. specialize (Hrep c Hc Hr). specialize (Hmono (rpc_sequence_number c.1)).
    lia. }
  assert (Hpast' : forall n, N <= n < sequence_number_ s ->
                      W <= tally (arrived_in n) (<[i := (call, at')]> cs)).
  { intros n Hn. specialize (Hpast n Hn). specialize (Hmono n). lia. }
  destruct He as [H1|at_ Hp Hne|at_ e buffer Hp Heq Hf|at_ buffer Hp Heq Hf Hr
                 |at_ buffer Hp Heq Hf Hr|Hr Hs|Hr Hs|Hr|at_ Hp Ht].
  - lia.
  - (* parked again *)
    pose proof (parked_not_arrived _ Hp) as Hna.
    split; cbn [service calls world_size_ sequence_number_ received_ sent_ buffer_];
      try assumption.
    + rewrite Htally, Hrec. unfold arrived_in. cbn [fst snd arrived]. rewrite Hna.
      rewrite !andb_false_r. lia.
    + rewrite Htally, Hsent. unfold replied_in. cbn [fst snd replied].
      destruct at_; try discriminate; rewrite !andb_false_r; lia.
    + intros c [->|Hc]%Hmem; [discriminate|apply Harr, Hc].
    + intros c [->|Hc]%Hmem; [discriminate|apply Hwait, Hc].
    + intros c [->|Hc]%Hmem; [discriminate|apply Hrep', Hc].
  - (* the functor throws *)
    pose proof (parked_not_arrived _ Hp) as Hna.
    split; cbn [service calls world_size_ sequence_number_ received_ sent_ buffer_];
      try assumption.
    + rewrite Htally, Hrec. unfold arrived_in. cbn [fst snd arrived]. rewrite Hna.
      rewrite !andb_false_r. lia.
    + rewrite Htally, Hsent. unfold replied_in. cbn [fst snd replied].
      destruct at_; try discriminate; rewrite !andb_false_r; lia.
    + intros c [->|Hc]%Hmem; [discriminate|apply Harr, Hc].
    + intros c [->|Hc]%Hmem; [discriminate|apply Hwait, Hc].
    + intros c [->|Hc]%Hmem; [discriminate|apply Hrep', Hc].
  - (* the last arrival *)
    pose proof (parked_not_arrived _ Hp) as Hna.
    assert (Hround : in_round (sequence_number_ s) call = true)
      by (unfold in_round; rewrite Heq; apply Z.eqb_refl).
    assert (HA : tally (arrived_in (sequence_number_ s)) (<[i := (call, Replied buffer)]> cs)
                 = received_ s + 1).
    { rewrite Htally, Hrec. unfold arrived_in. cbn [fst snd arrived]. rewrite Hround, Hna.
      cbn. lia. }
    split; cbn [service calls world_size_ sequence_number_ received_ sent_ buffer_];
      try assumption.
    + symmetry. exact HA.
    + rewrite Htally, Hsent. unfold replied_in. cbn [fst snd replied]. rewrite Hround.
      destruct at_; try discriminate; cbn; lia.
    + right. lia.
    + lia.
    + intros c [->|Hc]%Hmem; [cbn; lia|apply Harr, Hc].
    + intros c [->|Hc]%Hmem; [discriminate|apply Hwait, Hc].
    + intros c [->|Hc]%Hmem; [|apply Hrep', Hc]. intros _. cbn [fst].
      rewrite <- Heq, HA. lia.
  - (* an arrival before the quorum *)
    pose proof (parked_not_arrived _ Hp) as Hna.
    assert (Hround : in_round (sequence_number_ s) call = true)
      by (unfold in_round; rewrite Heq; apply Z.eqb_refl).
    split; cbn [service calls world_size_ sequence_number_ received_ sent_ buffer_];
      try assumption.
    + rewrite Htally, Hrec. unfold arrived_in. cbn [fst snd arrived]. rewrite Hround, Hna.
      cbn. lia.
    + rewrite Htally, Hsent. unfold replied_in. cbn [fst snd replied]. rewrite Hround.
      destruct at_; try discriminate; cbn; lia.
    + lia.
    + intros c [->|Hc]%Hmem; [cbn; lia|apply Harr, Hc].
    + intros c [->|Hc]%Hmem; [cbn; lia|apply Hwait, Hc].
    + intros c [->|Hc]%Hmem; [discriminate|apply Hrep', Hc].
  - (* the last departure: the reset *)
    pose proof (Hwait _ Hin eq_refl) as Heq. cbn [fst] in Heq.
    assert (Hround : in_round (sequence_number_ s) call = true)
      by (unfold in_round; rewrite Heq; apply Z.eqb_refl).
    assert (HA : tally (arrived_in (sequence_number_ s)) (<[i := (call, Replied (buffer_ s))]> cs)
                 = W).
    { rewrite Htally, <- Hrec. unfold arrived_in. cbn [fst snd arrived]. rewrite Hround.
      cbn. lia. }
    assert (HD : tally (replied_in (sequence_number_ s)) (<[i := (call, Replied (buffer_ s))]> cs)
                 = W).
    { rewrite Htally, <- Hsent. unfold replied_in. cbn [fst snd replied]. rewrite Hround.
      cbn. lia. }
    assert (Hall : forall c, In c (<[i := (call, Replied (buffer_ s))]> cs) ->
                     arrived_in (sequence_number_ s) c = true ->
                     replied_in (sequence_number_ s) c = true).
    { apply tally_eq_all; [|lia]. intros c _. unfold replied_in, arrived_in.
      intros [H1 H2]%andb_true_iff. rewrite H1. apply replied_arrived, H2. }
    assert (Hnext : forall c, In c (<[i := (call, Replied (buffer_ s))]> cs) ->
                      arrived c.2 = true -> in_round (sequence_number_ s + 1) c.1 = false).
    { intros c [->|Hc]%Hmem Ha; unfold in_round; apply Z.eqb_neq; cbn [fst]; [lia|].
      specialize (Harr c Hc Ha). lia. }
    split; cbn [service calls world_size_ sequence_number_ received_ sent_ buffer_ fresh];
      try assumption.
    + lia.
    + symmetry. apply tally_zero. intros c Hc. unfold arrived_in.
      destruct (arrived c.2) eqn:Ha; [|apply andb_false_r].
      rewrite (Hnext c Hc Ha). reflexivity.
    + symmetry. apply tally_zero. intros c Hc. unfold replied_in.
      destruct (replied c.2) eqn:Ha; [|apply andb_false_r].
      rewrite (Hnext c Hc (replied_arrived _ Ha)). reflexivity.
    + left. reflexivity.
    + lia.
    + intros c [->|Hc]%Hmem Ha; [cbn; lia|]. specialize (Harr c Hc Ha). lia.
    + intros c Hc' Hc2. exfalso.
      assert (Hc : In c cs) by (destruct (Hmem c Hc') as [->|]; [discriminate|assumption]).
      pose proof (Hwait c Hc Hc2) as Hs2.
      assert (Ha : arrived_in (sequence_number_ s) c = true).
      { unfold arrived_in, in_round. rewrite Hs2, Z.eqb_refl, Hc2. reflexivity. }
      apply (Hall c Hc') in Ha. unfold replied_in in Ha. rewrite Hc2, andb_false_r in Ha.
      discriminate.
    + intros c [->|Hc]%Hmem; [|apply Hrep', Hc]. intros _. cbn [fst].
      rewrite Heq, HA. lia.
    + intros n Hn. destruct (decide (n = sequence_number_ s)) as [->|Hne].
      * rewrite HA. lia.
      * apply Hpast'. lia.
  - (* a departure before the last *)
    pose proof (Hwait _ Hin eq_refl) as Heq. cbn [fst] in Heq.
    assert (Hround : in_round (sequence_number_ s) call = true)
      by (unfold in_round; rewrite Heq; apply Z.eqb_refl).
    assert (HA : tally (arrived_in (sequence_number_ s)) (<[i := (call, Replied (buffer_ s))]> cs)
                 = W).
    { rewrite Htally, <- Hrec. unfold arrived_in. cbn [fst snd arrived]. rewrite Hround.
      cbn. lia. }
    split; cbn [service calls world_size_ sequence_number_ received_ sent_ buffer_];
      try assumption.
    + rewrite HA. lia.
    + rewrite Htally, Hsent. unfold replied_in. cbn [fst snd replied]. rewrite Hround.
      cbn. lia.
    + right. lia.
    + lia.
    + intros c [->|Hc]%Hmem; [cbn; lia|apply Harr, Hc].
    + intros c [->|Hc]%Hmem; [discriminate|apply Hwait, Hc].
    + intros c [->|Hc]%Hmem; [|apply Hrep', Hc]. intros _. cbn [fst].
      rewrite Heq, HA. lia.
  - (* still waiting for the quorum *)
    rewrite list_insert_id by assumption. by split.
  - (* nothing left to do *)
    rewrite list_insert_id by assumption. by split.
Qed.

Lemma quorum_invariant_step i srv srv' :
  quorum_invariant W N requests srv -> step i srv = Some srv' ->
  quorum_invariant W N requests srv'.
Proof.
  intros HI Hstep.
  apply step_inv in Hstep as [[_ ->]|(call & at_ & s & at' & Hi & Hs & ->)]; [assumption|].
  destruct srv as [s0 cs]. cbn [service calls] in *.
  apply (quorum_invariant_effect i call at_ s0 cs s at'); [assumption..|].
  apply serve_effect, Hs.
Qed.

Lemma quorum_invariant_start : quorum_invariant W N requests (start W N requests).
Proof.
  assert (Hall : forall c, In c (map (fun call => (call, Entered)) requests) -> c.2 = Entered).
  { intros c Hc. apply in_map_iff in Hc as (call & <- & _). reflexivity. }
  split; cbn [start service calls fresh world_size_ sequence_number_ received_ sent_ buffer_].
  - reflexivity.
  - lia.
  - rewrite map_map. apply map_id.
  - symmetry. apply tally_zero. intros c Hc. apply Hall in Hc.
    unfold arrived_in. rewrite Hc. apply andb_false_r.
  - symmetry. apply tally_zero. intros c Hc. apply Hall in Hc.
    unfold replied_in. rewrite Hc. apply andb_false_r.
  - left. reflexivity.
  - lia.
  - intros c Hc Ha. apply Hall in Hc. rewrite Hc in Ha. discriminate.
  - intros c Hc Ha. apply Hall in Hc. rewrite Hc in Ha. discriminate.
  - intros c Hc Ha. apply Hall in Hc. rewrite Hc in Ha. discriminate.
  - intros n Hn. lia.
Qed.

Lemma quorum_invariant_run schedule srv :
  run schedule (start W N requests) = Some srv -> quorum_invariant W N requests srv.
Proof.
  apply (run_invariant (quorum_invariant W N requests)).
  - intros i srv0 srv1. apply quorum_invariant_step.
  - apply quorum_invariant_start.
Qed.

End Rounds.

Example crowd_overfull_reached : run [0; 1; 2]%nat (start 2 0 crowd) = Some crowd_overfull.
Proof. reflexivity. Qed.

Lemma In_lookup {A : Type} (l : list A) i x : l !! i = Some x -> In x l.
Proof. intros H. apply list_elem_of_In, list_elem_of_lookup. eauto. Qed.

Lemma arrived_le_requests (cs : list (rpc * position)) n :
  tally (arrived_in n) cs <= tally (in_round n) (map fst cs).
Proof.
  rewrite tally_fst. apply tally_le. intros c _. unfold arrived_in.
  intros [H _]%andb_true_iff. exact H.
Qed.

(** X7: with a world size of at least 2, in every state the server reaches
    from its start, whatever the calls: [received_] is the number of calls
    of the round in progress that wait for the quorum or have their reply,
    [sent_] is the number of them that have their reply, a call waits for
    the quorum only in its own round, and a call that has arrived belongs
    to a round from the first to the one in progress. *)
Theorem counters_count_the_round W N (requests : list rpc) schedule srv :
  2 <= W ->
  run schedule (start W N requests) = Some srv ->
  received_ (service srv) = tally (arrived_in (sequence_number_ (service srv))) (calls srv) /\
  sent_ (service srv) = tally (replied_in (sequence_number_ (service srv))) (calls srv) /\
  (forall i call, calls srv !! i = Some (call, WaitAll) ->
     rpc_sequence_number call = sequence_number_ (service srv)) /\
  (forall i call at_, calls srv !! i = Some (call, at_) -> arrived at_ = true ->
     N <= rpc_sequence_number call <= sequence_number_ (service srv)).
Proof.
  intros HW Hrun. pose proof (quorum_invariant_run W N requests HW schedule srv Hrun) as HI.
  split; [apply (qi_received _ _ _ _ HI)|]. split; [apply (qi_sent _ _ _ _ HI)|]. split.
  - intros i call Hi. apply (qi_waiting _ _ _ _ HI (call, WaitAll)); [|reflexivity].
    eapply In_lookup, Hi.
  - intros i call at_ Hi Ha. apply (qi_arrived _ _ _ _ HI (call, at_)); [|exact Ha].
    eapply In_lookup, Hi.
Qed.

Lemma counters_count_the_round_witness :
  received_ (service pair_draining) =
    tally (arrived_in (sequence_number_ (service pair_draining))) (calls pair_draining) /\
  sent_ (service pair_draining) =
    tally (replied_in (sequence_number_ (service pair_draining))) (calls pair_draining) /\
  (forall i call, calls pair_draining !! i = Some (call, WaitAll) ->
     rpc_sequence_number call = sequence_number_ (service pair_draining)) /\
  (forall i call at_, calls pair_draining !! i = Some (call, at_) -> arrived at_ = true ->
     0 <= rpc_sequence_number call <= sequence_number_ (service pair_draining)).
Proof.
  apply (counters_count_the_round 2 0 [pair_rank0; pair_rank1; early_rank0] [2; 0; 1]%nat
           pair_draining).
  - lia.
  - reflexivity.
Defined.

(** X8: with a world size of at least 2, a call has its reply only when at
    least W calls with its sequence number have arrived (a call that the
    functor left by an exception does not count); in particular the pool
    holds at least W calls with that sequence number. *)
Theorem no_reply_before_the_quorum W N (requests : list rpc) schedule srv i call b :
  2 <= W ->
  run schedule (start W N requests) = Some srv ->
  calls srv !! i = Some (call, Replied b) ->
  W <= tally (arrived_in (rpc_sequence_number call)) (calls srv) /\
  W <= tally (in_round (rpc_sequence_number call)) requests.
Proof.
  intros HW Hrun Hi. pose proof (quorum_invariant_run W N requests HW schedule srv Hrun) as HI.
  pose proof (qi_replied _ _ _ _ HI (call, Replied b) (In_lookup _ _ _ Hi) eq_refl) as Hq.
  cbn [fst] in Hq. split; [exact Hq|].
  pose proof (arrived_le_requests (calls srv) (rpc_sequence_number call)) as Hle.
  rewrite (qi_calls _ _ _ _ HI) in Hle. lia.
Qed.

Lemma no_reply_before_the_quorum_witness :
  2 <= tally (arrived_in (rpc_sequence_number pair_rank1)) (calls pair_draining) /\
  2 <= tally (in_round (rpc_sequence_number pair_rank1)) [pair_rank0; pair_rank1; early_rank0].
Proof.
  apply (no_reply_before_the_quorum 2 0 [pair_rank0; pair_rank1; early_rank0] [2; 0; 1]%nat
           pair_draining 1%nat pair_rank1 [x70]).
  - lia.
  - reflexivity.
  - reflexivity.
Defined.

(** X9: with a world size of at least 2, when fewer than W calls of the
    pool carry the sequence number [n] of a round that is still to come,
    the server never gets past round [n], and no call of round [n] or of a
    later round ever has its reply, whatever the schedule. *)
Theorem incomplete_round_blocks W N (requests : list rpc) n schedule srv :
  2 <= W ->
  N <= n ->
  tally (in_round n) requests < W ->
  run schedule (start W N requests) = Some srv ->
  sequence_number_ (service srv) <= n /\
  forall i call at_,
    calls srv !! i = Some (call, at_) -> n <= rpc_sequence_number call ->
    replied at_ = false.
Proof.
  intros HW HN Hshort Hrun.
  pose proof (quorum_invariant_run W N requests HW schedule srv Hrun) as HI.
  assert (Hle : forall m, tally (arrived_in m) (calls srv) <= tally (in_round m) requests).
  { intros m. rewrite <- (qi_calls _ _ _ _ HI). apply arrived_le_requests. }
  assert (Hcur : sequence_number_ (service srv) <= n).
  { destruct (Z.le_gt_cases (sequence_number_ (service srv)) n) as [|Hgt]; [assumption|].
    pose proof (qi_past _ _ _ _ HI n ltac:(lia)). specialize (Hle n). lia. }
  split; [exact Hcur|].
  intros i call at_ Hi Hn. destruct (replied at_) eqn:Hr; [exfalso|reflexivity].
  pose proof (In_lookup _ _ _ Hi) as Hin.
  pose proof (qi_replied _ _ _ _ HI _ Hin Hr) as Hq.
  pose proof (qi_arrived _ _ _ _ HI _ Hin (replied_arrived _ Hr)) as Ha.
  cbn [fst snd] in *. assert (rpc_sequence_number call = n) as E by lia.
  rewrite E in Hq. specialize (Hle n). lia.
Qed.

Lemma incomplete_round_blocks_witness :
  sequence_number_ (service pair_draining) <= 1 /\
  forall i call at_,
    calls pair_draining !! i = Some (call, at_) -> 1 <= rpc_sequence_number call ->
    replied at_ = false.
Proof.
  apply (incomplete_round_blocks 2 0 [pair_rank0; pair_rank1; early_rank0] 1 [2; 0; 1]%nat
           pair_draining).
  - lia.
  - lia.
  - vm_compute. reflexivity.
  - reflexivity.
Defined.

(** ** Agreement of the replies of a round *)

Lemma thrown_stays i call at_ s s' at' (cs : list (rpc * position)) :
  cs !! i = Some (call, at_) ->
  effect call s at_ s' at' ->
  (exists c, In c cs /\ failed c.2 = true) ->
  exists c, In c (<[i := (call, at')]> cs) /\ failed c.2 = true.
Proof.
  intros Hi He (c & Hc & Ht).
  apply list_elem_of_In, list_elem_of_lookup in Hc as [j Hj].
  destruct (decide (j = i)) as [->|Hne].
  - rewrite Hi in Hj. injection Hj as <-. cbn [snd] in Ht.
    destruct He; try (destruct at_; discriminate); try discriminate.
    exists (call, at_). split; [|exact Ht].
    rewrite list_insert_id by assumption. eapply In_lookup, Hi.
  - exists c. split; [|exact Ht]. apply (In_lookup _ j).
    rewrite list_lookup_insert_ne by done. exact Hj.
Qed.

Section Agreement.
Variables (W N : Z) (requests : list rpc).
Hypothesis HW : 2 <= W.

Lemma agreement_effect i call at_ s cs s' at' :
  quorum_invariant W N requests {| service := s; calls := cs |} ->
  agreement {| service := s; calls := cs |} ->
  cs !! i = Some (call, at_) ->
  effect call s at_ s' at' ->
  agreement {| service := s'; calls := <[i := (call, at')]> cs |}.
Proof.
  intros HI [Hthrown|[Hnow Hsame]] Hi He; unfold agreement; cbn [service calls] in *.
  { left. eapply thrown_stays; eassumption. }
  pose proof (qi_world _ _ _ _ HI) as Hw.
  pose proof (qi_sent _ _ _ _ HI) as Hsent.
  pose proof (qi_quorum _ _ _ _ HI) as Hq.
  pose proof (qi_arrived _ _ _ _ HI) as Harr.
  pose proof (qi_waiting _ _ _ _ HI) as Hwait.
  cbn [service calls] in *.
  assert (Hin : In (call, at_) cs) by (eapply In_lookup, Hi).
  assert (Hmem : forall c, In c (<[i := (call, at')]> cs) -> c = (call, at') \/ In c cs)
    by (intros c; apply In_insert).
  assert (Hnone : sent_ s = 0 -> forall c b, In c cs -> c.2 = Replied b ->
                    rpc_sequence_number c.1 = sequence_number_ s -> False).
  { intros H0 c b Hc Hb Hs.
    assert (Hr : replied_in (sequence_number_ s) c = true).
    { unfold replied_in, in_round. rewrite Hs, Z.eqb_refl, Hb. reflexivity. }
    pose proof (tally_pos _ _ _ Hc Hr). lia. }
  destruct He as [H1|at_ Hp Hne|at_ e buffer Hp Heq Hf|at_ buffer Hp Heq Hf Hr
                 |at_ buffer Hp Heq Hf Hr|Hr Hs|Hr Hs|Hr|at_ Hp Ht];
    cbn [world_size_ sequence_number_ received_ sent_ buffer_ fresh].
  - lia.
  - right. split.
    + intros c b [->|Hc]%Hmem; [intros Hb; cbn in Hb; discriminate|]. apply Hnow, Hc.
    + intros c1 c2 b1 b2 [->|H1]%Hmem [->|H2]%Hmem Hb1 Hb2; cbn in Hb1, Hb2;
        try discriminate. apply Hsame; assumption.
  - left. exists (call, Thrown e). split; [|reflexivity].
    apply (In_lookup _ i). apply list_lookup_insert_eq. eapply lookup_lt_Some, Hi.
  - assert (H0 : sent_ s = 0) by lia.
    right. split.
    + intros c b [->|Hc]%Hmem Hb Hs _; [cbn in Hb; congruence|].
      exfalso. eapply Hnone; eassumption.
    + intros c1 c2 b1 b2 [->|H1]%Hmem [->|H2]%Hmem Hb1 Hb2 Hs; cbn [fst snd] in *.
      * congruence.
      * exfalso. apply (Hnone H0 c2 b2 H2 Hb2). lia.
      * exfalso. apply (Hnone H0 c1 b1 H1 Hb1). lia.
      * apply (Hsame c1 c2 b1 b2); assumption.
  - right. split.
    + intros c b _ _ _ Hrec. lia.
    + intros c1 c2 b1 b2 [->|H1]%Hmem [->|H2]%Hmem Hb1 Hb2; cbn in Hb1, Hb2;
        try discriminate. apply Hsame; assumption.
  - pose proof (Hwait _ Hin eq_refl) as Heq. cbn [fst] in Heq.
    right. split.
    + intros c b Hc Hb Hsq _. exfalso.
      assert (Ha : arrived c.2 = true) by (rewrite Hb; reflexivity).
      destruct (Hmem c Hc) as [->|Hc0]; cbn [fst] in *; [lia|].
      specialize (Harr c Hc0 Ha). lia.
    + intros c1 c2 b1 b2 [->|H1]%Hmem [->|H2]%Hmem Hb1 Hb2 Hsq; cbn [fst snd] in *.
      * congruence.
      * injection Hb1 as <-. symmetry. apply (Hnow c2 b2 H2 Hb2); lia.
      * injection Hb2 as <-. apply (Hnow c1 b1 H1 Hb1); lia.
      * apply (Hsame c1 c2 b1 b2); assumption.
  - pose proof (Hwait _ Hin eq_refl) as Heq. cbn [fst] in Heq.
    right. split.
    + intros c b [->|Hc]%Hmem Hb Hsq Hrec; [cbn in Hb; congruence|].
      apply (Hnow c b Hc Hb Hsq Hrec).
    + intros c1 c2 b1 b2 [->|H1]%Hmem [->|H2]%Hmem Hb1 Hb2 Hsq; cbn [fst snd] in *.
      * congruence.
      * injection Hb1 as <-. symmetry. apply (Hnow c2 b2 H2 Hb2); lia.
      * injection Hb2 as <-. apply (Hnow c1 b1 H1 Hb1); lia.
      * apply (Hsame c1 c2 b1 b2); assumption.
  - rewrite list_insert_id by assumption. right. split; assumption.
  - rewrite list_insert_id by assumption. right. split; assumption.
Qed.

Lemma agreement_run schedule : forall srv srv',
  quorum_invariant W N requests srv -> agreement srv ->
  run schedule srv = Some srv' -> agreement srv'.
Proof.
  induction schedule as [|i schedule IH]; intros srv srv' HI HA; cbn [run].
  - intros [= <-]. exact HA.
  - destruct (step i srv) as [srv1|] eqn:H1; [|discriminate].
    apply IH; [eapply quorum_invariant_step; eassumption|].
    apply step_inv in H1 as [[_ ->]|(call & at_ & s & at' & Hi & Hs & ->)]; [assumption|].
    destruct srv as [s0 cs]. cbn [service calls] in *.
    apply (agreement_effect i call at_ s0 cs s at'); [assumption..|].
    apply serve_effect, Hs.
Qed.

Lemma agreement_start : agreement (start W N requests).
Proof.
  right. split.
  - intros c b Hc Hb. apply in_map_iff in Hc as (call & <- & _). discriminate.
  - intros c1 c2 b1 b2 Hc Hc2 Hb. apply in_map_iff in Hc as (call & <- & _). discriminate.
Qed.

End Agreement.

(** X10: with a world size of at least 2, in every state the server
    reaches from its start in which no call has been left by an exception
    of its functor, any two replies to calls with the same sequence number
    are the same bytes, whatever the kinds of the calls and the
    schedule. *)
Theorem replies_of_a_round_agree W N (requests : list rpc) schedule srv :
  2 <= W ->
  run schedule (start W N requests) = Some srv ->
  (forall k call at_, calls srv !! k = Some (call, at_) -> failed at_ = false) ->
  forall i j call_i call_j b_i b_j,
    calls srv !! i = Some (call_i, Replied b_i) ->
    calls srv !! j = Some (call_j, Replied b_j) ->
    rpc_sequence_number call_i = rpc_sequence_number call_j ->
    b_i = b_j.
Proof.
  intros HW Hrun Hnothrown i j call_i call_j b_i b_j Hi Hj Hseq.
  pose proof (agreement_run W N requests HW schedule _ _
                (quorum_invariant_start W N requests HW)
                (agreement_start W N requests) Hrun) as [(c & Hc & Ht)|[_ Hsame]].
  - apply list_elem_of_In, list_elem_of_lookup in Hc as [k Hk]. destruct c as [call at_].
    cbn [snd] in Ht. rewrite (Hnothrown k call at_ Hk) in Ht. discriminate.
  - apply (Hsame (call_i, Replied b_i) (call_j, Replied b_j));
      [eapply In_lookup, Hi|eapply In_lookup, Hj|reflexivity|reflexivity|exact Hseq].
Qed.

Lemma replies_of_a_round_agree_witness :
  run [2; 0; 1; 0]%nat (start 2 0 [pair_rank0; pair_rank1; early_rank0]) = Some pair_retired /\
  forall i j call_i call_j b_i b_j,
    calls pair_retired !! i = Some (call_i, Replied b_i) ->
    calls pair_retired !! j = Some (call_j, Replied b_j) ->
    rpc_sequence_number call_i = rpc_sequence_number call_j ->
    b_i = b_j.
Proof.
  split; [reflexivity|].
  apply (replies_of_a_round_agree 2 0 [pair_rank0; pair_rank1; early_rank0] [2; 0; 1; 0]%nat
           pair_retired).
  - lia.
  - reflexivity.
  - intros [|[|[|k]]] call at_ [= <- <-]; reflexivity.
Defined.

(** Without that proviso the replies of a round can differ: a Gather call
    that throws after the quorum leaves the buffer resized for the calls
    that have not yet left. *)
Example failed_call_breaks_agreement :
  run [0; 1; 2; 0]%nat (start 2 0 gather_trio) =
  Some {| service := fresh 2 1;
          calls := [(Allgather (AllgatherRequest.mk 0 0 [x61]), Replied [x61; x62; x00; x00]);
                    (Allgather (AllgatherRequest.mk 0 1 [x62]), Replied [x61; x62]);
                    (Allgather (AllgatherRequest.mk 0 5 [x63; x63]), Thrown out_of_range)] |}.
Proof. reflexivity. Qed.

(** ** More calls than ranks *)

Lemma overfull_effect call s at_ s' at' :
  world_size_ s <> 1 -> world_size_ s < received_ s ->
  effect call s at_ s' at' ->
  world_size_ s' = world_size_ s /\
  sequence_number_ s' = sequence_number_ s /\ sent_ s' = sent_ s /\
  received_ s <= received_ s' /\ replied at' = replied at_.
Proof.
  intros HW Hover He.
  destruct He; cbn [world_size_ sequence_number_ received_ sent_ replied]; try lia;
    repeat split; try lia; try reflexivity; destruct at_; try discriminate; reflexivity.
Qed.

(** X11: once more calls have been let into a round than the world has
    ranks ([received_] above the world size, which a call with the current
    sequence number that comes in after the quorum brings about), the
    round never retires: along every schedule the sequence number and
    [sent_] stay as they are, [received_] does not decrease, and no call
    that has no reply gets one. *)
Theorem overfull_round_never_retires srv schedule srv' :
  world_size_ (service srv) <> 1 ->
  world_size_ (service srv) < received_ (service srv) ->
  run schedule srv = Some srv' ->
  sequence_number_ (service srv') = sequence_number_ (service srv) /\
  sent_ (service srv') = sent_ (service srv) /\
  received_ (service srv) <= received_ (service srv') /\
  forall i, replied_at i srv' = replied_at i srv.
Proof.
  revert srv srv'.
  induction schedule as [|j schedule IH]; intros srv srv' HW Hover; cbn [run].
  - intros [= <-]. repeat split; lia.
  - destruct (step j srv) as [srv1|] eqn:H1; [|discriminate]. intros Hrun.
    apply step_inv in H1 as [[_ ->]|(call & at_ & s & at' & Hj & Hs & ->)];
      [apply IH; assumption|].
    apply serve_effect in Hs.
    destruct (overfull_effect _ _ _ _ _ HW Hover Hs) as (Hw & Hseq & Hsent & Hrec & Hrep).
    destruct (IH {| service := s; calls := <[j := (call, at')]> (calls srv) |} srv')
      as (I1 & I2 & I3 & I4); [cbn [service]; lia..|exact Hrun|]. cbn [service] in *.
    split; [lia|]. split; [lia|]. split; [lia|].
    intros i. rewrite I4. unfold replied_at. cbn [calls].
    destruct (decide (i = j)) as [->|Hne].
    + rewrite Hj, list_lookup_insert_eq by (eapply lookup_lt_Some, Hj). exact Hrep.
    + rewrite list_lookup_insert_ne by done. reflexivity.
Qed.

Lemma overfull_round_never_retires_witness :
  sequence_number_ (service crowd_stuck) = sequence_number_ (service crowd_overfull) /\
  sent_ (service crowd_stuck) = sent_ (service crowd_overfull) /\
  received_ (service crowd_overfull) <= received_ (service crowd_stuck) /\
  forall i, replied_at i crowd_stuck = replied_at i crowd_overfull.
Proof.
  apply (overfull_round_never_retires crowd_overfull [3; 0; 2]%nat crowd_stuck).
  - discriminate.
  - reflexivity.
  - reflexivity.
Defined.

(** ** The barrier on an orderly pool: rounds of Reduce and Gather calls *)

Lemma arrivals_snoc {R : Type} (functor : R -> bytes -> outcome) call :
  forall order buffer0 thrown_ buffer,
    arrivals functor order buffer0 = Some (thrown_, buffer) ->
    arrivals functor (order ++ [call]) buffer0 =
    match functor call buffer with
    | Undefined => None
    | Normal b' => Some (thrown_, b')
    | Throws e b' => Some (thrown_ ++ [e], b')
    end.
Proof.
  induction order as [|r order IH]; intros buffer0 thrown_ buffer; cbn [arrivals app].
  - intros [= <- <-]. destruct (functor call buffer0); reflexivity.
  - destruct (functor r buffer0) as [b1|e b1|]; [apply IH| |discriminate].
    destruct (arrivals functor order b1) as [[t f]|] eqn:E; [|discriminate].
    intros [= <- <-]. rewrite (IH _ _ _ E). destruct (functor call f); reflexivity.
Qed.

Lemma chosen_app T cs1 cs2 : chosen T (cs1 ++ cs2) = chosen T cs1 ++ chosen T cs2.
Proof.
  induction cs1 as [|c cs1 IH]; cbn [chosen app]; [reflexivity|].
  destruct (T c); rewrite IH; reflexivity.
Qed.

Lemma chosen_insert_same T (cs : list (rpc * position)) i call at_ at' :
  cs !! i = Some (call, at_) ->
  T (call, at_) = T (call, at') ->
  chosen T (<[i := (call, at')]> cs) = chosen T cs.
Proof.
  intros Hi HT. pose proof (lookup_lt_Some _ _ _ Hi) as Hlt.
  rewrite insert_take_drop by assumption.
  rewrite <- (take_drop_middle cs i _ Hi) at 3.
  rewrite !chosen_app. cbn [chosen fst]. rewrite HT. reflexivity.
Qed.

Lemma chosen_insert_new T (cs : list (rpc * position)) i call at_ at' :
  cs !! i = Some (call, at_) ->
  T (call, at_) = false -> T (call, at') = true ->
  Permutation (chosen T cs ++ [call]) (chosen T (<[i := (call, at')]> cs)).
Proof.
  intros Hi HF HT. pose proof (lookup_lt_Some _ _ _ Hi) as Hlt.
  rewrite insert_take_drop by assumption.
  rewrite <- (take_drop_middle cs i _ Hi) at 1.
  rewrite !chosen_app. cbn [chosen fst]. rewrite HF, HT.
  rewrite <- app_assoc. apply Permutation_app_head.
  symmetry. apply Permutation_cons_append.
Qed.

Lemma length_chosen T cs : Z.of_nat (length (chosen T cs)) = tally T cs.
Proof.
  induction cs as [|c cs IH]; cbn [chosen tally]; [reflexivity|].
  destruct (T c); cbn [length]; lia.
Qed.

Lemma chosen_submseteq T cs : submseteq (chosen T cs) (map fst cs).
Proof.
  induction cs as [|c cs IH]; cbn [chosen map]; [constructor|].
  destruct (T c); [apply submseteq_skip|apply submseteq_cons]; exact IH.
Qed.

Lemma chosen_arrived_in n cs :
  Forall (fun call => In call (map fst cs) /\ in_round n call = true)
    (chosen (arrived_in n) cs).
Proof.
  induction cs as [|c cs IH]; cbn [chosen map]; [constructor|].
  assert (IH' : Forall (fun call => In call (c.1 :: map fst cs) /\ in_round n call = true)
                  (chosen (arrived_in n) cs)).
  { eapply Forall_impl; [exact IH|]. intros call [H1 H2]. split; [right; exact H1|exact H2]. }
  destruct (arrived_in n c) eqn:E; [|exact IH'].
  constructor; [|exact IH'].
  split; [left; reflexivity|]. unfold arrived_in in E. apply andb_true_iff in E as [E _].
  exact E.
Qed.

Lemma chosen_start n (l : list rpc) :
  chosen (arrived_in n) (map (fun call => (call, Entered)) l) = [].
Proof.
  induction l as [|r l IH]; [reflexivity|]. cbn [map chosen].
  unfold arrived_in at 1. cbn [snd arrived]. rewrite andb_false_r. exact IH.
Qed.

Section Orderly.
Variables (W N : Z) (requests : list rpc).
Hypothesis HW : 2 <= W.
Hypothesis Horderly : orderly W requests.

(** The functor of a call that is let in returns normally. *)
Lemma orderly_functor s cs call order :
  map fst cs = requests ->
  In call requests ->
  rpc_sequence_number call = sequence_number_ s ->
  Permutation order (chosen (arrived_in (sequence_number_ s)) cs) ->
  arrivals (rpc_functor W) order [] = Some ([], buffer_ s) ->
  exists buffer,
    rpc_functor W call (buffer_ s) = Normal buffer /\
    arrivals (rpc_functor W) (order ++ [call]) [] = Some ([], buffer).
Proof.
  intros Hcalls Hreq Hseq Hperm Hfold.
  destruct (Horderly (sequence_number_ s) (order ++ [call])) as [final Hfinal].
  { apply Forall_app. split.
    - rewrite Hperm, <- Hcalls. apply chosen_arrived_in.
    - constructor; [|constructor]. split; [assumption|].
      unfold in_round. rewrite Hseq. apply Z.eqb_refl. }
  rewrite (arrivals_snoc _ _ _ _ _ _ Hfold) in Hfinal.
  destruct (rpc_functor W call (buffer_ s)) as [b'|e b'|] eqn:Hf; [|discriminate..].
  injection Hfinal as <-. exists b'. split; [reflexivity|].
  rewrite (arrivals_snoc _ _ _ _ _ _ Hfold), Hf. reflexivity.
Qed.

Lemma orderly_invariant_effect i call at_ s cs s' at' :
  orderly_invariant W N requests {| service := s; calls := cs |} ->
  cs !! i = Some (call, at_) ->
  effect call s at_ s' at' ->
  orderly_invariant W N requests {| service := s'; calls := <[i := (call, at')]> cs |}.
Proof.
  intros [HQ Hnt (order & Hperm & Hfold) Hreplies] Hi He.
  pose proof (quorum_invariant_effect W N requests HW i call at_ s cs s' at' HQ Hi He) as HQ'.
  pose proof (qi_world _ _ _ _ HQ) as Hw.
  pose proof (qi_calls _ _ _ _ HQ) as Hcalls.
  pose proof (qi_received _ _ _ _ HQ) as Hrec.
  pose proof (qi_received _ _ _ _ HQ') as Hrec'.
  pose proof (qi_calls _ _ _ _ HQ') as Hcalls'.
  pose proof (qi_waiting _ _ _ _ HQ) as Hwait.
  cbn [service calls] in *.
  assert (Hin : In (call, at_) cs) by (eapply In_lookup, Hi).
  assert (Hreq : In call requests) by (rewrite <- Hcalls; apply (in_map fst _ _ Hin)).
  assert (Hmem : forall c, In c (<[i := (call, at')]> cs) -> c = (call, at') \/ In c cs)
    by (intros c; apply In_insert).
  assert (Hfolded : forall order' n b,
            Permutation order' (chosen (arrived_in n) (<[i := (call, at')]> cs)) ->
            tally (arrived_in n) (<[i := (call, at')]> cs) = W ->
            arrivals (rpc_functor W) order' [] = Some ([], b) ->
            folds_round W requests n b).
  { intros order' n b Hp Hn Hf. exists order'. split; [|split; [|split]].
    - rewrite Hp, <- Hcalls'. apply chosen_submseteq.
    - rewrite Hp. eapply Forall_impl; [apply chosen_arrived_in|]. intros c [_ H]. exact H.
    - rewrite Hp, length_chosen. exact Hn.
    - exact Hf. }
  destruct He as [H1|at_ Hp Hne|at_ e buffer Hp Heq Hf|at_ buffer Hp Heq Hf Hr
                 |at_ buffer Hp Heq Hf Hr|Hr Hs|Hr Hs|Hr|at_ Hp Ht];
    cbn [world_size_ sequence_number_ received_ sent_ buffer_ fresh] in *.
  - lia.
  - (* parked again *)
    split; cbn [service calls world_size_ sequence_number_ received_ sent_ buffer_].
    + exact HQ'.
    + intros c [->|Hc]%Hmem; [reflexivity|apply Hnt, Hc].
    + exists order. split; [|exact Hfold].
      rewrite (chosen_insert_same _ _ _ _ at_); [exact Hperm|exact Hi|].
      unfold arrived_in. cbn [fst snd arrived]. rewrite (parked_not_arrived _ Hp).
      reflexivity.
    + intros c b [->|Hc]%Hmem; [intros Hb; cbn in Hb; discriminate|apply Hreplies, Hc].
  - (* the functor of an orderly pool does not throw *)
    destruct (orderly_functor s cs call order Hcalls Hreq (eq_sym Heq) Hperm Hfold)
      as (b' & Hb' & _).
    rewrite Hw in Hf. congruence.
  - (* the last arrival *)
    destruct (orderly_functor s cs call order Hcalls Hreq (eq_sym Heq) Hperm Hfold)
      as (b' & Hb' & Hfold').
    rewrite Hw in Hf. assert (b' = buffer) as -> by congruence.
    assert (Hperm' : Permutation (order ++ [call])
              (chosen (arrived_in (sequence_number_ s)) (<[i := (call, Replied buffer)]> cs))).
    { rewrite Hperm. apply (chosen_insert_new _ _ _ _ at_); [exact Hi| |].
      - unfold arrived_in. cbn [fst snd]. rewrite (parked_not_arrived _ Hp). apply andb_false_r.
      - unfold arrived_in, in_round. cbn [fst snd arrived]. rewrite Heq, Z.eqb_refl.
        reflexivity. }
    split; cbn [service calls world_size_ sequence_number_ received_ sent_ buffer_].
    + exact HQ'.
    + intros c [->|Hc]%Hmem; [reflexivity|apply Hnt, Hc].
    + exists (order ++ [call]). split; assumption.
    + intros c b [->|Hc]%Hmem; [|apply Hreplies, Hc]. intros [= <-]. cbn [fst].
      rewrite <- Heq. apply (Hfolded (order ++ [call])); [exact Hperm'|lia|exact Hfold'].
  - (* an arrival before the quorum *)
    destruct (orderly_functor s cs call order Hcalls Hreq (eq_sym Heq) Hperm Hfold)
      as (b' & Hb' & Hfold').
    rewrite Hw in Hf. assert (b' = buffer) as -> by congruence.
    split; cbn [service calls world_size_ sequence_number_ received_ sent_ buffer_].
    + exact HQ'.
    + intros c [->|Hc]%Hmem; [reflexivity|apply Hnt, Hc].
    + exists (order ++ [call]). split; [|exact Hfold'].
      rewrite Hperm. apply (chosen_insert_new _ _ _ _ at_); [exact Hi| |].
      * unfold arrived_in. cbn [fst snd]. rewrite (parked_not_arrived _ Hp). apply andb_false_r.
      * unfold arrived_in, in_round. cbn [fst snd arrived]. rewrite Heq, Z.eqb_refl.
        reflexivity.
    + intros c b [->|Hc]%Hmem; [intros Hb; cbn in Hb; discriminate|apply Hreplies, Hc].
  - (* the last departure: the reset *)
    pose proof (Hwait _ Hin eq_refl) as Heq. cbn [fst] in Heq.
    assert (Hsame : chosen (arrived_in (sequence_number_ s))
                      (<[i := (call, Replied (buffer_ s))]> cs) =
                    chosen (arrived_in (sequence_number_ s)) cs).
    { apply (chosen_insert_same _ _ _ _ WaitAll); [exact Hi|reflexivity]. }
    split; cbn [service calls world_size_ sequence_number_ received_ sent_ buffer_ fresh].
    + exact HQ'.
    + intros c [->|Hc]%Hmem; [reflexivity|apply Hnt, Hc].
    + exists []. split; [|reflexivity].
      assert (Hz : length (chosen (arrived_in (sequence_number_ s + 1))
                             (<[i := (call, Replied (buffer_ s))]> cs)) = 0%nat).
      { pose proof (length_chosen (arrived_in (sequence_number_ s + 1))
                      (<[i := (call, Replied (buffer_ s))]> cs)). lia. }
      apply nil_length_inv in Hz. rewrite Hz. reflexivity.
    + intros c b [->|Hc]%Hmem; [|apply Hreplies, Hc]. intros [= <-]. cbn [fst].
      rewrite Heq. apply (Hfolded order); [rewrite Hsame; exact Hperm| |exact Hfold].
      rewrite <- length_chosen, Hsame, length_chosen. lia.
  - (* a departure before the last *)
    pose proof (Hwait _ Hin eq_refl) as Heq. cbn [fst] in Heq.
    assert (Hsame : chosen (arrived_in (sequence_number_ s))
                      (<[i := (call, Replied (buffer_ s))]> cs) =
                    chosen (arrived_in (sequence_number_ s)) cs).
    { apply (chosen_insert_same _ _ _ _ WaitAll); [exact Hi|reflexivity]. }
    split; cbn [service calls world_size_ sequence_number_ received_ sent_ buffer_].
    + exact HQ'.
    + intros c [->|Hc]%Hmem; [reflexivity|apply Hnt, Hc].
    + exists order. split; [rewrite Hsame; exact Hperm|exact Hfold].
    + intros c b [->|Hc]%Hmem; [|apply Hreplies, Hc]. intros [= <-]. cbn [fst].
      rewrite Heq. apply (Hfolded order); [rewrite Hsame; exact Hperm| |exact Hfold].
      rewrite <- length_chosen, Hsame, length_chosen. lia.
  - (* still waiting for the quorum *)
    rewrite list_insert_id by assumption. split; [assumption..|eauto|assumption].
  - (* nothing left to do *)
    rewrite list_insert_id by assumption. split; [assumption..|eauto|assumption].
Qed.

Lemma orderly_invariant_step i srv srv' :
  orderly_invariant W N requests srv -> step i srv = Some srv' ->
  orderly_invariant W N requests srv'.
Proof.
  intros HI Hstep.
  apply step_inv in Hstep as [[_ ->]|(call & at_ & s & at' & Hi & Hs & ->)]; [assumption|].
  destruct srv as [s0 cs]. cbn [service calls] in *.
  apply (orderly_invariant_effect i call at_ s0 cs s at'); [assumption..|].
  apply serve_effect, Hs.
Qed.

Lemma orderly_invariant_start : orderly_invariant W N requests (start W N requests).
Proof.
  assert (Hall : forall c, In c (map (fun call => (call, Entered)) requests) -> c.2 = Entered).
  { intros c Hc. apply in_map_iff in Hc as (call & <- & _). reflexivity. }
  split.
  - apply quorum_invariant_start. exact HW.
  - intros c Hc. rewrite (Hall c Hc). reflexivity.
  - exists []. split; [|reflexivity]. cbn [start service calls fresh sequence_number_].
    rewrite chosen_start. reflexivity.
  - intros c b Hc Hb. rewrite (Hall c Hc) in Hb. discriminate.
Qed.

(** The calls of an orderly pool never leave the defined behaviour. *)
Lemma orderly_step_defined i srv :
  orderly_invariant W N requests srv -> is_Some (step i srv).
Proof.
  intros [HQ _ (order & Hperm & Hfold) _]. unfold step.
  destruct (calls srv !! i) as [[call at_]|] eqn:Hi; [|by eexists].
  assert (Hreq : In call requests).
  { rewrite <- (qi_calls _ _ _ _ HQ). apply (in_map fst _ (call, at_)). eapply In_lookup, Hi. }
  rewrite serve_unfold. unfold contribute. rewrite (qi_world _ _ _ _ HQ).
  assert (Hlet : sequence_number_ (service srv) = rpc_sequence_number call ->
                 exists b, rpc_functor W call (buffer_ (service srv)) = Normal b).
  { intros Hseq.
    destruct (orderly_functor (service srv) (calls srv) call order (qi_calls _ _ _ _ HQ) Hreq
                (eq_sym Hseq) Hperm Hfold) as (b & Hb & _). eauto. }
  destruct at_.
  - destruct (Z.eqb_spec W 1); [by eexists|].
    destruct (Z.eqb_spec (sequence_number_ (service srv)) (rpc_sequence_number call))
      as [E|E]; [|by eexists].
    destruct (Hlet E) as [b ->]. destruct (_ =? _); by eexists.
  - destruct (Z.eqb_spec (sequence_number_ (service srv)) (rpc_sequence_number call))
      as [E|E]; [|by eexists].
    destruct (Hlet E) as [b ->]. destruct (_ =? _); by eexists.
  - destruct (_ =? _); [unfold released; destruct (_ =? _)|]; by eexists.
  - by eexists.
  - by eexists.
Qed.

Lemma orderly_run_defined schedule : forall srv,
  orderly_invariant W N requests srv -> is_Some (run schedule srv).
Proof.
  induction schedule as [|i schedule IH]; intros srv HI; cbn [run]; [by eexists|].
  destruct (orderly_step_defined i srv HI) as [srv1 H1]. rewrite H1.
  apply IH. eapply orderly_invariant_step; eassumption.
Qed.

End Orderly.

Section OrderlyProgress.
Variables (W N : Z) (requests : list rpc).
Hypothesis HW : 2 <= W.
Hypothesis Horderly : orderly W requests.

(** When the quorum of a round of no more than [W] calls is there, every
    call of the round has arrived. *)
Lemma members_all_arrived (cs : list (rpc * position)) n :
  map fst cs = requests ->
  tally (in_round n) requests <= W ->
  tally (arrived_in n) cs = W ->
  forall c, In c cs -> member_of n c = true -> arrived c.2 = true.
Proof.
  intros Hcs Hsize HA.
  assert (Hmembers : tally (member_of n) cs <= W).
  { unfold member_of. rewrite <- (tally_fst (in_round n)), Hcs. exact Hsize. }
  assert (Hall : forall c, In c cs -> member_of n c = true -> arrived_in n c = true).
  { apply tally_eq_all.
    - intros c _ H. unfold arrived_in in H. apply andb_true_iff in H as [H _]. exact H.
    - assert (tally (arrived_in n) cs <= tally (member_of n) cs); [|lia].
      apply tally_le. intros c _ H. unfold arrived_in in H.
      apply andb_true_iff in H as [H _]. exact H. }
  intros c Hc Hm. apply Hall in Hm; [|assumption].
  unfold arrived_in in Hm. apply andb_true_iff in Hm as [_ Hm]. exact Hm.
Qed.

Lemma orderly_lookup_request srv i c :
  orderly_invariant W N requests srv ->
  calls srv !! i = Some c -> requests !! i = Some c.1.
Proof.
  intros HI Hc. rewrite <- (qi_calls _ _ _ _ (oi_quorum _ _ _ _ HI)).
  change (map fst) with (fmap (M := list) (@fst rpc position)).
  rewrite list_lookup_fmap, Hc. reflexivity.
Qed.

(** While the sequence number stays, no call goes back, the quorum of a
    round of no more than [W] calls stays, and a call of the round in
    progress that takes a step has arrived after it, and has its reply
    after it when the quorum was there. *)
Lemma orderly_step_progress i srv srv' :
  orderly_invariant W N requests srv ->
  tally (in_round (sequence_number_ (service srv))) requests <= W ->
  step i srv = Some srv' ->
  sequence_number_ (service srv') = sequence_number_ (service srv) ->
  (forall j, has_arrived j srv = true -> has_arrived j srv' = true) /\
  (forall j, replied_at j srv = true -> replied_at j srv' = true) /\
  (received_ (service srv) = W -> received_ (service srv') = W) /\
  (forall call, requests !! i = Some call ->
     in_round (sequence_number_ (service srv)) call = true ->
     has_arrived i srv' = true /\
     (received_ (service srv) = W -> replied_at i srv' = true)).
Proof.
  intros HI Hsize Hstep Hseq. pose proof (orderly_invariant_step W N requests HW Horderly
                                           i srv srv' HI Hstep) as HI'.
  apply step_inv in Hstep as [[Hnone ->]|(call & at_ & s' & at' & Hi & Hs & ->)].
  { split; [done|]. split; [done|]. split; [done|]. intros call Hreq. exfalso.
    rewrite <- (qi_calls _ _ _ _ (oi_quorum _ _ _ _ HI)) in Hreq.
    change (map fst) with (fmap (M := list) (@fst rpc position)) in Hreq.
    rewrite list_lookup_fmap, Hnone in Hreq. discriminate. }
  destruct srv as [s cs]. cbn [service calls] in *.
  pose proof (oi_quorum _ _ _ _ HI) as HQ.
  assert (Hin : In (call, at_) cs) by (eapply In_lookup, Hi).
  pose proof (qi_world _ _ _ _ HQ) as Hw. cbn [service] in Hw.
  pose proof (qi_calls _ _ _ _ HQ) as Hcalls. cbn [calls] in Hcalls.
  pose proof (qi_received _ _ _ _ HQ) as Hrec. cbn [service calls] in Hrec.
  assert (Hsame : forall call', requests !! i = Some call' -> call' = call).
  { intros call' Hc. rewrite (orderly_lookup_request _ _ _ HI Hi) in Hc.
    injection Hc as <-. reflexivity. }
  assert (Hquorum : received_ s = W -> parked at_ = true ->
                    sequence_number_ s = rpc_sequence_number call -> False).
  { intros Hr Hp Heq.
    pose proof (members_all_arrived cs (sequence_number_ s) Hcalls Hsize ltac:(lia)
                  _ Hin) as Hall.
    unfold member_of, in_round in Hall. cbn [fst snd] in Hall.
    rewrite Heq, Z.eqb_refl in Hall. specialize (Hall eq_refl).
    destruct at_; discriminate. }
  assert (Hnew : In (call, at') (<[i := (call, at')]> cs)).
  { apply (In_lookup _ i). apply list_lookup_insert_eq. eapply lookup_lt_Some, Hi. }
  pose proof (oi_no_throw _ _ _ _ HI' _ Hnew) as Hnt. cbn [calls snd] in Hnt.
  assert (Hkey : (arrived at_ = true -> arrived at' = true) /\
                 (replied at_ = true -> replied at' = true) /\
                 (received_ s = W -> received_ s' = W) /\
                 (in_round (sequence_number_ s) call = true ->
                  arrived at' = true /\ (received_ s = W -> replied at' = true))).
  { apply serve_effect in Hs.
    destruct Hs as [H1|at_ Hp Hne|at_ e buffer Hp Heq Hf|at_ buffer Hp Heq Hf Hr
                   |at_ buffer Hp Heq Hf Hr|Hr Hs|Hr Hs|Hr|at_ Hp Ht];
      cbn [sequence_number_ received_ fresh arrived replied failed] in *.
    - lia.
    - split; [|split; [|split]]; try (intros; destruct at_; discriminate); try done.
      intros Hr. unfold in_round in Hr. apply Z.eqb_eq in Hr. lia.
    - discriminate.
    - split; [|split; [|split]]; try done. lia.
    - split; [|split; [|split]]; try (intros; destruct at_; discriminate); try done.
      + intros Hr'. exfalso. eauto.
      + intros _. split; [reflexivity|]. intros Hr'. exfalso. eauto.
    - lia.
    - split; [|split; [|split]]; done.
    - split; [|split; [|split]]; try done. intros _. split; [reflexivity|]. lia.
    - split; [|split; [|split]]; try done. intros _.
      destruct at_; try discriminate; [destruct Ht; discriminate|done]. }
  destruct Hkey as (Ka & Kr & Krec & Kprog).
  split; [intros j; apply (has_arrived_insert cs i j call at_ at'); assumption|].
  split; [intros j; apply (replied_at_insert cs i j call at_ at'); assumption|].
  split; [assumption|].
  intros call' Hc Hround. apply Hsame in Hc as ->.
  destruct (Kprog Hround) as [Ha Hr].
  unfold has_arrived, replied_at. cbn [calls].
  rewrite list_lookup_insert_eq by (eapply lookup_lt_Some, Hi). split; assumption.
Qed.

Lemma orderly_run_progress schedule : forall srv srv',
  orderly_invariant W N requests srv ->
  tally (in_round (sequence_number_ (service srv))) requests <= W ->
  run schedule srv = Some srv' ->
  sequence_number_ (service srv') = sequence_number_ (service srv) ->
  (received_ (service srv) = W -> received_ (service srv') = W) /\
  forall i call, requests !! i = Some call ->
    in_round (sequence_number_ (service srv)) call = true ->
    (In i schedule \/ has_arrived i srv = true -> has_arrived i srv' = true) /\
    (received_ (service srv) = W ->
     In i schedule \/ replied_at i srv = true -> replied_at i srv' = true).
Proof.
  induction schedule as [|j schedule IH]; intros srv srv' HI Hsize; cbn [run].
  - intros [= <-] _. split; [done|]. intros i call _ _.
    split; [intros [[]|]; done|intros _ [[]|]; done].
  - destruct (step j srv) as [srv1|] eqn:H1; [|discriminate]. intros Hrun Hseq.
    pose proof (step_monotone _ _ _ H1) as Hm1.
    pose proof (run_monotone _ _ _ Hrun) as Hm2.
    assert (Hseq1 : sequence_number_ (service srv1) = sequence_number_ (service srv)) by lia.
    destruct (orderly_step_progress j srv srv1 HI Hsize H1 Hseq1) as (Ma & Mr & Mrec & Mprog).
    destruct (IH srv1 srv' (orderly_invariant_step W N requests HW Horderly _ _ _ HI H1))
      as (Irec & Iprog); [rewrite Hseq1; exact Hsize|exact Hrun|lia|].
    rewrite Hseq1 in Iprog.
    split; [intros Hr; apply Irec, Mrec, Hr|].
    intros i call Hi Hround. destruct (Iprog i call Hi Hround) as [Ia Ir]. split.
    + intros [[<-|Hin]|Ha].
      * apply Ia. right. apply (Mprog call Hi Hround).
      * apply Ia. left. exact Hin.
      * apply Ia. right. apply Ma, Ha.
    + intros Hr [[<-|Hin]|Ha].
      * apply Ir; [apply Mrec, Hr|]. right. apply (Mprog call Hi Hround), Hr.
      * apply Ir; [apply Mrec, Hr|]. left. exact Hin.
      * apply Ir; [apply Mrec, Hr|]. right. apply Mr, Ha.
Qed.

(** A full round of an orderly pool whose calls each take a step, and
    then each another step, retires. *)
Lemma orderly_round_completes schedule1 schedule2 srv0 srv :
  orderly_invariant W N requests srv0 ->
  tally (in_round (sequence_number_ (service srv0))) requests = W ->
  (forall i call, requests !! i = Some call ->
     in_round (sequence_number_ (service srv0)) call = true ->
     In i schedule1 /\ In i schedule2) ->
  run (schedule1 ++ schedule2) srv0 = Some srv ->
  sequence_number_ (service srv0) < sequence_number_ (service srv).
Proof.
  intros HI0 Hfull Hcover Hrun. rewrite run_app in Hrun.
  destruct (run schedule1 srv0) as [srv1|] eqn:Hrun1; [|discriminate].
  pose proof (run_monotone _ _ _ Hrun1) as Hm1.
  pose proof (run_monotone _ _ _ Hrun) as Hm2.
  destruct (Z.lt_ge_cases (sequence_number_ (service srv0)) (sequence_number_ (service srv)))
    as [|Hge]; [assumption|exfalso].
  set (n := sequence_number_ (service srv0)) in *.
  assert (Hs1 : sequence_number_ (service srv1) = n) by lia.
  assert (Hs : sequence_number_ (service srv) = n) by lia.
  pose proof (run_invariant _ (orderly_invariant_step W N requests HW Horderly)
                _ _ _ HI0 Hrun1) as HI1.
  pose proof (run_invariant _ (orderly_invariant_step W N requests HW Horderly)
                _ _ _ HI1 Hrun) as HI.
  destruct (orderly_run_progress schedule1 srv0 srv1 HI0 ltac:(fold n; lia) Hrun1 Hs1)
    as (_ & Hp1). fold n in Hp1.
  assert (Hmembers : forall cs, map fst cs = requests -> tally (member_of n) cs = W).
  { intros cs Hcs. unfold member_of. rewrite <- (tally_fst (in_round n)), Hcs. exact Hfull. }
  pose proof (oi_quorum _ _ _ _ HI1) as HQ1. pose proof (oi_quorum _ _ _ _ HI) as HQ.
  assert (Hr1 : received_ (service srv1) = W).
  { rewrite (qi_received _ _ _ _ HQ1), Hs1, <- (Hmembers _ (qi_calls _ _ _ _ HQ1)).
    apply tally_ext. intros c Hc. unfold arrived_in, member_of.
    destruct (in_round n c.1) eqn:Hround; [|reflexivity]. cbn.
    apply list_elem_of_In, list_elem_of_lookup in Hc as [i Hi].
    pose proof (orderly_lookup_request _ _ _ HI1 Hi) as Hreq.
    destruct (Hp1 i c.1 Hreq Hround) as [Ha _].
    specialize (Ha (or_introl (proj1 (Hcover i c.1 Hreq Hround)))).
    unfold has_arrived in Ha. rewrite Hi in Ha. destruct c. exact Ha. }
  destruct (orderly_run_progress schedule2 srv1 srv HI1 ltac:(rewrite Hs1; lia) Hrun
              ltac:(lia)) as (_ & Hp2).
  rewrite Hs1 in Hp2.
  pose proof (qi_sent_lt _ _ _ _ HQ) as Hlt.
  rewrite (qi_sent _ _ _ _ HQ), Hs, <- (Hmembers _ (qi_calls _ _ _ _ HQ)) in Hlt.
  assert (Heq : tally (replied_in n) (calls srv) = tally (member_of n) (calls srv)); [|lia].
  apply tally_ext. intros c Hc. unfold replied_in, member_of.
  destruct (in_round n c.1) eqn:Hround; [|reflexivity]. cbn.
  apply list_elem_of_In, list_elem_of_lookup in Hc as [i Hi].
  pose proof (orderly_lookup_request _ _ _ HI Hi) as Hreq.
  destruct (Hp2 i c.1 Hreq Hround) as [_ Hr].
  specialize (Hr Hr1 (or_introl (proj2 (Hcover i c.1 Hreq Hround)))).
  unfold replied_at in Hr. rewrite Hi in Hr. destruct c. exact Hr.
Qed.

End OrderlyProgress.

(** The barrier on an orderly pool in a world of at least two ranks: every
    schedule is defined, every reply the server has given is the buffer
    that [W] calls of the call's round leave, and once every call of a full
    round has been scheduled and then scheduled again, every call of that
    round has its reply. *)
Lemma orderly_rounds W N (requests : list rpc) schedule :
  2 <= W ->
  orderly W requests ->
  exists srv,
    run schedule (start W N requests) = Some srv /\
    (forall i call b,
       calls srv !! i = Some (call, Replied b) ->
       folds_round W requests (rpc_sequence_number call) b) /\
    (forall i call at_, calls srv !! i = Some (call, at_) -> failed at_ = false) /\
    (forall schedule0 schedule1 schedule2 srv0,
       schedule = schedule0 ++ schedule1 ++ schedule2 ->
       run schedule0 (start W N requests) = Some srv0 ->
       tally (in_round (sequence_number_ (service srv0))) requests = W ->
       (forall i call, requests !! i = Some call ->
          in_round (sequence_number_ (service srv0)) call = true ->
          In i schedule1 /\ In i schedule2) ->
       forall i call, requests !! i = Some call ->
         in_round (sequence_number_ (service srv0)) call = true ->
         exists b, calls srv !! i = Some (call, Replied b)).
Proof.
  intros HW Horderly.
  pose proof (orderly_invariant_start W N requests HW) as HI0.
  destruct (orderly_run_defined W N requests HW Horderly schedule _ HI0) as [srv Hrun].
  pose proof (run_invariant _ (orderly_invariant_step W N requests HW Horderly)
                _ _ _ HI0 Hrun) as HI.
  exists srv. split; [assumption|]. split; [|split].
  - intros i call b Hi.
    apply (oi_replies _ _ _ _ HI (call, Replied b)); [eapply In_lookup, Hi|reflexivity].
  - intros i call at_ Hi. apply (oi_no_throw _ _ _ _ HI (call, at_)). eapply In_lookup, Hi.
  - intros schedule0 schedule1 schedule2 srv0 -> Hrun0 Hfull Hcover i call Hi Hround.
    rewrite run_app, Hrun0 in Hrun.
    pose proof (run_invariant _ (orderly_invariant_step W N requests HW Horderly)
                  _ _ _ HI0 Hrun0) as HI1.
    pose proof (orderly_round_completes W N requests HW Horderly schedule1 schedule2 srv0 srv
                  HI1 Hfull Hcover Hrun) as Hlt.
    pose proof (oi_quorum _ _ _ _ HI) as HQ.
    assert (Hc : exists at_, calls srv !! i = Some (call, at_)).
    { pose proof (qi_calls _ _ _ _ HQ) as Hcalls. rewrite <- Hcalls in Hi.
      change (map fst) with (fmap (M := list) (@fst rpc position)) in Hi.
      rewrite list_lookup_fmap in Hi.
      destruct (calls srv !! i) as [[call' at_]|]; [|discriminate].
      injection Hi as ->. eauto. }
    destruct Hc as [at_ Hc]. pose proof (In_lookup _ _ _ Hc) as Hin.
    unfold in_round in Hround. apply Z.eqb_eq in Hround.
    assert (Hpast : N <= rpc_sequence_number call < sequence_number_ (service srv)).
    { pose proof (qi_start _ _ _ _ (oi_quorum _ _ _ _ HI1)). lia. }
    assert (HA : tally (arrived_in (rpc_sequence_number call)) (calls srv) = W).
    { pose proof (qi_past _ _ _ _ HQ _ Hpast) as Hge.
      pose proof (arrived_le_requests (calls srv) (rpc_sequence_number call)) as Hle.
      assert (Hf : tally (in_round (rpc_sequence_number call)) requests = W)
        by (rewrite Hround; exact Hfull).
      rewrite (qi_calls _ _ _ _ HQ), Hf in Hle. lia. }
    pose proof (members_all_arrived W requests (calls srv) (rpc_sequence_number call)
                  (qi_calls _ _ _ _ HQ) ltac:(rewrite Hround; lia) HA _ Hin) as Ha.
    unfold member_of, in_round in Ha. cbn [fst snd] in Ha. rewrite Z.eqb_refl in Ha.
    specialize (Ha eq_refl).
    destruct at_ as [| | |b|e]; try discriminate; [|eauto].
    pose proof (qi_waiting _ _ _ _ HQ _ Hin eq_refl) as Hcur. cbn [fst] in Hcur. lia.
Qed.

(** The calls of a sequence taken from a pool of calls of one kind. *)
Lemma taken_from_map {R : Type} (g : R -> rpc) (P : rpc -> Prop) (pool : list R) :
  forall order,
    Forall (fun call => In call (map g pool) /\ P call) order ->
    exists order', order = map g order' /\ Forall (fun r => In r pool) order'.
Proof.
  induction order as [|call order IH]; intros Hall.
  - exists []. split; [reflexivity|constructor].
  - apply Forall_cons in Hall as [[Hin _] Hall].
    destruct (IH Hall) as (order' & -> & Hall').
    apply in_map_iff in Hin as (r & <- & Hr).
    exists (r :: order'). split; [reflexivity|]. constructor; assumption.
Qed.

Lemma Forall_pool {R : Type} (Q : R -> Prop) (pool order : list R) :
  Forall Q pool -> Forall (fun r => In r pool) order -> Forall Q order.
Proof.
  intros HQ Hall. eapply Forall_impl; [exact Hall|]. intros r Hr.
  eapply Forall_forall in HQ; [exact HQ|]. apply list_elem_of_In, Hr.
Qed.

Lemma in_round_map {R : Type} (g : R -> rpc) (seq_of : R -> Z) N (pool : list R) :
  (forall r, rpc_sequence_number (g r) = seq_of r) ->
  Forall (fun r => seq_of r = N) pool ->
  forall call, In call (map g pool) -> in_round N call = true.
Proof.
  intros Hg Hall call (r & <- & Hr)%in_map_iff. unfold in_round. rewrite Hg.
  eapply Forall_forall in Hall; [|apply list_elem_of_In, Hr]. rewrite Hall. apply Z.eqb_refl.
Qed.

(** The whole of a pool of [W] calls, when [W] calls of it are taken. *)
Lemma folds_whole_round {R : Type} (g : R -> rpc) W (pool : list R) n b :
  Z.of_nat (length pool) = W ->
  folds_round W (map g pool) n b ->
  exists order,
    Permutation pool order /\
    arrivals (fun r => rpc_functor W (g r)) order [] = Some ([], b).
Proof.
  intros HW (order & Hsub & _ & Hlen & Hfold).
  assert (Hperm : Permutation order (map g pool)).
  { apply submseteq_length_Permutation; [exact Hsub|]. rewrite length_map. lia. }
  apply Permutation_map_inv in Hperm as (order' & -> & Hperm).
  exists order'. split; [exact Hperm|]. rewrite <- arrivals_map. exact Hfold.
Qed.

Lemma Allreduce_sum_orderly data_type T n W (ranks : list AllreduceRequest.t) :
  element_type data_type = Some T -> is_integer T = true ->
  Forall (sum_request data_type T n) ranks ->
  orderly W (map Allreduce ranks).
Proof.
  intros HT Hint Hall m order Horder.
  destruct (taken_from_map Allreduce _ ranks order Horder) as (order' & -> & Hin).
  rewrite arrivals_map. change (fun r => rpc_functor W (Allreduce r)) with AllreduceFunctor.
  destruct order' as [|r order']; [by eexists|].
  destruct (Allreduce_sum_from_empty data_type T n (r :: order') HT Hint ltac:(done))
    as (final & -> & _); [|by eexists].
  eapply Forall_pool; eassumption.
Qed.

(** X12: a round of W >= 2 Allreduce calls with operation SUM over one
    integer element type and payloads of [n] elements, all with the
    sequence number the server starts with, through [Handle]: every
    schedule is defined (no call throws or reads out of bounds), every
    reply the server has given holds [n] elements whose element [k] denotes
    the fixed-width sum of the elements [k] of all W payloads, and once
    every call has been scheduled and then scheduled again, every call has
    its reply. *)
Theorem Allreduce_sum_round data_type T n N (ranks : list AllreduceRequest.t) schedule :
  element_type data_type = Some T -> is_integer T = true ->
  (2 <= length ranks)%nat ->
  Forall (sum_request data_type T n) ranks ->
  Forall (fun r => AllreduceRequest.sequence_number r = N) ranks ->
  exists srv,
    run schedule (start (Z.of_nat (length ranks)) N (map Allreduce ranks)) = Some srv /\
    (forall i call b,
       calls srv !! i = Some (call, Replied b) ->
       length b = (n * sizeof T)%nat /\
       forall k, (k < n)%nat -> value T (element T b k) = wrap T (total T ranks k)) /\
    (forall arrival departure,
       schedule = arrival ++ departure ->
       (forall i, (i < length ranks)%nat -> In i arrival /\ In i departure) ->
       forall i r, ranks !! i = Some r ->
         exists b, calls srv !! i = Some (Allreduce r, Replied b)).
Proof.
  intros HT Hint HW Hall Hseq.
  destruct (orderly_rounds (Z.of_nat (length ranks)) N (map Allreduce ranks) schedule
              ltac:(lia) (Allreduce_sum_orderly data_type T n _ ranks HT Hint Hall))
    as (srv & Hrun & Hsafe & _ & Hlive).
  assert (Hround : forall call, In call (map Allreduce ranks) -> in_round N call = true).
  { apply (in_round_map Allreduce AllreduceRequest.sequence_number); [reflexivity|exact Hseq]. }
  exists srv. split; [exact Hrun|]. split.
  - intros i call b Hi.
    destruct (folds_whole_round Allreduce _ ranks _ b eq_refl (Hsafe i call b Hi))
      as (order & Hperm & Hfold).
    change (fun r => rpc_functor _ (Allreduce r)) with AllreduceFunctor in Hfold.
    assert (Hne : order <> []).
    { intros ->. apply Permutation_nil_r in Hperm. subst ranks. simpl in HW. lia. }
    assert (Hall' : Forall (sum_request data_type T n) order) by (rewrite <- Hperm; exact Hall).
    destruct (Allreduce_sum_from_empty data_type T n order HT Hint Hne Hall')
      as (final & Hfin & Hl & Hel).
    rewrite Hfin in Hfold. injection Hfold as <-. split; [exact Hl|].
    intros k Hk. rewrite Hel by assumption.
    rewrite <- (total_bits_perm T ranks order k Hperm). unfold wrap.
    rewrite total_bits_mod. reflexivity.
  - intros arrival departure Hsched Hcover i r Hi.
    apply (Hlive [] arrival departure (start (Z.of_nat (length ranks)) N (map Allreduce ranks)));
      cbn [service start fresh sequence_number_].
    + exact Hsched.
    + reflexivity.
    + rewrite tally_all by exact Hround. rewrite length_map. reflexivity.
    + intros j call' Hj _. apply Hcover. apply lookup_lt_Some in Hj.
      rewrite length_map in Hj. exact Hj.
    + change (map Allreduce ranks) with (Allreduce <$> ranks).
      rewrite list_lookup_fmap, Hi. reflexivity.
    + apply Hround. apply in_map. eapply In_lookup, Hi.
Qed.

Lemma Allreduce_sum_round_witness :
  exists srv,
    run [1; 0; 0; 1]%nat
      (start (Z.of_nat (length [sum_rank0; sum_rank1])) 0 (map Allreduce [sum_rank0; sum_rank1]))
    = Some srv /\
    (forall i call b,
       calls srv !! i = Some (call, Replied b) ->
       length b = (1 * sizeof T_int)%nat /\
       forall k, (k < 1)%nat ->
         value T_int (element T_int b k) = wrap T_int (total T_int [sum_rank0; sum_rank1] k)) /\
    (forall arrival departure,
       [1; 0; 0; 1]%nat = arrival ++ departure ->
       (forall i, (i < length [sum_rank0; sum_rank1])%nat -> In i arrival /\ In i departure) ->
       forall i r, [sum_rank0; sum_rank1] !! i = Some r ->
         exists b, calls srv !! i = Some (Allreduce r, Replied b)).
Proof.
  apply (Allreduce_sum_round INT T_int 1 0 [sum_rank0; sum_rank1] [1; 0; 0; 1]%nat).
  - reflexivity.
  - reflexivity.
  - simpl. lia.
  - repeat constructor.
  - repeat constructor.
Defined.

(** ** Gather rounds through the barrier *)

Lemma last_of_rank_unique (l : list AllgatherRequest.t) r :
  NoDup (map AllgatherRequest.rank l) -> In r l ->
  last_of_rank (AllgatherRequest.rank r) l = Some r.
Proof.
  induction l as [|r0 l IH]; intros Hnd Hin; [destruct Hin|].
  cbn [map] in Hnd. apply NoDup_cons in Hnd as [Hnotin Hnd]. cbn [last_of_rank].
  destruct Hin as [->|Hin].
  - assert (Hnone : last_of_rank (AllgatherRequest.rank r) l = None).
    { clear IH Hnd. induction l as [|r1 l IH]; [reflexivity|]. cbn [last_of_rank].
      rewrite IH.
      - destruct (Z.eqb_spec (AllgatherRequest.rank r1) (AllgatherRequest.rank r)) as [E|E];
          [|reflexivity].
        exfalso. apply Hnotin. cbn [map]. rewrite E. left.
      - intros H. apply Hnotin. cbn [map]. right. exact H. }
    rewrite Hnone, Z.eqb_refl. reflexivity.
  - rewrite (IH Hnd Hin). reflexivity.
Qed.

Lemma Allgather_orderly (W s : nat) (ranks : list AllgatherRequest.t) :
  Forall (gather_request W s) ranks ->
  Z.of_nat (W * s) < 2 ^ 64 ->
  orderly (Z.of_nat W) (map Allgather ranks).
Proof.
  intros Hall Hfit m order Horder.
  destruct (taken_from_map Allgather _ ranks order Horder) as (order' & -> & Hin).
  rewrite arrivals_map.
  change (fun r => rpc_functor (Z.of_nat W) (Allgather r))
    with (AllgatherFunctor (Z.of_nat W)).
  destruct order' as [|r order']; [by eexists|].
  destruct (Allgather_slots_from_empty W s (r :: order') ltac:(done))
    as (final & -> & _); [|assumption|by eexists].
  eapply Forall_pool; eassumption.
Qed.

(** X13: a round of W >= 2 Allgather calls of the ranks 0 .. W-1 with
    payloads of [s] bytes, all with the sequence number the server starts
    with, through [Handle]: every schedule is defined, every reply the
    server has given has [W * s] bytes with the payload of each rank in the
    slot of that rank, and once every call has been scheduled and then
    scheduled again, every call has its reply. *)
Theorem Allgather_round (W s : nat) N (ranks : list AllgatherRequest.t) schedule :
  (2 <= W)%nat ->
  Permutation (map AllgatherRequest.rank ranks) (map Z.of_nat (seq 0 W)) ->
  Forall (fun r => length (AllgatherRequest.send_buffer r) = s) ranks ->
  Forall (fun r => AllgatherRequest.sequence_number r = N) ranks ->
  Z.of_nat (W * s) < 2 ^ 64 ->
  exists srv,
    run schedule (start (Z.of_nat W) N (map Allgather ranks)) = Some srv /\
    (forall i call b,
       calls srv !! i = Some (call, Replied b) ->
       length b = (W * s)%nat /\
       forall r, In r ranks ->
         slot s (Z.to_nat (AllgatherRequest.rank r)) b = AllgatherRequest.send_buffer r) /\
    (forall arrival departure,
       schedule = arrival ++ departure ->
       (forall i, (i < W)%nat -> In i arrival /\ In i departure) ->
       forall i r, ranks !! i = Some r ->
         exists b, calls srv !! i = Some (Allgather r, Replied b)).
Proof.
  intros HW Hperm Hsize Hseq Hfit.
  assert (Hnd : NoDup (map AllgatherRequest.rank ranks)).
  { rewrite Hperm. apply NoDup_fmap_2; [intros x y; lia|apply NoDup_seq]. }
  assert (Hall : Forall (gather_request W s) ranks).
  { apply Forall_forall. intros r Hr. split.
    - assert (Hin : In (AllgatherRequest.rank r) (map Z.of_nat (seq 0 W))).
      { apply list_elem_of_In. rewrite <- Hperm. apply list_elem_of_In, in_map.
        apply list_elem_of_In. exact Hr. }
      apply in_map_iff in Hin as (k & <- & Hk). apply in_seq in Hk. lia.
    - eapply Forall_forall in Hsize; [exact Hsize|exact Hr]. }
  assert (Hlen : length ranks = W).
  { rewrite <- (length_map AllgatherRequest.rank), Hperm, length_map, length_seq.
    reflexivity. }
  destruct (orderly_rounds (Z.of_nat W) N (map Allgather ranks) schedule
              ltac:(lia) (Allgather_orderly W s ranks Hall Hfit))
    as (srv & Hrun & Hsafe & _ & Hlive).
  assert (Hround : forall call, In call (map Allgather ranks) -> in_round N call = true).
  { apply (in_round_map Allgather AllgatherRequest.sequence_number); [reflexivity|exact Hseq]. }
  exists srv. split; [exact Hrun|]. split.
  - intros i call b Hi.
    destruct (folds_whole_round Allgather (Z.of_nat W) ranks _ b (f_equal Z.of_nat Hlen)
                (Hsafe i call b Hi))
      as (order & Hp & Hfold).
    change (fun r => rpc_functor _ (Allgather r)) with (AllgatherFunctor (Z.of_nat W)) in Hfold.
    assert (Hne : order <> []).
    { intros ->. apply Permutation_nil_r in Hp. subst ranks. simpl in Hlen. lia. }
    assert (Hall' : Forall (gather_request W s) order) by (rewrite <- Hp; exact Hall).
    destruct (Allgather_slots_from_empty W s order Hne Hall' Hfit)
      as (final & Hfin & Hl & Hslots).
    rewrite Hfin in Hfold. injection Hfold as <-. split; [exact Hl|].
    intros r Hr.
    assert (Hr' : gather_request W s r).
    { eapply Forall_forall in Hall; [exact Hall|]. apply list_elem_of_In, Hr. }
    destruct Hr' as [Hrank _].
    rewrite Hslots by lia. rewrite Z2Nat.id by lia.
    rewrite last_of_rank_unique; [reflexivity| |].
    + rewrite <- Hp. exact Hnd.
    + apply list_elem_of_In. rewrite <- Hp. apply list_elem_of_In, Hr.
  - intros arrival departure Hsched Hcover i r Hi.
    apply (Hlive [] arrival departure (start (Z.of_nat W) N (map Allgather ranks)));
      cbn [service start fresh sequence_number_].
    + exact Hsched.
    + reflexivity.
    + rewrite tally_all by exact Hround. rewrite length_map, Hlen. reflexivity.
    + intros j call' Hj _. apply Hcover. apply lookup_lt_Some in Hj.
      rewrite length_map, Hlen in Hj. exact Hj.
    + change (map Allgather ranks) with (Allgather <$> ranks).
      rewrite list_lookup_fmap, Hi. reflexivity.
    + apply Hround. apply in_map. eapply In_lookup, Hi.
Qed.

Lemma Allgather_round_witness :
  exists srv,
    run [2; 0; 1; 1; 0; 2]%nat
      (start (Z.of_nat 3) 0 (map Allgather [gather_rank2; gather_rank0; gather_rank1]))
    = Some srv /\
    (forall i call b,
       calls srv !! i = Some (call, Replied b) ->
       length b = (3 * 2)%nat /\
       forall r, In r [gather_rank2; gather_rank0; gather_rank1] ->
         slot 2 (Z.to_nat (AllgatherRequest.rank r)) b = AllgatherRequest.send_buffer r) /\
    (forall arrival departure,
       [2; 0; 1; 1; 0; 2]%nat = arrival ++ departure ->
       (forall i, (i < 3)%nat -> In i arrival /\ In i departure) ->
       forall i r, [gather_rank2; gather_rank0; gather_rank1] !! i = Some r ->
         exists b, calls srv !! i = Some (Allgather r, Replied b)).
Proof.
  apply (Allgather_round 3 2 0 [gather_rank2; gather_rank0; gather_rank1]
           [2; 0; 1; 1; 0; 2]%nat).
  - lia.
  - simpl. eapply perm_trans; [apply perm_swap|]. apply perm_skip, perm_swap.
  - repeat constructor.
  - repeat constructor.
  - simpl. lia.
Defined.

(** ** Broadcast: rounds with several roots, or none *)

Lemma Broadcast_fold (arrival : list BroadcastRequest.t) : forall buffer,
  arrivals BroadcastFunctor arrival buffer =
  Some ([], match last_root arrival with
            | Some r => BroadcastRequest.send_buffer r
            | None => buffer
            end).
Proof.
  induction arrival as [|r l IH]; intros buffer; cbn [arrivals last_root]; [reflexivity|].
  unfold BroadcastFunctor.
  destruct (BroadcastRequest.rank r =? BroadcastRequest.root r); rewrite IH;
    destruct (last_root l); reflexivity.
Qed.

Lemma last_root_In (l : list BroadcastRequest.t) r :
  last_root l = Some r ->
  In r l /\ BroadcastRequest.rank r = BroadcastRequest.root r.
Proof.
  induction l as [|r0 l IH]; cbn [last_root]; [discriminate|].
  destruct (last_root l) as [r'|].
  - intros [= ->]. destruct (IH eq_refl) as [H1 H2]. split; [right; exact H1|exact H2].
  - destruct (Z.eqb_spec (BroadcastRequest.rank r0) (BroadcastRequest.root r0)); [|discriminate].
    intros [= ->]. split; [left; reflexivity|assumption].
Qed.

(** X14: the calls of the Broadcast functor never throw, and the buffer
    they leave is the payload of the last arrival whose rank is its own
    root, the roots being read from each request; when no arrival is a
    root the buffer is left as it was. *)
Theorem Broadcast_last_root_wins (arrival : list BroadcastRequest.t) (buffer : bytes) :
  arrivals BroadcastFunctor arrival buffer =
    Some ([], match last_root arrival with
              | Some r => BroadcastRequest.send_buffer r
              | None => buffer
              end) /\
  (forall r, last_root arrival = Some r ->
     In r arrival /\ BroadcastRequest.rank r = BroadcastRequest.root r) /\
  (Forall (fun r => BroadcastRequest.rank r <> BroadcastRequest.root r) arrival ->
   last_root arrival = None).
Proof.
  split; [apply Broadcast_fold|]. split; [apply last_root_In|].
  intros Hall. destruct (last_root arrival) as [r|] eqn:E; [exfalso|reflexivity].
  apply last_root_In in E as [Hin Hr].
  eapply Forall_forall in Hall; [|apply list_elem_of_In, Hin]. contradiction.
Qed.

Lemma Broadcast_orderly W (ranks : list BroadcastRequest.t) : orderly W (map Broadcast ranks).
Proof.
  intros m order Horder.
  destruct (taken_from_map Broadcast _ ranks order Horder) as (order' & -> & Hin).
  rewrite arrivals_map. change (fun r => rpc_functor W (Broadcast r)) with BroadcastFunctor.
  rewrite Broadcast_fold. by eexists.
Qed.

(** X15: a round of W >= 2 Broadcast calls, all with the sequence number
    the server starts with, through [Handle]: every schedule is defined,
    every reply is empty or the payload of a call whose rank is its root,
    and once every call has been scheduled and then scheduled again, every
    call has its reply.  When no call of the round is a root the round
    still completes, and every reply is the empty string. *)
Theorem Broadcast_round_roots N (ranks : list BroadcastRequest.t) schedule :
  (2 <= length ranks)%nat ->
  Forall (fun r => BroadcastRequest.sequence_number r = N) ranks ->
  exists srv,
    run schedule (start (Z.of_nat (length ranks)) N (map Broadcast ranks)) = Some srv /\
    (forall i call b,
       calls srv !! i = Some (call, Replied b) ->
       b = [] \/
       exists r, In r ranks /\ BroadcastRequest.rank r = BroadcastRequest.root r /\
                 b = BroadcastRequest.send_buffer r) /\
    (Forall (fun r => BroadcastRequest.rank r <> BroadcastRequest.root r) ranks ->
     forall i call b, calls srv !! i = Some (call, Replied b) -> b = []) /\
    (forall arrival departure,
       schedule = arrival ++ departure ->
       (forall i, (i < length ranks)%nat -> In i arrival /\ In i departure) ->
       forall i r, ranks !! i = Some r ->
         exists b, calls srv !! i = Some (Broadcast r, Replied b)).
Proof.
  intros HW Hseq.
  destruct (orderly_rounds (Z.of_nat (length ranks)) N (map Broadcast ranks) schedule
              ltac:(lia) (Broadcast_orderly _ ranks))
    as (srv & Hrun & Hsafe & _ & Hlive).
  assert (Hround : forall call, In call (map Broadcast ranks) -> in_round N call = true).
  { apply (in_round_map Broadcast BroadcastRequest.sequence_number); [reflexivity|exact Hseq]. }
  assert (Hreply : forall i call b,
            calls srv !! i = Some (call, Replied b) ->
            exists order, Permutation ranks order /\
              b = match last_root order with
                  | Some r => BroadcastRequest.send_buffer r
                  | None => []
                  end).
  { intros i call b Hi.
    destruct (folds_whole_round Broadcast _ ranks _ b eq_refl (Hsafe i call b Hi))
      as (order & Hperm & Hfold).
    change (fun r => rpc_functor _ (Broadcast r)) with BroadcastFunctor in Hfold.
    rewrite Broadcast_fold in Hfold. injection Hfold as <-. eauto. }
  exists srv. split; [exact Hrun|]. split; [|split].
  - intros i call b Hi. destruct (Hreply i call b Hi) as (order & Hperm & ->).
    destruct (last_root order) as [r|] eqn:E; [right|left; reflexivity].
    apply last_root_In in E as [Hin Hr]. exists r. split; [|done].
    apply list_elem_of_In. rewrite Hperm. apply list_elem_of_In, Hin.
  - intros Hall i call b Hi. destruct (Hreply i call b Hi) as (order & Hperm & ->).
    destruct (last_root order) as [r|] eqn:E; [exfalso|reflexivity].
    apply last_root_In in E as [Hin Hr].
    eapply Forall_forall in Hall; [apply Hall, Hr|].
    rewrite Hperm. apply list_elem_of_In, Hin.
  - intros arrival departure Hsched Hcover i r Hi.
    apply (Hlive [] arrival departure (start (Z.of_nat (length ranks)) N (map Broadcast ranks)));
      cbn [service start fresh sequence_number_].
    + exact Hsched.
    + reflexivity.
    + rewrite tally_all by exact Hround. rewrite length_map. reflexivity.
    + intros j call' Hj _. apply Hcover. apply lookup_lt_Some in Hj.
      rewrite length_map in Hj. exact Hj.
    + change (map Broadcast ranks) with (Broadcast <$> ranks).
      rewrite list_lookup_fmap, Hi. reflexivity.
    + apply Hround. apply in_map. eapply In_lookup, Hi.
Qed.

Lemma Broadcast_round_roots_witness :
  exists srv,
    run [1; 0; 0; 1]%nat
      (start (Z.of_nat (length [rootless_rank0; rootless_rank2])) 0
         (map Broadcast [rootless_rank0; rootless_rank2])) = Some srv /\
    (forall i call b,
       calls srv !! i = Some (call, Replied b) ->
       b = [] \/
       exists r, In r [rootless_rank0; rootless_rank2] /\
                 BroadcastRequest.rank r = BroadcastRequest.root r /\
                 b = BroadcastRequest.send_buffer r) /\
    (Forall (fun r => BroadcastRequest.rank r <> BroadcastRequest.root r)
       [rootless_rank0; rootless_rank2] ->
     forall i call b, calls srv !! i = Some (call, Replied b) -> b = []) /\
    (forall arrival departure,
       [1; 0; 0; 1]%nat = arrival ++ departure ->
       (forall i, (i < length [rootless_rank0; rootless_rank2])%nat ->
          In i arrival /\ In i departure) ->
       forall i r, [rootless_rank0; rootless_rank2] !! i = Some r ->
         exists b, calls srv !! i = Some (Broadcast r, Replied b)).
Proof.
  apply (Broadcast_round_roots 0 [rootless_rank0; rootless_rank2] [1; 0; 0; 1]%nat).
  - simpl. lia.
  - repeat constructor.
Defined.

(** ** Sparse columns and the layout of the columns *)

Lemma first_not_below_unique rows val k k' :
  first_not_below rows val k -> first_not_below rows val k' -> k = k'.
Proof.
  intros (Hk & Hlo & Hhi) (Hk' & Hlo' & Hhi').
  destruct (Nat.lt_trichotomy k k') as [Hlt|[->|Hlt]]; [exfalso| reflexivity |exfalso].
  - destruct (lookup_lt_is_Some_2 rows k ltac:(lia)) as [x Hx].
    pose proof (Hlo' k x Hlt Hx). pose proof (Hhi k x ltac:(lia) Hx). lia.
  - destruct (lookup_lt_is_Some_2 rows k' ltac:(lia)) as [x Hx].
    pose proof (Hlo k' x Hlt Hx). pose proof (Hhi' k' x ltac:(lia) Hx). lia.
Qed.

Lemma lower_bound_partition (a : list Z) (val : Z) :
  ascending a ->
  forall fuel first len,
    (len <= fuel)%nat -> (first + len <= length a)%nat ->
    (forall j x, (j < first)%nat -> a !! j = Some x -> x < val) ->
    (forall j x, (first + len <= j)%nat -> a !! j = Some x -> val <= x) ->
    exists k, lower_bound fuel a first len val = Some k /\ first_not_below a val k.
Proof.
  intros Hasc. induction fuel as [|fuel IH]; intros first len Hfuel Hlen Hlo Hhi.
  - assert (len = 0)%nat as -> by lia. exists first. split; [reflexivity|].
    split; [lia|]. split; [exact Hlo|]. intros j x Hj. apply Hhi. lia.
  - cbn [lower_bound]. destruct (Nat.eqb_spec len 0) as [->|Hpos].
    { exists first. split; [reflexivity|].
      split; [lia|]. split; [exact Hlo|]. intros j x Hj. apply Hhi. lia. }
    assert (Hhalf : (len / 2 < len)%nat) by (apply Nat.div_lt; lia).
    destruct (lookup_lt_is_Some_2 a (first + len / 2) ltac:(lia)) as [x Hx]. rewrite Hx.
    destruct (Z.ltb_spec x val) as [Hxv|Hxv].
    + apply IH; [lia|lia| |].
      * intros j y Hj Hy. destruct (Nat.lt_ge_cases j first) as [Hjf|Hjf]; [eauto|].
        pose proof (Hasc j (first + len / 2)%nat y x ltac:(lia) Hy Hx). lia.
      * intros j y Hj. apply Hhi. lia.
    + apply IH; [lia|lia|exact Hlo|].
      intros j y Hj Hy.
      pose proof (Hasc (first + len / 2)%nat j x y ltac:(lia) Hx Hy). lia.
Qed.

Lemma GetInitialState_partition (c : SparseColumn.t) (first_row_id : Z) :
  well_formed c ->
  ascending (SparseColumn.row_ind_ c) ->
  exists k,
    SparseColumn.GetInitialState c first_row_id = Some k /\
    first_not_below (SparseColumn.row_ind_ c) first_row_id k.
Proof.
  intros Hwf Hasc. unfold SparseColumn.GetInitialState.
  apply lower_bound_partition; [exact Hasc|lia|rewrite Hwf; simpl; lia| |].
  - intros j x Hj. lia.
  - intros j x Hj Hx. apply lookup_lt_Some in Hx. rewrite Hwf in Hx. simpl in Hj. lia.
Qed.

Lemma advance_to (c : SparseColumn.t) (rid : Z) (p : nat) :
  well_formed c ->
  first_not_below (SparseColumn.row_ind_ c) rid p ->
  forall fuel state,
    (state <= p)%nat -> (p - state <= fuel)%nat ->
    SparseColumn.advance fuel c rid state = Some p.
Proof.
  intros Hwf (Hp & Hlo & Hhi). induction fuel as [|fuel IH]; intros state Hs Hfuel.
  - cbn. f_equal. lia.
  - cbn [SparseColumn.advance]. destruct (Nat.ltb_spec state (Size (SparseColumn.column c)))
      as [Hlt|Hge]; [|f_equal; rewrite <- Hwf in Hge; lia].
    unfold SparseColumn.GetRowIdx.
    destruct (lookup_lt_is_Some_2 (SparseColumn.row_ind_ c) state ltac:(rewrite Hwf; lia))
      as [x Hx]. rewrite Hx.
    destruct (Z.ltb_spec x rid) as [Hxr|Hxr].
    + apply IH; [|lia].
      destruct (Nat.eq_dec state p) as [->|]; [|lia].
      pose proof (Hhi p x ltac:(lia) Hx). lia.
    + f_equal. destruct (Nat.eq_dec state p) as [|Hne]; [assumption|].
      pose proof (Hlo state x ltac:(lia) Hx). lia.
Qed.

(** What [GetBinIdx] gives from a state that has not passed the row. *)
Lemma GetBinIdx_at (c : SparseColumn.t) (rid : Z) (state p : nat) :
  well_formed c ->
  first_not_below (SparseColumn.row_ind_ c) rid p ->
  (state <= p)%nat ->
  SparseColumn.GetBinIdx c rid state =
  Some (match SparseColumn.row_ind_ c !! p, Column.index_ (SparseColumn.column c) !! p with
        | Some row, Some bin =>
            if row =? rid
            then bst_bin_t_of (uint32_t_wrap (Column.index_base_ (SparseColumn.column c) + bin))
            else kMissingId
        | _, _ => kMissingId
        end, p).
Proof.
  intros Hwf Hfnb Hs. pose proof Hfnb as (Hp & _). unfold SparseColumn.GetBinIdx.
  rewrite Hwf in Hp. set (size := Size (SparseColumn.column c)) in *.
  destruct (Nat.ltb_spec state size) as [Hlt|Hge]; cbn [negb].
  - rewrite (advance_to c rid p Hwf Hfnb) by lia.
    destruct (Nat.ltb_spec p size) as [Hpl|Hpg].
    + unfold SparseColumn.GetRowIdx, GetGlobalBinIdx.
      destruct (lookup_lt_is_Some_2 (SparseColumn.row_ind_ c) p ltac:(rewrite Hwf; exact Hpl))
        as [x ->].
      destruct (lookup_lt_is_Some_2 (Column.index_ (SparseColumn.column c)) p Hpl) as [b ->].
      destruct (x =? rid); reflexivity.
    + rewrite (lookup_ge_None_2 (SparseColumn.row_ind_ c) p) by (rewrite Hwf; exact Hpg).
      reflexivity.
  - assert (state = p) as -> by lia.
    rewrite (lookup_ge_None_2 (SparseColumn.row_ind_ c) p) by (rewrite Hwf; lia).
    reflexivity.
Qed.

Lemma lookup_row_at (rows bins : list Z) (rid : Z) :
  length rows = length bins ->
  ascending rows ->
  forall p, first_not_below rows rid p ->
    lookup_row rows bins rid =
    match rows !! p, bins !! p with
    | Some row, Some bin => if row =? rid then Some bin else None
    | _, _ => None
    end.
Proof.
  revert bins. induction rows as [|row rows IH]; intros bins Hlen Hasc p (Hp & Hlo & Hhi).
  - destruct bins; [|discriminate]. cbn. destruct p; reflexivity.
  - destruct bins as [|bin bins]; [discriminate|]. cbn [lookup_row].
    assert (Hasc' : ascending rows).
    { intros i j x y Hij Hx Hy. apply (Hasc (S i) (S j) x y); [lia|exact Hx|exact Hy]. }
    destruct p as [|p].
    + pose proof (Hhi 0%nat row ltac:(lia) eq_refl) as H0.
      change ((row :: rows) !! 0%nat) with (Some row).
      change ((bin :: bins) !! 0%nat) with (Some bin). cbv beta iota.
      destruct (Z.eqb_spec row rid) as [E|E]; [reflexivity|].
      assert (Hnone : forall rs bs,
                (forall j x, rs !! j = Some x -> rid < x) -> lookup_row rs bs rid = None).
      { induction rs as [|r rs IHr]; intros bs Hgt; [reflexivity|].
        destruct bs as [|b bs]; [reflexivity|]. cbn [lookup_row].
        pose proof (Hgt 0%nat r eq_refl).
        destruct (Z.eqb_spec r rid); [lia|].
        apply IHr. intros j x Hx. apply (Hgt (S j) x Hx). }
      apply Hnone.
      intros j x Hx. pose proof (Hasc 0%nat (S j) row x ltac:(lia) eq_refl Hx). lia.
    + pose proof (Hlo 0%nat row ltac:(lia) eq_refl) as H0.
      destruct (Z.eqb_spec row rid) as [E|E]; [lia|].
      change ((row :: rows) !! S p) with (rows !! p).
      change ((bin :: bins) !! S p) with (bins !! p).
      apply IH; [simpl in Hlen; lia|exact Hasc'|].
      split; [simpl in Hp; lia|]. split.
      * intros j x Hj Hx. apply (Hlo (S j) x); [lia|exact Hx].
      * intros j x Hj Hx. apply (Hhi (S j) x); [lia|exact Hx].
Qed.

Lemma GetBinIdx_bin_of_row (c : SparseColumn.t) (rid : Z) (state p : nat) :
  well_formed c ->
  ascending (SparseColumn.row_ind_ c) ->
  first_not_below (SparseColumn.row_ind_ c) rid p ->
  (state <= p)%nat ->
  SparseColumn.GetBinIdx c rid state = Some (bin_of_row c rid, p).
Proof.
  intros Hwf Hasc Hfnb Hs. rewrite (GetBinIdx_at c rid state p Hwf Hfnb Hs).
  unfold bin_of_row. rewrite (lookup_row_at _ _ rid Hwf Hasc p Hfnb).
  destruct (SparseColumn.row_ind_ c !! p) as [row|]; [|reflexivity].
  destruct (Column.index_ (SparseColumn.column c) !! p) as [bin|]; [|reflexivity].
  destruct (row =? rid); reflexivity.
Qed.

(** X16: in a sparse column with as many rows as bins and rows in
    ascending order, [GetBinIdx(rid, state)] from a state at or before the
    one [GetInitialState(rid)] gives, leaves that state and returns the
    bin stored for the row: the global index of the first entry whose row
    is [rid] (the column's base plus its bin, as a [uint32_t]), and
    [kMissingId] when no entry has that row. *)
Theorem SparseColumn_GetBinIdx_finds_row (c : SparseColumn.t) (rid : Z) (state p : nat) :
  well_formed c ->
  ascending (SparseColumn.row_ind_ c) ->
  SparseColumn.GetInitialState c rid = Some p ->
  (state <= p)%nat ->
  SparseColumn.GetBinIdx c rid state = Some (bin_of_row c rid, p) /\
  (forall j bin,
     SparseColumn.row_ind_ c !! j = Some rid ->
     (forall i, (i < j)%nat -> SparseColumn.row_ind_ c !! i <> Some rid) ->
     Column.index_ (SparseColumn.column c) !! j = Some bin ->
     bin_of_row c rid =
     bst_bin_t_of (uint32_t_wrap (Column.index_base_ (SparseColumn.column c) + bin))) /\
  ((forall j, SparseColumn.row_ind_ c !! j <> Some rid) -> bin_of_row c rid = kMissingId).
Proof.
  intros Hwf Hasc Hinit Hs.
  destruct (GetInitialState_partition c rid Hwf Hasc) as (k & Hk & Hfnb).
  rewrite Hinit in Hk. injection Hk as <-.
  split; [apply GetBinIdx_bin_of_row; assumption|].
  unfold bin_of_row. rewrite (lookup_row_at _ _ rid Hwf Hasc p Hfnb).
  destruct Hfnb as (Hp & Hlo & Hhi). split.
  - intros j bin Hj Hfirst Hbin.
    assert (p = j) as ->.
    { pose proof (lookup_lt_Some _ _ _ Hj) as Hjl.
      destruct (Nat.lt_trichotomy p j) as [Hlt|[E|Hlt]]; [exfalso|exact E|exfalso].
      - destruct (lookup_lt_is_Some_2 (SparseColumn.row_ind_ c) p ltac:(lia)) as [x Hx].
        pose proof (Hhi p x ltac:(lia) Hx).
        pose proof (Hasc p j x rid ltac:(lia) Hx Hj).
        assert (x = rid) as -> by lia. exact (Hfirst p Hlt Hx).
      - pose proof (Hlo j rid Hlt Hj). lia. }
    rewrite Hj, Hbin, Z.eqb_refl. reflexivity.
  - intros Hnone. destruct (SparseColumn.row_ind_ c !! p) as [row|] eqn:E; [|reflexivity].
    destruct (Column.index_ (SparseColumn.column c) !! p); [|reflexivity].
    destruct (Z.eqb_spec row rid) as [->|]; [|reflexivity]. exfalso. exact (Hnone p E).
Qed.

Lemma SparseColumn_GetBinIdx_finds_row_witness :
  SparseColumn.GetBinIdx sparse_example 5 0 = Some (bin_of_row sparse_example 5, 1%nat) /\
  (forall j bin,
     SparseColumn.row_ind_ sparse_example !! j = Some 5 ->
     (forall i, (i < j)%nat -> SparseColumn.row_ind_ sparse_example !! i <> Some 5) ->
     Column.index_ (SparseColumn.column sparse_example) !! j = Some bin ->
     bin_of_row sparse_example 5 =
     bst_bin_t_of
       (uint32_t_wrap (Column.index_base_ (SparseColumn.column sparse_example) + bin))) /\
  ((forall j, SparseColumn.row_ind_ sparse_example !! j <> Some 5) ->
   bin_of_row sparse_example 5 = kMissingId).
Proof.
  apply (SparseColumn_GetBinIdx_finds_row sparse_example 5 0 1).
  - reflexivity.
  - intros [|[|[|i]]] [|[|[|j]]] x y Hij; cbn; intros [= <-] [= <-]; lia.
  - reflexivity.
  - lia.
Defined.

(** X17: in a sparse column with as many rows as bins and rows in
    ascending order, [GetInitialState(first_row_id)] (the binary search of
    [std::lower_bound]) returns the index of the first entry whose row is
    not below [first_row_id]: every entry before it has a lower row, every
    entry from it on has not, and it is the size of the column when all
    rows are below. *)
Theorem GetInitialState_first_not_below (c : SparseColumn.t) (first_row_id : Z) :
  well_formed c ->
  ascending (SparseColumn.row_ind_ c) ->
  exists k,
    SparseColumn.GetInitialState c first_row_id = Some k /\
    (k <= Size (SparseColumn.column c))%nat /\
    (forall j row, (j < k)%nat -> SparseColumn.row_ind_ c !! j = Some row ->
       row < first_row_id) /\
    (forall j row, (k <= j)%nat -> SparseColumn.row_ind_ c !! j = Some row ->
       first_row_id <= row) /\
    ((forall j row, SparseColumn.row_ind_ c !! j = Some row -> row < first_row_id) ->
     k = Size (SparseColumn.column c)).
Proof.
  intros Hwf Hasc.
  destruct (GetInitialState_partition c first_row_id Hwf Hasc) as (k & Hk & Hp & Hlo & Hhi).
  exists k. rewrite Hwf in Hp. split; [exact Hk|]. split; [exact Hp|].
  split; [exact Hlo|]. split; [exact Hhi|].
  intros Hall. destruct (Nat.eq_dec k (Size (SparseColumn.column c))) as [|Hne]; [assumption|].
  destruct (lookup_lt_is_Some_2 (SparseColumn.row_ind_ c) k ltac:(rewrite Hwf; lia)) as [x Hx].
  pose proof (Hall k x Hx). pose proof (Hhi k x ltac:(lia) Hx). lia.
Qed.

Lemma GetInitialState_first_not_below_witness :
  exists k,
    SparseColumn.GetInitialState sparse_example 5 = Some k /\
    (k <= Size (SparseColumn.column sparse_example))%nat /\
    (forall j row, (j < k)%nat -> SparseColumn.row_ind_ sparse_example !! j = Some row ->
       row < 5) /\
    (forall j row, (k <= j)%nat -> SparseColumn.row_ind_ sparse_example !! j = Some row ->
       5 <= row) /\
    ((forall j row, SparseColumn.row_ind_ sparse_example !! j = Some row -> row < 5) ->
     k = Size (SparseColumn.column sparse_example)).
Proof.
  apply (GetInitialState_first_not_below sparse_example 5).
  - reflexivity.
  - intros [|[|[|i]]] [|[|[|j]]] x y Hij; cbn; intros [= <-] [= <-]; lia.
Defined.

Lemma first_not_below_mono rows rid rid' p p' :
  rid <= rid' ->
  first_not_below rows rid p -> first_not_below rows rid' p' -> (p <= p')%nat.
Proof.
  intros Hle (Hp & Hlo & Hhi) (Hp' & Hlo' & Hhi').
  destruct (Nat.le_gt_cases p p') as [|Hlt]; [assumption|exfalso].
  destruct (lookup_lt_is_Some_2 rows p' ltac:(lia)) as [x Hx].
  pose proof (Hlo p' x Hlt Hx). pose proof (Hhi' p' x ltac:(lia) Hx). lia.
Qed.

Lemma GetBinIdx_each_ascending (c : SparseColumn.t) :
  well_formed c ->
  ascending (SparseColumn.row_ind_ c) ->
  forall rids state,
    ascending rids ->
    (forall rid p, rids !! 0%nat = Some rid ->
       first_not_below (SparseColumn.row_ind_ c) rid p -> (state <= p)%nat) ->
    exists final, GetBinIdx_each c rids state = Some (map (bin_of_row c) rids, final).
Proof.
  intros Hwf Hasc. induction rids as [|rid rids IH]; intros state Hrids Hstate.
  - exists state. reflexivity.
  - cbn [GetBinIdx_each map].
    destruct (GetInitialState_partition c rid Hwf Hasc) as (p & _ & Hfnb).
    rewrite (GetBinIdx_bin_of_row c rid state p Hwf Hasc Hfnb (Hstate rid p eq_refl Hfnb)).
    destruct (IH p) as [final ->].
    + intros i j x y Hij Hx Hy. apply (Hrids (S i) (S j) x y); [lia|exact Hx|exact Hy].
    + intros rid' p' Hrid' Hfnb'.
      apply (first_not_below_mono (SparseColumn.row_ind_ c) rid rid'); [|assumption..].
      apply (Hrids 0%nat 1%nat rid rid'); [lia|reflexivity|exact Hrid'].
    + exists final. reflexivity.
Qed.

(** X18: scanning a sparse column for rows in ascending order with one
    state that starts at [GetInitialState] of the first row: each
    [GetBinIdx] returns the bin stored for its row, [kMissingId] for a row
    without entry. *)
Theorem SparseColumn_scan_in_row_order (c : SparseColumn.t) (first : Z) (rest : list Z)
    (state : nat) :
  well_formed c ->
  ascending (SparseColumn.row_ind_ c) ->
  ascending (first :: rest) ->
  SparseColumn.GetInitialState c first = Some state ->
  exists final,
    GetBinIdx_each c (first :: rest) state =
    Some (map (bin_of_row c) (first :: rest), final).
Proof.
  intros Hwf Hasc Hrids Hinit.
  apply GetBinIdx_each_ascending; [assumption..|].
  intros rid p [= <-] Hfnb.
  destruct (GetInitialState_partition c first Hwf Hasc) as (k & Hk & Hfnb').
  rewrite Hinit in Hk. injection Hk as <-.
  rewrite (first_not_below_unique _ _ _ _ Hfnb Hfnb'). lia.
Qed.

Lemma SparseColumn_scan_in_row_order_witness :
  exists final,
    GetBinIdx_each sparse_example [2; 3; 9; 9; 12] 0 =
    Some (map (bin_of_row sparse_example) [2; 3; 9; 9; 12], final).
Proof.
  apply (SparseColumn_scan_in_row_order sparse_example 2 [3; 9; 9; 12] 0).
  - reflexivity.
  - intros [|[|[|i]]] [|[|[|j]]] x y Hij; cbn; intros [= <-] [= <-]; lia.
  - intros [|[|[|[|[|i]]]]] [|[|[|[|[|j]]]]] x y Hij; cbn; intros [= <-] [= <-]; lia.
  - reflexivity.
Defined.

(** X19: the state only moves forward: in a sparse column with strictly
    ascending rows, [GetBinIdx] for the row of an entry from a state beyond
    that entry returns [kMissingId] and leaves the state as it was, while
    from the entry itself it returns the entry's global bin index. *)
Theorem SparseColumn_GetBinIdx_passed_row (c : SparseColumn.t) (rid : Z) (j state : nat)
    (bin : Z) :
  well_formed c ->
  strictly_ascending (SparseColumn.row_ind_ c) ->
  SparseColumn.row_ind_ c !! j = Some rid ->
  Column.index_ (SparseColumn.column c) !! j = Some bin ->
  (j < state)%nat ->
  SparseColumn.GetBinIdx c rid state = Some (kMissingId, state) /\
  SparseColumn.GetBinIdx c rid j =
    Some (bst_bin_t_of (uint32_t_wrap (Column.index_base_ (SparseColumn.column c) + bin)), j).
Proof.
  intros Hwf Hstrict Hj Hbin Hlt. unfold SparseColumn.GetBinIdx.
  set (size := Size (SparseColumn.column c)) in *.
  pose proof (lookup_lt_Some _ _ _ Hj) as Hjl. rewrite Hwf in Hjl. fold size in Hjl.
  split.
  - destruct (Nat.ltb_spec state size) as [Hs|Hs]; cbn [negb]; [|reflexivity].
    destruct (lookup_lt_is_Some_2 (SparseColumn.row_ind_ c) state ltac:(rewrite Hwf; exact Hs))
      as [x Hx].
    pose proof (Hstrict j state rid x Hlt Hj Hx) as Hgt.
    destruct (size - state)%nat as [|fuel] eqn:Hfuel; [lia|].
    cbn [SparseColumn.advance]. fold size.
    destruct (Nat.ltb_spec state size) as [_|]; [|lia].
    unfold SparseColumn.GetRowIdx. rewrite Hx.
    destruct (Z.ltb_spec x rid); [lia|].
    destruct (Nat.ltb_spec state size) as [_|]; [|lia]. rewrite Hx.
    destruct (Z.eqb_spec x rid); [lia|reflexivity].
  - destruct (Nat.ltb_spec j size) as [_|]; [|lia]. cbn [negb].
    destruct (size - j)%nat as [|fuel] eqn:Hfuel; [lia|].
    cbn [SparseColumn.advance]. fold size.
    destruct (Nat.ltb_spec j size) as [_|]; [|lia].
    unfold SparseColumn.GetRowIdx, GetGlobalBinIdx. rewrite Hj, Z.ltb_irrefl.
    destruct (Nat.ltb_spec j size) as [_|]; [|lia]. rewrite Hj, Z.eqb_refl, Hbin.
    reflexivity.
Qed.

Lemma SparseColumn_GetBinIdx_passed_row_witness :
  SparseColumn.GetBinIdx sparse_example 5 2 = Some (kMissingId, 2%nat) /\
  SparseColumn.GetBinIdx sparse_example 5 1 =
    Some (bst_bin_t_of
            (uint32_t_wrap (Column.index_base_ (SparseColumn.column sparse_example) + 0)),
          1%nat).
Proof.
  apply (SparseColumn_GetBinIdx_passed_row sparse_example 5 1 2 0).
  - reflexivity.
  - intros [|[|[|i]]] [|[|[|j]]] x y Hij; cbn; intros [= <-] [= <-]; lia.
  - reflexivity.
  - reflexivity.
  - lia.
Defined.

(** X20: for 1 <= max_num_bins <= 2^32, [SetTypeSize] chooses the
    narrowest of the three widths (1, 2 or 4 bytes) that holds
    [max_num_bins - 1]; for [max_num_bins = 0] the subtraction wraps in
    [size_t] and the widest is chosen. *)
Theorem SetTypeSize_smallest_width (max_num_bins : Z) :
  1 <= max_num_bins <= 2 ^ 32 ->
  max_num_bins - 1 < 256 ^ width (SetTypeSize max_num_bins) /\
  (forall bins_type_size_,
     width bins_type_size_ < width (SetTypeSize max_num_bins) ->
     256 ^ width bins_type_size_ <= max_num_bins - 1) /\
  SetTypeSize 0 = kUint32BinsTypeSize.
Proof.
  intros Hrange. unfold SetTypeSize, size_t_wrap.
  rewrite (Z.mod_small (max_num_bins - 1)) by lia.
  split; [|split; [|reflexivity]].
  - destruct (Z.leb_spec (max_num_bins - 1) 255); [cbn; lia|].
    destruct (Z.leb_spec (max_num_bins - 1) 65535); cbn; lia.
  - intros t. destruct (Z.leb_spec (max_num_bins - 1) 255); [destruct t; cbn; lia|].
    destruct (Z.leb_spec (max_num_bins - 1) 65535); destruct t; cbn; lia.
Qed.

Lemma SetTypeSize_smallest_width_witness :
  256 - 1 < 256 ^ width (SetTypeSize 256) /\
  (forall bins_type_size_,
     width bins_type_size_ < width (SetTypeSize 256) ->
     256 ^ width bins_type_size_ <= 256 - 1) /\
  SetTypeSize 0 = kUint32BinsTypeSize.
Proof.
  apply (SetTypeSize_smallest_width 256). lia.
Defined.

Lemma offsets_from_lookup nrow : forall type_ feature_counts_ accum fid,
  length type_ = length feature_counts_ ->
  (offsets_from accum nrow type_ feature_counts_) !! fid =
  if (fid <? length type_)%nat
  then Some (size_t_wrap
               (accum + sum_of (take (S fid) (column_sizes nrow type_ feature_counts_))))
  else None.
Proof.
  induction type_ as [|t types IH]; intros counts accum fid Hlen.
  - destruct counts; [|discriminate]. reflexivity.
  - destruct counts as [|count counts]; [discriminate|].
    cbn [offsets_from column_sizes zip_with length].
    set (d := match t with kDenseColumn => nrow | kSparseColumn => count end).
    destruct fid as [|fid].
    + cbn. unfold sum_of. cbn. rewrite Z.add_0_r. reflexivity.
    + change ((?x :: ?l) !! S fid) with (l !! fid). rewrite IH by (simpl in Hlen; lia).
      change (S fid <? S (length types))%nat with (fid <? length types)%nat.
      destruct (fid <? length types)%nat; [|reflexivity]. f_equal.
      fold (column_sizes nrow types counts). unfold size_t_wrap, sum_of. cbn [take foldr].
      rewrite Zplus_mod_idemp_l. f_equal. lia.
Qed.

Lemma offsets_of_lookup nrow type_ feature_counts_ fid :
  length type_ = length feature_counts_ ->
  (fid <= length type_)%nat ->
  offsets_of nrow type_ feature_counts_ !! fid =
  Some (size_t_wrap (sum_of (take fid (column_sizes nrow type_ feature_counts_)))).
Proof.
  intros Hlen Hfid. unfold offsets_of. destruct fid as [|fid]; [reflexivity|].
  change ((?x :: ?l) !! S fid) with (l !! fid).
  rewrite offsets_from_lookup by assumption.
  destruct (Nat.ltb_spec fid (length type_)); [|lia]. rewrite Z.add_0_l. reflexivity.
Qed.

(** ** The construction of the columns: what [Init] stores is what the columns give back *)

Lemma result_bind_Ok {A B : Type} (r : result A) (k : A -> result B) b :
  result_bind r k = Ok b -> exists a, r = Ok a /\ k a = Ok b.
Proof. destruct r as [a| |]; cbn; [eauto|discriminate..]. Qed.

Lemma at_index_lookup {A : Type} (a : list A) (i : nat) x :
  a !! i = Some x -> at_index a (Z.of_nat i) = Ok x.
Proof.
  intros H. unfold at_index. destruct (Z.leb_spec 0 (Z.of_nat i)); [|lia].
  rewrite Nat2Z.id, H. reflexivity.
Qed.

Lemma assign_insert {A : Type} (a : list A) (i : nat) x :
  (i < length a)%nat -> assign a (Z.of_nat i) x = Ok (<[i := x]> a).
Proof.
  intros H. unfold assign.
  destruct (Z.leb_spec 0 (Z.of_nat i)); [|lia].
  destruct (Z.ltb_spec (Z.of_nat i) (Z.of_nat (length a))); [|lia].
  cbn. rewrite Nat2Z.id. reflexivity.
Qed.

Lemma for_loop_invariant {St : Type} (I : nat -> St -> Prop) (n : nat) :
  forall first body s,
  I 0%nat s ->
  (forall k s, (k < n)%nat -> I k s ->
     exists s', body (first + Z.of_nat k) s = Ok s' /\ I (S k) s') ->
  exists s', for_loop n first body s = Ok s' /\ I n s'.
Proof.
  revert I. induction n as [|n IH]; intros I first body s H0 Hstep.
  - exists s. split; [reflexivity|assumption].
  - destruct (Hstep 0%nat s ltac:(lia) H0) as (s1 & Hb & H1).
    rewrite Z.add_0_r in Hb. cbn [for_loop]. rewrite Hb. cbn [result_bind].
    apply (IH (fun k s => I (S k) s)); [assumption|].
    intros k s2 Hk H2. destruct (Hstep (S k) s2 ltac:(lia) H2) as (s3 & Hb3 & H3).
    exists s3. split; [|assumption]. rewrite <- Hb3. f_equal. lia.
Qed.

(** *** The cells of a string of bytes *)

Lemma read_cell_cell (w : nat) (index_ : bytes) (k : nat) :
  (k * w + w <= length index_)%nat ->
  read_cell w index_ (Z.of_nat k) = Ok (cell w index_ k).
Proof.
  intros H. unfold read_cell, size.
  destruct (Z.leb_spec 0 (Z.of_nat k)); [|lia].
  destruct (Z.leb_spec (Z.of_nat k * Z.of_nat w + Z.of_nat w) (Z.of_nat (length index_)));
    [|nia].
  cbn. rewrite Nat2Z.id. reflexivity.
Qed.

Lemma write_cell_written (w : nat) (index_ : bytes) (k : nat) (v : Z) :
  (k * w + w <= length index_)%nat ->
  write_cell w index_ (Z.of_nat k) v = Ok (written w index_ k v).
Proof.
  intros H. unfold write_cell, size.
  destruct (Z.leb_spec 0 (Z.of_nat k)); [|lia].
  destruct (Z.leb_spec (Z.of_nat k * Z.of_nat w + Z.of_nat w) (Z.of_nat (length index_)));
    [|nia].
  cbn. rewrite Nat2Z.id. reflexivity.
Qed.

Lemma length_written (w : nat) (index_ : bytes) (k : nat) (v : Z) :
  (k * w + w <= length index_)%nat ->
  length (written w index_ k v) = length index_.
Proof.
  intros H. unfold written.
  rewrite !length_app, length_take, length_store, length_drop. lia.
Qed.

Lemma cell_written_same (w : nat) (index_ : bytes) (k : nat) (v : Z) :
  (k * w + w <= length index_)%nat ->
  cell w (written w index_ k v) k = v mod 256 ^ Z.of_nat w.
Proof.
  intros H. unfold cell, written.
  rewrite drop_app_length' by (rewrite length_take; lia).
  rewrite take_app_length' by (rewrite length_store; reflexivity).
  apply load_store.
Qed.

Lemma cell_written_other (w : nat) (index_ : bytes) (k k' : nat) (v : Z) :
  (k * w + w <= length index_)%nat ->
  k' <> k ->
  cell w (written w index_ k v) k' = cell w index_ k'.
Proof.
  intros H Hne. unfold cell, written.
  destruct (Nat.lt_ge_cases k' k) as [Hlt|Hge].
  - assert (k' * w + w <= k * w)%nat by nia.
    rewrite drop_app_le by (rewrite length_take; lia).
    rewrite take_app_le by (rewrite length_drop, length_take; lia).
    replace (k * w)%nat with (k' * w + (k * w - k' * w))%nat at 1 by lia.
    rewrite <- take_drop_commute, take_take. f_equal. f_equal. lia.
  - assert (k * w + w <= k' * w)%nat by nia.
    rewrite drop_app_ge by (rewrite length_take; lia).
    rewrite length_take, drop_app_ge by (rewrite length_store; lia).
    rewrite length_store, drop_drop. do 3 f_equal. lia.
Qed.

Lemma length_cells (w n : nat) (bs : bytes) : length (cells w n bs) = n.
Proof. revert bs. induction n as [|n IH]; intros bs; cbn; [|rewrite IH]; reflexivity. Qed.

Lemma cells_lookup (w n : nat) : forall (bs : bytes) (i : nat),
  (i < n)%nat -> cells w n bs !! i = Some (cell w bs i).
Proof.
  induction n as [|n IH]; intros bs i Hi; [lia|]. cbn [cells].
  destruct i as [|i].
  - reflexivity.
  - change ((?x :: ?l) !! S i) with (l !! i). rewrite IH by lia.
    unfold cell. rewrite drop_drop. do 3 f_equal; lia.
Qed.

Lemma cell_span (w : nat) (index_ : bytes) (first count i : nat) :
  (i < count)%nat ->
  cell w (take (count * w) (drop (first * w) index_)) i = cell w index_ (first + i).
Proof.
  intros Hi. unfold cell.
  assert (i * w + w <= count * w)%nat by nia.
  replace (count * w)%nat with (i * w + (count * w - i * w))%nat by lia.
  rewrite <- take_drop_commute, take_take, drop_drop.
  f_equal. f_equal; [lia|]. f_equal. lia.
Qed.

Lemma at_index_Z {A : Type} (a : list A) (i : Z) x :
  0 <= i -> a !! Z.to_nat i = Some x -> at_index a i = Ok x.
Proof.
  intros Hi H. unfold at_index. destruct (Z.leb_spec 0 i); [|lia]. rewrite H. reflexivity.
Qed.

Lemma assign_Z {A : Type} (a : list A) (i : Z) x :
  0 <= i < Z.of_nat (length a) -> assign a i x = Ok (<[Z.to_nat i := x]> a).
Proof.
  intros Hi. unfold assign. destruct (Z.leb_spec 0 i); [|lia].
  destruct (Z.ltb_spec i (Z.of_nat (length a))); [|lia]. reflexivity.
Qed.

Lemma write_cell_Z (w : nat) (index_ : bytes) (k : Z) (v : Z) :
  0 <= k -> (k + 1) * Z.of_nat w <= Z.of_nat (length index_) ->
  write_cell w index_ k v = Ok (written w index_ (Z.to_nat k) v).
Proof.
  intros Hk H. rewrite <- (Z2Nat.id k) at 1 by assumption.
  apply write_cell_written. nia.
Qed.

Lemma read_cell_Z (w : nat) (index_ : bytes) (k : Z) :
  0 <= k -> (k + 1) * Z.of_nat w <= Z.of_nat (length index_) ->
  read_cell w index_ k = Ok (cell w index_ (Z.to_nat k)).
Proof.
  intros Hk H. rewrite <- (Z2Nat.id k) at 1 by assumption.
  apply read_cell_cell. nia.
Qed.

Lemma cell_range (w : nat) (index_ : bytes) (k : nat) :
  0 <= cell w index_ k < 256 ^ Z.of_nat w.
Proof.
  unfold cell. pose proof (load_range (take w (drop (k * w) index_))) as H.
  unfold size in H. rewrite length_take in H.
  assert (256 ^ Z.of_nat (w `min` length (drop (k * w) index_)) <= 256 ^ Z.of_nat w)
    by (apply Z.pow_le_mono_r; lia).
  lia.
Qed.

(** *** The rows of a quantised matrix *)

Lemma length_row_ptr_from rows : forall first,
  length (row_ptr_from first rows) = S (length rows).
Proof.
  induction rows as [|row rows IH]; intros first; cbn [row_ptr_from length];
    [reflexivity|]. rewrite IH. reflexivity.
Qed.

Lemma row_ptr_from_lookup rows : forall first k,
  (k <= length rows)%nat ->
  row_ptr_from first rows !! k =
  Some (first + Z.of_nat (length (concat (take k rows)))).
Proof.
  induction rows as [|row rows IH]; intros first k Hk.
  - cbn in Hk. replace k with 0%nat by lia. cbn. f_equal. lia.
  - destruct k as [|k].
    + cbn. f_equal. lia.
    + cbn [row_ptr_from take concat].
      change ((?x :: ?l) !! S k) with (l !! k).
      rewrite IH by (cbn in Hk; lia). rewrite length_app. f_equal. lia.
Qed.

Lemma concat_lookup {A : Type} (rows : list (list A)) : forall k row j e,
  rows !! k = Some row -> row !! j = Some e ->
  concat rows !! (length (concat (take k rows)) + j)%nat = Some e.
Proof.
  induction rows as [|r rows IH]; intros k row j e Hk Hj; [discriminate|].
  destruct k as [|k].
  - injection Hk as ->. cbn. rewrite lookup_app_l by (eapply lookup_lt_Some, Hj).
    exact Hj.
  - cbn [take concat]. rewrite length_app, <- Nat.add_assoc.
    rewrite lookup_app_r by lia.
    replace (length r + (length (concat (take k rows)) + j) - length r)%nat
      with (length (concat (take k rows)) + j)%nat by lia.
    eapply IH; eassumption.
Qed.

Lemma concat_take_S {A : Type} (rows : list (list A)) k row :
  rows !! k = Some row ->
  concat (take (S k) rows) = concat (take k rows) ++ row.
Proof.
  intros Hk. rewrite (take_S_r _ _ _ Hk), concat_app. cbn. rewrite app_nil_r. reflexivity.
Qed.

Lemma length_concat_take_le {A : Type} (rows : list (list A)) k :
  (length (concat (take k rows)) <= length (concat rows))%nat.
Proof.
  rewrite <- (take_drop k rows) at 2. rewrite concat_app, length_app. lia.
Qed.

Lemma assign_each_app {St : Type} (f : Z -> Z -> Z -> St -> result St) es1 : forall es2 s,
  assign_each f (es1 ++ es2) s =
  let* s' := assign_each f es1 s in assign_each f es2 s'.
Proof.
  induction es1 as [|e es1 IH]; intros es2 s; [reflexivity|].
  cbn [assign_each app]. destruct (f e.2 e.1.1 e.1.2 s); cbn [result_bind];
    [apply IH|reflexivity..].
Qed.

(** *** [SetIndexSparse] visits the entries in the order of the rows *)

Lemma SetIndexSparse_row {St : Type} (f : Z -> Z -> Z -> St -> result St)
    (data : list Z) (index : bytes) (rid : Z) (b : nat) :
  forall (row : list (Z * Z)) (first : nat) (s : St),
  (forall j e, row !! j = Some e ->
     data !! (b + first + j)%nat = Some e.1 /\
     read_cell 4 index (Z.of_nat (b + first + j)) = Ok e.2) ->
  for_loop (length row) (Z.of_nat first)
    (fun j s =>
       let* bin_id := read_cell 4 index (Z.of_nat b + j) in
       let* fid := at_index data (Z.of_nat b + j) in
       f bin_id rid fid s) s =
  assign_each f (map (fun e => (rid, e.1, e.2)) row) s.
Proof.
  induction row as [|e row IH]; intros first s H; [reflexivity|].
  cbn [length for_loop map assign_each].
  destruct (H 0%nat e eq_refl) as [Hd Hr]. rewrite Nat.add_0_r in Hd, Hr.
  replace (Z.of_nat b + Z.of_nat first) with (Z.of_nat (b + first)) by lia.
  rewrite Hr. cbn [result_bind]. rewrite (at_index_lookup _ _ _ Hd). cbn [result_bind fst snd].
  destruct (f e.2 rid e.1 s) as [s'| |]; cbn [result_bind]; [|reflexivity..].
  replace (Z.of_nat first + 1) with (Z.of_nat (S first)) by lia.
  apply IH. intros j e' Hj.
  replace (b + S first + j)%nat with (b + first + S j)%nat by lia.
  apply H. exact Hj.
Qed.

Lemma SetIndexSparse_rows {St : Type} (f : Z -> Z -> Z -> St -> result St)
    (row_ptr offset_vec data : list Z) (index : bytes) (base : nat -> nat) :
  forall (rest : list (list (Z * Z))) (r0 : nat) (s : St),
  (forall k row, rest !! k = Some row ->
     row_ptr !! (r0 + k)%nat = Some (Z.of_nat (base (r0 + k)%nat)) /\
     row_ptr !! (r0 + k + 1)%nat = Some (Z.of_nat (base (r0 + k)%nat + length row)) /\
     offset_vec !! (r0 + k)%nat = Some (Z.of_nat (base (r0 + k)%nat)) /\
     offset_vec !! (r0 + k + 1)%nat = Some (Z.of_nat (base (r0 + k)%nat + length row)) /\
     Z.of_nat (base (r0 + k)%nat + length row) < 2 ^ 64 /\
     Z.of_nat (r0 + k + 1) < 2 ^ 64 /\
     forall j e, row !! j = Some e ->
       data !! (base (r0 + k)%nat + j)%nat = Some e.1 /\
       read_cell 4 index (Z.of_nat (base (r0 + k)%nat + j)) = Ok e.2) ->
  for_loop (length rest) (Z.of_nat r0)
    (fun rid s =>
       let* ibegin := at_index row_ptr rid in
       let* iend := at_index row_ptr (size_t_wrap (rid + 1)) in
       let* next := at_index offset_vec (size_t_wrap (rid + 1)) in
       let* first := at_index offset_vec rid in
       let size := size_t_wrap (next - first) in
       if negb (size_t_wrap (ibegin + size) =? iend) then CheckFailed
       else
         for_loop (Z.to_nat (iend - ibegin)) 0
           (fun j s =>
              let* bin_id := read_cell 4 index (ibegin + j) in
              let* fid := at_index data (first + j) in
              f bin_id rid fid s)
           s) s =
  assign_each f (entries_from (Z.of_nat r0) rest) s.
Proof.
  induction rest as [|row rest IH]; intros r0 s H; [reflexivity|].
  cbn [length for_loop entries_from].
  destruct (H 0%nat row eq_refl) as (H1 & H2 & H3 & H4 & Hb & Hr & Hrow).
  rewrite Nat.add_0_r in *.
  assert (Hw : size_t_wrap (Z.of_nat r0 + 1) = Z.of_nat (r0 + 1))
    by (unfold size_t_wrap; rewrite Z.mod_small; lia).
  rewrite Hw.
  rewrite (at_index_lookup _ _ _ H1), (at_index_lookup _ _ _ H2),
    (at_index_lookup _ _ _ H3), (at_index_lookup _ _ _ H4). cbn [result_bind].
  assert (Hsz : size_t_wrap (Z.of_nat (base r0 + length row) - Z.of_nat (base r0))
                = Z.of_nat (length row))
    by (unfold size_t_wrap; rewrite Z.mod_small; lia).
  rewrite Hsz.
  assert (Hck : size_t_wrap (Z.of_nat (base r0) + Z.of_nat (length row))
                = Z.of_nat (base r0 + length row))
    by (unfold size_t_wrap; rewrite Z.mod_small; lia).
  rewrite Hck, Z.eqb_refl. cbn [negb].
  replace (Z.to_nat (Z.of_nat (base r0 + length row) - Z.of_nat (base r0)))
    with (length row) by lia.
  pose proof (SetIndexSparse_row f data index (Z.of_nat r0) (base r0) row 0 s) as Hin.
  change (Z.of_nat 0) with 0 in Hin. rewrite Hin.
  2:{ intros j e Hj. rewrite Nat.add_0_r. apply Hrow. exact Hj. }
  clear Hin.
  rewrite assign_each_app.
  destruct (assign_each f (map (fun e => (Z.of_nat r0, e.1, e.2)) row) s) as [s'| |];
    cbn [result_bind]; [|reflexivity..].
  replace (Z.of_nat r0 + 1) with (Z.of_nat (S r0)) by lia.
  apply IH. intros k row' Hk.
  replace (S r0 + k)%nat with (r0 + S k)%nat by lia.
  apply H. exact Hk.
Qed.

Lemma quantised_row_ptr rows page gmat k :
  quantised rows page gmat ->
  (k <= length rows)%nat ->
  GHistIndexMatrix.row_ptr gmat !! k = Some (Z.of_nat (length (concat (take k rows)))) /\
  SparsePage.offset page !! k = Some (Z.of_nat (length (concat (take k rows)))).
Proof.
  intros Q Hk. rewrite (q_row_ptr _ _ _ Q), (q_offset _ _ _ Q). unfold row_ptr_of.
  rewrite row_ptr_from_lookup by assumption. split; reflexivity.
Qed.

Lemma quantised_entry rows page gmat k row j e :
  quantised rows page gmat ->
  rows !! k = Some row -> row !! j = Some e ->
  SparsePage.data page !! (length (concat (take k rows)) + j)%nat = Some e.1 /\
  read_cell 4 (GHistIndexMatrix.index_data gmat)
            (Z.of_nat (length (concat (take k rows)) + j)) = Ok e.2.
Proof.
  intros Q Hk Hj. pose proof (concat_lookup rows k row j e Hk Hj) as Hc.
  pose proof (lookup_lt_Some _ _ _ Hc) as Hlt. split.
  - rewrite (q_data _ _ _ Q), list_lookup_fmap, Hc. reflexivity.
  - pose proof (q_index_size _ _ _ Q). rewrite read_cell_cell by lia. f_equal.
    pose proof (cells_lookup 4 _ (GHistIndexMatrix.index_data gmat) _ Hlt) as Hcell.
    rewrite (q_index _ _ _ Q), list_lookup_fmap, Hc in Hcell. cbn in Hcell. congruence.
Qed.

(** *** Rows that have a feature once at most *)

Lemma features_submseteq (fids : list Z) (n : nat) :
  NoDup fids -> Forall (fun fid => 0 <= fid < Z.of_nat n) fids ->
  submseteq fids (seqZ 0 (Z.of_nat n)).
Proof.
  intros Hnd Hall. apply NoDup_submseteq; [assumption|].
  intros x Hx. rewrite Forall_forall in Hall. apply elem_of_seqZ.
  specialize (Hall x Hx). lia.
Qed.

Lemma features_bounded (fids : list Z) (n : nat) :
  NoDup fids -> Forall (fun fid => 0 <= fid < Z.of_nat n) fids ->
  (length fids <= n)%nat.
Proof.
  intros Hnd Hall.
  pose proof (submseteq_length _ _ (features_submseteq fids n Hnd Hall)) as H.
  rewrite length_seqZ, Nat2Z.id in H. exact H.
Qed.

Lemma features_all (fids : list Z) (n : nat) fid :
  NoDup fids -> Forall (fun fid => 0 <= fid < Z.of_nat n) fids ->
  length fids = n -> 0 <= fid < Z.of_nat n -> elem_of fid fids.
Proof.
  intros Hnd Hall Hlen Hfid.
  pose proof (features_submseteq fids n Hnd Hall) as Hsub.
  assert (Hp : Permutation fids (seqZ 0 (Z.of_nat n))).
  { apply submseteq_length_Permutation; [assumption|].
    rewrite length_seqZ, Nat2Z.id. lia. }
  rewrite Hp. apply elem_of_seqZ. lia.
Qed.

Lemma length_concat_le {A : Type} (rows : list (list A)) (n : nat) :
  Forall (fun row => (length row <= n)%nat) rows ->
  (length (concat rows) <= n * length rows)%nat.
Proof.
  induction 1 as [|row rows Hrow _ IH]; cbn [concat length]; [lia|].
  rewrite length_app. lia.
Qed.

Lemma length_concat_full {A : Type} (rows : list (list A)) (n : nat) :
  Forall (fun row => (length row <= n)%nat) rows ->
  length (concat rows) = (n * length rows)%nat ->
  Forall (fun row => length row = n) rows.
Proof.
  induction 1 as [|row rows Hrow Hrows IH]; cbn [concat length]; [constructor|].
  rewrite length_app. intros Hlen.
  pose proof (length_concat_le rows n Hrows).
  constructor; [lia|]. apply IH. lia.
Qed.

(** *** The entries of a matrix *)

Lemma elem_of_entries_from rows : forall r rid fid bin,
  elem_of (rid, fid, bin) (entries_from r rows) <->
  exists k row, rows !! k = Some row /\ rid = r + Z.of_nat k /\ elem_of (fid, bin) row.
Proof.
  induction rows as [|row rows IH]; intros r rid fid bin; cbn [entries_from].
  - split; [intros H; inversion H|intros (k & row & H & _); discriminate].
  - rewrite elem_of_app, list_elem_of_fmap, IH. split.
    + intros [([f b] & [= -> -> ->] & He)|(k & row' & Hk & -> & He)].
      * exists 0%nat, row. repeat split; [lia|exact He].
      * exists (S k), row'. repeat split; [exact Hk|lia|exact He].
    + intros (k & row' & Hk & -> & He). destruct k as [|k].
      * injection Hk as ->. left. exists (fid, bin). split; [f_equal; f_equal; lia|exact He].
      * right. exists k, row'. repeat split; [exact Hk|lia|exact He].
Qed.

Lemma entries_keys_NoDup rows : forall r,
  Forall (fun row => NoDup (map fst row)) rows ->
  NoDup (map fst (entries_from r rows)).
Proof.
  induction rows as [|row rows IH]; intros r Hall; cbn [entries_from map];
    [constructor|].
  apply Forall_cons in Hall as [Hrow Hrows].
  rewrite fmap_app. apply NoDup_app. split; [|split].
  - rewrite <- list_fmap_compose.
    change (compose fst (fun e : Z * Z => (r, e.1, e.2)))
      with (compose (pair r) (fst : Z * Z -> Z)).
    rewrite list_fmap_compose. apply NoDup_fmap_2; [|exact Hrow].
    intros x y [= ->]. reflexivity.
  - intros [rid fid] H1 H2.
    apply list_elem_of_fmap in H1 as (x & Hx & H1).
    apply list_elem_of_fmap in H1 as (e & -> & _). cbn in Hx. injection Hx as -> ->.
    apply list_elem_of_fmap in H2 as ([[rid' fid'] bin'] & Hy & H2).
    cbn in Hy. injection Hy as <- <-.
    apply elem_of_entries_from in H2 as (k & row' & _ & Hr & _). lia.
  - apply IH. exact Hrows.
Qed.

Lemma entries_of_app fid es1 es2 :
  entries_of fid (es1 ++ es2) = entries_of fid es1 ++ entries_of fid es2.
Proof.
  induction es1 as [|e es1 IH]; [reflexivity|]. cbn [entries_of app].
  destruct (e.1.2 =? fid); [cbn [app]; f_equal|]; exact IH.
Qed.

Lemma elem_of_entries_of fid es rid bin :
  elem_of (rid, bin) (entries_of fid es) <-> elem_of (rid, fid, bin) es.
Proof.
  induction es as [|[[r f] b] es IH]; cbn [entries_of fst snd].
  - split; intros H; inversion H.
  - destruct (Z.eqb_spec f fid) as [->|Hne].
    + rewrite !elem_of_cons, IH. split; intros [[= -> ->]|H]; auto.
    + rewrite elem_of_cons, IH. split; [auto|]. intros [[= -> -> ->]|H]; [done|auto].
Qed.

Lemma length_entries_of fid rows : forall r,
  Z.of_nat (length (entries_of fid (entries_from r rows))) =
  tally (fun e => e.1 =? fid) (concat rows).
Proof.
  induction rows as [|row rows IH]; intros r; [reflexivity|].
  cbn [entries_from concat]. rewrite entries_of_app, length_app, tally_app, Nat2Z.inj_add, IH.
  f_equal. clear. induction row as [|e row IH]; [reflexivity|].
  cbn [map entries_of tally fst snd]. destruct (e.1 =? fid); cbn [length]; lia.
Qed.

(** *** The bin of a row for a feature *)

Lemma bin_in_Some row fid bin : bin_in row fid = Some bin -> elem_of (fid, bin) row.
Proof.
  induction row as [|[f b] row IH]; cbn [bin_in fst snd]; [discriminate|].
  destruct (Z.eqb_spec f fid) as [->|_].
  - intros [= ->]. apply elem_of_cons. left. reflexivity.
  - intros H. apply elem_of_cons. right. apply IH, H.
Qed.

Lemma bin_in_None row fid bin : bin_in row fid = None -> ~ elem_of (fid, bin) row.
Proof.
  induction row as [|[f b] row IH]; cbn [bin_in fst snd]; [intros _ H; inversion H|].
  destruct (Z.eqb_spec f fid) as [->|Hne]; [discriminate|].
  intros H Hin. apply elem_of_cons in Hin as [[= -> ->]|Hin]; [done|]. exact (IH H Hin).
Qed.

Lemma bin_in_elem_of row fid bin :
  NoDup (map fst row) -> elem_of (fid, bin) row -> bin_in row fid = Some bin.
Proof.
  induction row as [|[f b] row IH]; intros Hnd Hin; [inversion Hin|].
  cbn [map fst] in Hnd. apply NoDup_cons in Hnd as [Hf Hnd].
  cbn [bin_in fst snd]. apply elem_of_cons in Hin as [[= -> ->]|Hin].
  - rewrite Z.eqb_refl. reflexivity.
  - destruct (Z.eqb_spec f fid) as [->|_]; [|apply IH; assumption].
    exfalso. apply Hf. apply list_elem_of_fmap. exists (fid, bin). split; [reflexivity|exact Hin].
Qed.

Lemma entries_of_row fid r row :
  NoDup (map fst row) ->
  entries_of fid (map (fun e => (r, e.1, e.2)) row) =
  match bin_in row fid with Some bin => [(r, bin)] | None => [] end.
Proof.
  induction row as [|[f b] row IH]; intros Hnd; [reflexivity|].
  cbn [map fst] in Hnd. apply NoDup_cons in Hnd as [Hf Hnd].
  cbn [map entries_of bin_in fst snd]. destruct (Z.eqb_spec f fid) as [->|_].
  - f_equal. rewrite IH by assumption.
    destruct (bin_in row fid) as [bin|] eqn:E; [|reflexivity].
    exfalso. apply Hf. apply list_elem_of_fmap. exists (fid, bin).
    split; [reflexivity|apply bin_in_Some, E].
  - apply IH, Hnd.
Qed.

Lemma entries_of_rid_ge fid rows : forall r rid bin,
  elem_of (rid, bin) (entries_of fid (entries_from r rows)) -> r <= rid.
Proof.
  intros r rid bin H. apply elem_of_entries_of, elem_of_entries_from in H
    as (k & row & _ & -> & _). lia.
Qed.

Lemma lookup_row_none rows bins rid :
  (forall row, elem_of row rows -> row <> rid) -> lookup_row rows bins rid = None.
Proof.
  revert bins. induction rows as [|row rows IH]; intros bins H; [reflexivity|].
  destruct bins as [|bin bins]; [reflexivity|]. cbn [lookup_row].
  destruct (Z.eqb_spec row rid) as [->|_].
  - exfalso. apply (H rid); [apply elem_of_cons; left|]; reflexivity.
  - apply IH. intros r Hr. apply H. apply elem_of_cons. right. exact Hr.
Qed.

Lemma lookup_row_entries (g : Z -> Z) fid rows : forall r rid,
  Forall (fun row => NoDup (map fst row)) rows ->
  r <= rid ->
  lookup_row (map fst (entries_of fid (entries_from r rows)))
             (map (fun e => g e.2) (entries_of fid (entries_from r rows))) rid =
  match rows !! Z.to_nat (rid - r) with
  | Some row => option_map g (bin_in row fid)
  | None => None
  end.
Proof.
  induction rows as [|row rows IH]; intros r rid Hall Hr.
  - cbn. destruct (Z.to_nat (rid - r)); reflexivity.
  - apply Forall_cons in Hall as [Hrow Hrows]. cbn [entries_from].
    rewrite entries_of_app, entries_of_row by assumption.
    destruct (Z.eq_dec rid r) as [->|Hne].
    + replace (Z.to_nat (r - r)) with 0%nat by lia.
      change ((row :: rows) !! 0%nat) with (Some row). cbv beta iota.
      destruct (bin_in row fid) as [bin|]; cbn [app map lookup_row fst snd option_map].
      * rewrite Z.eqb_refl. reflexivity.
      * apply lookup_row_none. intros x Hx Heq. subst x.
        apply list_elem_of_fmap in Hx as ([rid' bin'] & Hx1 & Hx). cbn in Hx1. subst rid'.
        apply entries_of_rid_ge in Hx. lia.
    + replace (Z.to_nat (rid - r)) with (S (Z.to_nat (rid - (r + 1)))) by lia.
      change ((row :: rows) !! S ?k) with (rows !! k).
      rewrite <- IH by (assumption || lia).
      destruct (bin_in row fid) as [bin|]; cbn [app map lookup_row fst snd]; [|reflexivity].
      destruct (Z.eqb_spec r rid); [lia|reflexivity].
Qed.

Lemma ascending_cons x rows :
  (forall y, elem_of y rows -> x <= y) -> ascending rows -> ascending (x :: rows).
Proof.
  intros Hx Hasc i j a b Hij Hi Hj. destruct i as [|i], j as [|j]; try lia.
  - cbn in Hi, Hj. injection Hi as <-. injection Hj as <-. lia.
  - cbn in Hi. injection Hi as <-. apply Hx. eapply list_elem_of_lookup_2, Hj.
  - apply (Hasc i j); [lia|exact Hi|exact Hj].
Qed.

Lemma entries_of_ascending fid rows : forall r,
  Forall (fun row => NoDup (map fst row)) rows ->
  ascending (map fst (entries_of fid (entries_from r rows))).
Proof.
  induction rows as [|row rows IH]; intros r Hall.
  - intros i j a b _ Hi. destruct i; discriminate.
  - apply Forall_cons in Hall as [Hrow Hrows]. cbn [entries_from].
    rewrite entries_of_app, entries_of_row by assumption.
    destruct (bin_in row fid) as [bin|]; cbn [app map fst]; [|apply IH, Hrows].
    apply ascending_cons; [|apply IH, Hrows].
    intros y Hy. apply list_elem_of_fmap in Hy as ([rid' bin'] & -> & Hy). cbn.
    apply entries_of_rid_ge in Hy. lia.
Qed.

(** *** What a column gives back for a stored bin *)

Lemma SetTypeSize_holds max_num_bins :
  1 <= max_num_bins <= 2 ^ 32 ->
  max_num_bins - 1 < 256 ^ width (SetTypeSize max_num_bins).
Proof.
  intros Hrange. unfold SetTypeSize, size_t_wrap.
  rewrite (Z.mod_small (max_num_bins - 1)) by lia.
  destruct (Z.leb_spec (max_num_bins - 1) 255); [cbn; lia|].
  destruct (Z.leb_spec (max_num_bins - 1) 65535); cbn; lia.
Qed.

Lemma width_to_nat t : Z.of_nat (Z.to_nat (width t)) = width t.
Proof. destruct t; reflexivity. Qed.

Lemma global_bin w base bin :
  0 <= base -> base <= bin -> bin < 2 ^ 32 -> bin - base < 256 ^ Z.of_nat w ->
  uint32_t_wrap (bst_bin_t_of base + local_bin w base bin) = bin.
Proof.
  intros Hb Hle Hbin Hw. unfold local_bin, uint32_t_wrap.
  rewrite (Z.mod_small (bin - base) (2 ^ 32)) by lia.
  rewrite (Z.mod_small (bin - base) (256 ^ Z.of_nat w)) by lia.
  unfold bst_bin_t_of. destruct (Z.ltb_spec base (2 ^ 31)).
  - replace (base + (bin - base)) with bin by lia. apply Z.mod_small. lia.
  - replace (base - 2 ^ 32 + (bin - base)) with (bin + (-1) * 2 ^ 32) by lia.
    rewrite Z.mod_add by lia. apply Z.mod_small. lia.
Qed.

(** *** The counts of the features *)

Lemma tally_feature_row fid row :
  NoDup (map fst row) -> tally (fun e : Z * Z => e.1 =? fid) row <= 1.
Proof.
  induction row as [|[f b] row IH]; intros Hnd; cbn [tally fst]; [lia|].
  cbn [map fst] in Hnd. apply NoDup_cons in Hnd as [Hf Hnd]. specialize (IH Hnd).
  destruct (Z.eqb_spec f fid) as [->|_]; [|lia].
  rewrite tally_zero; [lia|].
  intros [f' b'] Hin. cbn. destruct (Z.eqb_spec f' fid) as [->|]; [|reflexivity].
  exfalso. apply Hf. apply list_elem_of_fmap. exists (fid, b'). split; [reflexivity|].
  apply list_elem_of_In. exact Hin.
Qed.

Lemma tally_feature_rows fid rows :
  Forall (fun row => NoDup (map fst row)) rows ->
  0 <= tally (fun e : Z * Z => e.1 =? fid) (concat rows) <= Z.of_nat (length rows).
Proof.
  intros H. split; [apply tally_nonneg|].
  induction H as [|row rows Hrow _ IH]; cbn [concat length]; [cbn; lia|].
  rewrite tally_app. pose proof (tally_feature_row fid row Hrow). lia.
Qed.

Lemma strictly_ascending_cons x rows :
  (forall y, elem_of y rows -> x < y) -> strictly_ascending rows ->
  strictly_ascending (x :: rows).
Proof.
  intros Hx Hasc i j a b Hij Hi Hj. destruct i as [|i], j as [|j]; try lia.
  - cbn in Hi. injection Hi as <-. apply Hx. eapply list_elem_of_lookup_2, Hj.
  - apply (Hasc i j); [lia|exact Hi|exact Hj].
Qed.

Lemma entries_of_strictly_ascending fid rows : forall r,
  Forall (fun row => NoDup (map fst row)) rows ->
  strictly_ascending (map fst (entries_of fid (entries_from r rows))).
Proof.
  induction rows as [|row rows IH]; intros r Hall.
  - intros i j a b _ Hi. destruct i; discriminate.
  - apply Forall_cons in Hall as [Hrow Hrows]. cbn [entries_from].
    rewrite entries_of_app, entries_of_row by assumption.
    destruct (bin_in row fid) as [bin|]; cbn [app map fst]; [|apply IH, Hrows].
    apply strictly_ascending_cons; [|apply IH, Hrows].
    intros y Hy. apply list_elem_of_fmap in Hy as ([rid' bin'] & -> & Hy). cbn.
    apply entries_of_rid_ge in Hy. lia.
Qed.

Ltac projections :=
  unfold ColumnMatrix.with_missing_flags_, ColumnMatrix.with_index_,
    ColumnMatrix.with_row_ind_;
  cbn [fst snd ColumnMatrix.index_ ColumnMatrix.feature_counts_ ColumnMatrix.type_
       ColumnMatrix.row_ind_ ColumnMatrix.feature_offsets_ ColumnMatrix.index_base_
       ColumnMatrix.missing_flags_ ColumnMatrix.bins_type_size_
       ColumnMatrix.any_missing_].

(** *** The layout of the columns *)

Lemma sum_of_app l1 l2 : sum_of (l1 ++ l2) = sum_of l1 + sum_of l2.
Proof. unfold sum_of. induction l1 as [|x l1 IH]; cbn [foldr app]; lia. Qed.

Lemma sum_of_nonneg l : Forall (fun x => 0 <= x) l -> 0 <= sum_of l.
Proof. unfold sum_of. induction 1; cbn [foldr]; lia. Qed.

Lemma sum_of_take_le l k : Forall (fun x => 0 <= x) l -> sum_of (take k l) <= sum_of l.
Proof.
  intros H. rewrite <- (take_drop k l) at 2. rewrite sum_of_app.
  pose proof (sum_of_nonneg (drop k l) (Forall_drop _ _ _ H)). lia.
Qed.

Lemma sum_of_take_mono l k k' :
  Forall (fun x => 0 <= x) l -> (k <= k')%nat -> sum_of (take k l) <= sum_of (take k' l).
Proof.
  intros H Hk. replace k with (k `min` k')%nat by lia. rewrite <- take_take.
  apply sum_of_take_le, Forall_take, H.
Qed.

Lemma sum_of_take_S l k x :
  l !! k = Some x -> sum_of (take (S k) l) = sum_of (take k l) + x.
Proof.
  intros H. rewrite (take_S_r _ _ _ H), sum_of_app. unfold sum_of at 2. cbn. lia.
Qed.

Lemma column_sizes_lookup nrow types counts fid :
  column_sizes nrow types counts !! fid =
  match types !! fid, counts !! fid with
  | Some kDenseColumn, Some _ => Some nrow
  | Some kSparseColumn, Some count => Some count
  | _, _ => None
  end.
Proof.
  unfold column_sizes. rewrite lookup_zip_with.
  destruct (types !! fid) as [[]|]; cbn; destruct (counts !! fid); reflexivity.
Qed.

Lemma column_sizes_nonneg nrow types counts :
  0 <= nrow -> Forall (fun c => 0 <= c) counts ->
  Forall (fun x => 0 <= x) (column_sizes nrow types counts).
Proof.
  intros Hn Hc. apply Forall_lookup. intros i x. rewrite column_sizes_lookup.
  destruct (types !! i) as [[]|]; destruct (counts !! i) as [c|] eqn:E; intros [= <-];
    [assumption|]. exact (Forall_lookup_1 _ _ _ _ Hc E).
Qed.

Lemma length_column_sizes nrow types counts :
  length types = length counts -> length (column_sizes nrow types counts) = length types.
Proof. intros H. unfold column_sizes. rewrite length_zip_with. lia. Qed.

Section Filling.
Variables (w : nat) (nrow : Z) (m1 : ColumnMatrix.t) (es : list (Z * Z * Z)).
Hypothesis Hlen :
  length (ColumnMatrix.type_ m1) = length (ColumnMatrix.feature_counts_ m1).
Hypothesis Hnrow : 0 <= nrow.
Hypothesis Hcounts : Forall (fun c => 0 <= c) (ColumnMatrix.feature_counts_ m1).
Hypothesis Htotal :
  sum_of (column_sizes nrow (ColumnMatrix.type_ m1) (ColumnMatrix.feature_counts_ m1))
  < 2 ^ 64.
Hypothesis Hoffsets :
  ColumnMatrix.feature_offsets_ m1 =
  offsets_of nrow (ColumnMatrix.type_ m1) (ColumnMatrix.feature_counts_ m1).
Hypothesis Hbase :
  (length (ColumnMatrix.type_ m1) <= length (ColumnMatrix.index_base_ m1))%nat.
Hypothesis Hindex :
  Z.of_nat (length (ColumnMatrix.index_ m1)) =
  sum_of (column_sizes nrow (ColumnMatrix.type_ m1) (ColumnMatrix.feature_counts_ m1))
  * Z.of_nat w.
Hypothesis Hbytes :
  sum_of (column_sizes nrow (ColumnMatrix.type_ m1) (ColumnMatrix.feature_counts_ m1))
  * Z.of_nat w < 2 ^ 64.
Hypothesis Hrows :
  (exists fid, ColumnMatrix.type_ m1 !! fid = Some kSparseColumn) ->
  Z.of_nat (length (ColumnMatrix.row_ind_ m1)) =
  sum_of (column_sizes nrow (ColumnMatrix.type_ m1) (ColumnMatrix.feature_counts_ m1)).
Hypothesis Hflags :
  Z.of_nat (length (ColumnMatrix.missing_flags_ m1)) =
  sum_of (column_sizes nrow (ColumnMatrix.type_ m1) (ColumnMatrix.feature_counts_ m1)).
Hypothesis Hkeys : NoDup (map fst es).
Hypothesis Hes :
  Forall (fun e => 0 <= e.1.1 < nrow /\
                   0 <= e.1.2 < Z.of_nat (length (ColumnMatrix.type_ m1))) es.
Hypothesis Hfit : forall fid count,
  0 <= fid ->
  ColumnMatrix.type_ m1 !! Z.to_nat fid = Some kSparseColumn ->
  ColumnMatrix.feature_counts_ m1 !! Z.to_nat fid = Some count ->
  Z.of_nat (length (entries_of fid es)) <= count.
Hypothesis Hfeatures : Z.of_nat (length (ColumnMatrix.type_ m1)) < 2 ^ 32 - 1.

Local Abbreviation sizes :=
  (column_sizes nrow (ColumnMatrix.type_ m1) (ColumnMatrix.feature_counts_ m1)).
Local Abbreviation off := (column_offset nrow m1).

Lemma column_offset_range fid :
  0 <= column_offset nrow m1 fid <=
  sum_of (column_sizes nrow (ColumnMatrix.type_ m1) (ColumnMatrix.feature_counts_ m1)).
Proof using All.
  pose proof (column_sizes_nonneg nrow (ColumnMatrix.type_ m1) _ Hnrow Hcounts) as Hs.
  unfold column_offset. split.
  - apply sum_of_nonneg, Forall_take, Hs.
  - apply sum_of_take_le, Hs.
Qed.

Lemma column_offset_next fid size :
  0 <= fid ->
  column_sizes nrow (ColumnMatrix.type_ m1) (ColumnMatrix.feature_counts_ m1)
    !! Z.to_nat fid = Some size ->
  column_offset nrow m1 (fid + 1) = column_offset nrow m1 fid + size.
Proof using All.
  intros Hf Hs. unfold column_offset.
  replace (Z.to_nat (fid + 1)) with (S (Z.to_nat fid)) by lia.
  apply sum_of_take_S, Hs.
Qed.

Lemma column_offset_mono fid fid' :
  0 <= fid <= fid' -> column_offset nrow m1 fid <= column_offset nrow m1 fid'.
Proof using All.
  intros H. unfold column_offset. apply sum_of_take_mono; [|lia].
  apply column_sizes_nonneg; assumption.
Qed.

Lemma column_end fid size :
  0 <= fid ->
  column_sizes nrow (ColumnMatrix.type_ m1) (ColumnMatrix.feature_counts_ m1)
    !! Z.to_nat fid = Some size ->
  0 <= size /\
  column_offset nrow m1 fid + size <=
  sum_of (column_sizes nrow (ColumnMatrix.type_ m1) (ColumnMatrix.feature_counts_ m1)).
Proof using All.
  intros Hf Hs. rewrite <- (column_offset_next fid size Hf Hs). split.
  - exact (Forall_lookup_1 _ _ _ _
             (column_sizes_nonneg nrow (ColumnMatrix.type_ m1) _ Hnrow Hcounts) Hs).
  - apply column_offset_range.
Qed.

Lemma columns_apart fid fid' size size' x x' :
  0 <= fid -> 0 <= fid' -> fid <> fid' ->
  column_sizes nrow (ColumnMatrix.type_ m1) (ColumnMatrix.feature_counts_ m1)
    !! Z.to_nat fid = Some size ->
  column_sizes nrow (ColumnMatrix.type_ m1) (ColumnMatrix.feature_counts_ m1)
    !! Z.to_nat fid' = Some size' ->
  0 <= x < size -> 0 <= x' < size' ->
  column_offset nrow m1 fid + x <> column_offset nrow m1 fid' + x'.
Proof using All.
  intros Hf Hf' Hne Hs Hs' Hx Hx'.
  pose proof (column_offset_next fid size Hf Hs) as Hn.
  pose proof (column_offset_next fid' size' Hf' Hs') as Hn'.
  destruct (Z.lt_ge_cases fid fid') as [Hlt|Hge].
  - pose proof (column_offset_mono (fid + 1) fid' ltac:(lia)). lia.
  - pose proof (column_offset_mono (fid' + 1) fid ltac:(lia)). lia.
Qed.

Lemma feature_offset_at fid :
  0 <= fid <= Z.of_nat (length (ColumnMatrix.type_ m1)) ->
  ColumnMatrix.feature_offsets_ m1 !! Z.to_nat fid = Some (column_offset nrow m1 fid).
Proof using All.
  intros Hf. rewrite Hoffsets, offsets_of_lookup by (assumption || lia).
  f_equal. unfold size_t_wrap. apply Z.mod_small.
  pose proof (column_offset_range fid). unfold column_offset in *. lia.
Qed.

(** *** [SetIndex]: the state after each assignment *)

Lemma slot_range fid size x :
  0 <= fid -> sizes !! Z.to_nat fid = Some size -> 0 <= x < size ->
  0 <= off fid + x < sum_of sizes.
Proof using All.
  intros Hf Hs Hx.
  pose proof (column_end fid size Hf Hs).
  pose proof (column_offset_range fid). lia.
Qed.

Lemma slots_apart fid fid' size size' x x' :
  0 <= fid -> 0 <= fid' ->
  sizes !! Z.to_nat fid = Some size -> sizes !! Z.to_nat fid' = Some size' ->
  0 <= x < size -> 0 <= x' < size' ->
  fid <> fid' \/ x <> x' ->
  Z.to_nat (off fid + x) <> Z.to_nat (off fid' + x').
Proof using All.
  intros Hf Hf' Hs Hs' Hx Hx' Hne.
  pose proof (slot_range fid size x Hf Hs Hx).
  pose proof (slot_range fid' size' x' Hf' Hs' Hx').
  destruct (Z.eq_dec fid fid') as [->|Hd].
  - destruct Hne; [done|lia].
  - pose proof (columns_apart fid fid' size size' x x' Hf Hf' Hd Hs Hs' Hx Hx'). lia.
Qed.

Lemma dense_size fid :
  0 <= fid ->
  ColumnMatrix.type_ m1 !! Z.to_nat fid = Some kDenseColumn ->
  sizes !! Z.to_nat fid = Some nrow.
Proof using All.
  intros Hf Ht. rewrite column_sizes_lookup, Ht.
  destruct (lookup_lt_is_Some_2 (ColumnMatrix.feature_counts_ m1) (Z.to_nat fid)) as [c ->];
    [|reflexivity].
  rewrite <- Hlen. eapply lookup_lt_Some, Ht.
Qed.

Lemma sparse_size fid :
  0 <= fid ->
  ColumnMatrix.type_ m1 !! Z.to_nat fid = Some kSparseColumn ->
  exists count,
    ColumnMatrix.feature_counts_ m1 !! Z.to_nat fid = Some count /\
    sizes !! Z.to_nat fid = Some count /\
    Z.of_nat (length (entries_of fid es)) <= count.
Proof using All.
  intros Hf Ht.
  destruct (lookup_lt_is_Some_2 (ColumnMatrix.feature_counts_ m1) (Z.to_nat fid)) as [c Hc].
  { rewrite <- Hlen. eapply lookup_lt_Some, Ht. }
  exists c. split; [exact Hc|]. split; [|apply Hfit; assumption].
  rewrite column_sizes_lookup, Ht, Hc. reflexivity.
Qed.

Lemma entries_of_prefix fid done rest :
  es = done ++ rest ->
  (length (entries_of fid done) <= length (entries_of fid es))%nat.
Proof using All. intros ->. rewrite entries_of_app, length_app. lia. Qed.

Lemma entry_range e : elem_of e es ->
  0 <= e.1.1 < nrow /\ 0 <= e.1.2 < Z.of_nat (length (ColumnMatrix.type_ m1)).
Proof using All. intros He. rewrite Forall_forall in Hes. apply Hes, He. Qed.

Lemma entry_fresh done e rest bin :
  es = done ++ e :: rest -> ~ elem_of (e.1.1, e.1.2, bin) done.
Proof using All.
  intros Hsplit Hin. pose proof Hkeys as Hnd. rewrite Hsplit, fmap_app in Hnd.
  apply NoDup_app in Hnd as (_ & Hnd & _).
  apply (Hnd e.1).
  - apply list_elem_of_fmap. exists (e.1.1, e.1.2, bin). split; [|exact Hin].
    cbn. destruct e as [[? ?] ?]. reflexivity.
  - cbn [map fmap list_fmap]. apply elem_of_cons. left. reflexivity.
Qed.

Lemma filled_dense done rid fid bin rest m nz :
  es = done ++ (rid, fid, bin) :: rest ->
  ColumnMatrix.type_ m1 !! Z.to_nat fid = Some kDenseColumn ->
  filled w nrow m1 done (m, nz) ->
  exists s',
    SetIndex_get_bin_idx w bin rid fid (m, nz) = Ok s' /\
    filled w nrow m1 (done ++ [(rid, fid, bin)]) s'.
Proof using All.
  intros Hsplit Hty F.
  assert (He : elem_of (rid, fid, bin) es)
    by (rewrite Hsplit; apply elem_of_app; right; apply elem_of_cons; left; reflexivity).
  destruct (entry_range _ He) as [Hrid Hfid]. cbn [fst snd] in Hrid, Hfid.
  pose proof (dense_size fid ltac:(lia) Hty) as Hsize.
  pose proof (slot_range fid nrow rid ltac:(lia) Hsize Hrid) as Hslot.
  destruct (lookup_lt_is_Some_2 (ColumnMatrix.index_base_ m1) (Z.to_nat fid)) as [base Hb];
    [lia|].
  pose proof (entry_fresh done (rid, fid, bin) rest) as Hfresh. cbn [fst snd] in Hfresh.
  destruct F as [Ft Fo Fb Fs Fa Fc Fil Frl Ffl Fnl Fnz Fsp Fde Fmi]. cbn [fst snd] in *.
  unfold SetIndex_get_bin_idx. cbn [fst snd].
  rewrite (at_index_Z (ColumnMatrix.type_ m) fid kDenseColumn)
    by (lia || (rewrite Ft; exact Hty)).
  cbn [result_bind].
  rewrite (at_index_Z (ColumnMatrix.feature_offsets_ m) fid (off fid))
    by (lia || (rewrite Fo; apply feature_offset_at; lia)).
  cbn [result_bind].
  rewrite (at_index_Z (ColumnMatrix.index_base_ m) fid base)
    by (lia || (rewrite Fb; exact Hb)).
  cbn [result_bind].
  rewrite write_cell_Z by (lia || (rewrite Fil; nia)).
  cbn [result_bind].
  assert (Hwrap : size_t_wrap (off fid + rid) = off fid + rid)
    by (unfold size_t_wrap; apply Z.mod_small; lia).
  rewrite Hwrap, assign_Z by (rewrite Ffl; lia).
  cbn [result_bind]. eexists. split; [reflexivity|].
  assert (Hin : (Z.to_nat (off fid + rid) * w + w <= length (ColumnMatrix.index_ m))%nat)
    by (rewrite Fil; nia).
  assert (Hother : forall fid' size' x',
            0 <= fid' -> sizes !! Z.to_nat fid' = Some size' -> 0 <= x' < size' ->
            fid' <> fid \/ x' <> rid ->
            Z.to_nat (off fid' + x') <> Z.to_nat (off fid + rid)).
  { intros fid' size' x' Hf' Hs' Hx' Hne.
    eapply slots_apart; try eassumption; lia. }
  constructor; projections; try assumption.
  - rewrite length_written by lia. exact Fil.
  - rewrite length_insert. exact Ffl.
  - (* the counts of the sparse features *)
    intros fid' Hf' Hty'. rewrite entries_of_app. cbn [entries_of fst snd].
    destruct (Z.eqb_spec fid fid') as [->|Hne]; [congruence|].
    rewrite app_nil_r. apply Fnz; assumption.
  - (* the sparse columns *)
    intros fid' k rid' bin' base' Hf' Hty' Hb' Hk.
    rewrite entries_of_app in Hk. cbn [entries_of fst snd] in Hk.
    destruct (Z.eqb_spec fid fid') as [->|Hne]; [congruence|].
    rewrite app_nil_r in Hk.
    destruct (Fsp fid' k rid' bin' base' Hf' Hty' Hb' Hk) as [Hr Hc].
    split; [exact Hr|]. rewrite cell_written_other; [exact Hc|lia|].
    destruct (sparse_size fid' Hf' Hty') as (count & _ & Hs' & Hle).
    pose proof (lookup_lt_Some _ _ _ Hk) as Hlt.
    pose proof (entries_of_prefix fid' done _ Hsplit).
    eapply Hother; [exact Hf'|exact Hs'|lia|left; congruence].
  - (* the dense columns *)
    intros fid' rid' bin' base' Hf' Hty' Hb' Hin'.
    apply elem_of_app in Hin' as [Hin'|Hin'].
    + destruct (Fde fid' rid' bin' base' Hf' Hty' Hb' Hin') as [Hfl Hc].
      assert (Hin'' : elem_of (rid', fid', bin') es)
        by (rewrite Hsplit; apply elem_of_app; left; exact Hin').
      destruct (entry_range _ Hin'') as [Hrid' _]. cbn [fst snd] in Hrid'.
      assert (Hd : Z.to_nat (off fid' + rid') <> Z.to_nat (off fid + rid)).
      { eapply Hother; [exact Hf'|exact (dense_size fid' Hf' Hty')|lia|].
        destruct (Z.eq_dec fid' fid) as [->|]; [|left; assumption].
        right. intros ->. exact (Hfresh bin' Hsplit Hin'). }
      rewrite list_lookup_insert_ne by congruence.
      rewrite cell_written_other by (lia || exact Hd). split; assumption.
    + apply list_elem_of_singleton in Hin'. injection Hin' as -> -> ->.
      rewrite list_lookup_insert_eq by lia.
      rewrite cell_written_same by lia.
      split; [reflexivity|]. unfold local_bin. congruence.
  - (* the flags that are left *)
    intros fid' rid' Hf' Hty' Hrid' Hnone.
    assert (Hd : Z.to_nat (off fid' + rid') <> Z.to_nat (off fid + rid)).
    { eapply Hother; [exact Hf'|exact (dense_size fid' Hf' Hty')|lia|].
      destruct (Z.eq_dec fid' fid) as [->|]; [|left; assumption].
      right. intros ->. apply (Hnone bin). apply elem_of_app. right.
      apply list_elem_of_singleton. reflexivity. }
    rewrite list_lookup_insert_ne by congruence.
    apply Fmi; try assumption.
    intros bin' Hin'. apply (Hnone bin'). apply elem_of_app. left. exact Hin'.
Qed.

Lemma filled_sparse done rid fid bin rest m nz :
  es = done ++ (rid, fid, bin) :: rest ->
  ColumnMatrix.type_ m1 !! Z.to_nat fid = Some kSparseColumn ->
  filled w nrow m1 done (m, nz) ->
  exists s',
    SetIndex_get_bin_idx w bin rid fid (m, nz) = Ok s' /\
    filled w nrow m1 (done ++ [(rid, fid, bin)]) s'.
Proof using All.
  intros Hsplit Hty F.
  assert (He : elem_of (rid, fid, bin) es)
    by (rewrite Hsplit; apply elem_of_app; right; apply elem_of_cons; left; reflexivity).
  destruct (entry_range _ He) as [Hrid Hfid]. cbn [fst snd] in Hrid, Hfid.
  destruct (sparse_size fid ltac:(lia) Hty) as (count & Hcount & Hsize & Hle).
  set (c := length (entries_of fid done)).
  assert (Hc : Z.of_nat c + 1 <= count).
  { rewrite Hsplit, entries_of_app in Hle. cbn [entries_of fst snd] in Hle.
    rewrite Z.eqb_refl, length_app in Hle. cbn [length] in Hle. subst c. lia. }
  pose proof (slot_range fid count (Z.of_nat c) ltac:(lia) Hsize ltac:(lia)) as Hslot.
  destruct (lookup_lt_is_Some_2 (ColumnMatrix.index_base_ m1) (Z.to_nat fid)) as [base Hb];
    [lia|].
  destruct F as [Ft Fo Fb Fs Fa Fc Fil Frl Ffl Fnl Fnz Fsp Fde Fmi]. cbn [fst snd] in *.
  unfold SetIndex_get_bin_idx. cbn [fst snd].
  rewrite (at_index_Z (ColumnMatrix.type_ m) fid kSparseColumn)
    by (lia || (rewrite Ft; exact Hty)).
  cbn [result_bind].
  rewrite (at_index_Z (ColumnMatrix.feature_offsets_ m) fid (off fid))
    by (lia || (rewrite Fo; apply feature_offset_at; lia)).
  cbn [result_bind].
  rewrite (at_index_Z nz fid (Z.of_nat c)) by (lia || (apply Fnz; [lia|exact Hty])).
  cbn [result_bind].
  rewrite (at_index_Z (ColumnMatrix.index_base_ m) fid base)
    by (lia || (rewrite Fb; exact Hb)).
  cbn [result_bind].
  rewrite write_cell_Z by (lia || (rewrite Fil; nia)).
  cbn [result_bind].
  assert (Hwrap : size_t_wrap (off fid + Z.of_nat c) = off fid + Z.of_nat c)
    by (unfold size_t_wrap; apply Z.mod_small; lia).
  pose proof (Hrows (ex_intro _ _ Hty)) as Hrows'.
  rewrite Hwrap, assign_Z by (rewrite Frl; lia).
  cbn [result_bind].
  assert (Hwrap' : size_t_wrap (Z.of_nat c + 1) = Z.of_nat (S c)).
  { unfold size_t_wrap. rewrite Z.mod_small; [lia|].
    pose proof (column_end fid count ltac:(lia) Hsize).
    pose proof (column_offset_range fid). lia. }
  rewrite Hwrap', assign_Z by (rewrite Fnl; lia).
  cbn [result_bind]. eexists. split; [reflexivity|].
  assert (Hin : (Z.to_nat (off fid + Z.of_nat c) * w + w
                 <= length (ColumnMatrix.index_ m))%nat)
    by (rewrite Fil; nia).
  assert (Hother : forall fid' size' x',
            0 <= fid' -> sizes !! Z.to_nat fid' = Some size' -> 0 <= x' < size' ->
            fid' <> fid \/ x' <> Z.of_nat c ->
            Z.to_nat (off fid' + x') <> Z.to_nat (off fid + Z.of_nat c)).
  { intros fid' size' x' Hf' Hs' Hx' Hne.
    eapply slots_apart; try eassumption; lia. }
  constructor; projections; try assumption.
  - rewrite length_written by lia. exact Fil.
  - rewrite length_insert. exact Frl.
  - rewrite length_insert. exact Fnl.
  - (* the counts of the sparse features *)
    intros fid' Hf' Hty'. rewrite entries_of_app. cbn [entries_of fst snd].
    destruct (Z.eqb_spec fid fid') as [<-|Hne].
    + rewrite list_lookup_insert_eq by lia. rewrite length_app. cbn [length].
      f_equal. lia.
    + rewrite list_lookup_insert_ne by lia. rewrite app_nil_r. apply Fnz; assumption.
  - (* the sparse columns *)
    intros fid' k rid' bin' base' Hf' Hty' Hb' Hk.
    rewrite entries_of_app in Hk. cbn [entries_of fst snd] in Hk.
    destruct (Z.eqb_spec fid fid') as [<-|Hne].
    + destruct (Nat.lt_ge_cases k c) as [Hlt|Hge].
      * rewrite lookup_app_l in Hk by exact Hlt.
        destruct (Fsp fid k rid' bin' base' Hf' Hty' Hb' Hk) as [Hr Hcell].
        assert (Hd : Z.to_nat (off fid + Z.of_nat k) <> Z.to_nat (off fid + Z.of_nat c))
          by (eapply Hother; [exact Hf'|exact Hsize|lia|right; lia]).
        rewrite list_lookup_insert_ne by congruence.
        rewrite cell_written_other by (lia || exact Hd). split; assumption.
      * rewrite lookup_app_r in Hk by exact Hge. fold c in Hk.
        destruct (k - c)%nat as [|d] eqn:Hkc; [|destruct d; discriminate].
        cbn in Hk.
        injection Hk as <- <-. replace k with c by lia.
        rewrite list_lookup_insert_eq by lia.
        rewrite cell_written_same by lia.
        split; [reflexivity|]. unfold local_bin. congruence.
    + rewrite app_nil_r in Hk.
      destruct (Fsp fid' k rid' bin' base' Hf' Hty' Hb' Hk) as [Hr Hcell].
      destruct (sparse_size fid' Hf' Hty') as (count' & _ & Hs' & Hle').
      pose proof (lookup_lt_Some _ _ _ Hk) as Hlt.
      pose proof (entries_of_prefix fid' done _ Hsplit).
      assert (Hd : Z.to_nat (off fid' + Z.of_nat k) <> Z.to_nat (off fid + Z.of_nat c))
        by (eapply Hother; [exact Hf'|exact Hs'|lia|left; congruence]).
      rewrite list_lookup_insert_ne by congruence.
      rewrite cell_written_other by (lia || exact Hd). split; assumption.
  - (* the dense columns *)
    intros fid' rid' bin' base' Hf' Hty' Hb' Hin'.
    apply elem_of_app in Hin' as [Hin'|Hin'].
    + destruct (Fde fid' rid' bin' base' Hf' Hty' Hb' Hin') as [Hfl Hcell].
      assert (Hin'' : elem_of (rid', fid', bin') es)
        by (rewrite Hsplit; apply elem_of_app; left; exact Hin').
      destruct (entry_range _ Hin'') as [Hrid' _]. cbn [fst snd] in Hrid'.
      assert (Hd : Z.to_nat (off fid' + rid') <> Z.to_nat (off fid + Z.of_nat c)).
      { eapply Hother; [exact Hf'|exact (dense_size fid' Hf' Hty')|lia|].
        left. congruence. }
      rewrite cell_written_other by (lia || exact Hd). split; assumption.
    + apply list_elem_of_singleton in Hin'. injection Hin' as -> -> ->. congruence.
  - (* the flags that are left *)
    intros fid' rid' Hf' Hty' Hrid' Hnone.
    apply Fmi; try assumption.
    intros bin' Hin'. apply (Hnone bin'). apply elem_of_app. left. exact Hin'.
Qed.

Lemma filled_step done e rest s :
  es = done ++ e :: rest ->
  filled w nrow m1 done s ->
  exists s',
    SetIndex_get_bin_idx w e.2 e.1.1 e.1.2 s = Ok s' /\ filled w nrow m1 (done ++ [e]) s'.
Proof using All.
  destruct e as [[rid fid] bin], s as [m nz]. cbn [fst snd]. intros Hsplit F.
  assert (He : elem_of (rid, fid, bin) es)
    by (rewrite Hsplit; apply elem_of_app; right; apply elem_of_cons; left; reflexivity).
  destruct (entry_range _ He) as [_ Hfid]. cbn [fst snd] in Hfid.
  destruct (lookup_lt_is_Some_2 (ColumnMatrix.type_ m1) (Z.to_nat fid)) as [[] Hty]; [lia| |].
  - eapply filled_dense; eassumption.
  - eapply filled_sparse; eassumption.
Qed.

Lemma filled_all rest : forall done s,
  es = done ++ rest ->
  filled w nrow m1 done s ->
  exists s', assign_each (SetIndex_get_bin_idx w) rest s = Ok s' /\ filled w nrow m1 es s'.
Proof using All.
  induction rest as [|e rest IH]; intros done s Hsplit F.
  - rewrite app_nil_r in Hsplit. subst done. exists s. split; [reflexivity|exact F].
  - destruct (filled_step done e rest s Hsplit F) as (s1 & Hs1 & F1).
    cbn [assign_each]. rewrite Hs1. cbn [result_bind].
    apply (IH (done ++ [e])); [|exact F1].
    rewrite <- app_assoc. exact Hsplit.
Qed.

Lemma filled_start :
  filled w nrow m1 [] (m1, replicate (length (ColumnMatrix.type_ m1)) 0).
Proof using All.
  constructor; cbn [fst snd entries_of length]; try reflexivity.
  - apply length_replicate.
  - intros fid Hf Hty. apply lookup_replicate_2. eapply lookup_lt_Some, Hty.
  - intros fid k rid bin base _ _ _ Hk. destruct k; discriminate.
  - intros fid rid bin base _ _ _ Hin. inversion Hin.
Qed.

(** *** Reading the columns of a filled matrix *)

Lemma GetColumn_layout m (fid : nat) type size base :
  same_layout m1 m ->
  Z.of_nat w = width (ColumnMatrix.bins_type_size_ m1) ->
  ColumnMatrix.type_ m1 !! fid = Some type ->
  sizes !! fid = Some size ->
  ColumnMatrix.index_base_ m1 !! fid = Some base ->
  exists bin_index,
    length bin_index = Z.to_nat size /\
    (forall k, (k < Z.to_nat size)%nat ->
       bin_index !! k =
       Some (cell w (ColumnMatrix.index_ m) (Z.to_nat (off (Z.of_nat fid)) + k))) /\
    GetColumn w (ColumnMatrix.any_missing_ m1) m fid =
    Ok (match type with
        | kDenseColumn =>
            Dense (DenseColumn.mk (Column.mk type bin_index (bst_bin_t_of base))
                                  (ColumnMatrix.missing_flags_ m) (off (Z.of_nat fid)))
        | kSparseColumn =>
            Sparse (SparseColumn.mk (Column.mk type bin_index (bst_bin_t_of base))
                      (take (Z.to_nat size)
                            (drop (Z.to_nat (off (Z.of_nat fid)))
                                  (ColumnMatrix.row_ind_ m))))
        end).
Proof using All.
  intros F Hw Hty Hsize Hb.
  destruct F as [Ft Fo Fb Fs Fa Fc Fil Frl Ffl].
  pose proof (lookup_lt_Some _ _ _ Hty) as Hfid.
  rewrite <- (Nat2Z.id fid) in Hsize.
  pose proof (column_end (Z.of_nat fid) size ltac:(lia) Hsize) as [Hs0 Hend].
  pose proof (column_offset_range (Z.of_nat fid)) as Hoff.
  pose proof (column_offset_next (Z.of_nat fid) size ltac:(lia) Hsize) as Hnext.
  pose proof (feature_offset_at (Z.of_nat fid) ltac:(lia)) as Hat.
  pose proof (feature_offset_at (Z.of_nat fid + 1) ltac:(lia)) as Hat'.
  rewrite Nat2Z.id in Hat.
  replace (Z.to_nat (Z.of_nat fid + 1)) with (S fid) in Hat' by lia.
  set (o := off (Z.of_nat fid)) in *.
  set (bytes_of_column :=
         take (Z.to_nat size * w) (drop (Z.to_nat o * w) (ColumnMatrix.index_ m))).
  exists (cells w (Z.to_nat size) bytes_of_column).
  split; [apply length_cells|]. split.
  - intros k Hk. rewrite cells_lookup by assumption. f_equal.
    apply cell_span. exact Hk.
  - unfold GetColumn. rewrite Fs, <- Hw, Z.eqb_refl. cbn [negb].
    rewrite Fo, (at_index_lookup _ _ _ Hat). cbn [result_bind].
    unfold column_size.
    replace (Z.to_nat (uint32_t_wrap (Z.of_nat fid + 1))) with (S fid)
      by (unfold uint32_t_wrap; rewrite Z.mod_small; lia).
    rewrite Hat, Hat'. cbn [of_option result_bind].
    assert (Hcs : size_t_wrap (off (Z.of_nat fid + 1) - o) = size)
      by (unfold size_t_wrap; rewrite Z.mod_small; lia).
    rewrite Hcs.
    assert (Hbo : size_t_wrap (o * Z.of_nat w) = Z.of_nat (Z.to_nat o * w)).
    { unfold size_t_wrap. rewrite Z.mod_small; nia. }
    rewrite Hbo. unfold span.
    destruct (Z.leb_spec (Z.of_nat (Z.to_nat o * w) + size * Z.of_nat w)
                         (Z.of_nat (length (ColumnMatrix.index_ m)))) as [_|Hout];
      [|rewrite Fil in Hout; nia].
    cbn [result_bind]. rewrite Nat2Z.id.
    replace (Z.to_nat (size * Z.of_nat w)) with (Z.to_nat size * w)%nat by nia.
    fold bytes_of_column.
    rewrite Ft, (at_index_lookup _ _ _ Hty). cbn [result_bind].
    rewrite Fb, (at_index_lookup _ _ _ Hb).
    destruct type.
    + rewrite Fa, Bool.eqb_reflx. cbn [negb result_bind]. reflexivity.
    + cbn [result_bind]. pose proof (Hrows (ex_intro _ _ Hty)) as Hrows'.
      destruct (Z.leb_spec (o + size) (Z.of_nat (length (ColumnMatrix.row_ind_ m))))
        as [_|Hout]; [|rewrite Frl in Hout; lia].
      cbn [result_bind]. reflexivity.
Qed.

Lemma filled_same_layout done s : filled w nrow m1 done s -> same_layout m1 s.1.
Proof using All. intros [Ft Fo Fb Fs Fa Fc Fil Frl Ffl Fnl Fnz Fsp Fde Fmi]. constructor; assumption. Qed.

Lemma GetColumn_filled s (fid : nat) type size base :
  filled w nrow m1 es s ->
  Z.of_nat w = width (ColumnMatrix.bins_type_size_ m1) ->
  ColumnMatrix.type_ m1 !! fid = Some type ->
  sizes !! fid = Some size ->
  ColumnMatrix.index_base_ m1 !! fid = Some base ->
  exists bin_index,
    length bin_index = Z.to_nat size /\
    (forall k, (k < Z.to_nat size)%nat ->
       bin_index !! k =
       Some (cell w (ColumnMatrix.index_ s.1) (Z.to_nat (off (Z.of_nat fid)) + k))) /\
    GetColumn w (ColumnMatrix.any_missing_ m1) s.1 fid =
    Ok (match type with
        | kDenseColumn =>
            Dense (DenseColumn.mk (Column.mk type bin_index (bst_bin_t_of base))
                                  (ColumnMatrix.missing_flags_ s.1) (off (Z.of_nat fid)))
        | kSparseColumn =>
            Sparse (SparseColumn.mk (Column.mk type bin_index (bst_bin_t_of base))
                      (take (Z.to_nat size)
                            (drop (Z.to_nat (off (Z.of_nat fid)))
                                  (ColumnMatrix.row_ind_ s.1))))
        end).
Proof using All. intros F. apply GetColumn_layout, (filled_same_layout es s F). Qed.

Lemma bin_at_dense_cell m (fid rid : nat) base :
  same_layout m1 m ->
  Z.of_nat w = width (ColumnMatrix.bins_type_size_ m1) ->
  ColumnMatrix.type_ m1 !! fid = Some kDenseColumn ->
  ColumnMatrix.index_base_ m1 !! fid = Some base ->
  ColumnMatrix.any_missing_ m1 = false ->
  Z.of_nat rid < nrow ->
  bin_at m fid rid =
  Ok (bst_bin_t_of
        (uint32_t_wrap
           (bst_bin_t_of base +
            cell w (ColumnMatrix.index_ m) (Z.to_nat (off (Z.of_nat fid)) + rid)))).
Proof using All.
  intros L Hw Hty Hb Hany Hrid.
  pose proof (dense_size (Z.of_nat fid) ltac:(lia)) as Hsize.
  rewrite Nat2Z.id in Hsize. specialize (Hsize Hty).
  destruct (GetColumn_layout m fid kDenseColumn nrow base L Hw Hty Hsize Hb)
    as (bin_index & Hlen' & Hcells & Hget).
  unfold bin_at.
  rewrite (sl_size _ _ L), (sl_any _ _ L), <- Hw, Nat2Z.id, Hget.
  cbn [result_bind]. rewrite Hany.
  unfold DenseColumn.GetBinIdx, GetGlobalBinIdx.
  cbn [DenseColumn.column Column.index_ Column.index_base_].
  rewrite Hcells by lia. reflexivity.
Qed.

Lemma bin_at_dense_stored s (fid rid : nat) bin base :
  filled w nrow m1 es s ->
  Z.of_nat w = width (ColumnMatrix.bins_type_size_ m1) ->
  ColumnMatrix.type_ m1 !! fid = Some kDenseColumn ->
  ColumnMatrix.index_base_ m1 !! fid = Some base ->
  elem_of (Z.of_nat rid, Z.of_nat fid, bin) es ->
  bin_at s.1 fid rid =
  Ok (bst_bin_t_of (uint32_t_wrap (bst_bin_t_of base + local_bin w base bin))).
Proof using All.
  intros F Hw Hty Hb Hin.
  destruct (entry_range _ Hin) as [Hrid _]. cbn [fst snd] in Hrid.
  pose proof (dense_size (Z.of_nat fid) ltac:(lia)) as Hsize.
  rewrite Nat2Z.id in Hsize. specialize (Hsize Hty).
  destruct (GetColumn_filled s fid kDenseColumn nrow base F Hw Hty Hsize Hb)
    as (bin_index & Hlen' & Hcells & Hget).
  pose proof (fi_dense _ _ _ _ _ F (Z.of_nat fid) (Z.of_nat rid) bin base ltac:(lia)) as Hd.
  rewrite Nat2Z.id in Hd. destruct (Hd Hty Hb Hin) as [Hflag Hcell]. clear Hd.
  rewrite <- (Nat2Z.id fid) in Hsize.
  pose proof (slot_range (Z.of_nat fid) nrow (Z.of_nat rid) ltac:(lia) Hsize Hrid) as Hslot.
  pose proof (column_offset_range (Z.of_nat fid)) as Hoff.
  unfold bin_at.
  rewrite (fi_size _ _ _ _ _ F), (fi_any _ _ _ _ _ F), <- Hw, Nat2Z.id, Hget.
  cbn [result_bind].
  assert (Hglobal : GetGlobalBinIdx
                      (Column.mk kDenseColumn bin_index (bst_bin_t_of base)) rid
                    = Some (uint32_t_wrap (bst_bin_t_of base + local_bin w base bin))).
  { unfold GetGlobalBinIdx. cbn [Column.index_ Column.index_base_].
    rewrite Hcells by lia. rewrite <- Hcell. do 4 f_equal. lia. }
  unfold DenseColumn.GetBinIdx, DenseColumn.IsMissing.
  cbn [DenseColumn.column DenseColumn.missing_flags_ DenseColumn.feature_offset_].
  rewrite Hglobal.
  destruct (ColumnMatrix.any_missing_ m1); [|reflexivity].
  assert (Hwrap : size_t_wrap (off (Z.of_nat fid) + Z.of_nat rid)
                  = off (Z.of_nat fid) + Z.of_nat rid)
    by (unfold size_t_wrap; apply Z.mod_small; lia).
  rewrite Hwrap, Hflag. reflexivity.
Qed.

Lemma bin_at_dense_missing s (fid rid : nat) :
  filled w nrow m1 es s ->
  Z.of_nat w = width (ColumnMatrix.bins_type_size_ m1) ->
  ColumnMatrix.type_ m1 !! fid = Some kDenseColumn ->
  ColumnMatrix.any_missing_ m1 = true ->
  (forall i, (i < length (ColumnMatrix.missing_flags_ m1))%nat ->
     ColumnMatrix.missing_flags_ m1 !! i = Some true) ->
  Z.of_nat rid < nrow ->
  (forall bin, ~ elem_of (Z.of_nat rid, Z.of_nat fid, bin) es) ->
  bin_at s.1 fid rid = Ok kMissingId.
Proof using All.
  intros F Hw Hty Hany Hinit Hrid Hnone.
  pose proof (lookup_lt_Some _ _ _ Hty) as Hfid.
  destruct (lookup_lt_is_Some_2 (ColumnMatrix.index_base_ m1) fid) as [base Hb]; [lia|].
  pose proof (dense_size (Z.of_nat fid) ltac:(lia)) as Hsize.
  rewrite Nat2Z.id in Hsize. specialize (Hsize Hty).
  destruct (GetColumn_filled s fid kDenseColumn nrow base F Hw Hty Hsize Hb)
    as (bin_index & Hlen' & Hcells & Hget).
  pose proof (fi_missing _ _ _ _ _ F (Z.of_nat fid) (Z.of_nat rid) ltac:(lia)) as Hm.
  rewrite Nat2Z.id in Hm. specialize (Hm Hty ltac:(lia) Hnone).
  rewrite <- (Nat2Z.id fid) in Hsize.
  pose proof (slot_range (Z.of_nat fid) nrow (Z.of_nat rid) ltac:(lia) Hsize ltac:(lia))
    as Hslot.
  rewrite Hinit in Hm by lia.
  unfold bin_at.
  rewrite (fi_size _ _ _ _ _ F), (fi_any _ _ _ _ _ F), <- Hw, Nat2Z.id, Hget.
  cbn [result_bind]. rewrite Hany.
  unfold DenseColumn.GetBinIdx, DenseColumn.IsMissing.
  cbn [DenseColumn.column DenseColumn.missing_flags_ DenseColumn.feature_offset_].
  assert (Hwrap : size_t_wrap (off (Z.of_nat fid) + Z.of_nat rid)
                  = off (Z.of_nat fid) + Z.of_nat rid)
    by (unfold size_t_wrap; apply Z.mod_small; lia).
  rewrite Hwrap, Hm. reflexivity.
Qed.

Lemma GetColumn_sparse s (fid : nat) base :
  filled w nrow m1 es s ->
  Z.of_nat w = width (ColumnMatrix.bins_type_size_ m1) ->
  ColumnMatrix.type_ m1 !! fid = Some kSparseColumn ->
  ColumnMatrix.index_base_ m1 !! fid = Some base ->
  ColumnMatrix.feature_counts_ m1 !! fid =
    Some (Z.of_nat (length (entries_of (Z.of_nat fid) es))) ->
  GetColumn w (ColumnMatrix.any_missing_ m1) s.1 fid =
  Ok (Sparse (SparseColumn.mk
                (Column.mk kSparseColumn
                   (map (fun e => local_bin w base e.2) (entries_of (Z.of_nat fid) es))
                   (bst_bin_t_of base))
                (map fst (entries_of (Z.of_nat fid) es)))).
Proof using All.
  intros F Hw Hty Hb Hcount.
  set (occ := entries_of (Z.of_nat fid) es) in *.
  assert (Hsize : sizes !! fid = Some (Z.of_nat (length occ)))
    by (rewrite column_sizes_lookup, Hty, Hcount; reflexivity).
  destruct (GetColumn_filled s fid kSparseColumn _ base F Hw Hty Hsize Hb)
    as (bin_index & Hlen' & Hcells & Hget).
  rewrite Nat2Z.id in Hlen', Hcells, Hget.
  rewrite <- (Nat2Z.id fid) in Hsize, Hty, Hb.
  pose proof (column_end (Z.of_nat fid) _ ltac:(lia) Hsize) as [_ Hend].
  pose proof (column_offset_range (Z.of_nat fid)) as Hoff.
  set (o := off (Z.of_nat fid)) in *.
  assert (Hrows' : take (length occ) (drop (Z.to_nat o) (ColumnMatrix.row_ind_ s.1))
                   = map fst occ).
  { apply list_eq. intros k. rewrite list_lookup_fmap.
    destruct (Nat.lt_ge_cases k (length occ)) as [Hk|Hk].
    - rewrite lookup_take_lt, lookup_drop by assumption.
      destruct (lookup_lt_is_Some_2 occ k Hk) as [[r b] Hkk]. rewrite Hkk. cbn.
      destruct (fi_sparse _ _ _ _ _ F (Z.of_nat fid) k r b base ltac:(lia) Hty Hb Hkk)
        as [Hr _].
      rewrite <- Hr. f_equal. fold o. lia.
    - rewrite lookup_take_ge by assumption.
      rewrite (lookup_ge_None_2 occ k) by assumption. reflexivity. }
  assert (Hbins : bin_index = map (fun e => local_bin w base e.2) occ).
  { apply list_eq. intros k. rewrite list_lookup_fmap.
    destruct (Nat.lt_ge_cases k (length occ)) as [Hk|Hk].
    - rewrite Hcells by assumption.
      destruct (lookup_lt_is_Some_2 occ k Hk) as [[r b] Hkk]. rewrite Hkk. cbn.
      destruct (fi_sparse _ _ _ _ _ F (Z.of_nat fid) k r b base ltac:(lia) Hty Hb Hkk)
        as [_ Hc].
      rewrite <- Hc. do 2 f_equal. fold o. lia.
    - rewrite (lookup_ge_None_2 bin_index k) by lia.
      rewrite (lookup_ge_None_2 occ k) by assumption. reflexivity. }
  rewrite Hrows', Hbins in Hget. exact Hget.
Qed.

Lemma bin_at_sparse s (fid rid : nat) base :
  filled w nrow m1 es s ->
  Z.of_nat w = width (ColumnMatrix.bins_type_size_ m1) ->
  ColumnMatrix.type_ m1 !! fid = Some kSparseColumn ->
  ColumnMatrix.index_base_ m1 !! fid = Some base ->
  ColumnMatrix.feature_counts_ m1 !! fid =
    Some (Z.of_nat (length (entries_of (Z.of_nat fid) es))) ->
  ascending (map fst (entries_of (Z.of_nat fid) es)) ->
  bin_at s.1 fid rid =
  Ok (match lookup_row (map fst (entries_of (Z.of_nat fid) es))
                       (map (fun e => local_bin w base e.2) (entries_of (Z.of_nat fid) es))
                       (Z.of_nat rid) with
      | Some b => bst_bin_t_of (uint32_t_wrap (bst_bin_t_of base + b))
      | None => kMissingId
      end).
Proof using All.
  intros F Hw Hty Hb Hcount Hasc.
  pose proof (GetColumn_sparse s fid base F Hw Hty Hb Hcount) as Hget.
  set (occ := entries_of (Z.of_nat fid) es) in *.
  set (c := SparseColumn.mk
              (Column.mk kSparseColumn (map (fun e => local_bin w base e.2) occ)
                         (bst_bin_t_of base))
              (map fst occ)) in *.
  assert (Hwf : well_formed c).
  { unfold well_formed, Size. cbn. rewrite !length_map. reflexivity. }
  destruct (GetInitialState_partition c (Z.of_nat rid) Hwf Hasc) as (p & Hp & Hfnb).
  unfold bin_at.
  rewrite (fi_size _ _ _ _ _ F), (fi_any _ _ _ _ _ F), <- Hw, Nat2Z.id, Hget.
  cbn [result_bind]. rewrite Hp. cbn [of_option result_bind].
  rewrite (GetBinIdx_bin_of_row c (Z.of_nat rid) p p Hwf Hasc Hfnb (Nat.le_refl p)).
  cbn [option_map of_option fst]. reflexivity.
Qed.

(** *** [SetIndexAllDense]: the rows become columns *)

Lemma SetIndexAllDense_transposes page index gmat (n : nat) :
  length (ColumnMatrix.type_ m1) = n ->
  (forall fid, (fid < n)%nat -> ColumnMatrix.type_ m1 !! fid = Some kDenseColumn) ->
  Z.of_nat n * nrow * Z.of_nat w <= Z.of_nat (length index) ->
  Z.of_nat n * (nrow + 1) < 2 ^ 64 ->
  exists m',
    SetIndexAllDense w page index gmat nrow (Z.of_nat n) true m1 = Ok m' /\
    same_layout m1 m' /\
    forall fid rid : nat,
      (fid < n)%nat -> Z.of_nat rid < nrow ->
      cell w (ColumnMatrix.index_ m') (Z.to_nat (off (Z.of_nat fid)) + rid) =
      cell w index (rid * n + fid).
Proof using All.
  intros Hn Hdense Hindex_in Hfits.
  unfold SetIndexAllDense.
  match goal with
  | |- context [for_loop ?k ?first ?body ?s] =>
      destruct (for_loop_invariant
                  (fun r m =>
                     same_layout m1 m /\
                     forall fid rid : nat,
                       (fid < n)%nat -> (rid < r)%nat ->
                       cell w (ColumnMatrix.index_ m) (Z.to_nat (off (Z.of_nat fid)) + rid) =
                       cell w index (rid * n + fid))
                  k first body s) as (m' & Hm' & L & Hcells)
  end.
  - split; [constructor; reflexivity|]. intros fid rid _ Hr. lia.
  - intros r m Hr [L Hdone]. rewrite Z.add_0_l.
    assert (Hb : size_t_wrap (Z.of_nat r * Z.of_nat n) = Z.of_nat (r * n))
      by (unfold size_t_wrap; rewrite Z.mod_small; nia).
    assert (He : size_t_wrap ((Z.of_nat r + 1) * Z.of_nat n) = Z.of_nat (r * n + n))
      by (unfold size_t_wrap; rewrite Z.mod_small; nia).
    rewrite Hb, He.
    replace (Z.to_nat (Z.of_nat (r * n + n) - Z.of_nat (r * n))) with n by lia.
    match goal with
    | |- context [for_loop ?k ?first ?body ?s] =>
        destruct (for_loop_invariant
                    (fun j m =>
                       same_layout m1 m /\
                       (forall fid rid : nat,
                          (fid < n)%nat -> (rid < r)%nat ->
                          cell w (ColumnMatrix.index_ m)
                               (Z.to_nat (off (Z.of_nat fid)) + rid) =
                          cell w index (rid * n + fid)) /\
                       forall fid : nat,
                         (fid < j)%nat ->
                         cell w (ColumnMatrix.index_ m)
                              (Z.to_nat (off (Z.of_nat fid)) + r) =
                         cell w index (r * n + fid))
                    k first body s) as (m2 & Hm2 & L2 & Hold & Hnew)
    end.
    + split; [exact L|]. split; [exact Hdone|]. intros fid Hf. lia.
    + intros j m3 Hj (L3 & Hold & Hnew). rewrite Z.add_0_l.
      pose proof (Hdense j Hj) as Hty.
      pose proof (dense_size (Z.of_nat j) ltac:(lia)) as Hsize.
      rewrite Nat2Z.id in Hsize. specialize (Hsize Hty).
      rewrite <- (Nat2Z.id j) in Hsize.
      pose proof (slot_range (Z.of_nat j) nrow (Z.of_nat r) ltac:(lia) Hsize ltac:(lia))
        as Hslot.
      pose proof (column_offset_range (Z.of_nat j)) as Hoff.
      rewrite (sl_offsets _ _ L3).
      rewrite (at_index_Z _ (Z.of_nat j) (off (Z.of_nat j)))
        by (lia || (apply feature_offset_at; lia)).
      cbn [result_bind].
      replace (Z.of_nat (r * n) + Z.of_nat j) with (Z.of_nat (r * n + j)) by lia.
      assert (Hread : ((r * n + j) * w + w <= length index)%nat).
      { assert (Z.of_nat (r * n + j) + 1 <= Z.of_nat n * nrow) by nia.
        assert (Z.of_nat ((r * n + j) * w + w) <= Z.of_nat n * nrow * Z.of_nat w) by nia.
        lia. }
      rewrite read_cell_cell by exact Hread. cbn [result_bind].
      assert (Hwrap : size_t_wrap (off (Z.of_nat j) + Z.of_nat r)
                      = off (Z.of_nat j) + Z.of_nat r)
        by (unfold size_t_wrap; apply Z.mod_small; lia).
      rewrite Hwrap.
      rewrite write_cell_Z by (lia || (rewrite (sl_index_length _ _ L3); nia)).
      cbn [result_bind]. eexists. split; [reflexivity|].
      assert (Hin : (Z.to_nat (off (Z.of_nat j) + Z.of_nat r) * w + w
                     <= length (ColumnMatrix.index_ m3))%nat)
        by (rewrite (sl_index_length _ _ L3); nia).
      assert (Hother : forall fid rid : nat,
                (fid < n)%nat -> Z.of_nat rid < nrow -> fid <> j \/ rid <> r ->
                (Z.to_nat (off (Z.of_nat fid)) + rid)%nat
                <> Z.to_nat (off (Z.of_nat j) + Z.of_nat r)).
      { intros fid rid Hf Hrid Hne.
        pose proof (dense_size (Z.of_nat fid) ltac:(lia)) as Hsize'.
        rewrite Nat2Z.id in Hsize'. specialize (Hsize' (Hdense fid Hf)).
        rewrite <- (Nat2Z.id fid) in Hsize'.
        pose proof (column_offset_range (Z.of_nat fid)).
        pose proof (slots_apart (Z.of_nat fid) (Z.of_nat j) nrow nrow (Z.of_nat rid)
                      (Z.of_nat r) ltac:(lia) ltac:(lia) Hsize' Hsize ltac:(lia) ltac:(lia)
                      ltac:(lia)).
        lia. }
      split; [|split].
      * destruct L3 as [Ft Fo Fb Fs Fa Fc Fil Frl Ffl].
        constructor; projections; try assumption.
        rewrite length_written by lia. exact Fil.
      * intros fid rid Hf Hrid. projections.
        rewrite cell_written_other by (lia || (apply Hother; lia)).
        apply Hold; assumption.
      * intros fid Hf. projections.
        destruct (Nat.eq_dec fid j) as [->|Hne].
        -- replace (Z.to_nat (off (Z.of_nat j)) + r)%nat
             with (Z.to_nat (off (Z.of_nat j) + Z.of_nat r)) by lia.
           rewrite cell_written_same by lia.
           apply Z.mod_small, cell_range.
        -- rewrite cell_written_other by (lia || (apply Hother; lia)).
           apply Hnew. lia.
    + rewrite Hm2. eexists. split; [reflexivity|]. split; [exact L2|].
      intros fid rid Hf Hrid. destruct (Nat.eq_dec rid r) as [->|Hne].
      * apply Hnew. exact Hf.
      * apply Hold; [exact Hf|lia].
  - exists m'. split; [exact Hm'|]. split; [exact L|].
    intros fid rid Hf Hrid. apply Hcells; [exact Hf|lia].
Qed.

End Filling.

Lemma length_vector_resize {A : Type} (v : list A) (n : Z) (x : A) :
  length (vector_resize v n x) = Z.to_nat n.
Proof.
  unfold vector_resize. rewrite length_app, length_take, length_replicate. lia.
Qed.

(** *** The offsets of the columns *)

Lemma sum_of_snoc l x : sum_of (l ++ [x]) = sum_of l + x.
Proof.
  induction l as [|y l IH]; unfold sum_of in *; cbn [foldr app]; [lia|]. rewrite IH. lia.
Qed.

Lemma length_offsets_of nrow type_ feature_counts_ :
  length type_ = length feature_counts_ ->
  length (offsets_of nrow type_ feature_counts_) = S (length type_).
Proof.
  intros Hlen. unfold offsets_of. cbn [length]. f_equal.
  generalize 0 at 1. revert feature_counts_ Hlen.
  induction type_ as [|t types IH]; intros counts Hlen accum.
  - destruct counts; [reflexivity|discriminate].
  - destruct counts as [|count counts]; [discriminate|]. cbn [offsets_from length].
    f_equal. apply IH. simpl in Hlen. lia.
Qed.

Lemma offsets_of_next nrow type_ feature_counts_ fid t accum :
  length type_ = length feature_counts_ ->
  type_ !! fid = Some t ->
  offsets_of nrow type_ feature_counts_ !! fid = Some accum ->
  exists count,
    feature_counts_ !! fid = Some count /\
    offsets_of nrow type_ feature_counts_ !! S fid =
    Some (size_t_wrap (accum + match t with kDenseColumn => nrow | kSparseColumn => count end)).
Proof.
  intros Hlen Ht Hacc. pose proof (lookup_lt_Some _ _ _ Ht) as Hfid.
  destruct (lookup_lt_is_Some_2 feature_counts_ fid ltac:(lia)) as [count Hc].
  exists count. split; [exact Hc|].
  rewrite offsets_of_lookup in Hacc by (assumption || lia). injection Hacc as <-.
  rewrite offsets_of_lookup by (assumption || lia). f_equal.
  assert (Hd : column_sizes nrow type_ feature_counts_ !! fid =
               Some (match t with kDenseColumn => nrow | kSparseColumn => count end)).
  { unfold column_sizes. rewrite lookup_zip_with, Ht. cbn. rewrite Hc. reflexivity. }
  rewrite (take_S_r _ _ _ Hd), sum_of_snoc. unfold size_t_wrap.
  rewrite Zplus_mod_idemp_l. reflexivity.
Qed.

(** The loop of [Init] over the features, when [nfeature + 1] does not
    wrap. *)
Lemma feature_offsets_Ok nrow type_ feature_counts_ feature_offsets_ :
  length type_ = length feature_counts_ ->
  Z.of_nat (length type_) < 2 ^ 32 - 1 ->
  feature_offsets (Z.of_nat (length type_)) nrow type_ feature_counts_ feature_offsets_ =
  Ok (offsets_of nrow type_ feature_counts_).
Proof.
  intros Hlen Hn. unfold feature_offsets.
  set (n := length type_) in *.
  set (offsets := offsets_of nrow type_ feature_counts_).
  assert (Hol : length offsets = S n) by (apply length_offsets_of; assumption).
  assert (Hw : uint32_t_wrap (Z.of_nat n + 1) = Z.of_nat n + 1)
    by (apply Z.mod_small; lia).
  rewrite Hw.
  set (v := vector_resize feature_offsets_ (Z.of_nat n + 1) 0).
  assert (Hv : length v = S n) by (unfold v; rewrite length_vector_resize; lia).
  change (assign v 0 0) with (assign v (Z.of_nat 0) 0).
  rewrite (assign_insert v 0 0) by lia. cbn [result_bind].
  replace (Z.to_nat (Z.of_nat n + 1 - 1)) with n by lia.
  match goal with
  | |- result_bind (for_loop n 1 ?body ?s) _ = _ =>
      destruct (for_loop_invariant
                  (fun k st => offsets !! k = Some st.1 /\
                               st.2 = take (S k) offsets ++ drop (S k) v)
                  n 1 body s) as (st & -> & Hacc & Hst)
  end.
  - cbn [fst snd]. split; [reflexivity|].
    destruct v as [|x v']; [discriminate|]. reflexivity.
  - intros k st Hk [Hacc Hst].
    destruct (lookup_lt_is_Some_2 type_ k ltac:(fold n; lia)) as [t Ht].
    destruct (offsets_of_next nrow type_ feature_counts_ k t st.1 Hlen Ht Hacc)
      as (count & Hc & Hnext).
    replace (uint32_t_wrap (1 + Z.of_nat k - 1)) with (Z.of_nat k)
      by (unfold uint32_t_wrap; rewrite Z.mod_small; lia).
    rewrite (at_index_lookup type_ k t Ht). cbn [result_bind].
    set (accum := size_t_wrap
                    (st.1 + match t with kDenseColumn => nrow | kSparseColumn => count end)).
    assert (Hbody :
      match t with
      | kDenseColumn => Ok (size_t_wrap (st.1 + nrow))
      | kSparseColumn =>
          let* count := at_index feature_counts_ (Z.of_nat k) in
          Ok (size_t_wrap (st.1 + count))
      end = Ok accum).
    { destruct t; [reflexivity|].
      rewrite (at_index_lookup feature_counts_ k count Hc). reflexivity. }
    rewrite Hbody. cbn [result_bind].
    replace (1 + Z.of_nat k) with (Z.of_nat (S k)) by lia.
    rewrite (assign_insert st.2 (S k) accum)
      by (rewrite Hst, length_app, length_take, length_drop; lia).
    cbn [result_bind]. eexists. split; [reflexivity|]. cbn [fst snd].
    split; [exact Hnext|].
    rewrite Hst, insert_app_r_alt by (rewrite length_take; lia).
    rewrite length_take, Nat.min_l, Nat.sub_diag by lia.
    rewrite (take_S_r offsets (S k) accum Hnext), <- app_assoc. f_equal.
    destruct (lookup_lt_is_Some_2 v (S k) ltac:(lia)) as [x Hx].
    rewrite (drop_S v x (S k) Hx). reflexivity.
  - cbn [result_bind]. f_equal. rewrite Hst.
    rewrite take_ge, drop_ge by lia. apply app_nil_r.
Qed.

(** X21: for features whose number plus one is below 2^32, the loop of
    [Init] leaves one offset for every feature and one more, the one at
    [fid] being the sum, in [size_t], of the sizes of the columns before
    [fid], whatever the vector held before; and [GetColumn(fid)] gets from
    them a column of as many entries as there are rows when the feature is
    dense, and as the feature has entries when it is sparse, even when the
    sums have wrapped.  For 2^32 - 1 features [nfeature + 1] wraps to 0:
    the vector is resized to no element, and the assignment of its first
    element is outside it. *)
Theorem feature_offsets_prefix_sums (nrow : Z) (type_ : list ColumnType)
    (feature_counts_ feature_offsets_ : list Z) :
  length type_ = length feature_counts_ ->
  0 <= nrow < 2 ^ 64 ->
  Forall (fun count => 0 <= count < 2 ^ 64) feature_counts_ ->
  (Z.of_nat (length type_) < 2 ^ 32 - 1 ->
   exists offsets,
     feature_offsets (Z.of_nat (length type_)) nrow type_ feature_counts_ feature_offsets_ =
     Ok offsets /\
     length offsets = S (length type_) /\
     (forall fid, (fid <= length type_)%nat ->
        offsets !! fid =
        Some (size_t_wrap (sum_of (take fid (column_sizes nrow type_ feature_counts_))))) /\
     (forall fid t count,
        type_ !! fid = Some t -> feature_counts_ !! fid = Some count ->
        column_size offsets fid =
        Some (match t with kDenseColumn => nrow | kSparseColumn => count end))) /\
  (Z.of_nat (length type_) = 2 ^ 32 - 1 ->
   feature_offsets (Z.of_nat (length type_)) nrow type_ feature_counts_ feature_offsets_ =
   OutOfBounds).
Proof.
  intros Hlen Hnrow Hcounts. split.
  - intros Hn. exists (offsets_of nrow type_ feature_counts_).
    split; [apply feature_offsets_Ok; assumption|].
    split; [apply length_offsets_of; assumption|]. split.
    + intros fid Hfid. apply offsets_of_lookup; assumption.
    + intros fid t count Ht Hc. unfold column_size.
      pose proof (lookup_lt_Some _ _ _ Ht) as Hfid.
      replace (Z.to_nat (uint32_t_wrap (Z.of_nat fid + 1))) with (S fid)
        by (unfold uint32_t_wrap; rewrite Z.mod_small; lia).
      destruct (lookup_lt_is_Some_2 (offsets_of nrow type_ feature_counts_) fid
                  ltac:(rewrite length_offsets_of by assumption; lia)) as [accum Hacc].
      destruct (offsets_of_next nrow type_ feature_counts_ fid t accum Hlen Ht Hacc)
        as (count' & Hc' & ->).
      rewrite Hacc. rewrite Hc in Hc'. injection Hc' as <-. f_equal.
      rewrite offsets_of_lookup in Hacc by (assumption || lia). injection Hacc as <-.
      set (a := size_t_wrap (sum_of (take fid (column_sizes nrow type_ feature_counts_)))).
      set (d := match t with kDenseColumn => nrow | kSparseColumn => count end).
      unfold size_t_wrap. rewrite Zminus_mod_idemp_l.
      replace (a + d - a) with d by lia.
      apply Z.mod_small. unfold d. destruct t; [exact Hnrow|].
      eapply Forall_forall in Hcounts; [exact Hcounts|].
      apply list_elem_of_lookup. eauto.
  - intros Hn. unfold feature_offsets. rewrite Hn.
    change (uint32_t_wrap (2 ^ 32 - 1 + 1)) with 0. reflexivity.
Qed.

Lemma feature_offsets_prefix_sums_witness :
  (Z.of_nat (length [kDenseColumn; kSparseColumn; kDenseColumn]) < 2 ^ 32 - 1 ->
   exists offsets,
     feature_offsets (Z.of_nat (length [kDenseColumn; kSparseColumn; kDenseColumn])) 4
       [kDenseColumn; kSparseColumn; kDenseColumn] [4; 2; 3] [7] = Ok offsets /\
     length offsets = 4%nat /\
     (forall fid, (fid <= 3)%nat ->
        offsets !! fid =
        Some (size_t_wrap
                (sum_of (take fid (column_sizes 4 [kDenseColumn; kSparseColumn; kDenseColumn]
                                     [4; 2; 3]))))) /\
     (forall fid t count,
        [kDenseColumn; kSparseColumn; kDenseColumn] !! fid = Some t ->
        [4; 2; 3] !! fid = Some count ->
        column_size offsets fid =
        Some (match t with kDenseColumn => 4 | kSparseColumn => count end))) /\
  (Z.of_nat (length [kDenseColumn; kSparseColumn; kDenseColumn]) = 2 ^ 32 - 1 ->
   feature_offsets (Z.of_nat (length [kDenseColumn; kSparseColumn; kDenseColumn])) 4
     [kDenseColumn; kSparseColumn; kDenseColumn] [4; 2; 3] [7] = OutOfBounds).
Proof.
  apply (feature_offsets_prefix_sums 4 [kDenseColumn; kSparseColumn; kDenseColumn]
           [4; 2; 3] [7]).
  - reflexivity.
  - lia.
  - repeat constructor; lia.
Defined.

(** *** [Init] up to the call of [SetIndex] *)

Lemma quantised_counts rows page gmat :
  quantised rows page gmat ->
  let counts :=
    GHistIndexMatrix.GetFeatureCounts gmat
      (replicate (length (GHistIndexMatrix.cut_Ptrs gmat) - 1) 0) in
  length counts = (length (GHistIndexMatrix.cut_Ptrs gmat) - 1)%nat /\
  Forall (fun c => 0 <= c <= Z.of_nat (length rows)) counts /\
  forall fid, (fid < length (GHistIndexMatrix.cut_Ptrs gmat) - 1)%nat ->
    counts !! fid =
    Some (Z.of_nat (length (entries_of (Z.of_nat fid) (entries rows)))).
Proof.
  intros Q counts. subst counts. rewrite (q_counts _ _ _ Q).
  assert (Hnd : Forall (fun row : list (Z * Z) => NoDup (map fst row)) rows).
  { eapply Forall_impl; [exact (q_rows _ _ _ Q)|]. intros row [H _]. exact H. }
  split; [|split].
  - rewrite length_map, length_seq. reflexivity.
  - apply Forall_forall. intros c Hc. apply list_elem_of_fmap in Hc as (fid & -> & _).
    apply tally_feature_rows, Hnd.
  - intros fid Hfid. rewrite list_lookup_fmap, lookup_seq_lt by assumption. cbn.
    f_equal. unfold entries. rewrite length_entries_of. reflexivity.
Qed.

Lemma sum_of_bounded l b :
  Forall (fun x => 0 <= x <= b) l -> 0 <= sum_of l <= b * Z.of_nat (length l).
Proof.
  unfold sum_of. induction 1 as [|x l Hx _ IH]; cbn [foldr length]; [lia|]. nia.
Qed.

Lemma column_sizes_bounded nrow types counts :
  0 <= nrow -> Forall (fun c => 0 <= c <= nrow) counts ->
  Forall (fun x => 0 <= x <= nrow) (column_sizes nrow types counts).
Proof.
  intros Hn Hc. apply Forall_lookup. intros i x. rewrite column_sizes_lookup.
  destruct (types !! i) as [[]|]; destruct (counts !! i) as [c|] eqn:E; intros [= <-];
    [lia|]. exact (Forall_lookup_1 _ _ _ _ Hc E).
Qed.

Lemma Init_SetIndex rows page gmat sparse_threshold m :
  quantised rows page gmat ->
  GHistIndexMatrix.IsDense gmat = false ->
  let n := (length (GHistIndexMatrix.cut_Ptrs gmat) - 1)%nat in
  let nrow := Z.of_nat (length rows) in
  let counts := GHistIndexMatrix.GetFeatureCounts gmat (replicate n 0) in
  let full := Z.of_nat (length (concat rows)) =? Z.of_nat n * nrow in
  exists m1,
    Init page gmat sparse_threshold m =
    SetIndex (Z.to_nat (width (SetTypeSize (GHistIndexMatrix.max_num_bins gmat)))) page
             (GHistIndexMatrix.index_data gmat) gmat (Z.of_nat n) m1 /\
    length (ColumnMatrix.type_ m1) = n /\
    ColumnMatrix.feature_counts_ m1 = counts /\
    ColumnMatrix.feature_offsets_ m1 = offsets_of nrow (ColumnMatrix.type_ m1) counts /\
    ColumnMatrix.index_base_ m1 = GHistIndexMatrix.cut_Ptrs gmat /\
    ColumnMatrix.bins_type_size_ m1 = SetTypeSize (GHistIndexMatrix.max_num_bins gmat) /\
    ColumnMatrix.any_missing_ m1 = negb full /\
    Z.of_nat (length (ColumnMatrix.index_ m1)) =
      sum_of (column_sizes nrow (ColumnMatrix.type_ m1) counts) *
      width (SetTypeSize (GHistIndexMatrix.max_num_bins gmat)) /\
    Z.of_nat (length (ColumnMatrix.row_ind_ m1)) =
      sum_of (column_sizes nrow (ColumnMatrix.type_ m1) counts) /\
    ColumnMatrix.missing_flags_ m1 =
      replicate (Z.to_nat (sum_of (column_sizes nrow (ColumnMatrix.type_ m1) counts)))
                (negb full).
Proof.
  intros Q Hdense n nrow counts full.
  destruct (quantised_counts rows page gmat Q) as (Hclen & Hcrange & _).
  fold n in Hclen, Hcrange. fold counts in Hclen, Hcrange.
  pose proof (q_cuts _ _ _ Q) as Hcuts. pose proof (q_fits _ _ _ Q) as Hfits.
  assert (Hn : Z.of_nat n = Z.of_nat (length (GHistIndexMatrix.cut_Ptrs gmat)) - 1)
    by (subst n; lia).
  unfold Init.
  assert (Hnf : uint32_t_wrap
                  (size_t_wrap (Z.of_nat (length (GHistIndexMatrix.cut_Ptrs gmat)) - 1))
                = Z.of_nat n).
  { unfold uint32_t_wrap, size_t_wrap.
    rewrite (Z.mod_small _ (2 ^ 64)) by lia. rewrite Z.mod_small by lia. lia. }
  assert (Hnr : size_t_wrap (Z.of_nat (length (GHistIndexMatrix.row_ptr gmat)) - 1) = nrow).
  { rewrite (q_row_ptr _ _ _ Q). unfold row_ptr_of. rewrite length_row_ptr_from.
    unfold size_t_wrap. rewrite Z.mod_small; subst nrow; nia. }
  rewrite Hnf, Hnr, Nat2Z.id. fold counts.
  (* the check of the cuts *)
  match goal with
  | |- context [result_bind (for_loop ?k ?first ?body ?s) _] =>
      destruct (for_loop_invariant (fun _ _ => True) k first body s I) as (u & -> & _)
  end.
  { intros k [] Hk _. exists tt. split; [|exact I]. rewrite Z.add_0_l.
    assert (Hw : uint32_t_wrap (Z.of_nat k + 1) = Z.of_nat (S k))
      by (unfold uint32_t_wrap; rewrite Z.mod_small; lia).
    rewrite Hw.
    destruct (lookup_lt_is_Some_2 (GHistIndexMatrix.cut_Ptrs gmat) (S k)) as [next Hnext];
      [lia|].
    destruct (lookup_lt_is_Some_2 (GHistIndexMatrix.cut_Ptrs gmat) k) as [this Hthis];
      [lia|].
    rewrite (at_index_lookup _ _ _ Hnext), (at_index_lookup _ _ _ Hthis).
    cbn [result_bind].
    destruct (Z.leb_spec (uint32_t_wrap (next - this)) (2 ^ 32 - 1)); [reflexivity|].
    unfold uint32_t_wrap in *. pose proof (Z.mod_pos_bound (next - this) (2 ^ 32)). lia. }
  cbn [result_bind].
  (* the types of the columns *)
  match goal with
  | |- context [result_bind (for_loop ?k ?first ?body ?s) _] =>
      destruct (for_loop_invariant (fun _ st => length st.1 = n /\ st.2 = false)
                  k first body s) as ([types all_dense] & -> & Htl & Had)
  end.
  { cbn [fst snd]. rewrite length_vector_resize, Nat2Z.id. split; [reflexivity|exact Hdense]. }
  { intros k [types all_dense] Hk [Htl Had]. cbn [fst snd] in *. rewrite Z.add_0_l.
    destruct (lookup_lt_is_Some_2 counts k) as [count Hcount]; [lia|].
    rewrite (at_index_lookup _ _ _ Hcount). cbn [result_bind].
    destruct (SFltb _ _); rewrite assign_insert by lia; cbn [result_bind];
      eexists; (split; [reflexivity|]); cbn [fst snd]; rewrite length_insert;
      split; assumption || reflexivity. }
  cbn [result_bind fst snd] in *. subst all_dense.
  (* the storage *)
  assert (Hsizes : 0 <= sum_of (column_sizes nrow types counts) <= nrow * Z.of_nat n).
  { rewrite <- Htl, <- (length_column_sizes nrow types counts) by lia.
    apply sum_of_bounded, column_sizes_bounded; [lia|exact Hcrange]. }
  assert (Htotal : offsets_of nrow types counts !! n =
                   Some (sum_of (column_sizes nrow types counts))).
  { rewrite offsets_of_lookup by lia. f_equal.
    rewrite take_ge by (rewrite length_column_sizes; lia).
    unfold size_t_wrap. apply Z.mod_small. nia. }
  pose proof (feature_offsets_Ok nrow types counts (ColumnMatrix.feature_offsets_ m)
                ltac:(lia) ltac:(lia)) as Hfo.
  rewrite Htl in Hfo. rewrite Hfo. cbn [result_bind].
  rewrite (at_index_lookup _ _ _ Htotal). cbn [result_bind].
  assert (Hlast : GHistIndexMatrix.row_ptr gmat !! length rows =
                  Some (Z.of_nat (length (concat rows)))).
  { destruct (quantised_row_ptr rows page gmat (length rows) Q ltac:(lia)) as [H _].
    rewrite take_ge in H by lia. exact H. }
  subst nrow. rewrite (at_index_lookup _ _ _ Hlast). cbn [result_bind].
  assert (Hfull : NoMissingValues (Z.of_nat (length (concat rows))) (Z.of_nat (length rows))
                    (Z.of_nat n) = full).
  { unfold NoMissingValues, size_t_wrap. rewrite Z.mod_small by nia. reflexivity. }
  rewrite Hfull. eexists. split; [reflexivity|]. projections.
  repeat split; try reflexivity; try assumption.
  - rewrite length_resize.
    + assert (Hw : 1 <= width (SetTypeSize (GHistIndexMatrix.max_num_bins gmat)) <= 4)
        by (destruct (SetTypeSize _); cbn [width]; lia).
      unfold size_t_wrap. rewrite Z.mod_small by nia. nia.
    + unfold size_t_wrap. apply Z.mod_pos_bound. lia.
  - rewrite length_vector_resize. lia.
Qed.

(** *** [SetIndexSparse] on the rows of a quantised matrix *)

Lemma quantised_row_length rows page gmat :
  quantised rows page gmat ->
  Forall (fun row : list (Z * Z) =>
            (length row <= length (GHistIndexMatrix.cut_Ptrs gmat) - 1)%nat) rows.
Proof.
  intros Q. eapply Forall_impl; [exact (q_rows _ _ _ Q)|].
  intros row [Hnd Hall]. cbn beta in *.
  rewrite <- (length_map fst row). apply features_bounded; [exact Hnd|].
  apply Forall_fmap. eapply Forall_impl; [exact Hall|].
  intros e (base & _ & Hr & _). cbn. pose proof (q_cuts _ _ _ Q). lia.
Qed.

Lemma quantised_elements rows page gmat :
  quantised rows page gmat ->
  Z.of_nat (length (concat rows)) <=
  (Z.of_nat (length (GHistIndexMatrix.cut_Ptrs gmat)) - 1) * Z.of_nat (length rows).
Proof.
  intros Q. pose proof (length_concat_le rows _ (quantised_row_length rows page gmat Q)).
  pose proof (q_cuts _ _ _ Q). nia.
Qed.

Lemma SetIndexSparse_entries {St : Type} rows page gmat nfeature
    (f : Z -> Z -> Z -> St -> result St) (s : St) :
  quantised rows page gmat ->
  SetIndexSparse page 4 (GHistIndexMatrix.index_data gmat) gmat nfeature f s =
  assign_each f (entries rows) s.
Proof.
  intros Q. unfold SetIndexSparse.
  rewrite (q_Size _ _ _ Q), (q_offset _ _ _ Q). unfold row_ptr_of at 1.
  rewrite length_row_ptr_from.
  destruct (Z.ltb_spec (Z.of_nat (length rows)) (Z.of_nat (S (length rows)))); [|lia].
  cbn [negb]. rewrite Nat2Z.id. rewrite <- (q_offset _ _ _ Q).
  apply (SetIndexSparse_rows f _ _ _ _ (fun k => length (concat (take k rows))) rows 0%nat s).
  intros k row Hk. cbn [Nat.add].
  pose proof (lookup_lt_Some _ _ _ Hk) as Hlt.
  destruct (quantised_row_ptr rows page gmat k Q ltac:(lia)) as [R1 O1].
  destruct (quantised_row_ptr rows page gmat (S k) Q ltac:(lia)) as [R2 O2].
  rewrite (concat_take_S rows k row Hk), length_app in R2, O2.
  replace (k + 1)%nat with (S k) by lia.
  pose proof (length_concat_take_le rows (S k)) as Hle.
  rewrite (concat_take_S rows k row Hk), length_app in Hle.
  pose proof (quantised_elements rows page gmat Q) as Hel.
  pose proof (q_cuts _ _ _ Q) as Hcuts. pose proof (q_fits _ _ _ Q) as Hfits.
  repeat split; try assumption.
  - nia.
  - nia.
  - eapply quantised_entry; eassumption.
  - eapply quantised_entry; eassumption.
Qed.

(** *** [Init], then [GetColumn] and [GetBinIdx] *)

Lemma quantised_entry_range rows page gmat rid fid bin :
  quantised rows page gmat ->
  elem_of (rid, fid, bin) (entries rows) ->
  exists row base,
    rows !! Z.to_nat rid = Some row /\ elem_of (fid, bin) row /\
    0 <= rid < Z.of_nat (length rows) /\
    0 <= fid < Z.of_nat (length (GHistIndexMatrix.cut_Ptrs gmat) - 1) /\
    GHistIndexMatrix.cut_Ptrs gmat !! Z.to_nat fid = Some base /\
    0 <= base /\ base <= bin < base + GHistIndexMatrix.max_num_bins gmat /\ bin < 2 ^ 32.
Proof.
  intros Q Hin. apply elem_of_entries_from in Hin as (k & row & Hk & -> & He).
  pose proof (lookup_lt_Some _ _ _ Hk) as Hlt.
  pose proof (Forall_lookup_1 _ _ _ _ (q_rows _ _ _ Q) Hk) as [_ Hall].
  rewrite Forall_forall in Hall. destruct (Hall _ He) as (base & Hb & Hf & Hbin & H32).
  cbn [fst snd] in *.
  pose proof (Forall_lookup_1 _ _ _ _ (q_cut_range _ _ _ Q) Hb) as Hbase. cbn beta in Hbase.
  exists row, base. rewrite Z.add_0_l, Nat2Z.id.
  repeat split; try assumption; lia.
Qed.

Lemma quantised_NoDup rows page gmat :
  quantised rows page gmat ->
  Forall (fun row : list (Z * Z) => NoDup (map fst row)) rows.
Proof.
  intros Q. eapply Forall_impl; [exact (q_rows _ _ _ Q)|]. intros row [H _]. exact H.
Qed.

Lemma quantised_full_row rows page gmat row (fid : nat) :
  quantised rows page gmat ->
  Z.of_nat (length (concat rows)) =
    Z.of_nat (length (GHistIndexMatrix.cut_Ptrs gmat) - 1) * Z.of_nat (length rows) ->
  elem_of row rows ->
  (fid < length (GHistIndexMatrix.cut_Ptrs gmat) - 1)%nat ->
  exists bin, bin_in row (Z.of_nat fid) = Some bin.
Proof.
  intros Q Hfull Hrow Hfid.
  pose proof (length_concat_full rows _ (quantised_row_length rows page gmat Q) ltac:(lia))
    as Hall.
  rewrite Forall_forall in Hall. specialize (Hall row Hrow).
  pose proof (q_rows _ _ _ Q) as Hq. rewrite Forall_forall in Hq.
  destruct (Hq row Hrow) as [Hnd Hrange].
  assert (Hin : elem_of (Z.of_nat fid) (map fst row)).
  { apply (features_all _ (length (GHistIndexMatrix.cut_Ptrs gmat) - 1)); try assumption.
    - apply Forall_fmap. eapply Forall_impl; [exact Hrange|].
      intros e (base & _ & Hr & _). cbn. lia.
    - rewrite length_map. exact Hall.
    - lia. }
  apply list_elem_of_fmap in Hin as ([f bin] & Hf & Hin). cbn in Hf. subst f.
  exists bin. apply bin_in_elem_of; assumption.
Qed.

Lemma Init_filled rows page gmat sparse_threshold m :
  quantised rows page gmat ->
  GHistIndexMatrix.IsDense gmat = false ->
  exists m1 s,
    Init page gmat sparse_threshold m = Ok s.1 /\
    laid_out (Z.to_nat (width (SetTypeSize (GHistIndexMatrix.max_num_bins gmat))))
             (Z.of_nat (length rows)) m1 (entries rows) /\
    filled (Z.to_nat (width (SetTypeSize (GHistIndexMatrix.max_num_bins gmat))))
           (Z.of_nat (length rows)) m1 (entries rows) s /\
    length (ColumnMatrix.type_ m1) = (length (GHistIndexMatrix.cut_Ptrs gmat) - 1)%nat /\
    ColumnMatrix.index_base_ m1 = GHistIndexMatrix.cut_Ptrs gmat /\
    ColumnMatrix.bins_type_size_ m1 = SetTypeSize (GHistIndexMatrix.max_num_bins gmat) /\
    ColumnMatrix.any_missing_ m1 =
      negb (Z.of_nat (length (concat rows)) =?
            Z.of_nat (length (GHistIndexMatrix.cut_Ptrs gmat) - 1) *
            Z.of_nat (length rows)) /\
    (forall i, (i < length (ColumnMatrix.missing_flags_ m1))%nat ->
       ColumnMatrix.missing_flags_ m1 !! i = Some (ColumnMatrix.any_missing_ m1)) /\
    (forall fid, (fid < length (GHistIndexMatrix.cut_Ptrs gmat) - 1)%nat ->
       ColumnMatrix.feature_counts_ m1 !! fid =
       Some (Z.of_nat (length (entries_of (Z.of_nat fid) (entries rows))))).
Proof.
  intros Q Hdense.
  set (n := (length (GHistIndexMatrix.cut_Ptrs gmat) - 1)%nat).
  set (nrow := Z.of_nat (length rows)).
  set (w := Z.to_nat (width (SetTypeSize (GHistIndexMatrix.max_num_bins gmat)))).
  destruct (Init_SetIndex rows page gmat sparse_threshold m Q Hdense)
    as (m1 & HInit & Htl & Hfc & Hfo & Hib & Hbs & Ham & Hil & Hrl & Hmf).
  fold n in HInit, Htl, Hfc, Hfo, Hil, Hrl, Hmf, Ham. fold nrow in Hfo, Hil, Hrl, Hmf, Ham.
  set (full := Z.of_nat (length (concat rows)) =? Z.of_nat n * nrow) in *.
  destruct (quantised_counts rows page gmat Q) as (Hclen & Hcrange & Hcat).
  fold n in Hclen, Hcrange, Hcat. rewrite <- Hfc in Hclen, Hcrange, Hcat, Hfo, Hil, Hrl, Hmf.
  pose proof (q_cuts _ _ _ Q) as Hcuts. pose proof (q_fits _ _ _ Q) as Hfits.
  pose proof (quantised_NoDup rows page gmat Q) as Hnd.
  assert (Hww : Z.of_nat w = width (SetTypeSize (GHistIndexMatrix.max_num_bins gmat)))
    by apply width_to_nat.
  assert (Hw4 : 1 <= Z.of_nat w <= 4)
    by (rewrite Hww; destruct (SetTypeSize _); cbn [width]; lia).
  assert (H2 : 0 <= nrow) by (subst nrow; lia).
  pose proof (sum_of_bounded _ nrow
                (column_sizes_bounded nrow (ColumnMatrix.type_ m1)
                   (ColumnMatrix.feature_counts_ m1) H2 Hcrange)) as Hsizes.
  rewrite length_column_sizes, Htl in Hsizes by lia.
  (* the layout of the matrix that [SetIndex] is given *)
  assert (H1 : length (ColumnMatrix.type_ m1) = length (ColumnMatrix.feature_counts_ m1))
    by lia.
  assert (H3 : Forall (fun c => 0 <= c) (ColumnMatrix.feature_counts_ m1))
    by (eapply Forall_impl; [exact Hcrange|]; cbn; intros; lia).
  assert (H4 : sum_of (column_sizes nrow (ColumnMatrix.type_ m1)
                                    (ColumnMatrix.feature_counts_ m1)) < 2 ^ 64)
    by (subst nrow; nia).
  assert (H6 : (length (ColumnMatrix.type_ m1) <= length (ColumnMatrix.index_base_ m1))%nat)
    by (rewrite Hib; lia).
  assert (H7 : Z.of_nat (length (ColumnMatrix.index_ m1)) =
               sum_of (column_sizes nrow (ColumnMatrix.type_ m1)
                                    (ColumnMatrix.feature_counts_ m1)) * Z.of_nat w)
    by (rewrite Hww; exact Hil).
  assert (H8 : sum_of (column_sizes nrow (ColumnMatrix.type_ m1)
                                    (ColumnMatrix.feature_counts_ m1)) * Z.of_nat w < 2 ^ 64)
    by (subst nrow; nia).
  assert (H10 : Z.of_nat (length (ColumnMatrix.missing_flags_ m1)) =
                sum_of (column_sizes nrow (ColumnMatrix.type_ m1)
                                     (ColumnMatrix.feature_counts_ m1)))
    by (rewrite Hmf, length_replicate; lia).
  assert (H11 : NoDup (map fst (entries rows)))
    by (unfold entries; apply entries_keys_NoDup; exact Hnd).
  assert (H12 : Forall (fun e => 0 <= e.1.1 < nrow /\
                                 0 <= e.1.2 < Z.of_nat (length (ColumnMatrix.type_ m1)))
                       (entries rows)).
  { apply Forall_forall. intros [[rid fid] bin] Hin.
    destruct (quantised_entry_range rows page gmat rid fid bin Q Hin)
      as (row & base & _ & _ & Hr & Hf & _). cbn [fst snd]. subst nrow. lia. }
  assert (H13 : forall fid count,
            0 <= fid ->
            ColumnMatrix.type_ m1 !! Z.to_nat fid = Some kSparseColumn ->
            ColumnMatrix.feature_counts_ m1 !! Z.to_nat fid = Some count ->
            Z.of_nat (length (entries_of fid (entries rows))) <= count).
  { intros fid count Hf Hty Hc. pose proof (lookup_lt_Some _ _ _ Hty) as Hlt.
    rewrite Hcat in Hc by lia. rewrite Z2Nat.id in Hc by lia. injection Hc as <-. lia. }
  assert (H14 : Z.of_nat (length (ColumnMatrix.type_ m1)) < 2 ^ 32 - 1)
    by (pose proof (q_cuts _ _ _ Q); lia).
  (* the assignments of [SetIndex] *)
  unfold SetIndex in HInit. rewrite (SetIndexSparse_entries rows) in HInit by exact Q.
  rewrite Nat2Z.id in HInit. fold w in HInit. rewrite <- Htl in HInit.
  destruct (filled_all w nrow m1 (entries rows) H1 H2 H3 H4 Hfo H6 H7 H8 (fun _ => Hrl) H10
              H11 H12 H13 H14 (entries rows) [] _ eq_refl
              (filled_start w nrow m1 (entries rows) H1 H2 H3 H4 Hfo H6 H7 H8 (fun _ => Hrl)
                 H10 H11 H12 H13 H14)) as (s & Hs & F).
  rewrite Hs in HInit. cbn [result_bind] in HInit.
  exists m1, s. split; [exact HInit|].
  split; [constructor; assumption || (intros _; exact Hrl)|].
  split; [exact F|]. split; [exact Htl|]. split; [exact Hib|]. split; [exact Hbs|].
  split; [exact Ham|]. split; [|exact Hcat].
  intros i Hi. rewrite Ham, Hmf. apply lookup_replicate_2.
  rewrite Hmf, length_replicate in Hi. exact Hi.
Qed.

(** X22: for a quantised matrix given by its rows (a row has a feature
    once at most, the counts of the features are exact, the bin of an
    entry is one of the [max_num_bins] bins from the cut of its feature,
    and there are fewer than 2^32 cut pointers, so that [nfeature + 1]
    does not wrap) that [gmat] does not call dense, whatever the threshold
    and the matrix [Init] is called on: [Init] returns normally, and for
    every feature and every row, [GetColumn] and then [GetBinIdx] from the
    state of [GetInitialState] return the bin the row has for the feature,
    and [kMissingId] when it has none, whether [Init] made the column
    dense or sparse. *)
Theorem Init_stores_every_bin rows page gmat sparse_threshold m :
  quantised rows page gmat ->
  GHistIndexMatrix.IsDense gmat = false ->
  exists m',
    Init page gmat sparse_threshold m = Ok m' /\
    forall (fid rid : nat) row,
      (fid < length (GHistIndexMatrix.cut_Ptrs gmat) - 1)%nat ->
      rows !! rid = Some row ->
      bin_at m' fid rid =
      Ok (match bin_in row (Z.of_nat fid) with
          | Some bin => bst_bin_t_of bin
          | None => kMissingId
          end).
Proof.
  intros Q Hdense.
  destruct (Init_filled rows page gmat sparse_threshold m Q Hdense)
    as (m1 & s & HInit & [H1 H2 H3 H4 H5 H6 H7 H8 H9 H10 H11 H12 H13 H14] & F & Htl & Hib & Hbs
        & Ham & Hmf & Hcat).
  set (n := (length (GHistIndexMatrix.cut_Ptrs gmat) - 1)%nat) in *.
  set (nrow := Z.of_nat (length rows)) in *.
  set (w := Z.to_nat (width (SetTypeSize (GHistIndexMatrix.max_num_bins gmat)))) in *.
  set (full := Z.of_nat (length (concat rows)) =? Z.of_nat n * nrow) in *.
  pose proof (quantised_NoDup rows page gmat Q) as Hnd.
  assert (Hww : Z.of_nat w = width (SetTypeSize (GHistIndexMatrix.max_num_bins gmat)))
    by apply width_to_nat.
  exists s.1. split; [exact HInit|].
  (* what the columns give back *)
  intros fid rid row Hfid Hrow.
  pose proof (lookup_lt_Some _ _ _ Hrow) as Hrid.
  assert (Hw' : Z.of_nat w = width (ColumnMatrix.bins_type_size_ m1))
    by (rewrite Hbs; exact Hww).
  destruct (lookup_lt_is_Some_2 (ColumnMatrix.type_ m1) fid) as [type Hty]; [lia|].
  destruct (lookup_lt_is_Some_2 (ColumnMatrix.index_base_ m1) fid) as [base Hb]; [lia|].
  assert (Hstored : forall bin,
            bin_in row (Z.of_nat fid) = Some bin ->
            elem_of (Z.of_nat rid, Z.of_nat fid, bin) (entries rows) /\
            uint32_t_wrap (bst_bin_t_of base + local_bin w base bin) = bin).
  { intros bin Hbin. apply bin_in_Some in Hbin.
    assert (Hin : elem_of (Z.of_nat rid, Z.of_nat fid, bin) (entries rows)).
    { unfold entries. apply elem_of_entries_from. exists rid, row.
      split; [exact Hrow|split; [lia|exact Hbin]]. }
    split; [exact Hin|].
    destruct (quantised_entry_range rows page gmat _ _ _ Q Hin)
      as (row' & base' & _ & _ & _ & _ & Hb' & Hb0 & Hbr & H32).
    rewrite Nat2Z.id, <- Hib, Hb in Hb'. injection Hb' as <-.
    pose proof (SetTypeSize_holds _ (q_max_num_bins _ _ _ Q)) as Hholds.
    apply global_bin; try lia. rewrite Hww. lia. }
  destruct type.
  - (* a dense column *)
    destruct (bin_in row (Z.of_nat fid)) as [bin|] eqn:Hbin.
    + destruct (Hstored bin eq_refl) as [Hin Hglobal].
      rewrite (bin_at_dense_stored w nrow m1 (entries rows) H1 H2 H3 H4 H5 H6 H7 H8 H9 H10
                 H11 H12 H13 H14 s fid rid bin base F Hw' Hty Hb Hin).
      rewrite Hglobal. reflexivity.
    + destruct full eqn:Hfull.
      * exfalso. apply Z.eqb_eq in Hfull.
        destruct (quantised_full_row rows page gmat row fid Q Hfull
                    (list_elem_of_lookup_2 _ _ _ Hrow) Hfid) as [bin Hsome].
        congruence.
      * apply (bin_at_dense_missing w nrow m1 (entries rows) H1 H2 H3 H4 H5 H6 H7 H8 H9
                 H10 H11 H12 H13 H14 s fid rid F Hw' Hty Ham).
        -- intros i Hi. rewrite (Hmf i Hi), Ham. reflexivity.
        -- subst nrow. lia.
        -- intros bin Hin. apply elem_of_entries_from in Hin as (k & row' & Hk & Hr & He).
           assert (k = rid) by lia. subst k. rewrite Hrow in Hk. injection Hk as <-.
           exact (bin_in_None row _ bin Hbin He).
  - (* a sparse column *)
    rewrite (bin_at_sparse w nrow m1 (entries rows) H1 H2 H3 H4 H5 H6 H7 H8 H9 H10
               H11 H12 H13 H14 s fid rid base F Hw' Hty Hb (Hcat fid Hfid)
               (entries_of_ascending _ rows 0 Hnd)).
    unfold entries. rewrite (lookup_row_entries (local_bin w base)) by (assumption || lia).
    rewrite Z.sub_0_r, Nat2Z.id, Hrow.
    destruct (bin_in row (Z.of_nat fid)) as [bin|] eqn:Hbin; cbn [option_map];
      [|reflexivity].
    destruct (Hstored bin eq_refl) as [_ Hglobal]. rewrite Hglobal. reflexivity.
Qed.

Lemma Init_stores_every_bin_witness :
  exists m',
    Init three_rows_page three_rows_gmat threshold_four_fifths new_matrix = Ok m' /\
    forall (fid rid : nat) row,
      (fid < length (GHistIndexMatrix.cut_Ptrs three_rows_gmat) - 1)%nat ->
      three_rows !! rid = Some row ->
      bin_at m' fid rid =
      Ok (match bin_in row (Z.of_nat fid) with
          | Some bin => bst_bin_t_of bin
          | None => kMissingId
          end).
Proof.
  apply (Init_stores_every_bin three_rows three_rows_page three_rows_gmat
           threshold_four_fifths new_matrix).
  - constructor.
    + cbn. lia.
    + repeat constructor; lia.
    + reflexivity.
    + reflexivity.
    + reflexivity.
    + cbn. lia.
    + reflexivity.
    + reflexivity.
    + reflexivity.
    + cbn. lia.
    + repeat (constructor;
                [split; [apply (bool_decide_unpack _); vm_compute; exact I|]|]);
        repeat constructor;
        (eexists; split; [reflexivity|cbn; lia]).
    + cbn. lia.
  - reflexivity.
Defined.

(** X23: under the same conditions, every sparse column that [GetColumn]
    gives for the matrix of [Init] has as many rows as bins, its rows
    strictly ascending, and as many entries as the feature has in the
    matrix: [Init] establishes what the search of a sparse column relies
    on. *)
Theorem Init_sparse_columns_ascending rows page gmat sparse_threshold m :
  quantised rows page gmat ->
  GHistIndexMatrix.IsDense gmat = false ->
  exists m',
    Init page gmat sparse_threshold m = Ok m' /\
    forall (fid : nat) c,
      (fid < length (GHistIndexMatrix.cut_Ptrs gmat) - 1)%nat ->
      GetColumn (Z.to_nat (width (ColumnMatrix.bins_type_size_ m')))
                (ColumnMatrix.any_missing_ m') m' fid = Ok (Sparse c) ->
      well_formed c /\
      strictly_ascending (SparseColumn.row_ind_ c) /\
      Z.of_nat (Size (SparseColumn.column c)) =
        tally (fun e => e.1 =? Z.of_nat fid) (concat rows).
Proof.
  intros Q Hdense.
  destruct (Init_filled rows page gmat sparse_threshold m Q Hdense)
    as (m1 & s & HInit & [H1 H2 H3 H4 H5 H6 H7 H8 H9 H10 H11 H12 H13 H14] & F & Htl & Hib & Hbs
        & Ham & Hmf & Hcat).
  set (n := (length (GHistIndexMatrix.cut_Ptrs gmat) - 1)%nat) in *.
  set (nrow := Z.of_nat (length rows)) in *.
  set (w := Z.to_nat (width (SetTypeSize (GHistIndexMatrix.max_num_bins gmat)))) in *.
  pose proof (quantised_NoDup rows page gmat Q) as Hnd.
  pose proof (q_cuts _ _ _ Q) as Hcuts.
  assert (Hw' : Z.of_nat w = width (ColumnMatrix.bins_type_size_ m1))
    by (rewrite Hbs; apply width_to_nat).
  exists s.1. split; [exact HInit|].
  intros fid c Hfid.
  rewrite (fi_size _ _ _ _ _ F), (fi_any _ _ _ _ _ F), Hbs. fold w.
  destruct (lookup_lt_is_Some_2 (ColumnMatrix.type_ m1) fid) as [type Hty]; [lia|].
  destruct (lookup_lt_is_Some_2 (ColumnMatrix.index_base_ m1) fid) as [base Hb]; [lia|].
  destruct type.
  - (* a dense column is no sparse one *)
    destruct (lookup_lt_is_Some_2 (ColumnMatrix.feature_counts_ m1) fid) as [count Hc];
      [lia|].
    assert (Hsize : column_sizes nrow (ColumnMatrix.type_ m1)
                      (ColumnMatrix.feature_counts_ m1) !! fid = Some nrow)
      by (rewrite column_sizes_lookup, Hty, Hc; reflexivity).
    destruct (GetColumn_filled w nrow m1 (entries rows) H1 H2 H3 H4 H5 H6 H7 H8 H9 H10 H11
                H12 H13 H14 s fid
                kDenseColumn nrow base F Hw' Hty Hsize Hb) as (bin_index & _ & _ & ->).
    discriminate.
  - rewrite (GetColumn_sparse w nrow m1 (entries rows) H1 H2 H3 H4 H5 H6 H7 H8 H9 H10 H11
               H12 H13 H14 s fid base F Hw' Hty Hb (Hcat fid Hfid)).
    intros [= <-]. unfold well_formed, Size.
    cbn [SparseColumn.row_ind_ SparseColumn.column Column.index_].
    rewrite !length_map. split; [reflexivity|]. split.
    + apply entries_of_strictly_ascending, Hnd.
    + unfold entries. apply length_entries_of.
Qed.

Lemma Init_sparse_columns_ascending_witness :
  exists m',
    Init three_rows_page three_rows_gmat threshold_four_fifths new_matrix = Ok m' /\
    forall (fid : nat) c,
      (fid < length (GHistIndexMatrix.cut_Ptrs three_rows_gmat) - 1)%nat ->
      GetColumn (Z.to_nat (width (ColumnMatrix.bins_type_size_ m')))
                (ColumnMatrix.any_missing_ m') m' fid = Ok (Sparse c) ->
      well_formed c /\
      strictly_ascending (SparseColumn.row_ind_ c) /\
      Z.of_nat (Size (SparseColumn.column c)) =
        tally (fun e => e.1 =? Z.of_nat fid) (concat three_rows).
Proof.
  apply (Init_sparse_columns_ascending three_rows three_rows_page three_rows_gmat
           threshold_four_fifths new_matrix).
  - constructor.
    + cbn. lia.
    + repeat constructor; lia.
    + reflexivity.
    + reflexivity.
    + reflexivity.
    + cbn. lia.
    + reflexivity.
    + reflexivity.
    + reflexivity.
    + cbn. lia.
    + repeat (constructor;
                [split; [apply (bool_decide_unpack _); vm_compute; exact I|]|]);
        repeat constructor;
        (eexists; split; [reflexivity|cbn; lia]).
    + cbn. lia.
  - reflexivity.
Defined.

(** *** [Init] on a dense matrix *)

Lemma uint32_t_wrap_base base c :
  uint32_t_wrap (bst_bin_t_of base + c) = uint32_t_wrap (base + c).
Proof.
  unfold uint32_t_wrap, bst_bin_t_of. destruct (base <? 2 ^ 31); [reflexivity|].
  replace (base - 2 ^ 32 + c) with (base + c + (-1) * 2 ^ 32) by lia.
  apply Z.mod_add. lia.
Qed.

Lemma sum_of_replicate k x : sum_of (replicate k x) = Z.of_nat k * x.
Proof. unfold sum_of. induction k as [|k IH]; cbn [replicate foldr]; lia. Qed.

(** X24: for a matrix that [gmat] calls dense, with fewer than 2^32 cut
    pointers, an entry for every feature in every row, columns that the
    threshold all leaves dense and an index of the width that
    [SetTypeSize] chooses: [Init] returns
    normally, and the bin of row [rid] in the column of feature [fid] is
    the cut of the feature plus element [rid * nfeature + fid] of the
    index of [gmat], in [uint32_t]: [SetIndexAllDense] turns the rows into
    columns. *)
Theorem Init_all_dense_transposes page gmat sparse_threshold m :
  all_dense gmat sparse_threshold ->
  exists m',
    Init page gmat sparse_threshold m = Ok m' /\
    forall (fid rid : nat) base,
      GHistIndexMatrix.cut_Ptrs gmat !! fid = Some base ->
      (fid < length (GHistIndexMatrix.cut_Ptrs gmat) - 1)%nat ->
      (rid < length (GHistIndexMatrix.row_ptr gmat) - 1)%nat ->
      bin_at m' fid rid =
      Ok (bst_bin_t_of
            (uint32_t_wrap
               (base +
                cell (Z.to_nat (width (GHistIndexMatrix.index_GetBinTypeSize gmat)))
                     (GHistIndexMatrix.index_data gmat)
                     (rid * (length (GHistIndexMatrix.cut_Ptrs gmat) - 1) + fid)))).
Proof.
  intros A.
  set (n := (length (GHistIndexMatrix.cut_Ptrs gmat) - 1)%nat).
  set (rows := (length (GHistIndexMatrix.row_ptr gmat) - 1)%nat).
  set (nrow := Z.of_nat rows).
  set (w := Z.to_nat (width (GHistIndexMatrix.index_GetBinTypeSize gmat))).
  set (counts := GHistIndexMatrix.GetFeatureCounts gmat (replicate n 0)).
  pose proof (ad_cuts _ _ A) as Hcuts. pose proof (ad_rows _ _ A) as Hrows.
  pose proof (ad_fits _ _ A) as Hfits. pose proof (ad_counts _ _ A) as Hclen.
  pose proof (ad_classified _ _ A) as Hclass. pose proof (ad_index _ _ A) as Hindex.
  pose proof (ad_elements _ _ A) as Hlast. pose proof (ad_width _ _ A) as Hwidth.
  fold n in Hclen, Hclass, Hindex, Hlast. fold rows in Hclass, Hindex, Hlast.
  fold counts in Hclen, Hclass. fold w in Hindex. fold nrow in Hclass.
  assert (Hww : Z.of_nat w = width (GHistIndexMatrix.index_GetBinTypeSize gmat))
    by apply width_to_nat.
  assert (Hw4 : 1 <= Z.of_nat w <= 4)
    by (rewrite Hww; destruct (GHistIndexMatrix.index_GetBinTypeSize _); cbn [width]; lia).
  unfold Init.
  assert (Hnf : uint32_t_wrap
                  (size_t_wrap (Z.of_nat (length (GHistIndexMatrix.cut_Ptrs gmat)) - 1))
                = Z.of_nat n).
  { unfold uint32_t_wrap, size_t_wrap.
    rewrite (Z.mod_small _ (2 ^ 64)) by lia. rewrite Z.mod_small by lia. lia. }
  assert (Hnr : size_t_wrap (Z.of_nat (length (GHistIndexMatrix.row_ptr gmat)) - 1) = nrow).
  { unfold size_t_wrap. rewrite Z.mod_small; subst nrow rows; nia. }
  rewrite Hnf, Hnr, Nat2Z.id. fold counts.
  (* the check of the cuts *)
  match goal with
  | |- context [result_bind (for_loop ?k ?first ?body ?s) _] =>
      destruct (for_loop_invariant (fun _ _ => True) k first body s I) as (u & -> & _)
  end.
  { intros k [] Hk _. exists tt. split; [|exact I]. rewrite Z.add_0_l.
    assert (Hw : uint32_t_wrap (Z.of_nat k + 1) = Z.of_nat (S k))
      by (unfold uint32_t_wrap; rewrite Z.mod_small; lia).
    rewrite Hw.
    destruct (lookup_lt_is_Some_2 (GHistIndexMatrix.cut_Ptrs gmat) (S k)) as [next Hnext];
      [lia|].
    destruct (lookup_lt_is_Some_2 (GHistIndexMatrix.cut_Ptrs gmat) k) as [this Hthis];
      [lia|].
    rewrite (at_index_lookup _ _ _ Hnext), (at_index_lookup _ _ _ Hthis).
    cbn [result_bind].
    destruct (Z.leb_spec (uint32_t_wrap (next - this)) (2 ^ 32 - 1)); [reflexivity|].
    unfold uint32_t_wrap in *. pose proof (Z.mod_pos_bound (next - this) (2 ^ 32)). lia. }
  cbn [result_bind].
  (* the types of the columns: all dense *)
  match goal with
  | |- context [result_bind (for_loop ?k ?first ?body ?s) _] =>
      destruct (for_loop_invariant
                  (fun j st =>
                     length st.1 = n /\ st.2 = true /\
                     forall fid, (fid < j)%nat -> st.1 !! fid = Some kDenseColumn)
                  k first body s) as ([types all_dense] & -> & Htl & Had & Hty)
  end.
  { cbn [fst snd]. rewrite length_vector_resize, Nat2Z.id.
    split; [reflexivity|]. split; [exact (ad_dense _ _ A)|]. intros fid Hf. lia. }
  { intros k [types all_dense] Hk (Htl & Had & Hty). cbn [fst snd] in *. rewrite Z.add_0_l.
    destruct (lookup_lt_is_Some_2 counts k) as [count Hcount]; [lia|].
    rewrite (at_index_lookup _ _ _ Hcount). cbn [result_bind].
    pose proof (Forall_lookup_1 _ _ _ _ Hclass Hcount) as [_ Hcmp]. rewrite Hcmp.
    rewrite assign_insert by lia. cbn [result_bind].
    eexists. split; [reflexivity|]. cbn [fst snd]. rewrite length_insert.
    split; [exact Htl|]. split; [exact Had|].
    intros fid Hf. destruct (Nat.eq_dec fid k) as [->|Hne].
    - apply list_lookup_insert_eq. lia.
    - rewrite list_lookup_insert_ne by lia. apply Hty. lia. }
  cbn [result_bind fst snd] in *. subst all_dense.
  (* the storage *)
  assert (Hcrange : Forall (fun c => 0 <= c) counts)
    by (eapply Forall_impl; [exact Hclass|]; cbn; intros c [H _]; exact H).
  assert (H2 : 0 <= nrow) by (subst nrow; lia).
  assert (Hsizes : column_sizes nrow types counts = replicate n nrow).
  { apply list_eq. intros i. rewrite column_sizes_lookup.
    destruct (Nat.lt_ge_cases i n) as [Hi|Hi].
    - rewrite (Hty i Hi). destruct (lookup_lt_is_Some_2 counts i) as [c ->]; [lia|].
      symmetry. apply lookup_replicate_2. exact Hi.
    - rewrite (lookup_ge_None_2 types i) by lia.
      symmetry. apply lookup_replicate_None. lia. }
  assert (Hsum : sum_of (column_sizes nrow types counts) = Z.of_nat n * nrow)
    by (rewrite Hsizes; apply sum_of_replicate).
  assert (Htotal : offsets_of nrow types counts !! n =
                   Some (sum_of (column_sizes nrow types counts))).
  { rewrite offsets_of_lookup by lia. f_equal.
    rewrite take_ge by (rewrite length_column_sizes; lia).
    unfold size_t_wrap. apply Z.mod_small. subst nrow rows. nia. }
  pose proof (feature_offsets_Ok nrow types counts (ColumnMatrix.feature_offsets_ m)
                ltac:(lia) ltac:(lia)) as Hfo.
  rewrite Htl in Hfo. rewrite Hfo. cbn [result_bind].
  rewrite (at_index_lookup _ _ _ Htotal). cbn [result_bind].
  subst nrow. rewrite (at_index_lookup _ _ _ Hlast). cbn [result_bind].
  set (nrow := Z.of_nat rows) in *.
  assert (Hfull : NoMissingValues (Z.of_nat (n * rows)) nrow (Z.of_nat n) = true).
  { unfold NoMissingValues, size_t_wrap. rewrite Z.mod_small by (subst nrow rows; nia).
    apply Z.eqb_eq. subst nrow. lia. }
  rewrite Hfull. cbn [negb]. fold w.
  set (m1 := ColumnMatrix.mk _ _ _ _ _ _ _ _ _).
  (* the layout of the matrix that [SetIndexAllDense] is given *)
  assert (H1 : length (ColumnMatrix.type_ m1) = length (ColumnMatrix.feature_counts_ m1))
    by (subst m1; projections; lia).
  assert (H3 : Forall (fun c => 0 <= c) (ColumnMatrix.feature_counts_ m1))
    by exact Hcrange.
  assert (H4 : sum_of (column_sizes nrow (ColumnMatrix.type_ m1)
                                    (ColumnMatrix.feature_counts_ m1)) < 2 ^ 64)
    by (subst m1; projections; rewrite Hsum; subst nrow rows; nia).
  assert (H5 : ColumnMatrix.feature_offsets_ m1 =
               offsets_of nrow (ColumnMatrix.type_ m1) (ColumnMatrix.feature_counts_ m1))
    by reflexivity.
  assert (H6 : (length (ColumnMatrix.type_ m1) <= length (ColumnMatrix.index_base_ m1))%nat)
    by (subst m1; projections; lia).
  assert (H7 : Z.of_nat (length (ColumnMatrix.index_ m1)) =
               sum_of (column_sizes nrow (ColumnMatrix.type_ m1)
                                    (ColumnMatrix.feature_counts_ m1)) * Z.of_nat w).
  { subst m1. projections. rewrite <- Hwidth, <- Hww. rewrite length_resize.
    - unfold size_t_wrap. rewrite Z.mod_small; [lia|]. rewrite Hsum. subst nrow rows. nia.
    - unfold size_t_wrap. apply Z.mod_pos_bound. lia. }
  assert (H8 : sum_of (column_sizes nrow (ColumnMatrix.type_ m1)
                                    (ColumnMatrix.feature_counts_ m1)) * Z.of_nat w < 2 ^ 64)
    by (subst m1; projections; rewrite Hsum; subst nrow rows; nia).
  assert (H10 : Z.of_nat (length (ColumnMatrix.missing_flags_ m1)) =
                sum_of (column_sizes nrow (ColumnMatrix.type_ m1)
                                     (ColumnMatrix.feature_counts_ m1)))
    by (subst m1; projections; rewrite length_replicate, Hsum; subst nrow; nia).
  assert (H13 : forall fid count,
            0 <= fid ->
            ColumnMatrix.type_ m1 !! Z.to_nat fid = Some kSparseColumn ->
            ColumnMatrix.feature_counts_ m1 !! Z.to_nat fid = Some count ->
            Z.of_nat (length (entries_of fid [])) <= count).
  { intros fid count Hf Hsparse _. exfalso. pose proof (lookup_lt_Some _ _ _ Hsparse) as Hlt.
    subst m1. revert Hsparse Hlt. projections. intros Hsparse Hlt.
    rewrite Hty in Hsparse by lia. discriminate. }
  assert (H9 : (exists fid, ColumnMatrix.type_ m1 !! fid = Some kSparseColumn) ->
               Z.of_nat (length (ColumnMatrix.row_ind_ m1)) =
               sum_of (column_sizes nrow (ColumnMatrix.type_ m1)
                                    (ColumnMatrix.feature_counts_ m1))).
  { intros [fid Hsparse]. exfalso. pose proof (lookup_lt_Some _ _ _ Hsparse) as Hlt.
    subst m1. revert Hsparse Hlt. projections. intros Hsparse Hlt.
    rewrite Hty in Hsparse by lia. discriminate. }
  assert (H14 : Z.of_nat (length (ColumnMatrix.type_ m1)) < 2 ^ 32 - 1)
    by (subst m1; projections; lia).
  assert (Hdense : forall fid, (fid < n)%nat ->
            ColumnMatrix.type_ m1 !! fid = Some kDenseColumn)
    by (intros fid Hf; subst m1; projections; apply Hty, Hf).
  (* the assignments of [SetIndexAllDense] *)
  destruct (SetIndexAllDense_transposes w nrow m1 [] H1 H2 H3 H4 H5 H6 H7 H8 H9 H10
              (NoDup_nil_2) (Forall_nil_2 _) H13 H14 page (GHistIndexMatrix.index_data gmat)
              gmat n Htl Hdense) as (m' & Hm' & L & Hcells).
  { subst nrow. nia. }
  { subst nrow rows. nia. }
  rewrite Hm'. exists m'. split; [reflexivity|].
  (* what the columns give back *)
  intros fid rid base Hb Hfid Hrid.
  rewrite (bin_at_dense_cell w nrow m1 [] H1 H2 H3 H4 H5 H6 H7 H8 H9 H10
             (NoDup_nil_2) (Forall_nil_2 _) H13 H14 m' fid rid base L).
  - rewrite uint32_t_wrap_base, Hcells by (assumption || (subst nrow; lia)). reflexivity.
  - subst m1. projections. rewrite <- Hwidth. exact Hww.
  - apply Hdense, Hfid.
  - exact Hb.
  - reflexivity.
  - subst nrow. lia.
Qed.

Lemma Init_all_dense_transposes_witness :
  exists m',
    Init no_page two_dense_rows_gmat threshold_four_fifths new_matrix = Ok m' /\
    forall (fid rid : nat) base,
      GHistIndexMatrix.cut_Ptrs two_dense_rows_gmat !! fid = Some base ->
      (fid < length (GHistIndexMatrix.cut_Ptrs two_dense_rows_gmat) - 1)%nat ->
      (rid < length (GHistIndexMatrix.row_ptr two_dense_rows_gmat) - 1)%nat ->
      bin_at m' fid rid =
      Ok (bst_bin_t_of
            (uint32_t_wrap
               (base +
                cell (Z.to_nat
                        (width (GHistIndexMatrix.index_GetBinTypeSize two_dense_rows_gmat)))
                     (GHistIndexMatrix.index_data two_dense_rows_gmat)
                     (rid * (length (GHistIndexMatrix.cut_Ptrs two_dense_rows_gmat) - 1)
                      + fid)))).
Proof.
  apply (Init_all_dense_transposes no_page two_dense_rows_gmat threshold_four_fifths
           new_matrix).
  constructor.
  - reflexivity.
  - cbn. lia.
  - cbn. lia.
  - reflexivity.
  - reflexivity.
  - repeat (constructor; [split; [lia|reflexivity]|]). constructor.
  - reflexivity.
  - cbn. lia.
  - cbn. lia.
Defined.
